(** * A shallow embedding of the visual-novel engine

    The development follows the three source files:
    - [engine.py]: the dataclasses and [VisualNovelBuilder];
    - [app.py]: [render_scene], [is_scene_accessible], [change_scene],
      [handle_choice], [handle_input];
    - [story.py] only drives the builder and is not embedded.

    Python values are modelled as follows.
    - [int] is [Z]; [bool] is [bool]; [float] is the binary64 [float].
    - [str] is [string]; one [ascii] stands for one character (the code
      points U+0000 to U+00FF).
    - [Optional[T]] is [option T].
    - A [dict] is an association list in insertion order (Python dicts
      iterate in insertion order and [render_scene] depends on it).
    - A [set] of strings is a [gset string].
    - Objects that Python code can mutate through a shared reference
      (dataclass instances, lists, dicts) live in an explicit heap when
      the builder is modelled; the navigator only reads scenes and works
      on their values. *)

From Stdlib Require Import ZArith Lia Ascii String Floats.
From stdpp Require Import base option list strings gmap.

Local Open Scope Z_scope.

(* ===================================================================== *)
(** * Python preliminaries *)
(* ===================================================================== *)

Module Py.

(** Exceptions are identified by their class name. *)
Definition exception := string.
Definition IndexError : exception := "IndexError"%string.

(** [l[i]] for a Python list: negative indices count from the end, and an
    index outside [-len, len) raises [IndexError] ([None] here). *)
Definition index {A} (l : list A) (i : Z) : option A :=
  let n := Z.of_nat (length l) in
  if (0 <=? i) && (i <? n) then l !! Z.to_nat i
  else if (- n <=? i) && (i <? 0) then l !! Z.to_nat (n + i)
  else None.

(** ** Dictionaries with string keys, in insertion order *)

Abbreviation dict V := (list (string * V)) (only parsing).

Fixpoint get {V} (d : dict V) (k : string) : option V :=
  match d with
  | [] => None
  | (k', v) :: d' => if String.eqb k' k then Some v else get d' k
  end.

(** [d[k] = v]: an existing key keeps its position, a new key goes last. *)
Fixpoint set {V} (d : dict V) (k : string) (v : V) : dict V :=
  match d with
  | [] => [(k, v)]
  | (k', v') :: d' =>
      if String.eqb k' k then (k', v) :: d' else (k', v') :: set d' k v
  end.

Definition keys {V} (d : dict V) : list string := d.*1.
Definition values {V} (d : dict V) : list V := d.*2.

(** ** Strings *)

(** [str.isspace] on one character, for the code points below 256. *)
Definition isspace (c : ascii) : bool :=
  let n := N.to_nat (Ascii.N_of_ascii c) in
  (((9 <=? n) && (n <=? 13)) || ((28 <=? n) && (n <=? 32))
   || (n =? 133) || (n =? 160))%nat.

Fixpoint lstrip (s : string) : string :=
  match s with
  | EmptyString => EmptyString
  | String c s' => if isspace c then lstrip s' else s
  end.

Fixpoint rstrip (s : string) : string :=
  match s with
  | EmptyString => EmptyString
  | String c s' =>
      let r := rstrip s' in
      if isspace c && String.eqb r "" then EmptyString else String c r
  end.

(** [s.strip()] *)
Definition strip (s : string) : string := rstrip (lstrip s).

(** [s.replace(old, new)] scans left to right and replaces each
    non-overlapping occurrence. [skip] counts the characters of the
    occurrence just replaced that are still to be passed over. *)
Fixpoint replace_from (old new : string) (skip : nat) (s : string) : string :=
  match s with
  | EmptyString => EmptyString
  | String c s' =>
      match skip with
      | S k => replace_from old new k s'
      | O =>
          if String.prefix old s
          then new +:+ replace_from old new (String.length old - 1) s'
          else String c (replace_from old new 0 s')
      end
  end.

(** With an empty [old], Python inserts [new] before every character and
    at the end. *)
Fixpoint replace_empty (new s : string) : string :=
  match s with
  | EmptyString => new
  | String c s' => new +:+ String c (replace_empty new s')
  end.

Definition replace (s old new : string) : string :=
  if String.eqb old "" then replace_empty new s
  else replace_from old new 0 s.

(** ** Results of calls that may raise *)

Definition OverflowError : exception := "OverflowError"%string.
Definition ValueError : exception := "ValueError"%string.
Definition ZeroDivisionError : exception := "ZeroDivisionError"%string.
Definition TypeError : exception := "TypeError"%string.

Inductive result (A : Type) :=
  | Value (a : A)
  | Raises (e : exception).
Arguments Value {A} a.
Arguments Raises {A} e.

Global Instance result_ret : MRet result := λ A a, Value a.
Global Instance result_bind : MBind result :=
  λ A B f r, match r with
             | Value a => f a
             | Raises e => Raises e
             end.
Global Instance result_fmap : FMap result :=
  λ A B f r, match r with
             | Value a => Value (f a)
             | Raises e => Raises e
             end.

(** ** Numbers

    An argument annotated [float] may hold an [int]: [min], [max] and the
    comparisons keep the object they are given, and the arithmetic
    converts an [int] operand when the other one is a [float]. *)
Inductive number :=
  | Int (z : Z)
  | Float (f : float).

(** [z < f] and [f < z] compare the exact values; every comparison with a
    NaN is false. A finite float is [m * 2 ^ e], with its sign. *)
Definition int_lt_float (z : Z) (f : float) : bool :=
  match Prim2SF f with
  | S754_zero _ => z <? 0
  | S754_infinity s => negb s
  | S754_nan => false
  | S754_finite s m e =>
      let v := if s then Z.neg m else Z.pos m in
      if 0 <=? e then z <? v * 2 ^ e else z * 2 ^ (- e) <? v
  end.

Definition float_lt_int (f : float) (z : Z) : bool :=
  match Prim2SF f with
  | S754_zero _ => 0 <? z
  | S754_infinity s => s
  | S754_nan => false
  | S754_finite s m e =>
      let v := if s then Z.neg m else Z.pos m in
      if 0 <=? e then v * 2 ^ e <? z else v <? z * 2 ^ (- e)
  end.

(** [a < b] *)
Definition lt (a b : number) : bool :=
  match a, b with
  | Int x, Int y => x <? y
  | Int x, Float y => int_lt_float x y
  | Float x, Int y => float_lt_int x y
  | Float x, Float y => PrimFloat.ltb x y
  end.

(** [min(a, b)] and [max(a, b)] keep the first argument unless the second
    one is smaller, respectively greater. *)
Definition min (a b : number) : number := if lt b a then b else a.
Definition max (a b : number) : number := if lt a b then b else a.

(** The conversion of an [int] operand: the nearest float, ties to even;
    an [int] beyond the range of the floats raises [OverflowError]. *)
Definition float_of_int (z : Z) : result float :=
  let f := SF2Prim (binary_normalize prec emax z 0 false) in
  if PrimFloat.is_infinity f then Raises OverflowError else Value f.

Definition to_float (a : number) : result float :=
  match a with
  | Int z => float_of_int z
  | Float f => Value f
  end.

(** [a / b] where one operand at least is a float. *)
Definition truediv (a b : number) : result float :=
  x ← to_float a;
  y ← to_float b;
  if PrimFloat.eqb y 0 then Raises ZeroDivisionError
  else Value (PrimFloat.div x y).

(** [a * b] where one operand at least is a float. *)
Definition mul (a b : number) : result float :=
  x ← to_float a;
  y ← to_float b;
  Value (PrimFloat.mul x y).

(** [int(f)] truncates towards zero. *)
Definition int_of_float (f : float) : result Z :=
  match Prim2SF f with
  | S754_zero _ => Value 0
  | S754_infinity _ => Raises OverflowError
  | S754_nan => Raises ValueError
  | S754_finite s m e =>
      let v := if 0 <=? e then Z.pos m * 2 ^ e else Z.pos m / 2 ^ (- e) in
      Value (if s then - v else v)
  end.

End Py.

(* ===================================================================== *)
(** * engine.py: the dataclasses *)
(* ===================================================================== *)

(** Each dataclass is a record in a module of its name, so that fields
    keep their source names ([CharacterSprite.position] and
    [MotorCommand.position] are different fields). *)

Module CharacterDefinition.
Record t := make {
  name : string;
  image_url : string;
  animated : bool;
}.
End CharacterDefinition.

Module CharacterSprite.
Record t := make {
  name : string;
  image_url : string;
  position : string;
  visible : bool;
  animation : string;
  scale : float;
}.
End CharacterSprite.

Module Choice.
Record t := make {
  text : string;
  next_scene_index : Z;
}.
End Choice.

Module InputRequest.
Record t := make {
  prompt : string;
  variable_name : string;
}.
End InputRequest.

Module MotorCommand.
Record t := make {
  motor_id : Z;
  position : Z;
}.
End MotorCommand.

Module RobotPose.
Record t := make {
  head_x : float;
  head_y : float;
  head_z : float;
  head_roll : float;
  head_pitch : float;
  head_yaw : float;
  body_yaw : float;
  antenna_left : float;
  antenna_right : float;
}.
End RobotPose.

(** [SceneState] as a value: the containers it refers to are given by
    their contents. The field [note] is left out: it is an annotation for
    the author that the builder writes and no function ever reads. *)
Module SceneState.
Record t := make {
  background_url : string;
  background_label : string;
  characters : Py.dict CharacterSprite.t;
  speaker : string;
  text : string;
  show_camera : bool;
  show_voice : bool;
  show_motors : bool;
  show_robot : bool;
  background_blur : Z;
  stage_url : string;
  stage_blur : Z;
  choices : option (list Choice.t);
  input_request : option InputRequest.t;
  path : option string;
  motor_commands : list MotorCommand.t;
  audio_file : option string;
  robot_pose : option RobotPose.t;
}.
End SceneState.

Definition DEFAULT_BACKGROUND : string :=
  "https://images.unsplash.com/photo-1506744038136-46273834b3fb?auto=format&fit=crop&w=1200&q=80".

(** [POSITION_OFFSETS.get(position, "50%")] *)
Definition POSITION_OFFSETS : Py.dict string :=
  [("left", "20%"); ("center", "50%"); ("right", "80%")]%string.

(* ===================================================================== *)
(** * app.py: rendering and navigation *)
(* ===================================================================== *)

Module App.

(** ** What [render_scene] computes

    [render_scene] pastes its results into a fixed HTML template. The
    model keeps the pieces that go into the template, in the order they
    are pasted, instead of the HTML text. *)

(** One [<div class=...>] per visible character. *)
Record CharLayer := {
  class_names : string;
  offset : string;
  layer_image_url : string;
  char_scale : float;
  title : string;
}.

(** The speech bubble: the speaker line, if any, and the text. *)
Record Bubble := {
  speaker_html : option string;
  bubble_text : string;
}.

(** [blur] is [Some b] when a [filter: blur(b px)] style is emitted. *)
Record StageHtml := {
  stage_background : string * option Z;
  stage_layer : option (string * option Z);
  char_layers : list CharLayer;
  bubble : option Bubble;
}.

(** [metadata]: the label (or ["Scene"]), [index + 1] and [total]. *)
Record Metadata := {
  meta_label : string;
  meta_position : Z;
  meta_total : Z;
}.

(** The 9-tuple returned by [render_scene]. *)
Record Rendered := {
  r_stage_html : StageHtml;
  r_dialogue_markdown : string;
  r_metadata : Metadata;
  r_show_camera : bool;
  r_show_voice : bool;
  r_show_motors : bool;
  r_show_robot : bool;
  r_choices : option (list Choice.t);
  r_input_request : option InputRequest.t;
}.

Definition blur_style (blur : Z) : option Z :=
  if 0 <? blur then Some blur else None.

Definition char_layer (sprite : CharacterSprite.t) : CharLayer :=
  {| class_names :=
       (if String.eqb (CharacterSprite.animation sprite) "" then "character"
        else "character" +:+ " anim-" +:+ CharacterSprite.animation sprite)%string;
     offset := default "50%"%string
                 (Py.get POSITION_OFFSETS (CharacterSprite.position sprite));
     layer_image_url := CharacterSprite.image_url sprite;
     char_scale := CharacterSprite.scale sprite;
     title := CharacterSprite.name sprite |}.

(** The loop [for var_name, var_value in variables.items():
    text_content = text_content.replace("{" + var_name + "}", var_value)]. *)
Fixpoint substitute (variables : Py.dict string) (text_content : string) : string :=
  match variables with
  | [] => text_content
  | (var_name, var_value) :: rest =>
      substitute rest
        (Py.replace text_content ("{" +:+ var_name +:+ "}") var_value)
  end.

(** The text shown in the bubble: [(scene.text or "").strip()] followed by
    the substitution loop. *)
Definition text_content (scene : SceneState.t) (variables : Py.dict string) : string :=
  substitute variables (Py.strip (SceneState.text scene)).

Definition render_scene (scene : SceneState.t) (index total : Z)
    (variables : Py.dict string) : Rendered :=
  let char_layers :=
    char_layer <$>
      filter (λ sprite, CharacterSprite.visible sprite = true)
             (Py.values (SceneState.characters scene)) in
  let metadata :=
    {| meta_label := if String.eqb (SceneState.background_label scene) ""
                     then "Scene"%string
                     else SceneState.background_label scene;
       meta_position := index + 1;
       meta_total := total |} in
  let text_content := text_content scene variables in
  let bubble_html :=
    if String.eqb text_content "" then None
    else Some {| speaker_html :=
                   if String.eqb (SceneState.speaker scene) "" then None
                   else Some (SceneState.speaker scene);
                 bubble_text := text_content |} in
  let stage_layer_html :=
    if String.eqb (SceneState.stage_url scene) "" then None
    else Some (SceneState.stage_url scene,
               blur_style (SceneState.stage_blur scene)) in
  {| r_stage_html :=
       {| stage_background := (SceneState.background_url scene,
                               blur_style (SceneState.background_blur scene));
          stage_layer := stage_layer_html;
          char_layers := char_layers;
          bubble := bubble_html |};
     r_dialogue_markdown := ""%string;
     r_metadata := metadata;
     r_show_camera := SceneState.show_camera scene;
     r_show_voice := SceneState.show_voice scene;
     r_show_motors := SceneState.show_motors scene;
     r_show_robot := SceneState.show_robot scene;
     r_choices := SceneState.choices scene;
     r_input_request := SceneState.input_request scene |}.

(** ** The navigation state

    [story_state] is the dict
    [{"scenes": ..., "index": ..., "variables": ..., "active_paths": ...}]
    built by [load_initial_state]. *)
Record StoryState := {
  scenes : list SceneState.t;
  index : Z;
  variables : Py.dict string;
  active_paths : gset string;
}.

Definition with_index (st : StoryState) (i : Z) : StoryState :=
  {| scenes := scenes st; index := i;
     variables := variables st; active_paths := active_paths st |}.

Definition with_variables (st : StoryState) (v : Py.dict string) : StoryState :=
  {| scenes := scenes st; index := index st;
     variables := v; active_paths := active_paths st |}.

Definition with_active_paths (st : StoryState) (a : gset string) : StoryState :=
  {| scenes := scenes st; index := index st;
     variables := variables st; active_paths := a |}.

Definition initial_state (scenes : list SceneState.t) : StoryState :=
  {| scenes := scenes; index := 0; variables := []; active_paths := ∅ |}.

(** ** What the handlers hand to the user interface

    Every handler returns the same 19-tuple: the state followed by values
    for the widgets. The hint texts and panel visibilities are functions
    of the four [show_*] flags, which the record keeps. [o_html] and
    [o_meta] are [None] when the handler returns the empty string. *)
Record Outputs := {
  o_html : option StageHtml;
  o_dialogue : string;
  o_meta : option Metadata;
  o_show_camera : bool;
  o_show_voice : bool;
  o_show_motors : bool;
  o_show_robot : bool;
  o_choices_visible : bool;
  o_choices : list (string * Z);
  o_input_prompt : string;
  o_input_visible : bool;
  o_user_input : string;
  o_prev_interactive : bool;
  o_next_interactive : bool;
  o_right_column_visible : bool;
}.

(** [bool(choices)]: [None] and the empty list are false. *)
Definition bool_choices (choices : option (list Choice.t)) : bool :=
  match choices with
  | Some (_ :: _) => true
  | _ => false
  end.

(** [[(c.text, i) for i, c in enumerate(choices)] if choices else []] *)
Definition enumerate_choices (choices : option (list Choice.t)) : list (string * Z) :=
  match choices with
  | Some cs => imap (λ i c, (Choice.text c, Z.of_nat i)) cs
  | None => []
  end.

(** The tuple built after a call to [render_scene]; the three handlers
    repeat this code. *)
Definition outputs_of (r : Rendered) : Outputs :=
  let nav_enabled :=
    negb (bool_choices (r_choices r)) && negb (bool_decide (is_Some (r_input_request r))) in
  {| o_html := Some (r_stage_html r);
     o_dialogue := r_dialogue_markdown r;
     o_meta := Some (r_metadata r);
     o_show_camera := r_show_camera r;
     o_show_voice := r_show_voice r;
     o_show_motors := r_show_motors r;
     o_show_robot := r_show_robot r;
     o_choices_visible := bool_choices (r_choices r);
     o_choices := enumerate_choices (r_choices r);
     o_input_prompt :=
       match r_input_request r with
       | Some input_req => ("### " +:+ InputRequest.prompt input_req)%string
       | None => ""%string
       end;
     o_input_visible := bool_decide (is_Some (r_input_request r));
     o_user_input := ""%string;
     o_prev_interactive := nav_enabled;
     o_next_interactive := nav_enabled;
     o_right_column_visible :=
       r_show_camera r || r_show_voice r || r_show_motors r || r_show_robot r |}.

(** The tuple of the branch [if not scenes] of [change_scene]. *)
Definition no_scenes : Outputs :=
  {| o_html := None;
     o_dialogue := "No scenes available."%string;
     o_meta := None;
     o_show_camera := false;
     o_show_voice := false;
     o_show_motors := false;
     o_show_robot := false;
     o_choices_visible := false;
     o_choices := [];
     o_input_prompt := ""%string;
     o_input_visible := false;
     o_user_input := ""%string;
     o_prev_interactive := true;
     o_next_interactive := true;
     o_right_column_visible := false |}.

(** What a call of a handler does: it returns the state and the outputs,
    or raises and leaves the state dict as it is at that moment, or is
    still running when the fuel of the model runs out. *)
Inductive outcome :=
  | Returned (st : StoryState) (out : Outputs)
  | Raised (e : Py.exception) (st : StoryState)
  | OutOfFuel.

Definition is_scene_accessible (scene : SceneState.t) (active_paths : gset string) : bool :=
  match SceneState.path scene with
  | None => true
  | Some p => bool_decide (p ∈ active_paths)
  end.

(** The [while 0 <= search_index < total] loop of [change_scene]. It
    yields the final [new_index]; each iteration uses one unit of fuel. *)
Fixpoint scan (fuel : nat) (scenes : list SceneState.t) (active_paths : gset string)
    (total direction search_index new_index : Z) : option (option Z) :=
  match fuel with
  | O => None
  | S fuel' =>
      if (0 <=? search_index) && (search_index <? total) then
        match Py.index scenes search_index with
        | None => Some None
        | Some scene =>
            if is_scene_accessible scene active_paths then Some (Some search_index)
            else scan fuel' scenes active_paths total direction
                      (search_index + direction) new_index
        end
      else Some (Some new_index)
  end.

Definition change_scene (fuel : nat) (story_state : StoryState) (direction : Z) : outcome :=
  let scenes := scenes story_state in
  let variables := variables story_state in
  let active_paths := active_paths story_state in
  match scenes with
  | [] => Returned story_state no_scenes
  | _ :: _ =>
      let total := Z.of_nat (length scenes) in
      let current_index := index story_state in
      match scan fuel scenes active_paths total direction
                 (current_index + direction) current_index with
      | None => OutOfFuel
      | Some None => Raised Py.IndexError story_state
      | Some (Some new_index) =>
          let story_state := with_index story_state new_index in
          match Py.index scenes (index story_state) with
          | None => Raised Py.IndexError story_state
          | Some scene =>
              Returned story_state
                (outputs_of (render_scene scene (index story_state) total variables))
          end
      end
  end.

(** [if target_scene.path:] is true for a path that is neither [None] nor
    the empty string. *)
Definition bool_path (path : option string) : bool :=
  match path with
  | Some p => negb (String.eqb p "")
  | None => false
  end.

Definition handle_choice (fuel : nat) (story_state : StoryState) (choice_index : Z) : outcome :=
  let scenes := scenes story_state in
  let variables := variables story_state in
  let active_paths := active_paths story_state in
  match Py.index scenes (index story_state) with
  | None => Raised Py.IndexError story_state
  | Some current_scene =>
      if bool_choices (SceneState.choices current_scene)
         && (0 <=? choice_index)
         && (choice_index <? Z.of_nat (length (default [] (SceneState.choices current_scene))))
      then
        match Py.index (default [] (SceneState.choices current_scene)) choice_index with
        | None => Raised Py.IndexError story_state
        | Some chosen =>
            let story_state := with_index story_state (Choice.next_scene_index chosen) in
            match Py.index scenes (Choice.next_scene_index chosen) with
            | None => Raised Py.IndexError story_state
            | Some target_scene =>
                let story_state :=
                  match SceneState.path target_scene with
                  | Some p =>
                      if bool_path (Some p)
                      then with_active_paths story_state (active_paths ∪ {[p]})
                      else story_state
                  | None => story_state
                  end in
                match Py.index scenes (index story_state) with
                | None => Raised Py.IndexError story_state
                | Some scene =>
                    Returned story_state
                      (outputs_of (render_scene scene (index story_state)
                                     (Z.of_nat (length scenes)) variables))
                end
            end
        end
      else change_scene fuel story_state 0
  end.

Definition handle_input (story_state : StoryState) (user_input : string) : outcome :=
  let scenes := scenes story_state in
  let variables := variables story_state in
  match Py.index scenes (index story_state) with
  | None => Raised Py.IndexError story_state
  | Some current_scene =>
      let variables :=
        match SceneState.input_request current_scene with
        | Some input_request =>
            if negb (String.eqb user_input "")
            then Py.set variables (InputRequest.variable_name input_request) user_input
            else variables
        | None => variables
        end in
      let story_state := with_variables story_state variables in
      let story_state :=
        with_index story_state
          (Z.min (index story_state + 1) (Z.of_nat (length scenes) - 1)) in
      match Py.index scenes (index story_state) with
      | None => Raised Py.IndexError story_state
      | Some scene =>
          Returned story_state
            (outputs_of (render_scene scene (index story_state)
                           (Z.of_nat (length scenes)) variables))
      end
  end.

(** ** [load_initial_state]

    The scenes are the list that [build_sample_story()] returned. The
    tuple of the branch without scenes is the one of [change_scene]. *)
Definition load_initial_state (scenes : list SceneState.t) : outcome :=
  let story_state := initial_state scenes in
  match scenes with
  | [] => Returned story_state no_scenes
  | _ :: _ =>
      match Py.index scenes 0 with
      | None => Raised Py.IndexError story_state
      | Some scene =>
          Returned story_state
            (outputs_of (render_scene scene 0 (Z.of_nat (length scenes)) []))
      end
  end.

(** ** The events of the user interface

    [build_app] binds the "previous" and "next" buttons to
    [change_scene(state, -1)] and [change_scene(state, 1)], the change of
    the choice widget to [handle_choice] and the submission of the input
    box to [handle_input]; each handler gets the state that the handler
    before it returned.

    The value of the choice widget is the number of the selected choice,
    or [None] when nothing is selected. Every handler sets the widget to
    [value=None], and the widget reports that change like any other: so
    [handle_choice] is also called with [None]. *)

(** [handle_choice(story_state, None)]. In
    [current_scene.choices and 0 <= choice_index < len(...)] the
    comparison is evaluated when [current_scene.choices] is neither
    [None] nor empty, and [0 <= None] raises [TypeError]; the state dict
    has not been assigned to by then. Otherwise the condition is false
    and the handler falls through to [change_scene(story_state, 0)]. *)
Definition handle_choice_none (fuel : nat) (story_state : StoryState) : outcome :=
  match Py.index (scenes story_state) (index story_state) with
  | None => Raised Py.IndexError story_state
  | Some current_scene =>
      if bool_choices (SceneState.choices current_scene)
      then Raised Py.TypeError story_state
      else change_scene fuel story_state 0
  end.

Inductive event :=
  | Previous
  | Next
  | Select (choice_index : Z)
  | Deselect
  | Submit (user_input : string).

Definition handle (fuel : nat) (story_state : StoryState) (ev : event) : outcome :=
  match ev with
  | Previous => change_scene fuel story_state (-1)
  | Next => change_scene fuel story_state 1
  | Select choice_index => handle_choice fuel story_state choice_index
  | Deselect => handle_choice_none fuel story_state
  | Submit user_input => handle_input story_state user_input
  end.

(** A handler that raised or did not finish ends the session there. *)
Fixpoint session (fuel : nat) (o : outcome) (events : list event) : outcome :=
  match events with
  | [] => o
  | ev :: events' =>
      match o with
      | Returned story_state _ => session fuel (handle fuel story_state ev) events'
      | _ => o
      end
  end.

(** ** What a scene sends to the robot and to the audio player *)

(** [0 <= current_index < len(scenes)] *)
Definition index_in_range (story_state : StoryState) : bool :=
  (0 <=? index story_state)
  && (index story_state <? Z.of_nat (length (scenes story_state))).

Definition get_scene_audio (story_state : StoryState) : Py.result (option string) :=
  if index_in_range story_state then
    match Py.index (scenes story_state) (index story_state) with
    | None => Py.Raises Py.IndexError
    | Some scene => Py.Value (SceneState.audio_file scene)
    end
  else Py.Value None.

(** The dict that [get_scene_robot_pose] returns, and the dict under its
    key ["target_head_pose"]. *)
Module HeadPose.
Record t := make {
  x : float;
  y : float;
  z : float;
  roll : float;
  pitch : float;
  yaw : float;
}.
End HeadPose.

Module RobotTarget.
Record t := make {
  target_head_pose : HeadPose.t;
  target_body_yaw : float;
  target_antennas : list float;
}.
End RobotTarget.

(** [if scene.robot_pose:] holds for every [RobotPose] instance. *)
Definition get_scene_robot_pose (story_state : StoryState)
    : Py.result (option RobotTarget.t) :=
  if index_in_range story_state then
    match Py.index (scenes story_state) (index story_state) with
    | None => Py.Raises Py.IndexError
    | Some scene =>
        match SceneState.robot_pose scene with
        | Some robot_pose =>
            Py.Value (Some
              {| RobotTarget.target_head_pose :=
                   {| HeadPose.x := RobotPose.head_x robot_pose;
                      HeadPose.y := RobotPose.head_y robot_pose;
                      HeadPose.z := RobotPose.head_z robot_pose;
                      HeadPose.roll := RobotPose.head_roll robot_pose;
                      HeadPose.pitch := RobotPose.head_pitch robot_pose;
                      HeadPose.yaw := RobotPose.head_yaw robot_pose |};
                 RobotTarget.target_body_yaw := RobotPose.body_yaw robot_pose;
                 RobotTarget.target_antennas :=
                   [RobotPose.antenna_left robot_pose;
                    RobotPose.antenna_right robot_pose] |})
        | None => Py.Value None
        end
    end
  else Py.Value None.

(** The first two statements of [dxl_build_goal_position_packet]:
    [clamped_deg = max(0.0, min(360.0, degrees))] and
    [ticks = int((clamped_deg / 360.0) * 4095)]. *)
Definition goal_position_ticks (degrees : Py.number) : Py.result Z :=
  let clamped_deg := Py.max (Py.Float 0) (Py.min (Py.Float 360) degrees) in
  quotient ← Py.truediv clamped_deg (Py.Float 360);
  product ← Py.mul (Py.Float quotient) (Py.Int 4095);
  Py.int_of_float product.

Section Dynamixel.

(** [list(dynamixel.goal_position_packet(motor_id, ticks))]: the module
    [dynamixel] is not part of the sources; the packet it builds, or the
    exception it raises, is a parameter. *)
Variable goal_position_packet : Z → Z → Py.result (list Z).

Definition dxl_build_goal_position_packet (motor_id : Z) (degrees : Py.number)
    : Py.result (list Z) :=
  ticks ← goal_position_ticks degrees;
  goal_position_packet motor_id ticks.

(** [cmd.position] is an [int]. *)
Definition get_scene_motor_packets (story_state : StoryState)
    : Py.result (list (list Z)) :=
  if index_in_range story_state then
    match Py.index (scenes story_state) (index story_state) with
    | None => Py.Raises Py.IndexError
    | Some scene =>
        mapM (λ cmd, dxl_build_goal_position_packet
                       (MotorCommand.motor_id cmd)
                       (Py.Int (MotorCommand.position cmd)))
             (SceneState.motor_commands scene)
    end
  else Py.Value [].

End Dynamixel.

End App.

(* ===================================================================== *)
(** * engine.py: the heap of mutable objects *)
(* ===================================================================== *)

(** The builder hands out references: [build] returns the list object it
    keeps appending to, scenes refer to dicts and lists, and
    [copy.deepcopy] exists to break such sharing. The model therefore
    keeps every mutable object in a heap and lets the objects refer to
    one another by address. An address is the position of the object in
    the heap; objects are never freed. *)

Module Heap.

Abbreviation addr := nat (only parsing).

(** A [SceneState] instance as it sits in memory: the dict, the lists and
    the nested dataclass instances are references. *)
Module SceneObject.
Record t := make {
  background_url : string;
  background_label : string;
  characters : addr;
  speaker : string;
  text : string;
  show_camera : bool;
  show_voice : bool;
  show_motors : bool;
  show_robot : bool;
  background_blur : Z;
  stage_url : string;
  stage_blur : Z;
  choices : option addr;
  input_request : option addr;
  path : option string;
  motor_commands : addr;
  audio_file : option string;
  robot_pose : option addr;
}.
End SceneObject.

Inductive object :=
  | OSprite (sprite : CharacterSprite.t)
  | OChoice (choice : Choice.t)
  | OInputRequest (input_request : InputRequest.t)
  | OMotorCommand (command : MotorCommand.t)
  | ORobotPose (pose : RobotPose.t)
  | OScene (scene : SceneObject.t)
  | OList (items : list addr)
  | ODict (items : Py.dict addr).

Abbreviation heap := (list object) (only parsing).

(** Computations that read and write the heap; [None] is a lookup of an
    address that holds no object of the expected class, which well-typed
    Python code never does. *)
Definition M (A : Type) : Type := heap → option (A * heap).

Global Instance M_ret : MRet M := λ A a h, Some (a, h).
Global Instance M_bind : MBind M :=
  λ A B f m h, match m h with
               | Some (a, h') => f a h'
               | None => None
               end.
Definition fail {A} : M A := λ _, None.

(** A new object gets the next free address. *)
Definition alloc (o : object) : M addr := λ h, Some (length h, h ++ [o]).
Definition load (a : addr) : M object :=
  λ h, match h !! a with
       | Some o => Some (o, h)
       | None => None
       end.
Definition store (a : addr) (o : object) : M unit :=
  λ h, match h !! a with
       | Some _ => Some (tt, <[a:=o]> h)
       | None => None
       end.

Definition load_sprite (a : addr) : M CharacterSprite.t :=
  o ← load a; match o with OSprite s => mret s | _ => fail end.
Definition load_scene (a : addr) : M SceneObject.t :=
  o ← load a; match o with OScene s => mret s | _ => fail end.
Definition load_list (a : addr) : M (list addr) :=
  o ← load a; match o with OList l => mret l | _ => fail end.
Definition load_dict (a : addr) : M (Py.dict addr) :=
  o ← load a; match o with ODict d => mret d | _ => fail end.

(** [l.append(x)] on the list object at [l]. *)
Definition append (l : addr) (x : addr) : M unit :=
  items ← load_list l; store l (OList (items ++ [x])).

(** ** [copy.deepcopy] of a dict of dataclass instances

    [deepcopy] copies every value once: [memo] maps the objects already
    copied to their copies. The keys are strings and are kept. Python
    creates the new dict before the copies of the values and the model
    after them; only the numbering of addresses differs. *)
Fixpoint memo_get (memo : list (addr * addr)) (a : addr) : option addr :=
  match memo with
  | [] => None
  | (a', copy) :: memo' => if decide (a' = a) then Some copy else memo_get memo' a
  end.

Fixpoint deepcopy_values (memo : list (addr * addr)) (items : Py.dict addr)
    : M (Py.dict addr) :=
  match items with
  | [] => mret []
  | (key, value) :: rest =>
      match memo_get memo value with
      | Some copy =>
          rest' ← deepcopy_values memo rest;
          mret ((key, copy) :: rest')
      | None =>
          sprite ← load_sprite value;
          copy ← alloc (OSprite sprite);
          rest' ← deepcopy_values ((value, copy) :: memo) rest;
          mret ((key, copy) :: rest')
      end
  end.

Definition deepcopy (x : addr) : M addr :=
  items ← load_dict x;
  items' ← deepcopy_values [] items;
  alloc (ODict items').

(** ** Reading values out of the heap

    The value of an object is what a reader that follows every reference
    sees. *)
Definition the_sprite (o : object) : option CharacterSprite.t :=
  match o with OSprite s => Some s | _ => None end.
Definition the_choice (o : object) : option Choice.t :=
  match o with OChoice c => Some c | _ => None end.
Definition the_input_request (o : object) : option InputRequest.t :=
  match o with OInputRequest r => Some r | _ => None end.
Definition the_motor_command (o : object) : option MotorCommand.t :=
  match o with OMotorCommand m => Some m | _ => None end.
Definition the_robot_pose (o : object) : option RobotPose.t :=
  match o with ORobotPose p => Some p | _ => None end.
Definition the_scene (o : object) : option SceneObject.t :=
  match o with OScene s => Some s | _ => None end.
Definition the_list (o : object) : option (list addr) :=
  match o with OList l => Some l | _ => None end.
Definition the_dict (o : object) : option (Py.dict addr) :=
  match o with ODict d => Some d | _ => None end.

(** The object of class [cls] at [a]. *)
Definition read {A} (cls : object → option A) (h : heap) (a : addr) : option A :=
  h !! a ≫= cls.

(** A list object whose items are of class [cls]. *)
Definition read_list {A} (cls : object → option A) (h : heap) (l : addr)
    : option (list A) :=
  read the_list h l ≫= mapM (read cls h).

(** A dict object whose values are of class [cls]. *)
Definition read_dict {A} (cls : object → option A) (h : heap) (d : addr)
    : option (Py.dict A) :=
  read the_dict h d ≫= mapM (λ kv, pair kv.1 <$> read cls h kv.2).

(** An optional reference. *)
Definition read_opt {A} (rd : addr → option A) (r : option addr)
    : option (option A) :=
  match r with
  | None => Some None
  | Some a => Some <$> rd a
  end.

(** The value of a scene: the attributes of the object that are not
    references, and the values behind its references. *)
Definition scene_value (s : SceneObject.t)
    (characters : Py.dict CharacterSprite.t) (choices : option (list Choice.t))
    (input_request : option InputRequest.t) (motor_commands : list MotorCommand.t)
    (robot_pose : option RobotPose.t) : SceneState.t :=
  {| SceneState.background_url := SceneObject.background_url s;
     SceneState.background_label := SceneObject.background_label s;
     SceneState.characters := characters;
     SceneState.speaker := SceneObject.speaker s;
     SceneState.text := SceneObject.text s;
     SceneState.show_camera := SceneObject.show_camera s;
     SceneState.show_voice := SceneObject.show_voice s;
     SceneState.show_motors := SceneObject.show_motors s;
     SceneState.show_robot := SceneObject.show_robot s;
     SceneState.background_blur := SceneObject.background_blur s;
     SceneState.stage_url := SceneObject.stage_url s;
     SceneState.stage_blur := SceneObject.stage_blur s;
     SceneState.choices := choices;
     SceneState.input_request := input_request;
     SceneState.path := SceneObject.path s;
     SceneState.motor_commands := motor_commands;
     SceneState.audio_file := SceneObject.audio_file s;
     SceneState.robot_pose := robot_pose |}.

Definition read_scene (h : heap) (a : addr) : option SceneState.t :=
  s ← read the_scene h a;
  characters ← read_dict the_sprite h (SceneObject.characters s);
  choices ← read_opt (read_list the_choice h) (SceneObject.choices s);
  input_request ← read_opt (read the_input_request h) (SceneObject.input_request s);
  motor_commands ← read_list the_motor_command h (SceneObject.motor_commands s);
  robot_pose ← read_opt (read the_robot_pose h) (SceneObject.robot_pose s);
  Some (scene_value s characters choices input_request motor_commands robot_pose).

(** The Story Graph behind a reference to a list of scenes. *)
Definition read_graph (h : heap) (l : addr) : option (list SceneState.t) :=
  read the_list h l ≫= mapM (read_scene h).

(** ** The objects a value is made of

    [cells] lists the addresses of the mutable objects that a reader of
    the value goes through: the object itself and what it refers to. *)
Definition list_cells (h : heap) (l : addr) : list addr :=
  l :: default [] (read the_list h l).

Definition dict_cells (h : heap) (d : addr) : list addr :=
  d :: (default [] (read the_dict h d)).*2.

Definition opt_cells (f : addr → list addr) (r : option addr) : list addr :=
  match r with
  | None => []
  | Some a => f a
  end.

Definition scene_cells (h : heap) (a : addr) : list addr :=
  a ::
  match read the_scene h a with
  | None => []
  | Some s =>
      dict_cells h (SceneObject.characters s)
      ++ opt_cells (list_cells h) (SceneObject.choices s)
      ++ opt_cells (λ r, [r]) (SceneObject.input_request s)
      ++ list_cells h (SceneObject.motor_commands s)
      ++ opt_cells (λ r, [r]) (SceneObject.robot_pose s)
  end.

End Heap.

(* ===================================================================== *)
(** * engine.py: [VisualNovelBuilder] *)
(* ===================================================================== *)

Module VisualNovelBuilder.
Import Heap.

(** The builder's attributes. [_states] and [_current_sprites] are
    references to a list and to a dict. The definitions registered in
    [_character_defs] are kept by value: the builder never reads them. *)
Record t := make {
  _states : addr;
  _character_defs : Py.dict CharacterDefinition.t;
  _current_background : string;
  _current_label : string;
  _current_sprites : addr;
  _current_show_camera : bool;
  _current_show_voice : bool;
  _current_show_motors : bool;
  _current_show_robot : bool;
  _current_background_blur : Z;
  _current_stage : string;
  _current_stage_blur : Z;
  _current_path : option string;
}.

(** ** Attribute assignments *)

Definition set_sprite_visible (v : bool) (s : CharacterSprite.t) : CharacterSprite.t :=
  CharacterSprite.make (CharacterSprite.name s) (CharacterSprite.image_url s)
    (CharacterSprite.position s) v (CharacterSprite.animation s) (CharacterSprite.scale s).
Definition set_sprite_position (v : string) (s : CharacterSprite.t) : CharacterSprite.t :=
  CharacterSprite.make (CharacterSprite.name s) (CharacterSprite.image_url s)
    v (CharacterSprite.visible s) (CharacterSprite.animation s) (CharacterSprite.scale s).
Definition set_sprite_image_url (v : string) (s : CharacterSprite.t) : CharacterSprite.t :=
  CharacterSprite.make (CharacterSprite.name s) v
    (CharacterSprite.position s) (CharacterSprite.visible s)
    (CharacterSprite.animation s) (CharacterSprite.scale s).
Definition set_sprite_animation (v : string) (s : CharacterSprite.t) : CharacterSprite.t :=
  CharacterSprite.make (CharacterSprite.name s) (CharacterSprite.image_url s)
    (CharacterSprite.position s) (CharacterSprite.visible s) v (CharacterSprite.scale s).
Definition set_sprite_scale (v : float) (s : CharacterSprite.t) : CharacterSprite.t :=
  CharacterSprite.make (CharacterSprite.name s) (CharacterSprite.image_url s)
    (CharacterSprite.position s) (CharacterSprite.visible s)
    (CharacterSprite.animation s) v.

(** The assignments to a scene touch one or two attributes; [scene_with]
    rebuilds the object with new values for the attributes that the
    builder ever assigns after construction. *)
Definition scene_with (s : SceneObject.t)
    (background_url background_label speaker text : string)
    (choices input_request : option addr) (audio_file : option string)
    (robot_pose : option addr) : SceneObject.t :=
  {| SceneObject.background_url := background_url;
     SceneObject.background_label := background_label;
     SceneObject.characters := SceneObject.characters s;
     SceneObject.speaker := speaker;
     SceneObject.text := text;
     SceneObject.show_camera := SceneObject.show_camera s;
     SceneObject.show_voice := SceneObject.show_voice s;
     SceneObject.show_motors := SceneObject.show_motors s;
     SceneObject.show_robot := SceneObject.show_robot s;
     SceneObject.background_blur := SceneObject.background_blur s;
     SceneObject.stage_url := SceneObject.stage_url s;
     SceneObject.stage_blur := SceneObject.stage_blur s;
     SceneObject.choices := choices;
     SceneObject.input_request := input_request;
     SceneObject.path := SceneObject.path s;
     SceneObject.motor_commands := SceneObject.motor_commands s;
     SceneObject.audio_file := audio_file;
     SceneObject.robot_pose := robot_pose |}.

Definition set_scene_background (url label : string) (s : SceneObject.t) :=
  scene_with s url label (SceneObject.speaker s) (SceneObject.text s)
    (SceneObject.choices s) (SceneObject.input_request s)
    (SceneObject.audio_file s) (SceneObject.robot_pose s).
Definition set_scene_line (speaker text : string) (s : SceneObject.t) :=
  scene_with s (SceneObject.background_url s) (SceneObject.background_label s)
    speaker text (SceneObject.choices s) (SceneObject.input_request s)
    (SceneObject.audio_file s) (SceneObject.robot_pose s).
Definition set_scene_choices (choices : option addr) (s : SceneObject.t) :=
  scene_with s (SceneObject.background_url s) (SceneObject.background_label s)
    (SceneObject.speaker s) (SceneObject.text s) choices
    (SceneObject.input_request s) (SceneObject.audio_file s) (SceneObject.robot_pose s).
Definition set_scene_input_request (r : option addr) (s : SceneObject.t) :=
  scene_with s (SceneObject.background_url s) (SceneObject.background_label s)
    (SceneObject.speaker s) (SceneObject.text s) (SceneObject.choices s) r
    (SceneObject.audio_file s) (SceneObject.robot_pose s).
Definition set_scene_audio_file (f : option string) (s : SceneObject.t) :=
  scene_with s (SceneObject.background_url s) (SceneObject.background_label s)
    (SceneObject.speaker s) (SceneObject.text s) (SceneObject.choices s)
    (SceneObject.input_request s) f (SceneObject.robot_pose s).
Definition set_scene_robot_pose (p : option addr) (s : SceneObject.t) :=
  scene_with s (SceneObject.background_url s) (SceneObject.background_label s)
    (SceneObject.speaker s) (SceneObject.text s) (SceneObject.choices s)
    (SceneObject.input_request s) (SceneObject.audio_file s) p.

(** [state.f = v] for an attribute of the scene object at [state]. *)
Definition assign_scene (state : addr) (f : SceneObject.t → SceneObject.t) : M unit :=
  s ← load_scene state; store state (OScene (f s)).

(** [name in state.characters] *)
Definition has_character (state : addr) (name : string) : M bool :=
  s ← load_scene state;
  characters ← load_dict (SceneObject.characters s);
  mret (bool_decide (is_Some (Py.get characters name))).

(** [state.characters[name].f = v] *)
Definition assign_sprite (state : addr) (name : string)
    (f : CharacterSprite.t → CharacterSprite.t) : M unit :=
  s ← load_scene state;
  characters ← load_dict (SceneObject.characters s);
  match Py.get characters name with
  | Some a => sprite ← load_sprite a; store a (OSprite (f sprite))
  | None => fail
  end.

(** ** The methods *)

Definition __init__ : M t :=
  states ← alloc (OList []);
  current_sprites ← alloc (ODict []);
  mret {| _states := states;
          _character_defs := [];
          _current_background := DEFAULT_BACKGROUND;
          _current_label := "";
          _current_sprites := current_sprites;
          _current_show_camera := false;
          _current_show_voice := false;
          _current_show_motors := false;
          _current_show_robot := false;
          _current_background_blur := 0;
          _current_stage := "";
          _current_stage_blur := 0;
          _current_path := None |}.

(** The attributes that are assigned one at a time. *)
Definition with_character_defs (self : t) (v : Py.dict CharacterDefinition.t) : t :=
  make (_states self) v (_current_background self) (_current_label self)
    (_current_sprites self) (_current_show_camera self) (_current_show_voice self)
    (_current_show_motors self) (_current_show_robot self)
    (_current_background_blur self) (_current_stage self)
    (_current_stage_blur self) (_current_path self).

Fixpoint set_characters (self : t) (characters : list CharacterDefinition.t) : M t :=
  match characters with
  | [] => mret self
  | char :: characters' =>
      let self :=
        with_character_defs self
          (Py.set (_character_defs self) (CharacterDefinition.name char) char) in
      sprite ← alloc (OSprite
        {| CharacterSprite.name := CharacterDefinition.name char;
           CharacterSprite.image_url := CharacterDefinition.image_url char;
           CharacterSprite.position := "center";
           CharacterSprite.visible := false;
           CharacterSprite.animation :=
             if CharacterDefinition.animated char then "idle" else "";
           CharacterSprite.scale := 1%float |});
      sprites ← load_dict (_current_sprites self);
      store (_current_sprites self)
            (ODict (Py.set sprites (CharacterDefinition.name char) sprite));;
      set_characters self characters'
  end.

Definition _clone_state (self : t) : M addr :=
  characters ← deepcopy (_current_sprites self);
  motor_commands ← alloc (OList []);
  alloc (OScene
    {| SceneObject.background_url := _current_background self;
       SceneObject.background_label := _current_label self;
       SceneObject.characters := characters;
       SceneObject.speaker := "";
       SceneObject.text := "";
       SceneObject.show_camera := _current_show_camera self;
       SceneObject.show_voice := _current_show_voice self;
       SceneObject.show_motors := _current_show_motors self;
       SceneObject.show_robot := _current_show_robot self;
       SceneObject.background_blur := _current_background_blur self;
       SceneObject.stage_url := _current_stage self;
       SceneObject.stage_blur := _current_stage_blur self;
       SceneObject.choices := None;
       SceneObject.input_request := None;
       SceneObject.path := _current_path self;
       SceneObject.motor_commands := motor_commands;
       SceneObject.audio_file := None;
       SceneObject.robot_pose := None |}).

Definition _push_state (self : t) (state : addr) : M t :=
  append (_states self) state;;
  s ← load_scene state;
  current_sprites ← deepcopy (SceneObject.characters s);
  mret (make (_states self) (_character_defs self)
          (SceneObject.background_url s) (SceneObject.background_label s)
          current_sprites
          (_current_show_camera self) (_current_show_voice self)
          (_current_show_motors self) (_current_show_robot self)
          (_current_background_blur self) (_current_stage self)
          (_current_stage_blur self) (_current_path self)).

Definition set_background (self : t) (image_url label : string) : M t :=
  state ← _clone_state self;
  assign_scene state (λ s, set_scene_background image_url (SceneObject.background_label s) s);;
  assign_scene state (λ s, set_scene_background (SceneObject.background_url s) label s);;
  _push_state self state.

Definition set_camera (self : t) (show : bool) : M t :=
  mret (make (_states self) (_character_defs self) (_current_background self)
          (_current_label self) (_current_sprites self)
          show (_current_show_voice self)
          (_current_show_motors self) (_current_show_robot self)
          (_current_background_blur self) (_current_stage self)
          (_current_stage_blur self) (_current_path self)).

Definition set_voice (self : t) (show : bool) : M t :=
  mret (make (_states self) (_character_defs self) (_current_background self)
          (_current_label self) (_current_sprites self)
          (_current_show_camera self) show
          (_current_show_motors self) (_current_show_robot self)
          (_current_background_blur self) (_current_stage self)
          (_current_stage_blur self) (_current_path self)).

Definition set_motors (self : t) (show : bool) : M t :=
  mret (make (_states self) (_character_defs self) (_current_background self)
          (_current_label self) (_current_sprites self)
          (_current_show_camera self) (_current_show_voice self)
          show (_current_show_robot self)
          (_current_background_blur self) (_current_stage self)
          (_current_stage_blur self) (_current_path self)).

Definition set_robot (self : t) (show : bool) : M t :=
  mret (make (_states self) (_character_defs self) (_current_background self)
          (_current_label self) (_current_sprites self)
          (_current_show_camera self) (_current_show_voice self)
          (_current_show_motors self) show
          (_current_background_blur self) (_current_stage self)
          (_current_stage_blur self) (_current_path self)).

Definition set_background_blur (self : t) (blur_amount : Z) : M t :=
  mret (make (_states self) (_character_defs self) (_current_background self)
          (_current_label self) (_current_sprites self)
          (_current_show_camera self) (_current_show_voice self)
          (_current_show_motors self) (_current_show_robot self)
          blur_amount (_current_stage self)
          (_current_stage_blur self) (_current_path self)).

Definition set_stage (self : t) (image_url : string) : M t :=
  mret (make (_states self) (_character_defs self) (_current_background self)
          (_current_label self) (_current_sprites self)
          (_current_show_camera self) (_current_show_voice self)
          (_current_show_motors self) (_current_show_robot self)
          (_current_background_blur self) image_url
          (_current_stage_blur self) (_current_path self)).

Definition set_stage_blur (self : t) (blur_amount : Z) : M t :=
  mret (make (_states self) (_character_defs self) (_current_background self)
          (_current_label self) (_current_sprites self)
          (_current_show_camera self) (_current_show_voice self)
          (_current_show_motors self) (_current_show_robot self)
          (_current_background_blur self) (_current_stage self)
          blur_amount (_current_path self)).

Definition set_path (self : t) (path : option string) : M t :=
  mret (make (_states self) (_character_defs self) (_current_background self)
          (_current_label self) (_current_sprites self)
          (_current_show_camera self) (_current_show_voice self)
          (_current_show_motors self) (_current_show_robot self)
          (_current_background_blur self) (_current_stage self)
          (_current_stage_blur self) path).

Definition show_character (self : t) (name position : string) : M t :=
  state ← _clone_state self;
  present ← has_character state name;
  (if present : bool then
     assign_sprite state name (set_sprite_visible true);;
     assign_sprite state name (set_sprite_position position)
   else mret ());;
  _push_state self state.

Definition hide_character (self : t) (name : string) : M t :=
  state ← _clone_state self;
  present ← has_character state name;
  (if present : bool then assign_sprite state name (set_sprite_visible false)
   else mret ());;
  _push_state self state.

Definition move_character (self : t) (name position : string) : M t :=
  state ← _clone_state self;
  present ← has_character state name;
  (if present : bool then assign_sprite state name (set_sprite_position position)
   else mret ());;
  _push_state self state.

Definition change_character_sprite (self : t) (name image_url : string) : M t :=
  state ← _clone_state self;
  present ← has_character state name;
  (if present : bool then assign_sprite state name (set_sprite_image_url image_url)
   else mret ());;
  _push_state self state.

Definition set_character_animation (self : t) (name animation : string) : M t :=
  state ← _clone_state self;
  present ← has_character state name;
  (if present : bool then assign_sprite state name (set_sprite_animation animation)
   else mret ());;
  _push_state self state.

Definition set_character_scale (self : t) (name : string) (scale : float) : M t :=
  state ← _clone_state self;
  present ← has_character state name;
  (if present : bool then assign_sprite state name (set_sprite_scale scale)
   else mret ());;
  _push_state self state.

Definition dialogue (self : t) (speaker text : string) : M t :=
  state ← _clone_state self;
  assign_scene state (λ s, set_scene_line speaker (SceneObject.text s) s);;
  assign_scene state (λ s, set_scene_line (SceneObject.speaker s) text s);;
  _push_state self state.

Definition narration (self : t) (text : string) : M t :=
  state ← _clone_state self;
  assign_scene state (λ s, set_scene_line "" (SceneObject.text s) s);;
  assign_scene state (λ s, set_scene_line (SceneObject.speaker s) text s);;
  _push_state self state.

Definition request_input (self : t) (prompt variable_name : string) : M t :=
  state ← _clone_state self;
  input_request ← alloc (OInputRequest (InputRequest.make prompt variable_name));
  assign_scene state (set_scene_input_request (Some input_request));;
  _push_state self state.

(** [state.motor_commands.append(MotorCommand(motor_id, position))] *)
Definition append_motor_command (state : addr) (motor_id position : Z) : M unit :=
  command ← alloc (OMotorCommand (MotorCommand.make motor_id position));
  s ← load_scene state;
  append (SceneObject.motor_commands s) command.

Definition send_motor_command (self : t) (motor_id position : Z) : M t :=
  state ← _clone_state self;
  append_motor_command state motor_id position;;
  _push_state self state.

Fixpoint append_motor_commands (state : addr) (commands : list (Z * Z)) : M unit :=
  match commands with
  | [] => mret ()
  | (motor_id, position) :: commands' =>
      append_motor_command state motor_id position;;
      append_motor_commands state commands'
  end.

Definition send_motor_commands (self : t) (commands : list (Z * Z)) : M t :=
  state ← _clone_state self;
  append_motor_commands state commands;;
  _push_state self state.

Definition send_robot_pose (self : t) (pose : RobotPose.t) : M t :=
  state ← _clone_state self;
  robot_pose ← alloc (ORobotPose pose);
  assign_scene state (set_scene_robot_pose (Some robot_pose));;
  _push_state self state.

Definition play_sound (self : t) (audio_file : string) : M t :=
  state ← _clone_state self;
  assign_scene state (set_scene_audio_file (Some audio_file));;
  _push_state self state.

(** [self._states[-1]] is evaluated once here; the three evaluations in
    the source yield the same object. *)
Definition add_choice (self : t) (text : string) (next_scene_index : Z) : M t :=
  states ← load_list (_states self);
  match states with
  | [] => mret self
  | _ :: _ =>
      match Py.index states (-1) with
      | None => fail
      | Some last =>
          s ← load_scene last;
          (match SceneObject.choices s with
           | None =>
               choices ← alloc (OList []);
               assign_scene last (set_scene_choices (Some choices))
           | Some _ => mret ()
           end);;
          s ← load_scene last;
          match SceneObject.choices s with
          | None => fail
          | Some choices =>
              choice ← alloc (OChoice (Choice.make text next_scene_index));
              append choices choice;;
              mret self
          end
      end
  end.

(** [build] returns the reference held in [_states]. It has no other
    statement, so it cannot raise. *)
Definition build (self : t) : M addr :=
  mret (_states self).

(** ** Command sequences *)

Inductive command :=
  | SetCharacters (characters : list CharacterDefinition.t)
  | SetBackground (image_url label : string)
  | SetCamera (show : bool)
  | SetVoice (show : bool)
  | SetMotors (show : bool)
  | SetRobot (show : bool)
  | SetBackgroundBlur (blur_amount : Z)
  | SetStage (image_url : string)
  | SetStageBlur (blur_amount : Z)
  | SetPath (path : option string)
  | ShowCharacter (name position : string)
  | HideCharacter (name : string)
  | MoveCharacter (name position : string)
  | ChangeCharacterSprite (name image_url : string)
  | SetCharacterAnimation (name animation : string)
  | SetCharacterScale (name : string) (scale : float)
  | Dialogue (speaker text : string)
  | Narration (text : string)
  | RequestInput (prompt variable_name : string)
  | SendMotorCommand (motor_id position : Z)
  | SendMotorCommands (commands : list (Z * Z))
  | SendRobotPose (pose : RobotPose.t)
  | PlaySound (audio_file : string)
  | AddChoice (text : string) (next_scene_index : Z).

(** One method call on the builder. *)
Definition call (self : t) (c : command) : M t :=
  match c with
  | SetCharacters characters => set_characters self characters
  | SetBackground image_url label => set_background self image_url label
  | SetCamera show => set_camera self show
  | SetVoice show => set_voice self show
  | SetMotors show => set_motors self show
  | SetRobot show => set_robot self show
  | SetBackgroundBlur blur_amount => set_background_blur self blur_amount
  | SetStage image_url => set_stage self image_url
  | SetStageBlur blur_amount => set_stage_blur self blur_amount
  | SetPath path => set_path self path
  | ShowCharacter name position => show_character self name position
  | HideCharacter name => hide_character self name
  | MoveCharacter name position => move_character self name position
  | ChangeCharacterSprite name image_url => change_character_sprite self name image_url
  | SetCharacterAnimation name animation => set_character_animation self name animation
  | SetCharacterScale name scale => set_character_scale self name scale
  | Dialogue speaker text => dialogue self speaker text
  | Narration text => narration self text
  | RequestInput prompt variable_name => request_input self prompt variable_name
  | SendMotorCommand motor_id position => send_motor_command self motor_id position
  | SendMotorCommands commands => send_motor_commands self commands
  | SendRobotPose pose => send_robot_pose self pose
  | PlaySound audio_file => play_sound self audio_file
  | AddChoice text next_scene_index => add_choice self text next_scene_index
  end.

Fixpoint calls (self : t) (cs : list command) : M t :=
  match cs with
  | [] => mret self
  | c :: cs' => self ← call self c; calls self cs'
  end.

(** A fresh builder in an empty heap, then the commands in order. *)
Definition run (cs : list command) : option (t * heap) :=
  (self ← __init__; calls self cs) [].

(** The commands that only assign attributes of the builder. *)
Definition template_only (c : command) : bool :=
  match c with
  | SetCamera _ | SetVoice _ | SetMotors _ | SetRobot _
  | SetBackgroundBlur _ | SetStage _ | SetStageBlur _ | SetPath _ => true
  | _ => false
  end.

(** The commands that go through [_clone_state] and [_push_state]. *)
Definition emits (c : command) : bool :=
  match c with
  | SetBackground _ _ | ShowCharacter _ _ | HideCharacter _
  | MoveCharacter _ _ | ChangeCharacterSprite _ _
  | SetCharacterAnimation _ _ | SetCharacterScale _ _
  | Dialogue _ _ | Narration _ | RequestInput _ _
  | SendMotorCommand _ _ | SendMotorCommands _ | SendRobotPose _
  | PlaySound _ => true
  | _ => false
  end.

(** The running-state template as a value. *)
Record Template := {
  current_background : string;
  current_label : string;
  current_sprites : Py.dict CharacterSprite.t;
  current_show_camera : bool;
  current_show_voice : bool;
  current_show_motors : bool;
  current_show_robot : bool;
  current_background_blur : Z;
  current_stage : string;
  current_stage_blur : Z;
  current_path : option string;
}.

Definition read_template (h : heap) (self : t) : option Template :=
  sprites ← read_dict the_sprite h (_current_sprites self);
  Some {| current_background := _current_background self;
          current_label := _current_label self;
          current_sprites := sprites;
          current_show_camera := _current_show_camera self;
          current_show_voice := _current_show_voice self;
          current_show_motors := _current_show_motors self;
          current_show_robot := _current_show_robot self;
          current_background_blur := _current_background_blur self;
          current_stage := _current_stage self;
          current_stage_blur := _current_stage_blur self;
          current_path := _current_path self |}.

Definition template_cells (h : heap) (self : t) : list addr :=
  dict_cells h (_current_sprites self).

End VisualNovelBuilder.

(* ===================================================================== *)
(** * engine.py: the addresses of the assets *)
(* ===================================================================== *)

Module Assets.

Definition HF_SPACE_REPO : string := "cduss/reachymini_vn_example".

Definition HF_BASE_URL : string :=
  ("https://huggingface.co/spaces/" +:+ HF_SPACE_REPO +:+ "/resolve/main")%string.

(** The three helpers also write the address to the log, which the model
    leaves out. *)
Definition background_asset (filename : string) : string :=
  (HF_BASE_URL +:+ "/assets/backgrounds/" +:+ filename)%string.

Definition sprite_asset (filename : string) : string :=
  (HF_BASE_URL +:+ "/assets/sprites/" +:+ filename)%string.

Definition audio_asset (filename : string) : string :=
  (HF_BASE_URL +:+ "/assets/audio/" +:+ filename)%string.

(** The double quote and the line feed, and a text between double
    quotes. *)
Definition dq : string := String (Ascii.ascii_of_nat 34) "".
Definition nl : string := String (Ascii.ascii_of_nat 10) "".
Definition quoted (s : string) : string := (dq +:+ s +:+ dq)%string.

(** The f-string of [create_sprite_data_url], line by line. *)
Definition svg (bg_color border_color : string) : string :=
  (
    "<svg xmlns=" +:+ quoted "http://www.w3.org/2000/svg" +:+ " width=" +:+
      quoted "200" +:+ " height=" +:+ quoted "400" +:+ " viewBox=" +:+
      quoted "0 0 200 400" +:+ ">" +:+ nl +:+
    "      <rect width=" +:+ quoted "200" +:+ " height=" +:+ quoted "400" +:+
      " fill=" +:+ quoted bg_color +:+ " rx=" +:+ quoted "20" +:+ "/>" +:+ nl +:+
    "      <circle cx=" +:+ quoted "100" +:+ " cy=" +:+ quoted "120" +:+
      " r=" +:+ quoted "50" +:+ " fill=" +:+ quoted border_color +:+
      " opacity=" +:+ quoted "0.6" +:+ "/>" +:+ nl +:+
    "      <rect x=" +:+ quoted "60" +:+ " y=" +:+ quoted "180" +:+ " width=" +:+
      quoted "80" +:+ " height=" +:+ quoted "140" +:+ " fill=" +:+
      quoted border_color +:+ " opacity=" +:+ quoted "0.4" +:+ " rx=" +:+
      quoted "10" +:+ "/>" +:+ nl +:+
    "    </svg>")%string.

(** The four calls of [replace] in a row: the double quote becomes [%22],
    then [#] becomes [%23], [<] becomes [%3C] and [>] becomes [%3E]. *)
Definition encoded (svg : string) : string :=
  Py.replace (Py.replace (Py.replace (Py.replace svg dq "%22") "#" "%23") "<" "%3C")
             ">" "%3E".

Definition create_sprite_data_url (bg_color border_color : string) : string :=
  ("data:image/svg+xml," +:+ encoded (svg bg_color border_color))%string.

End Assets.

(* ===================================================================== *)
(** * Vocabulary of the statements *)
(* ===================================================================== *)

Module Nav.
Import App.

(** A scene is accessible when its path is absent or active. *)
Definition accessible (scene : SceneState.t) (active : gset string) : Prop :=
  match SceneState.path scene with
  | None => True
  | Some p => p ∈ active
  end.

(** The scene at index [i] of the graph exists and is accessible. *)
Definition accessible_at (st : StoryState) (i : Z) : Prop :=
  0 ≤ i ∧ ∃ scene, scenes st !! Z.to_nat i = Some scene
                   ∧ accessible scene (active_paths st).

(** [n] is where a scan from [index st + d] in steps of [d] stops: at the
    first accessible index it meets, or at [index st] when it meets none. *)
Definition scan_stops_at (st : StoryState) (d n : Z) : Prop :=
  (∃ k, 1 ≤ k ∧ n = index st + k * d ∧ accessible_at st n
        ∧ ∀ j, 1 ≤ j < k → ¬ accessible_at st (index st + j * d))
  ∨ (n = index st ∧ ∀ k, 1 ≤ k → ¬ accessible_at st (index st + k * d)).

Definition total (st : StoryState) : Z := Z.of_nat (length (scenes st)).

(** The index is one of the graph. *)
Definition valid (st : StoryState) : Prop := 0 ≤ index st < total st.

(** Every choice of every scene points into the graph. *)
Definition targets_valid (graph : list SceneState.t) : Prop :=
  Forall (λ scene,
    Forall (λ c, 0 ≤ Choice.next_scene_index c < Z.of_nat (length graph))
           (default [] (SceneState.choices scene))) graph.

(** The choice that [choice_index] selects: the scene has a list of
    choices and the index is in its range. *)
Definition selected (scene : SceneState.t) (choice_index : Z) : option Choice.t :=
  match SceneState.choices scene with
  | Some cs => if 0 <=? choice_index then cs !! Z.to_nat choice_index else None
  | None => None
  end.

(** The active paths after a choice that leads to [target]: its path is
    added when it is neither absent nor the empty string. *)
Definition activated (target : SceneState.t) (active : gset string) : gset string :=
  match SceneState.path target with
  | Some p => if decide (p = ""%string) then active else active ∪ {[p]}
  | None => active
  end.

(** What a handler shows for the scene at the index of [st]. *)
Definition rendering (st : StoryState) (scene : SceneState.t) : Outputs :=
  outputs_of (render_scene scene (index st) (total st) (variables st)).

(** The state a call leaves behind, when it returns. *)
Definition returned_state (o : outcome) : option StoryState :=
  match o with
  | Returned st _ => Some st
  | _ => None
  end.

(** [advance(+1)] followed by [advance(-1)]. *)
Definition forth_and_back (fuel : nat) (st : StoryState) : outcome :=
  match change_scene fuel st 1 with
  | Returned st' _ => change_scene fuel st' (-1)
  | o => o
  end.

(** ** Templates

    A text whose braces only delimit placeholders is a sequence of plain
    pieces and placeholders. *)
Inductive piece :=
  | Plain (s : string)
  | Placeholder (name : string).

Definition has_char (c : ascii) (s : string) : Prop := c ∈ String.list_ascii_of_string s.

Definition brace_free (s : string) : Prop :=
  ¬ has_char "{"%char s ∧ ¬ has_char "}"%char s.

Definition well_formed (p : piece) : Prop :=
  match p with
  | Plain s => ¬ has_char "{"%char s
  | Placeholder name => brace_free name
  end.

Definition piece_text (p : piece) : string :=
  match p with
  | Plain s => s
  | Placeholder name => "{" +:+ name +:+ "}"
  end.

Fixpoint template_text (ps : list piece) : string :=
  match ps with
  | [] => ""
  | p :: ps' => piece_text p +:+ template_text ps'
  end.

(** A placeholder becomes the value of its variable, if it has one. *)
Definition fill (variables : Py.dict string) (p : piece) : string :=
  match p with
  | Plain s => s
  | Placeholder name =>
      match Py.get variables name with
      | Some value => value
      | None => piece_text p
      end
  end.

Fixpoint filled (variables : Py.dict string) (ps : list piece) : string :=
  match ps with
  | [] => ""
  | p :: ps' => fill variables p +:+ filled variables ps'
  end.

(** One round of the loop of [render_scene] seen on a template: the
    placeholders of [k] become the plain text [v]. *)
Definition replaced (k v : string) (p : piece) : piece :=
  match p with
  | Plain s => Plain s
  | Placeholder n => if decide (k = n) then Plain v else Placeholder n
  end.

(** The position of a motor in ticks: the degrees clamped to the range
    from 0 to 360, scaled to the range from 0 to 4095 and rounded down. *)
Definition ticks_of (position : Z) : Z :=
  Z.max 0 (Z.min 360 position) * 4095 / 360.

(** The test that [goal_position_ticks] returns these ticks for an [int]
    position. *)
Definition ticks_agree (position : Z) : bool :=
  match App.goal_position_ticks (Py.Int position) with
  | Py.Value ticks => ticks =? ticks_of position
  | Py.Raises _ => false
  end.






(** How a session on [graph] ends: with a valid index on the same graph;
    or with the [TypeError] of the choice handler, called with [None] on
    a scene that has choices; or in the fallback of the choice handler
    (called with [None] or with a number that selects nothing) on a
    scene that is not accessible, a call that does not finish. [st] is
    the state that the handler was given. *)
Definition session_ends_well (graph : list SceneState.t) (fuel : nat)
    (events : list event) : Prop :=
  match session fuel (load_initial_state graph) events with
  | Returned st _ => scenes st = graph ∧ valid st
  | Raised e st =>
      e = Py.TypeError
      ∧ ∃ before after out scene,
          events = before ++ Deselect :: after
          ∧ session fuel (load_initial_state graph) before = Returned st out
          ∧ graph !! Z.to_nat (index st) = Some scene
          ∧ bool_choices (SceneState.choices scene) = true
  | OutOfFuel =>
      ∃ before ev after st out scene,
        events = before ++ ev :: after
        ∧ session fuel (load_initial_state graph) before = Returned st out
        ∧ graph !! Z.to_nat (index st) = Some scene
        ∧ ¬ accessible scene (active_paths st)
        ∧ (ev = Deselect
           ∨ ∃ choice_index, ev = Select choice_index
                             ∧ selected scene choice_index = None)
  end.

End Nav.

Module Sharing.
Import Heap VisualNovelBuilder.
Local Open Scope nat_scope.

(** [h'] holds at the addresses of [A] what [h] holds there. *)
Definition same_at (A : list addr) (h h' : heap) : Prop :=
  ∀ a, a ∈ A → h' !! a = h !! a.

(** From [h] to [h'] objects were allocated, and objects at the addresses
    of [F] may have been assigned to; every other object is as it was. *)
Definition frames (F : list addr) (h h' : heap) : Prop :=
  length h ≤ length h' ∧ ∀ a, a < length h → a ∉ F → h' !! a = h !! a.

(** The addresses behind the builder: its list of scenes, the objects of
    its template and the objects of every scene. *)
Definition regions (h : heap) (self : t) (states : list addr) : list addr :=
  _states self :: template_cells h self ++ mjoin (scene_cells h <$> states).

(** The invariant of the builder: the list of scenes, the template and
    the scenes can be read, and no object belongs to two of them. *)
Definition consistent (h : heap) (self : t) : Prop :=
  ∃ states, read the_list h (_states self) = Some states
    ∧ is_Some (read_template h self)
    ∧ Forall (λ s, is_Some (read_scene h s)) states
    ∧ NoDup (regions h self states).

(** The objects that a scene object refers to. *)
Definition part_cells (h : heap) (sc : SceneObject.t) : list addr :=
  dict_cells h (SceneObject.characters sc)
  ++ opt_cells (list_cells h) (SceneObject.choices sc)
  ++ opt_cells (λ r, [r]) (SceneObject.input_request sc)
  ++ list_cells h (SceneObject.motor_commands sc)
  ++ opt_cells (λ r, [r]) (SceneObject.robot_pose sc).

Definition parts_readable (h : heap) (sc : SceneObject.t) : Prop :=
  is_Some (read_dict the_sprite h (SceneObject.characters sc))
  ∧ is_Some (read_opt (read_list the_choice h) (SceneObject.choices sc))
  ∧ is_Some (read_opt (read the_input_request h) (SceneObject.input_request sc))
  ∧ is_Some (read_list the_motor_command h (SceneObject.motor_commands sc))
  ∧ is_Some (read_opt (read the_robot_pose h) (SceneObject.robot_pose sc)).

(** The values behind the references of a scene object. *)
Definition reads (h : heap) (sc : SceneObject.t)
    (d : Py.dict CharacterSprite.t) (ch : option (list Choice.t))
    (ir : option InputRequest.t) (ms : list MotorCommand.t)
    (rp : option RobotPose.t) : Prop :=
  read_dict the_sprite h (SceneObject.characters sc) = Some d
  ∧ read_opt (read_list the_choice h) (SceneObject.choices sc) = Some ch
  ∧ read_opt (read the_input_request h) (SceneObject.input_request sc) = Some ir
  ∧ read_list the_motor_command h (SceneObject.motor_commands sc) = Some ms
  ∧ read_opt (read the_robot_pose h) (SceneObject.robot_pose sc) = Some rp.

(** Two scene objects refer to the same objects. *)
Definition same_refs (sc sc' : SceneObject.t) : Prop :=
  SceneObject.characters sc' = SceneObject.characters sc
  ∧ SceneObject.choices sc' = SceneObject.choices sc
  ∧ SceneObject.input_request sc' = SceneObject.input_request sc
  ∧ SceneObject.motor_commands sc' = SceneObject.motor_commands sc
  ∧ SceneObject.robot_pose sc' = SceneObject.robot_pose sc.

(** A scene that can be read and whose objects are distinct. *)
Definition owned (h : heap) (s : addr) : Prop :=
  is_Some (read_scene h s) ∧ NoDup (scene_cells h s).

(** A step on the scene at [s] that assigns only to objects of that scene
    and may add newly allocated objects to it. *)
Definition local_at {A} (s : addr) (m : M A) (h : heap) : Prop :=
  owned h s →
  ∃ x h', m h = Some (x, h')
    ∧ frames (scene_cells h s) h h'
    ∧ owned h' s
    ∧ ∀ a, a ∈ scene_cells h' s → a ∈ scene_cells h s ∨ length h ≤ a.

Definition local_step {A} (s : addr) (m : M A) : Prop := ∀ h, local_at s m h.

(** A scene with one more choice. *)
Definition with_choice (v : SceneState.t) (c : Choice.t) : SceneState.t :=
  {| SceneState.background_url := SceneState.background_url v;
     SceneState.background_label := SceneState.background_label v;
     SceneState.characters := SceneState.characters v;
     SceneState.speaker := SceneState.speaker v;
     SceneState.text := SceneState.text v;
     SceneState.show_camera := SceneState.show_camera v;
     SceneState.show_voice := SceneState.show_voice v;
     SceneState.show_motors := SceneState.show_motors v;
     SceneState.show_robot := SceneState.show_robot v;
     SceneState.background_blur := SceneState.background_blur v;
     SceneState.stage_url := SceneState.stage_url v;
     SceneState.stage_blur := SceneState.stage_blur v;
     SceneState.choices := Some (default [] (SceneState.choices v) ++ [c]);
     SceneState.input_request := SceneState.input_request v;
     SceneState.path := SceneState.path v;
     SceneState.motor_commands := SceneState.motor_commands v;
     SceneState.audio_file := SceneState.audio_file v;
     SceneState.robot_pose := SceneState.robot_pose v |}.

(** A graph whose last scene, if any, has one more choice. *)
Definition graph_with_choice (graph : list SceneState.t) (c : Choice.t)
    : list SceneState.t :=
  match last graph with
  | None => graph
  | Some v => removelast graph ++ [with_choice v c]
  end.

(** The commands that neither emit a scene nor add a choice. *)
Definition quiet (c : command) : bool :=
  match c with
  | SetCharacters _ => true
  | _ => template_only c
  end.

(** How one command changes the graph behind the list of scenes. *)
Definition graph_after (c : command) (graph graph' : list SceneState.t) : Prop :=
  match c with
  | AddChoice text next_scene_index =>
      graph' = graph_with_choice graph (Choice.make text next_scene_index)
  | _ => if emits c then ∃ v, graph' = graph ++ [v] else graph' = graph
  end.

(** No object is in both lists. *)
Definition apart (A B : list addr) : Prop := ∀ a, a ∈ A → a ∉ B.

(** While a command works on the scene at [s] that it cloned in the heap
    [h0]: nothing that existed in [h0] has changed, and the scene is made
    of objects allocated since. *)
Definition building (h0 : heap) (s : addr) (h1 : heap) : Prop :=
  frames [] h0 h1 ∧ owned h1 s ∧ ∀ a, a ∈ scene_cells h1 s → length h0 ≤ a.

(** What a command that emits the scene at [s] has done at its end. *)
Definition emitted (h0 : heap) (self : t) (s : addr) (self' : t) (h' : heap) : Prop :=
  consistent h' self'
  ∧ _states self' = _states self
  ∧ frames [_states self] h0 h'
  ∧ (∀ states, read the_list h0 (_states self) = Some states →
               read the_list h' (_states self) = Some (states ++ [s]))
  ∧ length h0 ≤ s.

(** The rest [k] of a command, after [_clone_state] returned [s]. *)
Definition pushes (h0 : heap) (self : t) (s : addr) (k : M t) : Prop :=
  ∀ h1, building h0 s h1 →
    ∃ self' h', k h1 = Some (self', h') ∧ emitted h0 self s self' h'.

(** Projections out of a scene object after an assignment. *)
Ltac scene_fields :=
  unfold set_scene_background, set_scene_line, set_scene_choices,
    set_scene_input_request, set_scene_audio_file, set_scene_robot_pose,
    scene_with;
  cbn [SceneObject.characters SceneObject.choices SceneObject.input_request
       SceneObject.motor_commands SceneObject.robot_pose opt_cells].

End Sharing.

(* ===================================================================== *)
(** * The builder seen through the values of its objects *)
(* ===================================================================== *)

(** What the methods of the builder do, told on the value of the
    template and on the values of the scenes instead of the heap. *)
Module Values.
Import Heap VisualNovelBuilder Sharing.

(** The value of the scene that [_clone_state] creates. *)
Definition snapshot (T : Template) : SceneState.t :=
  {| SceneState.background_url := current_background T;
     SceneState.background_label := current_label T;
     SceneState.characters := current_sprites T;
     SceneState.speaker := "";
     SceneState.text := "";
     SceneState.show_camera := current_show_camera T;
     SceneState.show_voice := current_show_voice T;
     SceneState.show_motors := current_show_motors T;
     SceneState.show_robot := current_show_robot T;
     SceneState.background_blur := current_background_blur T;
     SceneState.stage_url := current_stage T;
     SceneState.stage_blur := current_stage_blur T;
     SceneState.choices := None;
     SceneState.input_request := None;
     SceneState.path := current_path T;
     SceneState.motor_commands := [];
     SceneState.audio_file := None;
     SceneState.robot_pose := None |}.

(** A scene with new values for the attributes that the methods assign
    between [_clone_state] and [_push_state]. *)
Definition amended (v : SceneState.t) (background_url background_label : string)
    (characters : Py.dict CharacterSprite.t) (speaker text : string)
    (input_request : option InputRequest.t) (motor_commands : list MotorCommand.t)
    (audio_file : option string) (robot_pose : option RobotPose.t) : SceneState.t :=
  {| SceneState.background_url := background_url;
     SceneState.background_label := background_label;
     SceneState.characters := characters;
     SceneState.speaker := speaker;
     SceneState.text := text;
     SceneState.show_camera := SceneState.show_camera v;
     SceneState.show_voice := SceneState.show_voice v;
     SceneState.show_motors := SceneState.show_motors v;
     SceneState.show_robot := SceneState.show_robot v;
     SceneState.background_blur := SceneState.background_blur v;
     SceneState.stage_url := SceneState.stage_url v;
     SceneState.stage_blur := SceneState.stage_blur v;
     SceneState.choices := SceneState.choices v;
     SceneState.input_request := input_request;
     SceneState.path := SceneState.path v;
     SceneState.motor_commands := motor_commands;
     SceneState.audio_file := audio_file;
     SceneState.robot_pose := robot_pose |}.

Definition with_background (image_url label : string) (v : SceneState.t) :=
  amended v image_url label (SceneState.characters v) (SceneState.speaker v)
    (SceneState.text v) (SceneState.input_request v) (SceneState.motor_commands v)
    (SceneState.audio_file v) (SceneState.robot_pose v).
Definition with_line (speaker text : string) (v : SceneState.t) :=
  amended v (SceneState.background_url v) (SceneState.background_label v)
    (SceneState.characters v) speaker text (SceneState.input_request v)
    (SceneState.motor_commands v) (SceneState.audio_file v) (SceneState.robot_pose v).
Definition with_characters (characters : Py.dict CharacterSprite.t) (v : SceneState.t) :=
  amended v (SceneState.background_url v) (SceneState.background_label v)
    characters (SceneState.speaker v) (SceneState.text v) (SceneState.input_request v)
    (SceneState.motor_commands v) (SceneState.audio_file v) (SceneState.robot_pose v).
Definition with_input_request (r : option InputRequest.t) (v : SceneState.t) :=
  amended v (SceneState.background_url v) (SceneState.background_label v)
    (SceneState.characters v) (SceneState.speaker v) (SceneState.text v) r
    (SceneState.motor_commands v) (SceneState.audio_file v) (SceneState.robot_pose v).
Definition with_motor_commands (ms : list MotorCommand.t) (v : SceneState.t) :=
  amended v (SceneState.background_url v) (SceneState.background_label v)
    (SceneState.characters v) (SceneState.speaker v) (SceneState.text v)
    (SceneState.input_request v) ms (SceneState.audio_file v) (SceneState.robot_pose v).
Definition with_audio_file (f : option string) (v : SceneState.t) :=
  amended v (SceneState.background_url v) (SceneState.background_label v)
    (SceneState.characters v) (SceneState.speaker v) (SceneState.text v)
    (SceneState.input_request v) (SceneState.motor_commands v) f
    (SceneState.robot_pose v).
Definition with_robot_pose (p : option RobotPose.t) (v : SceneState.t) :=
  amended v (SceneState.background_url v) (SceneState.background_label v)
    (SceneState.characters v) (SceneState.speaker v) (SceneState.text v)
    (SceneState.input_request v) (SceneState.motor_commands v)
    (SceneState.audio_file v) p.

(** [characters[name].f = ...] under [if name in characters]: the sprite
    of [name] is changed where it is, and nothing happens without it. *)
Definition sprite_assigned (name : string) (f : CharacterSprite.t → CharacterSprite.t)
    (characters : Py.dict CharacterSprite.t) : Py.dict CharacterSprite.t :=
  match Py.get characters name with
  | Some sprite => Py.set characters name (f sprite)
  | None => characters
  end.

Definition on_sprite (name : string) (f : CharacterSprite.t → CharacterSprite.t)
    (v : SceneState.t) : SceneState.t :=
  with_characters (sprite_assigned name f (SceneState.characters v)) v.

(** What a method that emits a scene does to the scene it cloned. *)
Definition effect (c : command) (v : SceneState.t) : SceneState.t :=
  match c with
  | SetBackground image_url label => with_background image_url label v
  | ShowCharacter name position =>
      on_sprite name (set_sprite_position position)
        (on_sprite name (set_sprite_visible true) v)
  | HideCharacter name => on_sprite name (set_sprite_visible false) v
  | MoveCharacter name position => on_sprite name (set_sprite_position position) v
  | ChangeCharacterSprite name image_url =>
      on_sprite name (set_sprite_image_url image_url) v
  | SetCharacterAnimation name animation =>
      on_sprite name (set_sprite_animation animation) v
  | SetCharacterScale name scale => on_sprite name (set_sprite_scale scale) v
  | Dialogue speaker text => with_line speaker text v
  | Narration text => with_line "" text v
  | RequestInput prompt variable_name =>
      with_input_request (Some (InputRequest.make prompt variable_name)) v
  | SendMotorCommand motor_id position =>
      with_motor_commands
        (SceneState.motor_commands v ++ [MotorCommand.make motor_id position]) v
  | SendMotorCommands commands =>
      with_motor_commands
        (SceneState.motor_commands v
         ++ ((λ c, MotorCommand.make c.1 c.2) <$> commands)) v
  | SendRobotPose pose => with_robot_pose (Some pose) v
  | PlaySound audio_file => with_audio_file (Some audio_file) v
  | _ => v
  end.

(** The scene that a method emits from the template. *)
Definition emitted_scene (T : Template) (c : command) : SceneState.t :=
  effect c (snapshot T).

(** A template with new values for the attributes that [_push_state] and
    [set_characters] assign. *)
Definition template_with (T : Template) (background label : string)
    (sprites : Py.dict CharacterSprite.t) : Template :=
  {| current_background := background;
     current_label := label;
     current_sprites := sprites;
     current_show_camera := current_show_camera T;
     current_show_voice := current_show_voice T;
     current_show_motors := current_show_motors T;
     current_show_robot := current_show_robot T;
     current_background_blur := current_background_blur T;
     current_stage := current_stage T;
     current_stage_blur := current_stage_blur T;
     current_path := current_path T |}.

(** The template after [_push_state] of a scene. *)
Definition pushed (T : Template) (v : SceneState.t) : Template :=
  template_with T (SceneState.background_url v) (SceneState.background_label v)
    (SceneState.characters v).

(** The sprite that [set_characters] makes of a definition. *)
Definition new_sprite (char : CharacterDefinition.t) : CharacterSprite.t :=
  {| CharacterSprite.name := CharacterDefinition.name char;
     CharacterSprite.image_url := CharacterDefinition.image_url char;
     CharacterSprite.position := "center";
     CharacterSprite.visible := false;
     CharacterSprite.animation :=
       if CharacterDefinition.animated char then "idle" else "";
     CharacterSprite.scale := 1%float |}.

Fixpoint registered (sprites : Py.dict CharacterSprite.t)
    (characters : list CharacterDefinition.t) : Py.dict CharacterSprite.t :=
  match characters with
  | [] => sprites
  | char :: characters' =>
      registered (Py.set sprites (CharacterDefinition.name char) (new_sprite char))
                 characters'
  end.

(** The template after a method. *)
Definition template_after (c : command) (T : Template) : Template :=
  match c with
  | SetCharacters characters =>
      template_with T (current_background T) (current_label T)
        (registered (current_sprites T) characters)
  | SetCamera show =>
      {| current_background := current_background T;
         current_label := current_label T;
         current_sprites := current_sprites T;
         current_show_camera := show;
         current_show_voice := current_show_voice T;
         current_show_motors := current_show_motors T;
         current_show_robot := current_show_robot T;
         current_background_blur := current_background_blur T;
         current_stage := current_stage T;
         current_stage_blur := current_stage_blur T;
         current_path := current_path T |}
  | SetVoice show =>
      {| current_background := current_background T;
         current_label := current_label T;
         current_sprites := current_sprites T;
         current_show_camera := current_show_camera T;
         current_show_voice := show;
         current_show_motors := current_show_motors T;
         current_show_robot := current_show_robot T;
         current_background_blur := current_background_blur T;
         current_stage := current_stage T;
         current_stage_blur := current_stage_blur T;
         current_path := current_path T |}
  | SetMotors show =>
      {| current_background := current_background T;
         current_label := current_label T;
         current_sprites := current_sprites T;
         current_show_camera := current_show_camera T;
         current_show_voice := current_show_voice T;
         current_show_motors := show;
         current_show_robot := current_show_robot T;
         current_background_blur := current_background_blur T;
         current_stage := current_stage T;
         current_stage_blur := current_stage_blur T;
         current_path := current_path T |}
  | SetRobot show =>
      {| current_background := current_background T;
         current_label := current_label T;
         current_sprites := current_sprites T;
         current_show_camera := current_show_camera T;
         current_show_voice := current_show_voice T;
         current_show_motors := current_show_motors T;
         current_show_robot := show;
         current_background_blur := current_background_blur T;
         current_stage := current_stage T;
         current_stage_blur := current_stage_blur T;
         current_path := current_path T |}
  | SetBackgroundBlur blur_amount =>
      {| current_background := current_background T;
         current_label := current_label T;
         current_sprites := current_sprites T;
         current_show_camera := current_show_camera T;
         current_show_voice := current_show_voice T;
         current_show_motors := current_show_motors T;
         current_show_robot := current_show_robot T;
         current_background_blur := blur_amount;
         current_stage := current_stage T;
         current_stage_blur := current_stage_blur T;
         current_path := current_path T |}
  | SetStage image_url =>
      {| current_background := current_background T;
         current_label := current_label T;
         current_sprites := current_sprites T;
         current_show_camera := current_show_camera T;
         current_show_voice := current_show_voice T;
         current_show_motors := current_show_motors T;
         current_show_robot := current_show_robot T;
         current_background_blur := current_background_blur T;
         current_stage := image_url;
         current_stage_blur := current_stage_blur T;
         current_path := current_path T |}
  | SetStageBlur blur_amount =>
      {| current_background := current_background T;
         current_label := current_label T;
         current_sprites := current_sprites T;
         current_show_camera := current_show_camera T;
         current_show_voice := current_show_voice T;
         current_show_motors := current_show_motors T;
         current_show_robot := current_show_robot T;
         current_background_blur := current_background_blur T;
         current_stage := current_stage T;
         current_stage_blur := blur_amount;
         current_path := current_path T |}
  | SetPath path =>
      {| current_background := current_background T;
         current_label := current_label T;
         current_sprites := current_sprites T;
         current_show_camera := current_show_camera T;
         current_show_voice := current_show_voice T;
         current_show_motors := current_show_motors T;
         current_show_robot := current_show_robot T;
         current_background_blur := current_background_blur T;
         current_stage := current_stage T;
         current_stage_blur := current_stage_blur T;
         current_path := path |}
  | AddChoice _ _ => T
  | _ => pushed T (emitted_scene T c)
  end.

(** The graph after a method. *)
Definition graph_then (c : command) (T : Template) (graph : list SceneState.t)
    : list SceneState.t :=
  match c with
  | AddChoice text next_scene_index =>
      graph_with_choice graph (Choice.make text next_scene_index)
  | _ => if emits c then graph ++ [emitted_scene T c] else graph
  end.

(** The template of a new builder. *)
Definition new_template : Template :=
  {| current_background := DEFAULT_BACKGROUND;
     current_label := "";
     current_sprites := [];
     current_show_camera := false;
     current_show_voice := false;
     current_show_motors := false;
     current_show_robot := false;
     current_background_blur := 0;
     current_stage := "";
     current_stage_blur := 0;
     current_path := None |}.

(** The template and the graph after a sequence of methods on a new
    builder. *)
Definition told (cs : list command) : Template * list SceneState.t :=
  foldl (λ Tg c, (template_after c Tg.1, graph_then c Tg.1 Tg.2))
        (new_template, []) cs.

(** A step on the scene at [s] whose effect on the value of the scene is
    [f]. *)
Definition acts {A} (s : addr) (m : M A) (f : SceneState.t → SceneState.t) : Prop :=
  ∀ h v, owned h s → read_scene h s = Some v →
    ∃ x h', m h = Some (x, h') ∧ read_scene h' s = Some (f v).


(** A scene without what a method sets for that scene alone: the
    attributes that [_clone_state] does not take from the builder. *)
Definition cleared (v : SceneState.t) : SceneState.t :=
  {| SceneState.background_url := SceneState.background_url v;
     SceneState.background_label := SceneState.background_label v;
     SceneState.characters := SceneState.characters v;
     SceneState.speaker := "";
     SceneState.text := "";
     SceneState.show_camera := SceneState.show_camera v;
     SceneState.show_voice := SceneState.show_voice v;
     SceneState.show_motors := SceneState.show_motors v;
     SceneState.show_robot := SceneState.show_robot v;
     SceneState.background_blur := SceneState.background_blur v;
     SceneState.stage_url := SceneState.stage_url v;
     SceneState.stage_blur := SceneState.stage_blur v;
     SceneState.choices := None;
     SceneState.input_request := None;
     SceneState.path := SceneState.path v;
     SceneState.motor_commands := [];
     SceneState.audio_file := None;
     SceneState.robot_pose := None |}.

(** The character that a method names, for the methods that assign to
    [state.characters[name]]. *)
Definition addressed (c : command) : option string :=
  match c with
  | ShowCharacter name _ | HideCharacter name | MoveCharacter name _
  | ChangeCharacterSprite name _ | SetCharacterAnimation name _
  | SetCharacterScale name _ => Some name
  | _ => None
  end.

(** What such a method assigns to the sprite of that character. *)
Definition sprite_update (c : command) (sprite : CharacterSprite.t)
    : CharacterSprite.t :=
  match c with
  | ShowCharacter _ position =>
      set_sprite_position position (set_sprite_visible true sprite)
  | HideCharacter _ => set_sprite_visible false sprite
  | MoveCharacter _ position => set_sprite_position position sprite
  | ChangeCharacterSprite _ image_url => set_sprite_image_url image_url sprite
  | SetCharacterAnimation _ animation => set_sprite_animation animation sprite
  | SetCharacterScale _ scale => set_sprite_scale scale sprite
  | _ => sprite
  end.

(** The names of the characters that a method registers. *)
Definition names_of (c : command) : list string :=
  match c with
  | SetCharacters characters => CharacterDefinition.name <$> characters
  | _ => []
  end.

(** The names registered by the calls of [set_characters] in a sequence
    of methods. *)
Definition defined_names (cs : list command) : list string :=
  mjoin (names_of <$> cs).

(** The target that a method gives to a choice. *)
Definition target_of (c : command) : list Z :=
  match c with
  | AddChoice _ next_scene_index => [next_scene_index]
  | _ => []
  end.

(** The targets of the calls of [add_choice] in a sequence of methods. *)
Definition choice_targets (cs : list command) : list Z :=
  mjoin (target_of <$> cs).

(** Every call of [add_choice] names a scene that the sequence emits. *)
Definition targets_in_range (cs : list command) : Prop :=
  Forall (λ n, (0 ≤ n < Z.of_nat (length (List.filter emits cs)))%Z)
         (choice_targets cs).

(** [add_choice] once for every text and target of a list. *)
Definition add_choices (choices : list (string * Z)) : list command :=
  (λ choice, AddChoice choice.1 choice.2) <$> choices.


(** A scene with a list of choices. *)
Definition with_choices (v : SceneState.t) (choices : list Choice.t) : SceneState.t :=
  {| SceneState.background_url := SceneState.background_url v;
     SceneState.background_label := SceneState.background_label v;
     SceneState.characters := SceneState.characters v;
     SceneState.speaker := SceneState.speaker v;
     SceneState.text := SceneState.text v;
     SceneState.show_camera := SceneState.show_camera v;
     SceneState.show_voice := SceneState.show_voice v;
     SceneState.show_motors := SceneState.show_motors v;
     SceneState.show_robot := SceneState.show_robot v;
     SceneState.background_blur := SceneState.background_blur v;
     SceneState.stage_url := SceneState.stage_url v;
     SceneState.stage_blur := SceneState.stage_blur v;
     SceneState.choices := Some choices;
     SceneState.input_request := SceneState.input_request v;
     SceneState.path := SceneState.path v;
     SceneState.motor_commands := SceneState.motor_commands v;
     SceneState.audio_file := SceneState.audio_file v;
     SceneState.robot_pose := SceneState.robot_pose v |}.


(** The path that a method makes the path of the scenes after it. *)
Definition path_of (c : command) : list string :=
  match c with
  | SetPath (Some path) => [path]
  | _ => []
  end.

(** The paths given to the calls of [set_path] in a sequence of methods. *)
Definition story_paths (cs : list command) : list string :=
  mjoin (path_of <$> cs).


(** A method after which a character that is on the stage still is: every
    method but [hide_character] of that character and [set_characters]
    with a definition of it. *)
Definition keeps_on_stage (name : string) (c : command) : bool :=
  match c with
  | HideCharacter n => negb (String.eqb n name)
  | SetCharacters characters =>
      negb (bool_decide (name ∈ CharacterDefinition.name <$> characters))
  | _ => true
  end.

(** The character [name] has a sprite, and it is visible. *)
Definition on_stage (name : string) (characters : Py.dict CharacterSprite.t) : Prop :=
  ∃ sprite, Py.get characters name = Some sprite
            ∧ CharacterSprite.visible sprite = true.

End Values.

(* ===================================================================== *)
(** * Concrete graphs and states used in examples *)
(* ===================================================================== *)

Module Examples.
Import App.

(** A scene with default looks; only the fields that navigation reads
    vary. *)
Definition scene (text : string) (choices : option (list Choice.t))
    (input_request : option InputRequest.t) (path : option string) : SceneState.t :=
  {| SceneState.background_url := DEFAULT_BACKGROUND;
     SceneState.background_label := "";
     SceneState.characters := [];
     SceneState.speaker := "";
     SceneState.text := text;
     SceneState.show_camera := false;
     SceneState.show_voice := false;
     SceneState.show_motors := false;
     SceneState.show_robot := false;
     SceneState.background_blur := 0;
     SceneState.stage_url := "";
     SceneState.stage_blur := 0;
     SceneState.choices := choices;
     SceneState.input_request := input_request;
     SceneState.path := path;
     SceneState.motor_commands := [];
     SceneState.audio_file := None;
     SceneState.robot_pose := None |}.

(** A question with two answers, each opening a branch. *)
Definition branching : list SceneState.t :=
  [ scene "Will you help?"
      (Some [Choice.make "Yes" 1; Choice.make "No" 2]) None None;
    scene "Hi {n}" None None (Some "accept");
    scene "Bye" None None (Some "decline") ]%string.

Definition at_question : StoryState := initial_state branching.

(** Two scenes on the main path, the player on the last one. *)
Definition two_scenes : list SceneState.t :=
  [ scene "one" None None None; scene "two" None None None ]%string.

Definition at_last : StoryState :=
  {| scenes := two_scenes; index := 1; variables := []; active_paths := ∅ |}.

(** A choice whose target carries the empty string as its path. *)
Definition to_empty_path : StoryState :=
  initial_state
    [ scene "Go?" (Some [Choice.make "Go" 1]) None None;
      scene "There" None None (Some "") ]%string.

(** A graph whose first scene belongs to a branch that is not active. *)
Definition gated_start : StoryState :=
  initial_state [ scene "Hidden" None None (Some "secret") ]%string.

(** A request for the player's name, then a greeting. *)
Definition asking : StoryState :=
  initial_state
    [ scene "Who are you?" None (Some (InputRequest.make "Name?" "n")) None;
      scene "Hi {n}" None None None ]%string.

Definition empty_graph : StoryState := initial_state [].

(** A value that is itself a placeholder. *)
Definition nested_variables : Py.dict string :=
  [ ("a", "{b}"); ("b", "X") ]%string.

(** A choice that points to the scene before the first one. *)
Definition wrapping : StoryState :=
  initial_state
    [ scene "Back?" (Some [Choice.make "Back" (-1)]) None None;
      scene "End" None None None ]%string.

(** A visit of the branching graph: an answer, the widget of the choices
    cleared after it, two steps, an input. *)
Definition visit : list event :=
  [Select 0; Deselect; Next; Previous; Submit "x"]%string.

(** Three scenes, the one in the middle on a path that is not active. *)
Definition skipping : StoryState :=
  initial_state
    [ scene "one" None None None;
      scene "hidden" None None (Some "secret");
      scene "three" None None None ]%string.

(** Two scenes on the main path, the player on the first one. *)
Definition at_first : StoryState := initial_state two_scenes.

(** A question whose answer leads to another question. *)
Definition chained : list SceneState.t :=
  [ scene "Left or right?" (Some [Choice.make "Left" 1]) None None;
    scene "Up or down?" (Some [Choice.make "Up" 0]) None None ]%string.

(** A line with white space around it and no placeholder. *)
Definition padded_line : SceneState.t :=
  scene "  Hello.  " None None None.

End Examples.

Module BuilderExamples.
Import Heap VisualNovelBuilder.

(** The builder and the heap right after [VisualNovelBuilder()]. *)
Definition new_builder : t :=
  {| _states := 0%nat;
     _character_defs := [];
     _current_background := DEFAULT_BACKGROUND;
     _current_label := "";
     _current_sprites := 1%nat;
     _current_show_camera := false;
     _current_show_voice := false;
     _current_show_motors := false;
     _current_show_robot := false;
     _current_background_blur := 0;
     _current_stage := "";
     _current_stage_blur := 0;
     _current_path := None |}.

Definition new_heap : heap := [OList []; ODict []].


(** One line of dialogue. *)
Definition one_line : list command := [Dialogue "Ari" "Welcome"]%string.

(** Two characters, a line, a character shown, and a line. *)
Definition two_characters : list command :=
  [SetCharacters [CharacterDefinition.make "Ari" "ari.svg" false;
                  CharacterDefinition.make "Bo" "bo.svg" true];
   Dialogue "Ari" "Welcome";
   ShowCharacter "Ari" "left";
   Narration "Bo waves."]%string.


(** A question with two answers, each leading to the scene of its own
    path. *)
Definition branching_story : list command :=
  [Dialogue "Ari" "Will you help?";
   AddChoice "Yes" 1; AddChoice "No" 2;
   SetPath (Some "accept"); Narration "Thanks";
   SetPath (Some "decline"); Narration "Bye"]%string.

End BuilderExamples.

(* ===================================================================== *)
(** * Lemmas on the Python preliminaries *)
(* ===================================================================== *)

Module PyFacts.

Lemma index_nil {A} (i : Z) : Py.index (@nil A) i = None.
Proof.
  unfold Py.index. cbn [length].
  by repeat (case_match; try done).
Qed.

Lemma index_in_range {A} (l : list A) (i : Z) :
  0 ≤ i < Z.of_nat (length l) → Py.index l i = l !! Z.to_nat i.
Proof.
  intros [H0 H1]. unfold Py.index.
  destruct (Z.leb_spec 0 i); [|lia].
  destruct (Z.ltb_spec i (Z.of_nat (length l))); [|lia].
  reflexivity.
Qed.

Lemma index_negative {A} (l : list A) (i : Z) :
  - Z.of_nat (length l) ≤ i < 0 →
  Py.index l i = l !! Z.to_nat (Z.of_nat (length l) + i).
Proof.
  intros [H0 H1]. unfold Py.index.
  destruct (Z.leb_spec 0 i); [lia|]. simpl.
  destruct (Z.leb_spec (- Z.of_nat (length l)) i); [|lia].
  destruct (Z.ltb_spec i 0); [|lia].
  reflexivity.
Qed.

Lemma index_is_Some {A} (l : list A) (i : Z) :
  - Z.of_nat (length l) ≤ i < Z.of_nat (length l) → is_Some (Py.index l i).
Proof.
  intros [H0 H1]. destruct (Z.lt_ge_cases i 0).
  - rewrite index_negative by lia. apply lookup_lt_is_Some. lia.
  - rewrite index_in_range by lia. apply lookup_lt_is_Some. lia.
Qed.

Lemma index_last {A} (l : list A) (x : A) : Py.index (l ++ [x]) (-1) = Some x.
Proof.
  rewrite index_negative by (rewrite length_app; simpl; lia).
  rewrite length_app. simpl.
  replace (Z.to_nat (Z.of_nat (length l + 1) + -1)) with (length l) by lia.
  rewrite lookup_app_r by lia. by rewrite Nat.sub_diag.
Qed.

Lemma get_set_eq {V} (d : Py.dict V) (k : string) (v : V) :
  Py.get (Py.set d k v) k = Some v.
Proof.
  induction d as [|[k' v'] d IH]; simpl.
  - by rewrite String.eqb_refl.
  - destruct (String.eqb k' k) eqn:E; simpl; rewrite E; [done | apply IH].
Qed.

Lemma get_set_ne {V} (d : Py.dict V) (k k' : string) (v : V) :
  k ≠ k' → Py.get (Py.set d k v) k' = Py.get d k'.
Proof.
  intros Hne. induction d as [|[k0 v0] d IH]; simpl.
  - destruct (String.eqb_spec k k'); [done | reflexivity].
  - destruct (String.eqb_spec k0 k) as [->|]; simpl.
    + destruct (String.eqb_spec k k'); [done | reflexivity].
    + destruct (String.eqb_spec k0 k'); [reflexivity | apply IH].
Qed.

End PyFacts.

(* ===================================================================== *)
(** * Navigation: [change_scene] *)
(* ===================================================================== *)

Module NavFacts.
Import App Nav.

Lemma is_scene_accessible_spec scene active :
  is_scene_accessible scene active = true ↔ accessible scene active.
Proof.
  unfold is_scene_accessible, accessible.
  destruct (SceneState.path scene); [apply bool_decide_eq_true | done].
Qed.

Lemma not_accessible_spec scene active :
  is_scene_accessible scene active = false ↔ ¬ accessible scene active.
Proof.
  rewrite <- is_scene_accessible_spec. destruct (is_scene_accessible _ _); naive_solver.
Qed.

Lemma accessible_at_lookup st i scene :
  0 ≤ i → scenes st !! Z.to_nat i = Some scene →
  accessible_at st i ↔ accessible scene (active_paths st).
Proof.
  intros H0 Hs. unfold accessible_at. split.
  - intros [_ (s & Hs' & Ha)]. congruence.
  - eauto.
Qed.

Lemma accessible_at_range st i : accessible_at st i → 0 ≤ i < total st.
Proof.
  intros [H0 (s & Hs & _)]. apply lookup_lt_Some in Hs. unfold total. lia.
Qed.

(** The loop, for a step of one scene forwards or backwards: with enough
    fuel it ends, and it ends where the scan of the statement stops. *)
Lemma scan_unit_step st d fuel k :
  valid st → d = 1 ∨ d = -1 → 1 ≤ k →
  (0 < fuel)%nat → total st < Z.of_nat fuel + k →
  (∀ j, 1 ≤ j < k → ¬ accessible_at st (index st + j * d)) →
  ∃ n, scan fuel (scenes st) (active_paths st) (total st) d
            (index st + k * d) (index st) = Some (Some n)
       ∧ scan_stops_at st d n.
Proof.
  intros Hv Hd. revert k. induction fuel as [|fuel IH]; intros k Hk Hf Hfuel Hnone; [lia|].
  simpl. unfold valid in Hv.
  destruct ((0 <=? index st + k * d) && (index st + k * d <? total st)) eqn:Hin.
  - apply andb_true_iff in Hin as [H0 H1].
    apply Z.leb_le in H0. apply Z.ltb_lt in H1.
    rewrite PyFacts.index_in_range by (fold (total st); lia).
    destruct (lookup_lt_is_Some_2 (scenes st) (Z.to_nat (index st + k * d)))
      as [scene Hscene]; [unfold total in H1; lia|].
    rewrite Hscene.
    destruct (is_scene_accessible scene (active_paths st)) eqn:Hacc.
    + exists (index st + k * d). split; [done|]. left. exists k.
      repeat split; try done.
      exists scene. by rewrite <- is_scene_accessible_spec.
    + replace (index st + k * d + d) with (index st + (k + 1) * d) by lia.
      apply IH; try lia.
      intros j Hj. destruct (decide (j = k)) as [->|]; [|apply Hnone; lia].
      rewrite (accessible_at_lookup _ _ scene) by done.
      by apply not_accessible_spec.
  - exists (index st). split; [done|]. right. split; [done|].
    intros j Hj Hacc. pose proof (accessible_at_range _ _ Hacc) as Hr.
    apply andb_false_iff in Hin.
    destruct (decide (j < k)); [by apply (Hnone j); [lia|]|].
    destruct Hin as [Hin|Hin]; [apply Z.leb_gt in Hin | apply Z.ltb_ge in Hin];
      destruct Hd as [-> | ->]; nia.
Qed.

(** The stopping point of a scan is unique. *)
Lemma scan_stops_at_unique st d n n' :
  d ≠ 0 → scan_stops_at st d n → scan_stops_at st d n' → n = n'.
Proof.
  intros Hd [(k & Hk & -> & Ha & Hn)|[-> Hn]] [(k' & Hk' & -> & Ha' & Hn')|[-> Hn']].
  - destruct (Z.lt_trichotomy k k') as [Hlt|[->|Hlt]]; [|done|].
    + by destruct (Hn' k).
    + by destruct (Hn k').
  - by destruct (Hn' k).
  - by destruct (Hn k').
  - done.
Qed.

Lemma change_scene_nonempty st d fuel :
  scenes st ≠ [] →
  change_scene fuel st d =
    match scan fuel (scenes st) (active_paths st) (total st) d
               (index st + d) (index st) with
    | None => OutOfFuel
    | Some None => Raised Py.IndexError st
    | Some (Some n) =>
        match Py.index (scenes st) n with
        | None => Raised Py.IndexError (with_index st n)
        | Some scene => Returned (with_index st n) (rendering (with_index st n) scene)
        end
    end.
Proof.
  destruct st as [[|s0 ss] i vars act]; [done|reflexivity].
Qed.

Lemma valid_nonempty st : valid st → scenes st ≠ [].
Proof. unfold valid, total. intros Hv Hnil. rewrite Hnil in Hv. simpl in Hv. lia. Qed.

(** [change_scene] on a graph with scenes and a valid index. *)
Lemma change_scene_unit_step st d fuel :
  valid st → d = 1 ∨ d = -1 → (length (scenes st) ≤ fuel)%nat →
  ∃ n scene, change_scene fuel st d
               = Returned (with_index st n) (rendering (with_index st n) scene)
             ∧ scenes st !! Z.to_nat n = Some scene
             ∧ 0 ≤ n < total st
             ∧ scan_stops_at st d n.
Proof.
  intros Hv Hd Hfuel. pose proof Hv as Hv'. unfold valid, total in Hv'.
  destruct (scan_unit_step st d fuel 1) as (n & Hscan & Hstop); try done; try lia.
  { unfold total. lia. }
  assert (0 ≤ n < total st) as Hn.
  { destruct Hstop as [(k & _ & _ & Ha & _)|[-> _]]; [by apply accessible_at_range | done]. }
  destruct (lookup_lt_is_Some_2 (scenes st) (Z.to_nat n)) as [scene Hscene];
    [unfold total in Hn; lia|].
  exists n, scene. split; [|done].
  rewrite change_scene_nonempty by by apply valid_nonempty.
  replace (index st + d) with (index st + 1 * d) by lia.
  rewrite Hscan, PyFacts.index_in_range by done.
  by rewrite Hscene.
Qed.

Lemma scan_stops_at_with_index st i d n :
  index st = i → scan_stops_at (with_index st i) d n ↔ scan_stops_at st d n.
Proof. intros <-. by destruct st. Qed.

(** The scan never stops beside the starting index in the "none" case. *)
Lemma scan_stops_none st d n :
  scan_stops_at st d n → d ≠ 0 → n = index st →
  ∀ k, 1 ≤ k → ¬ accessible_at st (index st + k * d).
Proof.
  intros [(k & Hk & -> & _)|[_ Hn]] Hd He; [nia | done].
Qed.

(** A step forwards and a step backwards, from an accessible index. *)
Lemma forth_then_back st fuel :
  valid st → accessible_at st (index st) → (length (scenes st) ≤ fuel)%nat →
  ∃ n m out1 out2,
    change_scene fuel st 1 = Returned (with_index st n) out1
    ∧ change_scene fuel (with_index st n) (-1) = Returned (with_index st m) out2
    ∧ scan_stops_at st 1 n
    ∧ 0 ≤ m < total st ∧ accessible_at st m
    ∧ (n ≠ index st → m = index st)
    ∧ (n = index st → scan_stops_at st (-1) m).
Proof.
  intros Hv Hacc Hfuel.
  destruct (change_scene_unit_step st 1 fuel Hv (or_introl eq_refl) Hfuel)
    as (n & scene1 & Hc1 & _ & Hn & Hstop1).
  assert (valid (with_index st n)) as Hv1 by done.
  destruct (change_scene_unit_step (with_index st n) (-1) fuel Hv1 (or_intror eq_refl) Hfuel)
    as (m & scene2 & Hc2 & _ & Hm & Hstop2).
  exists n, m. eexists. eexists.
  split; [exact Hc1|]. split; [exact Hc2|]. split; [done|]. split; [done|].
  assert (accessible_at st n) as Haccn.
  { destruct Hstop1 as [(k & _ & _ & Ha & _)|[-> _]]; done. }
  split; [|split].
  - destruct Hstop2 as [(k & _ & _ & Ha & _)|[-> _]]; done.
  - intros Hne. destruct Hstop1 as [(k & Hk & -> & _ & Hnone)|[-> _]]; [|done].
    apply (scan_stops_at_unique (with_index st (index st + k * 1)) (-1)); [done|done|].
    left. exists k. split; [done|]. split; [simpl; lia|]. split; [done|].
    intros j Hj. simpl.
    replace (index st + k * 1 + j * -1) with (index st + (k - j) * 1) by lia.
    apply Hnone. lia.
  - intros ->. by apply scan_stops_at_with_index in Hstop2.
Qed.

End NavFacts.

(* ===================================================================== *)
(** * Navigation: [handle_choice] and [handle_input] *)
(* ===================================================================== *)

Module HandlerFacts.
Import App Nav NavFacts.

Lemma selected_Some scene ci chosen :
  selected scene ci = Some chosen →
  bool_choices (SceneState.choices scene) && (0 <=? ci)
    && (ci <? Z.of_nat (length (default [] (SceneState.choices scene)))) = true
  ∧ Py.index (default [] (SceneState.choices scene)) ci = Some chosen.
Proof.
  unfold selected. destruct (SceneState.choices scene) as [cs|]; [|done].
  destruct (Z.leb_spec 0 ci) as [H0|]; [|done]. intros Hc. simpl.
  pose proof (lookup_lt_Some _ _ _ Hc) as Hlt.
  split.
  - destruct cs; [simpl in Hlt; lia|]. simpl.
    apply Z.ltb_lt. simpl in Hlt. lia.
  - rewrite PyFacts.index_in_range by lia. done.
Qed.

Lemma selected_None scene ci :
  selected scene ci = None →
  bool_choices (SceneState.choices scene) && (0 <=? ci)
    && (ci <? Z.of_nat (length (default [] (SceneState.choices scene)))) = false.
Proof.
  unfold selected. destruct (SceneState.choices scene) as [cs|]; [|done].
  destruct (Z.leb_spec 0 ci) as [H0|]; [|by rewrite andb_false_r].
  intros Hc. apply lookup_ge_None in Hc. simpl.
  rewrite andb_true_r. apply andb_false_iff. right. apply Z.ltb_ge. lia.
Qed.

Lemma targets_valid_lookup graph i scene c :
  targets_valid graph → graph !! i = Some scene →
  c ∈ default [] (SceneState.choices scene) →
  0 ≤ Choice.next_scene_index c < Z.of_nat (length graph).
Proof.
  intros Hv Hs Hc. unfold targets_valid in Hv.
  rewrite Forall_forall in Hv. specialize (Hv scene).
  rewrite Forall_forall in Hv. apply Hv; [|done].
  by eapply list_elem_of_lookup_2.
Qed.

Lemma selected_elem_of scene ci chosen :
  selected scene ci = Some chosen → chosen ∈ default [] (SceneState.choices scene).
Proof.
  unfold selected. destruct (SceneState.choices scene) as [cs|]; [|done].
  destruct (0 <=? ci); [|done]. simpl. apply list_elem_of_lookup_2.
Qed.

(** A choice in range moves to its target and activates the target's path. *)
Lemma handle_choice_selected st ci fuel scene chosen :
  valid st → targets_valid (scenes st) →
  scenes st !! Z.to_nat (index st) = Some scene →
  selected scene ci = Some chosen →
  ∃ target,
    scenes st !! Z.to_nat (Choice.next_scene_index chosen) = Some target
    ∧ let st' := with_active_paths
                   (with_index st (Choice.next_scene_index chosen))
                   (activated target (active_paths st)) in
      handle_choice fuel st ci = Returned st' (rendering st' target).
Proof.
  intros Hv Ht Hscene Hsel.
  pose proof (targets_valid_lookup _ _ _ _ Ht Hscene (selected_elem_of _ _ _ Hsel)) as Hr.
  destruct (lookup_lt_is_Some_2 (scenes st) (Z.to_nat (Choice.next_scene_index chosen)))
    as [target Htarget]; [lia|].
  exists target. split; [done|].
  destruct (selected_Some _ _ _ Hsel) as [Hcond Hidx].
  unfold handle_choice. rewrite PyFacts.index_in_range by done.
  rewrite Hscene, Hcond, Hidx. cbn [index with_index scenes active_paths variables].
  rewrite PyFacts.index_in_range by done. rewrite Htarget.
  unfold activated, bool_path, rendering, total.
  destruct (SceneState.path target) as [p|].
  - destruct (String.eqb_spec p ""); destruct (decide (p = ""%string)); try done;
      cbn [index with_index with_active_paths scenes active_paths variables negb];
      rewrite PyFacts.index_in_range by done; by rewrite Htarget.
  - cbn [index with_index with_active_paths scenes active_paths variables].
    rewrite PyFacts.index_in_range by done. by rewrite Htarget.
Qed.

(** Without a choice in range the handler calls [change_scene] with a
    step of zero, which shows the current scene again if it is accessible. *)
Lemma handle_choice_fallback st ci fuel scene :
  valid st → scenes st !! Z.to_nat (index st) = Some scene →
  selected scene ci = None → accessible scene (active_paths st) → (0 < fuel)%nat →
  handle_choice fuel st ci = Returned st (rendering st scene).
Proof.
  intros Hv Hscene Hsel Hacc Hfuel.
  unfold handle_choice. rewrite PyFacts.index_in_range by done.
  rewrite Hscene, (selected_None _ _ Hsel).
  rewrite change_scene_nonempty by by apply valid_nonempty.
  destruct fuel as [|fuel]; [lia|]. simpl.
  rewrite Z.add_0_r.
  destruct Hv as [H0 H1]. unfold total in H1.
  destruct (Z.leb_spec 0 (index st)); [|lia].
  destruct (Z.ltb_spec (index st) (total st)); [|unfold total in *; lia]. simpl.
  rewrite !PyFacts.index_in_range by done. rewrite Hscene.
  apply is_scene_accessible_spec in Hacc. rewrite Hacc.
  rewrite PyFacts.index_in_range by done. rewrite Hscene.
  by destruct st.
Qed.

(** The same call never returns when the current scene is not accessible:
    the loop of [change_scene] does not advance with a step of zero. *)
Lemma scan_zero_step_stuck fuel graph active total i new scene :
  0 ≤ i < total → Py.index graph i = Some scene →
  is_scene_accessible scene active = false →
  scan fuel graph active total 0 i new = None.
Proof.
  intros Hi Hscene Hacc. induction fuel as [|fuel IH]; [done|]. simpl.
  destruct (Z.leb_spec 0 i); [|lia]. destruct (Z.ltb_spec i total); [|lia]. simpl.
  by rewrite Hscene, Hacc, Z.add_0_r.
Qed.

(** No handler removes an active path. *)
Lemma change_scene_active_paths st d fuel st' out :
  change_scene fuel st d = Returned st' out → active_paths st' = active_paths st.
Proof.
  unfold change_scene. destruct (scenes st); [by intros [= <- _]|].
  destruct (scan _ _ _ _ _ _ _) as [[n|]|]; [|done..].
  destruct (Py.index _ _); [|done]. by intros [= <- _].
Qed.

Lemma handle_choice_active_paths st ci fuel st' out :
  handle_choice fuel st ci = Returned st' out → active_paths st ⊆ active_paths st'.
Proof.
  unfold handle_choice. destruct (Py.index (scenes st) (index st)) as [scene|]; [|done].
  destruct (_ && _ && _).
  - destruct (Py.index (default [] _) ci) as [chosen|]; [|done].
    cbn [scenes with_index].
    destruct (Py.index (scenes st) (Choice.next_scene_index chosen)) as [target|]; [|done].
    destruct (SceneState.path target) as [p|].
    + destruct (bool_path (Some p)).
      * destruct (Py.index _ _); [|done]. intros [= <- _]. simpl. set_solver.
      * destruct (Py.index _ _); [|done]. by intros [= <- _].
    + destruct (Py.index _ _); [|done]. by intros [= <- _].
  - intros H. by rewrite (change_scene_active_paths _ _ _ _ _ H).
Qed.

Lemma handle_input_active_paths st v st' out :
  handle_input st v = Returned st' out → active_paths st' = active_paths st.
Proof.
  unfold handle_input. destruct (Py.index (scenes st) (index st)) as [scene|]; [|done].
  cbn [scenes with_index with_variables index].
  destruct (Py.index _ _); [|done]. by intros [= <- _].
Qed.

End HandlerFacts.

(* ===================================================================== *)
(** * Text: [str.replace] on templates *)
(* ===================================================================== *)

Module TextFacts.
Import App Nav.

Lemma has_char_cons c a s : has_char c (String a s) ↔ c = a ∨ has_char c s.
Proof. unfold has_char. simpl. apply elem_of_cons. Qed.

Lemma has_char_empty c : ¬ has_char c "".
Proof. unfold has_char. simpl. apply not_elem_of_nil. Qed.

Lemma has_char_app c s t : has_char c (s +:+ t) ↔ has_char c s ∨ has_char c t.
Proof.
  induction s as [|a s IH].
  - change ("" +:+ t) with t. pose proof (has_char_empty c). tauto.
  - change (String a s +:+ t) with (String a (s +:+ t)).
    rewrite !has_char_cons, IH. tauto.
Qed.

Lemma append_cons a s t : String a s +:+ t = String a (s +:+ t).
Proof. reflexivity. Qed.

Lemma append_nil t : "" +:+ t = t.
Proof. reflexivity. Qed.

Lemma app_assoc s t u : (s +:+ t) +:+ u = s +:+ t +:+ u.
Proof.
  induction s as [|a s IH]; [done|]. by rewrite !append_cons, IH.
Qed.

Lemma prefix_app p rest : String.prefix p (p +:+ rest) = true.
Proof.
  induction p as [|a p IH]; [by destruct rest|].
  rewrite append_cons. cbn [String.prefix].
  destruct (ascii_dec a a); done.
Qed.

(** Whether the pattern of [k] starts a text that starts with the
    placeholder of [n]: the closing brace decides. *)
Lemma prefix_closing k n rest :
  ¬ has_char "}" k → ¬ has_char "}" n →
  String.prefix (k +:+ "}") (n +:+ "}" +:+ rest) = bool_decide (k = n).
Proof.
  revert n. induction k as [|a k IH]; intros [|b n] Hk Hn;
    rewrite ?append_cons, ?append_nil; cbn [String.prefix].
  - destruct (ascii_dec "}" "}"); [|done]. by destruct rest.
  - rewrite has_char_cons in Hn. destruct (ascii_dec "}" b) as [<-|]; [tauto|].
    symmetry. by apply bool_decide_eq_false_2.
  - rewrite has_char_cons in Hk. destruct (ascii_dec a "}") as [->|]; [tauto|].
    symmetry. by apply bool_decide_eq_false_2.
  - rewrite has_char_cons in Hk, Hn. destruct (ascii_dec a b) as [->|Hab].
    + rewrite IH by tauto.
      apply bool_decide_ext. split; congruence.
    + symmetry. apply bool_decide_eq_false_2. congruence.
Qed.

Lemma prefix_placeholder k n rest :
  ¬ has_char "}" k → ¬ has_char "}" n →
  String.prefix ("{" +:+ k +:+ "}") ("{" +:+ n +:+ "}" +:+ rest) = bool_decide (k = n).
Proof.
  intros Hk Hn. rewrite !append_cons, !append_nil. cbn [String.prefix].
  destruct (ascii_dec "{" "{"); [|done].
  by apply prefix_closing.
Qed.

Lemma replace_from_skip old new s rest :
  Py.replace_from old new (String.length s) (s +:+ rest)
  = Py.replace_from old new 0 rest.
Proof.
  induction s as [|a s IH]; rewrite ?append_cons, ?append_nil;
    cbn [String.length Py.replace_from]; [by destruct rest | done].
Qed.

(** Text without an opening brace is copied. *)
Lemma replace_from_plain k new s rest :
  ¬ has_char "{" s →
  Py.replace_from (String "{" k) new 0 (s +:+ rest)
  = s +:+ Py.replace_from (String "{" k) new 0 rest.
Proof.
  induction s as [|a s IH]; intros Hs; [done|].
  rewrite has_char_cons in Hs.
  rewrite !append_cons.
  cbn [Py.replace_from]. cbn [String.prefix].
  destruct (ascii_dec "{" a) as [<-|]; [tauto|].
  rewrite IH by tauto. done.
Qed.

Lemma replace_from_same k new rest :
  Py.replace_from ("{" +:+ k +:+ "}") new 0 (("{" +:+ k +:+ "}") +:+ rest)
  = new +:+ Py.replace_from ("{" +:+ k +:+ "}") new 0 rest.
Proof.
  change (("{" +:+ k +:+ "}") +:+ rest)
    with (String "{" ((k +:+ "}") +:+ rest)) at 1.
  cbn [Py.replace_from].
  change (String "{" ((k +:+ "}") +:+ rest)) with (("{" +:+ k +:+ "}") +:+ rest).
  rewrite prefix_app. f_equal.
  change (String.length ("{" +:+ k +:+ "}") - 1)%nat
    with (S (String.length (k +:+ "}")) - 1)%nat.
  rewrite Nat.sub_succ, Nat.sub_0_r.
  apply replace_from_skip.
Qed.

Lemma replace_from_other k n new rest :
  ¬ has_char "}" k → brace_free n → k ≠ n →
  Py.replace_from ("{" +:+ k +:+ "}") new 0 (("{" +:+ n +:+ "}") +:+ rest)
  = ("{" +:+ n +:+ "}") +:+ Py.replace_from ("{" +:+ k +:+ "}") new 0 rest.
Proof.
  intros Hk [Hn1 Hn2] Hne.
  change (("{" +:+ n +:+ "}") +:+ rest)
    with (String "{" ((n +:+ "}") +:+ rest)).
  cbn [Py.replace_from].
  replace (String.prefix ("{" +:+ k +:+ "}") (String "{" ((n +:+ "}") +:+ rest)))
    with (bool_decide (k = n)).
  2:{ rewrite app_assoc. symmetry. by apply (prefix_placeholder k n rest). }
  rewrite bool_decide_eq_false_2 by done.
  rewrite !append_cons, !append_nil. f_equal.
  apply (replace_from_plain (k +:+ "}") new (n +:+ "}") rest).
  rewrite has_char_app, has_char_cons.
  pose proof (has_char_empty "{"). intros [?|[?|?]]; [tauto|done|tauto].
Qed.

Lemma replace_template k v ps :
  brace_free k → Forall well_formed ps →
  Py.replace (template_text ps) ("{" +:+ k +:+ "}") v
  = template_text (replaced k v <$> ps).
Proof.
  intros [Hk1 Hk2] Hps. unfold Py.replace.
  change (String.eqb ("{" +:+ k +:+ "}") "") with false. cbv iota.
  induction Hps as [|p ps Hp Hps IH]; [done|].
  cbn [template_text fmap list_fmap].
  fold (fmap (M:=list) (replaced k v) ps).
  destruct p as [s|n]; cbn [piece_text replaced].
  - simpl in Hp. rewrite <- IH.
    by apply (replace_from_plain (k +:+ "}") v s).
  - simpl in Hp. destruct (decide (k = n)) as [<-|Hne]; cbn [piece_text];
      rewrite <- IH.
    + apply replace_from_same.
    + by apply replace_from_other.
Qed.

Lemma replaced_well_formed k v ps :
  ¬ has_char "{" v → Forall well_formed ps → Forall well_formed (replaced k v <$> ps).
Proof.
  intros Hv Hps. apply Forall_fmap. eapply Forall_impl; [exact Hps|].
  intros [s|n] Hp; simpl; [done|]. by destruct (decide (k = n)).
Qed.

Lemma filled_nil ps : filled [] ps = template_text ps.
Proof. induction ps as [|[s|n] ps IH]; simpl; by rewrite ?IH. Qed.

Lemma filled_cons k v variables ps :
  filled ((k, v) :: variables) ps = filled variables (replaced k v <$> ps).
Proof.
  induction ps as [|[s|n] ps IH]; [done| |].
  - cbn [filled fmap list_fmap replaced fill]. by rewrite IH.
  - cbn [filled fmap list_fmap replaced fill Py.get].
    fold (fmap (M:=list) (replaced k v) ps). rewrite IH.
    destruct (String.eqb_spec k n) as [->|Hne].
    + by rewrite decide_True.
    + by rewrite decide_False.
Qed.

(** The whole loop on a template. *)
Lemma substitute_template variables ps :
  Forall well_formed ps →
  Forall (λ kv, brace_free kv.1 ∧ ¬ has_char "{" kv.2) variables →
  substitute variables (template_text ps) = filled variables ps.
Proof.
  intros Hps Hvars. revert ps Hps.
  induction Hvars as [|[k v] variables [Hk Hv] Hvars IH]; intros ps Hps.
  - by rewrite filled_nil.
  - cbn [substitute]. simpl in Hk, Hv.
    rewrite replace_template, filled_cons by done.
    apply IH. by apply replaced_well_formed.
Qed.

End TextFacts.

(* ===================================================================== *)
(** * The heap: reading and framing *)
(* ===================================================================== *)

Module HeapFacts.
Import Heap Sharing.
Local Open Scope nat_scope.

Lemma bind_Some {A B} (m : M A) (f : A → M B) h x h' :
  m h = Some (x, h') → (m ≫= f) h = f x h'.
Proof. unfold mbind, M_bind. by intros ->. Qed.

Lemma same_at_app A B h h' :
  same_at (A ++ B) h h' ↔ same_at A h h' ∧ same_at B h h'.
Proof.
  unfold same_at. split.
  - intros H. split; intros a Ha; apply H, elem_of_app; auto.
  - intros [H1 H2] a [Ha|Ha]%elem_of_app; auto.
Qed.

Lemma same_at_cons a A h h' :
  same_at (a :: A) h h' ↔ h' !! a = h !! a ∧ same_at A h h'.
Proof.
  unfold same_at. split.
  - intros H. split; [|intros b Hb]; apply H, elem_of_cons; auto.
  - intros [H1 H2] b [->|Hb]%elem_of_cons; auto.
Qed.

Lemma same_at_nil h h' : same_at [] h h'.
Proof. intros a Ha. by apply elem_of_nil in Ha. Qed.

Lemma same_at_sym A h h' : same_at A h h' → same_at A h' h.
Proof. intros H a Ha. symmetry. by apply H. Qed.

Lemma read_same {A} (cls : object → option A) h h' a :
  h' !! a = h !! a → read cls h' a = read cls h a.
Proof. unfold read. by intros ->. Qed.

Lemma mapM_read_same {A} (cls : object → option A) h h' items :
  same_at items h h' → mapM (read cls h') items = mapM (read cls h) items.
Proof.
  induction items as [|a items IH]; [done|].
  rewrite same_at_cons. intros [Ha Hs]. simpl.
  by rewrite (read_same cls h h' a Ha), IH.
Qed.

Lemma mapM_read_dict_same {A} (cls : object → option A) h h' (items : Py.dict addr) :
  same_at items.*2 h h' →
  mapM (λ kv, pair kv.1 <$> read cls h' kv.2) items
  = mapM (λ kv, pair kv.1 <$> read cls h kv.2) items.
Proof.
  induction items as [|[k a] items IH]; [done|].
  rewrite fmap_cons, same_at_cons. intros [Ha Hs]. simpl in *.
  by rewrite (read_same cls h h' a Ha), IH.
Qed.

Lemma list_cells_same h h' l :
  h' !! l = h !! l → list_cells h' l = list_cells h l.
Proof. intros H. unfold list_cells. by rewrite (read_same the_list h h' l H). Qed.

Lemma dict_cells_same h h' d :
  h' !! d = h !! d → dict_cells h' d = dict_cells h d.
Proof. intros H. unfold dict_cells. by rewrite (read_same the_dict h h' d H). Qed.

Lemma read_list_same {A} (cls : object → option A) h h' l :
  same_at (list_cells h l) h h' → read_list cls h' l = read_list cls h l.
Proof.
  unfold list_cells, read_list. rewrite same_at_cons. intros [Hl Hs].
  rewrite (read_same the_list h h' l Hl).
  destruct (read the_list h l) as [items|]; [|done]. simpl in *.
  by apply mapM_read_same.
Qed.

Lemma read_dict_same {A} (cls : object → option A) h h' d :
  same_at (dict_cells h d) h h' → read_dict cls h' d = read_dict cls h d.
Proof.
  unfold dict_cells, read_dict. rewrite same_at_cons. intros [Hd Hs].
  rewrite (read_same the_dict h h' d Hd).
  destruct (read the_dict h d) as [items|]; [|done]. simpl in *.
  by apply mapM_read_dict_same.
Qed.

Lemma scene_cells_same h h' s :
  same_at (scene_cells h s) h h' → scene_cells h' s = scene_cells h s.
Proof.
  unfold scene_cells. rewrite same_at_cons. intros [Hs Hrest].
  rewrite (read_same the_scene h h' s Hs).
  destruct (read the_scene h s) as [sc|]; [|done].
  rewrite !same_at_app in Hrest. destruct Hrest as (Hc & Hch & Hi & Hm & Hr).
  rewrite (dict_cells_same h h' (SceneObject.characters sc)).
  2:{ apply Hc. unfold dict_cells. apply elem_of_cons. by left. }
  rewrite (list_cells_same h h' (SceneObject.motor_commands sc)).
  2:{ apply Hm. apply elem_of_cons. by left. }
  destruct (SceneObject.choices sc) as [c|]; [|done]. cbn [opt_cells] in *.
  rewrite (list_cells_same h h' c); [done|].
  apply Hch. apply elem_of_cons. by left.
Qed.

Lemma read_opt_same {A} (rd rd' : addr → option A) r :
  (∀ a, r = Some a → rd' a = rd a) → read_opt rd' r = read_opt rd r.
Proof. destruct r as [a|]; [|done]. intros H. simpl. by rewrite H. Qed.

Lemma read_scene_same h h' s :
  same_at (scene_cells h s) h h' → read_scene h' s = read_scene h s.
Proof.
  unfold scene_cells, read_scene. rewrite same_at_cons. intros [Hs Hrest].
  rewrite (read_same the_scene h h' s Hs).
  destruct (read the_scene h s) as [sc|]; [|done].
  rewrite !same_at_app in Hrest. destruct Hrest as (Hc & Hch & Hi & Hm & Hr).
  cbn [mbind option_bind].
  rewrite (read_dict_same the_sprite h h' _ Hc).
  rewrite (read_list_same the_motor_command h h' _ Hm).
  rewrite (read_opt_same (read_list the_choice h) (read_list the_choice h')
             (SceneObject.choices sc)).
  2:{ intros a Ha. rewrite Ha in Hch. by apply read_list_same. }
  rewrite (read_opt_same (read the_input_request h) (read the_input_request h')
             (SceneObject.input_request sc)).
  2:{ intros a Ha. rewrite Ha in Hi. apply read_same, Hi. by apply list_elem_of_singleton. }
  rewrite (read_opt_same (read the_robot_pose h) (read the_robot_pose h')
             (SceneObject.robot_pose sc)).
  2:{ intros a Ha. rewrite Ha in Hr. apply read_same, Hr. by apply list_elem_of_singleton. }
  done.
Qed.

(** ** What can be read is allocated *)

Lemma read_lt {A} (cls : object → option A) h a x :
  read cls h a = Some x → a < length h.
Proof.
  unfold read. destruct (h !! a) eqn:E; [|done]. intros _. by eapply lookup_lt_Some.
Qed.

Lemma mapM_read_lt {A} (cls : object → option A) h items xs :
  mapM (read cls h) items = Some xs → ∀ a, a ∈ items → a < length h.
Proof.
  rewrite mapM_Some. intros H a Ha.
  apply list_elem_of_lookup in Ha as [i Hi].
  destruct (Forall2_lookup_l _ _ _ _ _ H Hi) as (x & _ & Hx).
  by eapply read_lt.
Qed.

Lemma mapM_dict_Some {A} (f : addr → option A) (items : Py.dict addr) d :
  mapM (λ kv, pair kv.1 <$> f kv.2) items = Some d →
  mapM f items.*2 = Some d.*2 ∧ d.*1 = items.*1.
Proof.
  rewrite !mapM_Some. intros H.
  induction H as [|[k a] [k' x] items d Hx H IH]; [by split; [constructor|]|].
  apply fmap_Some in Hx as (x' & Hx & [= -> ->]). simpl in Hx.
  destruct IH as [IH1 IH2]. rewrite !fmap_cons. simpl. split.
  - by constructor.
  - by rewrite IH2.
Qed.

Lemma mapM_dict_zip {A} (f : addr → option A) (items : Py.dict addr) xs :
  mapM f items.*2 = Some xs →
  mapM (λ kv, pair kv.1 <$> f kv.2) items = Some (zip items.*1 xs).
Proof.
  rewrite !mapM_Some. revert xs.
  induction items as [|[k a] items IH]; intros xs H.
  - apply Forall2_nil_inv_l in H as ->. constructor.
  - rewrite fmap_cons in H. apply Forall2_cons_inv_l in H as (x & xs' & Hx & H & ->).
    rewrite fmap_cons. simpl. constructor; [simpl in *; by rewrite Hx | by apply IH].
Qed.

Lemma read_list_lt {A} (cls : object → option A) h l xs :
  read_list cls h l = Some xs → ∀ a, a ∈ list_cells h l → a < length h.
Proof.
  unfold read_list, list_cells. destruct (read the_list h l) as [items|] eqn:E; [|done].
  simpl. intros Hm a [->|Ha]%elem_of_cons.
  - by eapply read_lt.
  - by eapply mapM_read_lt.
Qed.

Lemma read_dict_lt {A} (cls : object → option A) h d xs :
  read_dict cls h d = Some xs → ∀ a, a ∈ dict_cells h d → a < length h.
Proof.
  unfold read_dict, dict_cells. destruct (read the_dict h d) as [items|] eqn:E; [|done].
  simpl. intros Hm a [->|Ha]%elem_of_cons.
  - by eapply read_lt.
  - apply mapM_dict_Some in Hm as [Hm _]. by eapply mapM_read_lt.
Qed.

Lemma read_scene_lt h s x :
  read_scene h s = Some x → ∀ a, a ∈ scene_cells h s → a < length h.
Proof.
  unfold read_scene, scene_cells.
  destruct (read the_scene h s) as [sc|] eqn:Hs; [|done]. cbn [mbind option_bind].
  destruct (read_dict _ _ _) as [cs|] eqn:Hc; [|done]. cbn [mbind option_bind].
  destruct (read_opt (read_list _ _) _) as [ch|] eqn:Hch; [|done]. cbn [mbind option_bind].
  destruct (read_opt (read the_input_request _) _) as [ir|] eqn:Hi; [|done].
  cbn [mbind option_bind].
  destruct (read_list _ _ _) as [ms|] eqn:Hm; [|done]. cbn [mbind option_bind].
  destruct (read_opt (read the_robot_pose _) _) as [rp|] eqn:Hr; [|done].
  cbn [mbind option_bind]. intros _ a.
  rewrite elem_of_cons, !elem_of_app.
  intros [->|[Ha|[Ha|[Ha|[Ha|Ha]]]]].
  - by eapply read_lt.
  - by eapply read_dict_lt.
  - destruct (SceneObject.choices sc) as [c|]; [|by apply elem_of_nil in Ha].
    simpl in Hch. destruct (read_list the_choice h c) as [cl|] eqn:E; [|done].
    by apply (read_list_lt the_choice h c cl E).
  - destruct (SceneObject.input_request sc) as [r|]; [|by apply elem_of_nil in Ha].
    simpl in Hi. apply list_elem_of_singleton in Ha as ->.
    destruct (read the_input_request h r) eqn:E; [|done]. by eapply read_lt.
  - by eapply read_list_lt.
  - destruct (SceneObject.robot_pose sc) as [r|]; [|by apply elem_of_nil in Ha].
    simpl in Hr. apply list_elem_of_singleton in Ha as ->.
    destruct (read the_robot_pose h r) eqn:E; [|done]. by eapply read_lt.
Qed.

(** ** Frames *)

Lemma frames_refl F h : frames F h h.
Proof. by split. Qed.

Lemma frames_alloc F h k : frames F h (h ++ k).
Proof.
  split; [rewrite length_app; lia|]. intros a Ha _. by apply lookup_app_l.
Qed.

Lemma frames_store F h a o : a ∈ F → frames F h (<[a:=o]> h).
Proof.
  intros Ha. split; [by rewrite length_insert|].
  intros b _ Hb. apply list_lookup_insert_ne. by intros ->.
Qed.

Lemma frames_trans F F' h h' h'' :
  frames F h h' → frames F' h' h'' →
  (∀ a, a ∈ F' → a < length h → a ∈ F) →
  frames F h h''.
Proof.
  intros [Hl H] [Hl' H'] Hsub. split; [lia|].
  intros a Ha HaF. rewrite H', H; try done; [lia|]. intros HaF'. by apply HaF, Hsub.
Qed.

Lemma frames_mono F F' h h' :
  frames F h h' → (∀ a, a ∈ F → a ∈ F') → frames F' h h'.
Proof.
  intros [Hl H] Hsub. split; [done|]. intros a Ha HaF. apply H; [done|].
  intros ?. by apply HaF, Hsub.
Qed.

Lemma frames_same_at F A h h' :
  frames F h h' → (∀ a, a ∈ A → a < length h ∧ a ∉ F) → same_at A h h'.
Proof. intros [_ H] HA a Ha. by apply H; apply HA. Qed.

(** ** The primitive operations *)

Lemma load_sprite_Some h a x :
  read the_sprite h a = Some x → load_sprite a h = Some (x, h).
Proof.
  unfold read, load_sprite, load, mbind, M_bind.
  destruct (h !! a) as [[]|]; try done. by intros [= ->].
Qed.

Lemma load_scene_Some h a x :
  read the_scene h a = Some x → load_scene a h = Some (x, h).
Proof.
  unfold read, load_scene, load, mbind, M_bind.
  destruct (h !! a) as [[]|]; try done. by intros [= ->].
Qed.

Lemma load_list_Some h a x :
  read the_list h a = Some x → load_list a h = Some (x, h).
Proof.
  unfold read, load_list, load, mbind, M_bind.
  destruct (h !! a) as [[]|]; try done. by intros [= ->].
Qed.

Lemma load_dict_Some h a x :
  read the_dict h a = Some x → load_dict a h = Some (x, h).
Proof.
  unfold read, load_dict, load, mbind, M_bind.
  destruct (h !! a) as [[]|]; try done. by intros [= ->].
Qed.

Lemma store_Some h a o :
  a < length h → store a o h = Some ((), <[a:=o]> h).
Proof.
  intros Ha. unfold store. by destruct (lookup_lt_is_Some_2 h a Ha) as [? ->].
Qed.

Lemma read_insert_eq {A} (cls : object → option A) h a o :
  a < length h → read cls (<[a:=o]> h) a = cls o.
Proof. intros Ha. unfold read. by rewrite list_lookup_insert_eq. Qed.

Lemma read_app_l {A} (cls : object → option A) h k a :
  a < length h → read cls (h ++ k) a = read cls h a.
Proof. intros Ha. unfold read. by rewrite lookup_app_l. Qed.

Lemma read_alloc {A} (cls : object → option A) h o k :
  read cls (h ++ o :: k) (length h) = cls o.
Proof. unfold read. by rewrite list_lookup_middle. Qed.

Lemma append_run h l items x :
  read the_list h l = Some items →
  append l x h = Some ((), <[l:=OList (items ++ [x])]> h).
Proof.
  intros Hl. unfold append. rewrite (bind_Some _ _ _ _ _ (load_list_Some _ _ _ Hl)).
  apply store_Some. by eapply read_lt.
Qed.

End HeapFacts.

(* ===================================================================== *)
(** * [copy.deepcopy] and [_clone_state] *)
(* ===================================================================== *)

Module CopyFacts.
Import Heap Sharing HeapFacts VisualNovelBuilder.
Local Open Scope nat_scope.

Lemma memo_get_None memo a : a ∉ memo.*1 → memo_get memo a = None.
Proof.
  induction memo as [|[a' c] memo IH]; [done|].
  rewrite fmap_cons, not_elem_of_cons. intros [Hne Hnot]. simpl in *.
  destruct (decide (a' = a)); [congruence | by apply IH].
Qed.

(** With distinct values the memo never answers: every value is copied
    to the next free address. *)
Lemma deepcopy_values_spec (items : Py.dict addr) memo h sprites :
  NoDup items.*2 → (∀ a, a ∈ items.*2 → a ∉ memo.*1) →
  mapM (read the_sprite h) items.*2 = Some sprites →
  deepcopy_values memo items h
  = Some (zip items.*1 (seq (length h) (length items)), h ++ (OSprite <$> sprites)).
Proof.
  revert memo h sprites.
  induction items as [|[k a] items IH]; intros memo h sprites Hnd Hmemo Hread.
  - apply mapM_Some, Forall2_nil_inv_l in Hread as ->. simpl. by rewrite app_nil_r.
  - rewrite fmap_cons in Hnd, Hmemo, Hread. cbn [snd] in Hnd, Hmemo, Hread.
    apply NoDup_cons in Hnd as [Ha Hnd].
    apply mapM_Some, Forall2_cons_inv_l in Hread as (x & xs & Hx & Hxs & ->).
    apply mapM_Some in Hxs.
    cbn [deepcopy_values]. rewrite memo_get_None by (apply Hmemo; left).
    rewrite (bind_Some _ _ _ _ _ (load_sprite_Some _ _ _ Hx)).
    assert (∀ b, b ∈ items.*2 → b ∉ ((a, length h) :: memo).*1) as Hmemo'.
    { intros b Hb. rewrite fmap_cons, not_elem_of_cons. split.
      - intros ->. done.
      - apply Hmemo. by right. }
    assert (mapM (read the_sprite (h ++ [OSprite x])) items.*2 = Some xs) as Hxs'.
    { rewrite <- Hxs. apply mapM_read_same. intros b Hb.
      apply lookup_app_l. by eapply mapM_read_lt. }
    unfold mbind at 1, M_bind at 1, alloc at 1.
    rewrite (bind_Some _ _ _ _ _ (IH _ _ _ Hnd Hmemo' Hxs')).
    unfold mret, M_ret. rewrite length_app. simpl.
    rewrite Nat.add_1_r, <- app_assoc. done.
Qed.

(** The sprites copied at the end of the heap can be read back. *)
Lemma read_copies (ks : list string) sprites h k :
  length ks = length sprites →
  mapM (λ kv : string * addr, pair kv.1 <$> read the_sprite (h ++ (OSprite <$> sprites) ++ k) kv.2)
       (zip ks (seq (length h) (length sprites)))
  = Some (zip ks sprites).
Proof.
  revert h ks. induction sprites as [|x sprites IH]; intros h ks Hlen.
  - destruct ks; done.
  - destruct ks as [|key ks]; [done|]. simpl in Hlen.
    cbn [fmap list_fmap length seq zip zip_with mapM].
    rewrite <- app_comm_cons. cbn [fst snd].
    rewrite read_alloc. cbn [the_sprite fmap option_fmap option_map mbind option_bind].
    specialize (IH (h ++ [OSprite x]) ks ltac:(lia)).
    rewrite length_app, Nat.add_1_r, <- app_assoc in IH. simpl in IH.
    fold (fmap (M:=list) OSprite sprites). rewrite IH. done.
Qed.

(** [deepcopy] of a dict of distinct sprites: the copy has the same value,
    consists of new objects only, and nothing else changes. *)
Lemma deepcopy_fresh x h d :
  read_dict the_sprite h x = Some d → NoDup (dict_cells h x) →
  ∃ d' k, deepcopy x h = Some (d', h ++ k)
    ∧ read_dict the_sprite (h ++ k) d' = Some d
    ∧ NoDup (dict_cells (h ++ k) d')
    ∧ (∀ a, a ∈ dict_cells (h ++ k) d' → length h ≤ a)
    ∧ (∀ a, a ∈ dict_cells (h ++ k) d' → a < length (h ++ k)).
Proof.
  unfold read_dict, dict_cells.
  destruct (read the_dict h x) as [items|] eqn:Hx; [|done]. simpl.
  intros Hd Hnd. apply NoDup_cons in Hnd as [_ Hnd].
  destruct (mapM_dict_Some _ _ _ Hd) as [Hsprites Hkeys].
  pose proof (deepcopy_values_spec items [] h d.*2 Hnd
                (λ a _, not_elem_of_nil a) Hsprites) as Hcopy.
  set (items' := zip items.*1 (seq (length h) (length items))) in *.
  exists (length (h ++ (OSprite <$> d.*2))), ((OSprite <$> d.*2) ++ [ODict items']).
  assert (length items = length d) as Hlen.
  { by rewrite <- (length_fmap fst items), <- Hkeys, length_fmap. }
  assert (read the_dict (h ++ (OSprite <$> d.*2) ++ [ODict items'])
            (length (h ++ (OSprite <$> d.*2))) = Some items') as Hnew.
  { rewrite app_assoc. by rewrite read_alloc. }
  split; [|split; [|split; [|split]]].
  - unfold deepcopy. rewrite (bind_Some _ _ _ _ _ (load_dict_Some _ _ _ Hx)).
    rewrite (bind_Some _ _ _ _ _ Hcopy). unfold alloc. by rewrite app_assoc.
  - rewrite Hnew. simpl. unfold items'. rewrite Hlen, <- (length_fmap snd d).
    rewrite read_copies by (by rewrite <- Hkeys, !length_fmap).
    by rewrite <- Hkeys, zip_fst_snd.
  - rewrite Hnew. simpl. unfold items'.
    rewrite snd_zip by (rewrite length_seq, length_fmap; lia).
    apply NoDup_cons. split; [|apply NoDup_seq].
    rewrite elem_of_seq, length_app, length_fmap, length_fmap. lia.
  - rewrite Hnew. simpl. unfold items'.
    rewrite snd_zip by (rewrite length_seq, length_fmap; lia).
    intros a [->|Ha]%elem_of_cons; [rewrite length_app; lia|].
    apply elem_of_seq in Ha. lia.
  - rewrite Hnew. simpl. unfold items'.
    rewrite snd_zip by (rewrite length_seq, length_fmap; lia).
    rewrite !length_app, !length_fmap. simpl.
    intros a [->|Ha]%elem_of_cons; [lia|].
    apply elem_of_seq in Ha. lia.
Qed.

End CopyFacts.

(* ===================================================================== *)
(** * Steps on one scene *)
(* ===================================================================== *)

Module StepFacts.
Import Heap Sharing HeapFacts CopyFacts VisualNovelBuilder.
Local Open Scope nat_scope.

Lemma scene_cells_eq h s sc :
  read the_scene h s = Some sc → scene_cells h s = s :: part_cells h sc.
Proof. unfold scene_cells. by intros ->. Qed.

Lemma read_scene_is_Some h s :
  is_Some (read_scene h s) ↔ ∃ sc, read the_scene h s = Some sc ∧ parts_readable h sc.
Proof.
  unfold read_scene, parts_readable. split.
  - intros [x Hx]. destruct (read the_scene h s) as [sc|]; [|done].
    exists sc. split; [done|]. cbn [mbind option_bind] in Hx.
    destruct (read_dict _ _ _); [|done]. cbn [mbind option_bind] in Hx.
    destruct (read_opt (read_list _ _) _); [|done]. cbn [mbind option_bind] in Hx.
    destruct (read_opt (read the_input_request _) _); [|done].
    cbn [mbind option_bind] in Hx.
    destruct (read_list _ _ _); [|done]. cbn [mbind option_bind] in Hx.
    destruct (read_opt (read the_robot_pose _) _); [|done].
    by repeat split.
  - intros (sc & -> & [? Hd] & [? Hc] & [? Hi] & [? Hm] & [? Hr]).
    cbn [mbind option_bind]. rewrite Hd. cbn [mbind option_bind].
    rewrite Hc. cbn [mbind option_bind]. rewrite Hi. cbn [mbind option_bind].
    rewrite Hm. cbn [mbind option_bind]. rewrite Hr. by eexists.
Qed.

Lemma owned_inv h s :
  owned h s →
  ∃ sc, read the_scene h s = Some sc ∧ parts_readable h sc
        ∧ (s ∉ part_cells h sc) ∧ NoDup (part_cells h sc)
        ∧ (∀ a, a ∈ (s :: part_cells h sc) → a < length h).
Proof.
  intros [Hr Hnd]. pose proof Hr as [x Hx].
  apply read_scene_is_Some in Hr as (sc & Hsc & Hparts).
  exists sc. rewrite (scene_cells_eq _ _ _ Hsc) in Hnd.
  apply NoDup_cons in Hnd as [Hs Hnd]. do 4 (split; [done|]).
  intros a Ha. rewrite <- (scene_cells_eq _ _ _ Hsc) in Ha. by eapply read_scene_lt.
Qed.

Lemma owned_intro h s sc :
  read the_scene h s = Some sc → parts_readable h sc →
  s ∉ part_cells h sc → NoDup (part_cells h sc) → owned h s.
Proof.
  intros Hsc Hparts Hs Hnd. split.
  - apply read_scene_is_Some. eauto.
  - rewrite (scene_cells_eq _ _ _ Hsc). by apply NoDup_cons.
Qed.

(** The parts of a scene object in a heap that agrees on them. *)
Lemma part_cells_same h h' sc sc' :
  same_refs sc sc' → same_at (part_cells h sc) h h' →
  part_cells h' sc' = part_cells h sc.
Proof.
  intros (Hc & Hch & Hi & Hm & Hr). unfold part_cells.
  rewrite Hc, Hch, Hi, Hm, Hr. rewrite !same_at_app.
  intros (Hsc & Hsch & _ & Hsm & _).
  rewrite (dict_cells_same h h' (SceneObject.characters sc)).
  2:{ apply Hsc. apply elem_of_cons. by left. }
  rewrite (list_cells_same h h' (SceneObject.motor_commands sc)).
  2:{ apply Hsm. apply elem_of_cons. by left. }
  destruct (SceneObject.choices sc) as [c|]; [|done]. cbn [opt_cells] in *.
  rewrite (list_cells_same h h' c); [done|].
  apply Hsch. apply elem_of_cons. by left.
Qed.

Lemma parts_readable_same h h' sc sc' :
  same_refs sc sc' → same_at (part_cells h sc) h h' →
  parts_readable h sc → parts_readable h' sc'.
Proof.
  intros (Hc & Hch & Hi & Hm & Hr). unfold part_cells, parts_readable.
  rewrite Hc, Hch, Hi, Hm, Hr. rewrite !same_at_app.
  intros (Hsc & Hsch & Hsi & Hsm & Hsr) (Pc & Pch & Pi & Pm & Pr).
  rewrite (read_dict_same the_sprite h h' _ Hsc).
  rewrite (read_list_same the_motor_command h h' _ Hsm).
  rewrite (read_opt_same (read_list the_choice h) (read_list the_choice h')
             (SceneObject.choices sc)).
  2:{ intros a Ha. rewrite Ha in Hsch. by apply read_list_same. }
  rewrite (read_opt_same (read the_input_request h) (read the_input_request h')
             (SceneObject.input_request sc)).
  2:{ intros a Ha. rewrite Ha in Hsi. apply read_same, Hsi. by apply list_elem_of_singleton. }
  rewrite (read_opt_same (read the_robot_pose h) (read the_robot_pose h')
             (SceneObject.robot_pose sc)).
  2:{ intros a Ha. rewrite Ha in Hsr. apply read_same, Hsr. by apply list_elem_of_singleton. }
  done.
Qed.

Lemma same_refs_refl sc : same_refs sc sc.
Proof. by repeat split. Qed.

(** A scene in a heap that agrees on its objects. *)
Lemma owned_same h h' s :
  same_at (scene_cells h s) h h' → owned h s → owned h' s.
Proof.
  intros Hsame [Hr Hnd]. split.
  - by rewrite (read_scene_same h h' s Hsame).
  - by rewrite (scene_cells_same h h' s Hsame).
Qed.

(** Assigning attributes that are not references. *)
Lemma assign_scene_local s f :
  (∀ sc, same_refs sc (f sc)) → local_step s (assign_scene s f).
Proof.
  intros Hf h Hown.
  destruct (owned_inv h s Hown) as (sc & Hsc & Hparts & Hs & Hnd & Hlt).
  assert (s < length h) as Hslt by (apply Hlt; by left).
  exists (), (<[s:=OScene (f sc)]> h).
  assert (same_at (part_cells h sc) h (<[s:=OScene (f sc)]> h)) as Hsame.
  { intros a Ha. apply list_lookup_insert_ne. by intros ->. }
  assert (read the_scene (<[s:=OScene (f sc)]> h) s = Some (f sc)) as Hsc'
    by by rewrite read_insert_eq.
  pose proof (part_cells_same h _ sc (f sc) (Hf sc) Hsame) as Hcells.
  split; [|split; [|split]].
  - unfold assign_scene. rewrite (bind_Some _ _ _ _ _ (load_scene_Some _ _ _ Hsc)).
    by apply store_Some.
  - apply frames_store. rewrite (scene_cells_eq _ _ _ Hsc). by left.
  - apply (owned_intro _ _ (f sc)); rewrite ?Hcells; try done.
    by apply (parts_readable_same h _ sc).
  - intros a. rewrite (scene_cells_eq _ _ _ Hsc'), (scene_cells_eq _ _ _ Hsc), Hcells.
    by left.
Qed.

(** Steps compose. *)
Lemma local_bind {A B} s (m : M A) (k : A → M B) :
  local_step s m → (∀ x, local_step s (k x)) → local_step s (m ≫= k).
Proof.
  intros Hm Hk h Hown.
  destruct (Hm h Hown) as (x & h1 & Hrun & Hfr & Hown1 & Hsub).
  destruct (Hk x h1 Hown1) as (y & h2 & Hrun2 & Hfr2 & Hown2 & Hsub2).
  exists y, h2. split; [|split; [|split]].
  - by rewrite (bind_Some _ _ _ _ _ Hrun).
  - eapply frames_trans; [done..|]. intros a Ha Hlt.
    destruct (Hsub a Ha) as [?|?]; [done|lia].
  - done.
  - intros a Ha. destruct Hfr as [Hlen _].
    destruct (Hsub2 a Ha) as [Ha1|?]; [|right; lia]. by apply Hsub.
Qed.

Lemma local_ret {A} s (x : A) : local_step s (mret x).
Proof.
  intros h Hown. exists x, h. split; [done|]. split; [apply frames_refl|].
  split; [done|]. by left.
Qed.

(** ** Replacing one part of a scene *)

Lemma NoDup_replace (X P P' Y : list addr) :
  NoDup (X ++ P ++ Y) → NoDup P' →
  (∀ a, a ∈ P' → a ∈ P ∨ ((a ∉ X) ∧ (a ∉ Y))) →
  NoDup (X ++ P' ++ Y).
Proof.
  rewrite !NoDup_app. intros (HX & HXPY & HP & HPY & HY) HP' Hsub.
  split; [done|]. split; [|split; [done|split; [|done]]].
  - intros a Ha. rewrite elem_of_app. intros [Ha'|Ha'].
    + destruct (Hsub a Ha') as [HaP|[HaX _]]; [|done].
      apply (HXPY a Ha). apply elem_of_app. by left.
    + apply (HXPY a Ha). apply elem_of_app. by right.
  - intros a Ha HaY. destruct (Hsub a Ha) as [HaP|[_ HaY']]; [|done].
    by apply (HPY a).
Qed.

(** The parts of a scene object, one by one, in a heap that agrees on
    them. *)
Lemma parts_same h h' sc :
  same_at (part_cells h sc) h h' →
  dict_cells h' (SceneObject.characters sc) = dict_cells h (SceneObject.characters sc)
  ∧ opt_cells (list_cells h') (SceneObject.choices sc)
    = opt_cells (list_cells h) (SceneObject.choices sc)
  ∧ list_cells h' (SceneObject.motor_commands sc)
    = list_cells h (SceneObject.motor_commands sc)
  ∧ read_dict the_sprite h' (SceneObject.characters sc)
    = read_dict the_sprite h (SceneObject.characters sc)
  ∧ read_opt (read_list the_choice h') (SceneObject.choices sc)
    = read_opt (read_list the_choice h) (SceneObject.choices sc)
  ∧ read_opt (read the_input_request h') (SceneObject.input_request sc)
    = read_opt (read the_input_request h) (SceneObject.input_request sc)
  ∧ read_list the_motor_command h' (SceneObject.motor_commands sc)
    = read_list the_motor_command h (SceneObject.motor_commands sc)
  ∧ read_opt (read the_robot_pose h') (SceneObject.robot_pose sc)
    = read_opt (read the_robot_pose h) (SceneObject.robot_pose sc).
Proof.
  unfold part_cells. rewrite !same_at_app.
  intros (Hsc & Hsch & Hsi & Hsm & Hsr).
  split; [|split; [|split; [|split; [|split; [|split; [|split]]]]]].
  - apply dict_cells_same, Hsc. apply elem_of_cons. by left.
  - destruct (SceneObject.choices sc) as [c|]; [|done]. cbn [opt_cells] in *.
    apply list_cells_same, Hsch. apply elem_of_cons. by left.
  - apply list_cells_same, Hsm. apply elem_of_cons. by left.
  - by apply read_dict_same.
  - apply read_opt_same. intros a Ha. rewrite Ha in Hsch. by apply read_list_same.
  - apply read_opt_same. intros a Ha. rewrite Ha in Hsi.
    apply read_same, Hsi. by apply list_elem_of_singleton.
  - by apply read_list_same.
  - apply read_opt_same. intros a Ha. rewrite Ha in Hsr.
    apply read_same, Hsr. by apply list_elem_of_singleton.
Qed.

(** Allocating [o], then storing a scene object at [s]: the objects of
    the old parts are as they were. *)
Lemma alloc_store_same h s sc' o A :
  (∀ a, a ∈ A → a < length h) → s ∉ A →
  same_at A h (<[s:=OScene sc']> (h ++ [o])).
Proof.
  intros Hlt Hs a Ha. rewrite list_lookup_insert_ne by (by intros ->).
  apply lookup_app_l. by apply Hlt.
Qed.

Lemma alloc_store_frames h s sc' o :
  frames (scene_cells h s) h (<[s:=OScene sc']> (h ++ [o])).
Proof.
  eapply frames_trans; [apply (frames_alloc _ h [o])|apply (frames_store [s]); by left|].
  intros a ->%list_elem_of_singleton _. unfold scene_cells. by left.
Qed.

(** [state.input_request = InputRequest(...)] *)
Lemma assign_input_request_local s x :
  local_step s (r ← alloc (OInputRequest x);
                assign_scene s (set_scene_input_request (Some r))).
Proof.
  intros h Hown.
  destruct (owned_inv h s Hown) as (sc & Hsc & Hparts & Hs & Hnd & Hlt).
  assert (s < length h) as Hslt by (apply Hlt; by left).
  set (sc' := set_scene_input_request (Some (length h)) sc).
  set (h' := <[s:=OScene sc']> (h ++ [OInputRequest x])).
  assert (same_at (part_cells h sc) h h') as Hsame.
  { apply alloc_store_same; [|done]. intros a Ha. apply Hlt. by right. }
  destruct (parts_same h h' sc Hsame) as (Ed & Ec & Em & Rd & Rc & _ & Rm & Rr).
  destruct Hparts as (Pd & Pc & Pi & Pm & Pr).
  assert (read the_scene h' s = Some sc') as Hsc'.
  { unfold h'. rewrite read_insert_eq; [done|]. rewrite length_app. lia. }
  assert (part_cells h' sc' =
            (dict_cells h (SceneObject.characters sc)
             ++ opt_cells (list_cells h) (SceneObject.choices sc))
            ++ [length h]
            ++ list_cells h (SceneObject.motor_commands sc)
            ++ opt_cells (λ r, [r]) (SceneObject.robot_pose sc)) as Hcells.
  { unfold part_cells, sc'. scene_fields. rewrite Ed, Ec, Em. by rewrite <- !app_assoc. }
  assert (∀ a, a ∈ part_cells h' sc' → a ∈ part_cells h sc ∨ length h ≤ a) as Hsub.
  { intros a. rewrite Hcells. unfold part_cells. rewrite !elem_of_app.
    rewrite list_elem_of_singleton. intros [[?|?]|[->|[?|?]]]; auto 10. }
  exists (), h'. split; [|split; [|split]].
  - assert (read the_scene (h ++ [OInputRequest x]) s = Some sc) as Hsc1
      by by rewrite read_app_l.
    unfold mbind at 1, M_bind at 1, alloc at 1.
    unfold assign_scene.
    rewrite (bind_Some _ _ _ _ _ (load_scene_Some _ _ _ Hsc1)).
    apply store_Some. rewrite length_app. lia.
  - apply alloc_store_frames.
  - apply (owned_intro _ _ sc' Hsc').
    + unfold parts_readable, sc'. scene_fields. rewrite Rd, Rc, Rm, Rr.
      do 2 (split; [done|]). split; [|done]. cbn [read_opt].
      unfold h', read. rewrite list_lookup_insert_ne by lia.
      rewrite list_lookup_middle by done. by eexists.
    + intros Hin. destruct (Hsub s Hin) as [?|?]; [done|lia].
    + rewrite Hcells. unfold part_cells in Hnd. rewrite app_assoc in Hnd.
      eapply NoDup_replace; [exact Hnd|apply NoDup_singleton|].
      intros a ->%list_elem_of_singleton. right.
      split; intros Ha; (assert (length h < length h); [|lia]); apply Hlt; right;
        unfold part_cells; rewrite !elem_of_app in *; tauto.
  - intros a. rewrite (scene_cells_eq _ _ _ Hsc'), (scene_cells_eq _ _ _ Hsc).
    rewrite !elem_of_cons. intros [->|Ha]; [by left; left|].
    destruct (Hsub a Ha); auto.
Qed.

(** [state.robot_pose = RobotPose(...)] *)
Lemma assign_robot_pose_local s x :
  local_step s (r ← alloc (ORobotPose x);
                assign_scene s (set_scene_robot_pose (Some r))).
Proof.
  intros h Hown.
  destruct (owned_inv h s Hown) as (sc & Hsc & Hparts & Hs & Hnd & Hlt).
  assert (s < length h) as Hslt by (apply Hlt; by left).
  set (sc' := set_scene_robot_pose (Some (length h)) sc).
  set (h' := <[s:=OScene sc']> (h ++ [ORobotPose x])).
  assert (same_at (part_cells h sc) h h') as Hsame.
  { apply alloc_store_same; [|done]. intros a Ha. apply Hlt. by right. }
  destruct (parts_same h h' sc Hsame) as (Ed & Ec & Em & Rd & Rc & Ri & Rm & _).
  destruct Hparts as (Pd & Pc & Pi & Pm & Pr).
  assert (read the_scene h' s = Some sc') as Hsc'.
  { unfold h'. rewrite read_insert_eq; [done|]. rewrite length_app. lia. }
  assert (part_cells h' sc' =
            (dict_cells h (SceneObject.characters sc)
             ++ opt_cells (list_cells h) (SceneObject.choices sc)
             ++ opt_cells (λ r, [r]) (SceneObject.input_request sc)
             ++ list_cells h (SceneObject.motor_commands sc))
            ++ [length h] ++ []) as Hcells.
  { unfold part_cells, sc'. scene_fields. rewrite Ed, Ec, Em. by rewrite <- !app_assoc. }
  assert (∀ a, a ∈ part_cells h' sc' → a ∈ part_cells h sc ∨ length h ≤ a) as Hsub.
  { intros a. rewrite Hcells. unfold part_cells. rewrite !elem_of_app.
    rewrite list_elem_of_singleton. intros [[?|[?|[?|?]]]|[->|[]%elem_of_nil]]; auto 10. }
  exists (), h'. split; [|split; [|split]].
  - assert (read the_scene (h ++ [ORobotPose x]) s = Some sc) as Hsc1
      by by rewrite read_app_l.
    unfold mbind at 1, M_bind at 1, alloc at 1.
    unfold assign_scene.
    rewrite (bind_Some _ _ _ _ _ (load_scene_Some _ _ _ Hsc1)).
    apply store_Some. rewrite length_app. lia.
  - apply alloc_store_frames.
  - apply (owned_intro _ _ sc' Hsc').
    + unfold parts_readable, sc'. scene_fields. rewrite Rd, Rc, Ri, Rm.
      do 4 (split; [done|]). cbn [read_opt].
      unfold h', read. rewrite list_lookup_insert_ne by lia.
      rewrite list_lookup_middle by done. by eexists.
    + intros Hin. destruct (Hsub s Hin) as [?|?]; [done|lia].
    + rewrite Hcells. apply NoDup_replace
        with (P := opt_cells (λ r, [r]) (SceneObject.robot_pose sc)).
      * rewrite app_nil_r, <- !app_assoc. exact Hnd.
      * apply NoDup_singleton.
      * intros a ->%list_elem_of_singleton. right.
        split; [|apply not_elem_of_nil].
        intros Ha. assert (length h < length h); [|lia]. apply Hlt; right.
        unfold part_cells. rewrite !elem_of_app in *. tauto.
  - intros a. rewrite (scene_cells_eq _ _ _ Hsc'), (scene_cells_eq _ _ _ Hsc).
    rewrite !elem_of_cons. intros [->|Ha]; [by left; left|].
    destruct (Hsub a Ha); auto.
Qed.

(** ** Steps that assign to one object of a scene *)

Lemma NoDup_app_notin (X P Y : list addr) w :
  NoDup (X ++ P ++ Y) → w ∈ P → (w ∉ X) ∧ (w ∉ Y).
Proof.
  rewrite !NoDup_app. intros (_ & HXPY & _ & HPY & _) Hw. split.
  - intros Hx. apply (HXPY w Hx). apply elem_of_app. by left.
  - by apply HPY.
Qed.

(** After allocations and an assignment to [w], the objects at other
    addresses are as they were. *)
Lemma write_same_at h k w o A :
  (∀ a, a ∈ A → a < length h) → w ∉ A → same_at A h (<[w:=o]> (h ++ k)).
Proof.
  intros Hlt Hw a Ha. rewrite list_lookup_insert_ne by (by intros ->).
  apply lookup_app_l. by apply Hlt.
Qed.

Lemma write_frames h k w o F :
  w ∈ F → frames F h (<[w:=o]> (h ++ k)).
Proof.
  intros Hw. eapply frames_trans; [apply (frames_alloc _ h k)|by apply (frames_store F)|done].
Qed.

Lemma choices_same h h' r :
  same_at (opt_cells (list_cells h) r) h h' →
  opt_cells (list_cells h') r = opt_cells (list_cells h) r
  ∧ read_opt (read_list the_choice h') r = read_opt (read_list the_choice h) r.
Proof.
  destruct r as [c|]; [|done]. cbn [opt_cells read_opt]. intros Hs. split.
  - apply list_cells_same, Hs. apply elem_of_cons. by left.
  - by rewrite (read_list_same the_choice h h' c Hs).
Qed.

Lemma leaf_same {A} (cls : object → option A) h h' r :
  same_at (opt_cells (λ r, [r]) r) h h' →
  read_opt (read cls h') r = read_opt (read cls h) r.
Proof.
  destruct r as [c|]; [|done]. cbn [opt_cells read_opt]. intros Hs.
  rewrite (read_same cls h h' c); [done|]. apply Hs. by apply list_elem_of_singleton.
Qed.

Lemma mapM_snoc {A} (f : addr → option A) items xs c x :
  mapM f items = Some xs → f c = Some x → mapM f (items ++ [c]) = Some (xs ++ [x]).
Proof.
  rewrite !mapM_Some. intros H Hc. apply Forall2_app; [done|]. by constructor.
Qed.

(** [l.append(x)] for a newly allocated [x] of the class of the list. *)
Lemma append_fresh {A} (cls : object → option A) h o x l xs :
  cls o = Some x → read_list cls h l = Some xs → NoDup (list_cells h l) →
  let h' := <[l:=OList (default [] (read the_list h l) ++ [length h])]> (h ++ [o]) in
  (c ← alloc o; append l c) h = Some ((), h')
  ∧ read_list cls h' l = Some (xs ++ [x])
  ∧ list_cells h' l = list_cells h l ++ [length h]
  ∧ NoDup (list_cells h' l).
Proof.
  intros Ho Hread Hnd h'.
  pose proof (read_list_lt cls h l xs Hread) as Hlt.
  unfold read_list in Hread. unfold list_cells in *.
  destruct (read the_list h l) as [items|] eqn:Hl; [|done]. simpl in Hread, Hnd, Hlt.
  assert (l < length h) as Hllt by (apply Hlt; by left).
  apply NoDup_cons in Hnd as [Hl_items Hnd].
  assert (read the_list h' l = Some (items ++ [length h])) as Hl'.
  { unfold h'. simpl. rewrite read_insert_eq; [done|]. rewrite length_app. lia. }
  split; [|split; [|split]].
  - unfold mbind at 1, M_bind at 1, alloc at 1. unfold append.
    assert (read the_list (h ++ [o]) l = Some items) as Hl1 by by rewrite read_app_l.
    rewrite (bind_Some _ _ _ _ _ (load_list_Some _ _ _ Hl1)).
    apply store_Some. rewrite length_app. lia.
  - unfold read_list. rewrite Hl'. simpl. apply mapM_snoc.
    + rewrite <- Hread. apply mapM_read_same.
      apply write_same_at; [|done]. intros a Ha. apply Hlt. by right.
    + unfold h', read. simpl. rewrite list_lookup_insert_ne by lia.
      by rewrite list_lookup_middle.
  - rewrite Hl'. done.
  - rewrite Hl'. simpl. apply NoDup_cons. split.
    + rewrite elem_of_app, list_elem_of_singleton. intros [?| ->]; [done|lia].
    + apply NoDup_app. split; [done|]. split; [|apply NoDup_singleton].
      intros a Ha ->%list_elem_of_singleton.
      assert (length h < length h); [|lia]. apply Hlt. by right.
Qed.

(** [state.motor_commands.append(MotorCommand(...))] *)
Lemma append_motor_command_local s motor_id position :
  local_step s (append_motor_command s motor_id position).
Proof.
  intros h Hown.
  destruct (owned_inv h s Hown) as (sc & Hsc & Hparts & Hs & Hnd & Hlt).
  destruct Hparts as (Pd & Pc & Pi & [ms Pm] & Pr).
  set (m := SceneObject.motor_commands sc).
  set (o := OMotorCommand (MotorCommand.make motor_id position)).
  assert (NoDup (list_cells h m)) as Hndm.
  { unfold part_cells in Hnd. rewrite !NoDup_app in Hnd. tauto. }
  destruct (append_fresh the_motor_command h o _ m ms eq_refl Pm Hndm)
    as (Hrun & Hread & Hcells & Hnd').
  set (h' := <[m:=OList (default [] (read the_list h m) ++ [length h])]> (h ++ [o])) in *.
  assert (m ∈ list_cells h m) as Hm by (apply elem_of_cons; by left).
  assert (m ∈ part_cells h sc) as Hmp.
  { unfold part_cells. rewrite !elem_of_app. auto. }
  assert (∀ A, (∀ a, a ∈ A → a ∈ (s :: part_cells h sc)) → m ∉ A → same_at A h h') as Hsame.
  { intros A HA HmA. apply write_same_at; [|done]. intros a Ha. by apply Hlt, HA. }
  unfold part_cells in Hnd.
  assert (read the_scene h' s = Some sc) as Hsc'.
  { rewrite <- Hsc. apply read_same, (Hsame [s]); [| |by apply list_elem_of_singleton].
    - intros a ->%list_elem_of_singleton. by left.
    - intros ->%list_elem_of_singleton. done. }
  assert (NoDup ((dict_cells h (SceneObject.characters sc)
                  ++ opt_cells (list_cells h) (SceneObject.choices sc)
                  ++ opt_cells (λ r, [r]) (SceneObject.input_request sc))
                 ++ list_cells h m
                 ++ opt_cells (λ r, [r]) (SceneObject.robot_pose sc))) as Hnd3
    by by rewrite <- !app_assoc.
  destruct (NoDup_app_notin _ _ _ m Hnd3 Hm) as [HmX HmR].
  rewrite !not_elem_of_app in HmX. destruct HmX as (HmD & HmC & HmI).
  assert (same_at (dict_cells h (SceneObject.characters sc)) h h') as SD.
  { apply Hsame; [|done]. intros a Ha. right. unfold part_cells.
    rewrite !elem_of_app. auto. }
  assert (same_at (opt_cells (list_cells h) (SceneObject.choices sc)) h h') as SC.
  { apply Hsame; [|done]. intros a Ha. right. unfold part_cells.
    rewrite !elem_of_app. auto. }
  assert (same_at (opt_cells (λ r, [r]) (SceneObject.input_request sc)) h h') as SI.
  { apply Hsame; [|done]. intros a Ha. right. unfold part_cells.
    rewrite !elem_of_app. auto. }
  assert (same_at (opt_cells (λ r, [r]) (SceneObject.robot_pose sc)) h h') as SR.
  { apply Hsame; [|done]. intros a Ha. right. unfold part_cells.
    rewrite !elem_of_app. auto 10. }
  destruct (choices_same h h' _ SC) as [EC RC].
  assert (part_cells h' sc =
            (dict_cells h (SceneObject.characters sc)
             ++ opt_cells (list_cells h) (SceneObject.choices sc)
             ++ opt_cells (λ r, [r]) (SceneObject.input_request sc))
            ++ (list_cells h m ++ [length h])
            ++ opt_cells (λ r, [r]) (SceneObject.robot_pose sc)) as Hcells'.
  { unfold part_cells. fold m. rewrite Hcells, EC.
    rewrite (dict_cells_same h h' (SceneObject.characters sc)).
    - by rewrite <- !app_assoc.
    - apply SD. apply elem_of_cons. by left. }
  assert (∀ a, a ∈ part_cells h' sc → a ∈ part_cells h sc ∨ length h ≤ a) as Hsub.
  { intros a. rewrite Hcells'. unfold part_cells. fold m. rewrite !elem_of_app.
    rewrite list_elem_of_singleton. intros [[?|[?|?]]|[[?| ->]|?]]; auto 10. }
  exists (), h'. split; [|split; [|split]].
  - unfold append_motor_command.
    unfold mbind at 1, M_bind at 1, alloc at 1.
    assert (read the_scene (h ++ [o]) s = Some sc) as Hsc1.
    { rewrite read_app_l; [done|]. apply Hlt. by left. }
    fold o. rewrite (bind_Some _ _ _ _ _ (load_scene_Some _ _ _ Hsc1)).
    revert Hrun. unfold mbind at 1, M_bind at 1, alloc at 1. done.
  - apply write_frames. rewrite (scene_cells_eq _ _ _ Hsc). by right.
  - apply (owned_intro _ _ sc Hsc').
    + unfold parts_readable. fold m.
      rewrite (read_dict_same the_sprite h h' _ SD), RC.
      rewrite (leaf_same the_input_request h h' _ SI).
      rewrite (leaf_same the_robot_pose h h' _ SR), Hread.
      do 3 (split; [done|]). split; [by eexists|done].
    + intros Hin. destruct (Hsub s Hin) as [?|?]; [done|].
      assert (s < length h); [|lia]. apply Hlt. by left.
    + rewrite Hcells'. apply NoDup_replace with (P := list_cells h m).
      * exact Hnd3.
      * by rewrite <- Hcells.
      * intros a. rewrite elem_of_app, list_elem_of_singleton. intros [?| ->]; [by left|].
        right. split; intros Ha; (assert (length h < length h); [|lia]);
          apply Hlt; right; unfold part_cells; rewrite !elem_of_app in *; tauto.
  - intros a. rewrite (scene_cells_eq _ _ _ Hsc'), (scene_cells_eq _ _ _ Hsc).
    rewrite !elem_of_cons. intros [->|Ha]; [by left; left|].
    destruct (Hsub a Ha); auto.
Qed.

Lemma append_motor_commands_local s commands :
  local_step s (append_motor_commands s commands).
Proof.
  induction commands as [|[motor_id position] commands IH]; [apply local_ret|].
  cbn [append_motor_commands]. apply local_bind; [|done].
  apply append_motor_command_local.
Qed.

(** ** Assigning to a sprite of a scene *)

Lemma get_elem_of {V} (items : Py.dict V) name a :
  Py.get items name = Some a → a ∈ items.*2.
Proof.
  induction items as [|[k v] items IH]; [done|]. simpl.
  destruct (String.eqb k name).
  - intros [= ->]. by left.
  - intros H. right. by apply IH.
Qed.

Lemma read_dict_is_Some {A} (cls : object → option A) h d :
  is_Some (read_dict cls h d) ↔
  ∃ items, read the_dict h d = Some items
           ∧ Forall (λ a, is_Some (read cls h a)) items.*2.
Proof.
  unfold read_dict. split.
  - destruct (read the_dict h d) as [items|]; [|by intros [? ?]].
    simpl. intros H%mapM_is_Some. exists items. split; [done|].
    rewrite Forall_forall in H. apply Forall_forall.
    intros a (kv & -> & Hkv)%list_elem_of_fmap.
    specialize (H kv Hkv). simpl in H. by apply fmap_is_Some in H.
  - intros (items & -> & H). simpl. apply mapM_is_Some.
    rewrite Forall_forall in H. apply Forall_forall.
    intros [k a] Hkv. simpl. apply fmap_is_Some. apply H.
    apply list_elem_of_fmap. by exists (k, a).
Qed.

Lemma assign_sprite_at s name f h sc items a :
  owned h s → read the_scene h s = Some sc →
  read the_dict h (SceneObject.characters sc) = Some items →
  Py.get items name = Some a →
  ∃ h', assign_sprite s name f h = Some ((), h')
    ∧ frames (scene_cells h s) h h'
    ∧ owned h' s
    ∧ scene_cells h' s = scene_cells h s
    ∧ read the_scene h' s = Some sc
    ∧ read the_dict h' (SceneObject.characters sc) = Some items.
Proof.
  intros Hown Hsc Hitems Hget.
  destruct (owned_inv h s Hown) as (sc0 & Hsc0 & Hparts & Hs & Hnd & Hlt).
  assert (sc0 = sc) as -> by congruence. clear Hsc0.
  destruct Hparts as (Pd & Pc & Pi & Pm & Pr).
  set (d := SceneObject.characters sc) in *.
  apply get_elem_of in Hget as Ha.
  assert (a ∈ dict_cells h d) as Had.
  { unfold dict_cells. rewrite Hitems. by right. }
  assert (a ∈ part_cells h sc) as Hap.
  { unfold part_cells. fold d. rewrite !elem_of_app. auto. }
  pose proof Pd as Pd'. apply read_dict_is_Some in Pd' as (items' & Hitems' & Hall).
  assert (items' = items) as -> by congruence.
  rewrite Forall_forall in Hall. destruct (Hall a Ha) as [sprite Hsprite].
  set (h' := <[a:=OSprite (f sprite)]> h).
  unfold part_cells in Hnd. fold d in Hnd.
  destruct (NoDup_app_notin [] _ _ a Hnd Had) as [_ HaY].
  rewrite !not_elem_of_app in HaY. destruct HaY as (HaC & HaI & HaM & HaR).
  assert (a ≠ d) as Had'.
  { assert (NoDup (dict_cells h d)) as Hd by (rewrite !NoDup_app in Hnd; tauto).
    unfold dict_cells in Hd. rewrite Hitems in Hd. simpl in Hd.
    apply NoDup_cons in Hd as [Hd _]. intros Heq. apply Hd. by rewrite <- Heq. }
  assert (a ≠ s) as Has by (by intros ->).
  assert (∀ A, (∀ b, b ∈ A → b ∈ (s :: part_cells h sc)) → a ∉ A → same_at A h h') as Hsame.
  { intros A HA HaA b Hb. apply list_lookup_insert_ne. by intros ->. }
  assert (read the_scene h' s = Some sc) as Hsc'.
  { rewrite <- Hsc. apply read_same. apply list_lookup_insert_ne. done. }
  assert (read the_dict h' d = Some items) as Hitems''.
  { rewrite <- Hitems. apply read_same. apply list_lookup_insert_ne. done. }
  assert (same_at (opt_cells (list_cells h) (SceneObject.choices sc)) h h') as SC.
  { apply Hsame; [|done]. intros b Hb. right. unfold part_cells.
    rewrite !elem_of_app. auto. }
  assert (same_at (opt_cells (λ r, [r]) (SceneObject.input_request sc)) h h') as SI.
  { apply Hsame; [|done]. intros b Hb. right. unfold part_cells.
    rewrite !elem_of_app. auto. }
  assert (same_at (list_cells h (SceneObject.motor_commands sc)) h h') as SM.
  { apply Hsame; [|done]. intros b Hb. right. unfold part_cells.
    rewrite !elem_of_app. auto 10. }
  assert (same_at (opt_cells (λ r, [r]) (SceneObject.robot_pose sc)) h h') as SR.
  { apply Hsame; [|done]. intros b Hb. right. unfold part_cells.
    rewrite !elem_of_app. auto 10. }
  destruct (choices_same h h' _ SC) as [EC RC].
  assert (part_cells h' sc = part_cells h sc) as Hcells.
  { unfold part_cells. fold d. rewrite EC.
    rewrite (dict_cells_same h h' d) by (by apply list_lookup_insert_ne).
    by rewrite (list_cells_same h h' (SceneObject.motor_commands sc))
      by (apply SM, elem_of_cons; by left). }
  assert (a < length h) as Halt by (apply Hlt; by right).
  exists h'. split; [|split; [|split; [|split; [|done]]]].
  - unfold assign_sprite.
    rewrite (bind_Some _ _ _ _ _ (load_scene_Some _ _ _ Hsc)).
    rewrite (bind_Some _ _ _ _ _ (load_dict_Some _ _ _ Hitems)).
    rewrite Hget. rewrite (bind_Some _ _ _ _ _ (load_sprite_Some _ _ _ Hsprite)).
    by apply store_Some.
  - apply frames_store. rewrite (scene_cells_eq _ _ _ Hsc). by right.
  - apply (owned_intro _ _ sc Hsc'); rewrite ?Hcells; [|done|done].
    unfold parts_readable. fold d.
    rewrite RC, (leaf_same the_input_request h h' _ SI).
    rewrite (leaf_same the_robot_pose h h' _ SR).
    rewrite (read_list_same the_motor_command h h' _ SM).
    split; [|done]. apply read_dict_is_Some. exists items. split; [done|].
    apply Forall_forall. intros b Hb. destruct (decide (b = a)) as [->|Hne].
    + unfold h'. rewrite read_insert_eq by done. by eexists.
    + rewrite (read_same the_sprite h h' b); [by apply Hall|].
      by apply list_lookup_insert_ne.
  - by rewrite (scene_cells_eq _ _ _ Hsc'), (scene_cells_eq _ _ _ Hsc), Hcells.
Qed.

(** The commands on a character: nothing happens when the name is not in
    the dict of the scene. *)
Lemma sprite_command_local s name (body : M unit) :
  (∀ h sc items a,
     owned h s → read the_scene h s = Some sc →
     read the_dict h (SceneObject.characters sc) = Some items →
     Py.get items name = Some a →
     ∃ h', body h = Some ((), h') ∧ frames (scene_cells h s) h h'
           ∧ owned h' s ∧ scene_cells h' s = scene_cells h s) →
  local_step s (present ← has_character s name;
                if present : bool then body else mret ()).
Proof.
  intros Hbody h Hown.
  destruct (owned_inv h s Hown) as (sc & Hsc & Hparts & _).
  destruct Hparts as (Pd & _).
  apply read_dict_is_Some in Pd as (items & Hitems & _).
  assert (has_character s name h
          = Some (bool_decide (is_Some (Py.get items name)), h)) as Hhas.
  { unfold has_character.
    rewrite (bind_Some _ _ _ _ _ (load_scene_Some _ _ _ Hsc)).
    by rewrite (bind_Some _ _ _ _ _ (load_dict_Some _ _ _ Hitems)). }
  rewrite (bind_Some _ _ _ _ _ Hhas).
  destruct (Py.get items name) as [a|] eqn:Hget.
  - rewrite bool_decide_eq_true_2 by by eexists.
    destruct (Hbody h sc items a Hown Hsc Hitems Hget) as (h' & Hrun & Hfr & Hown' & Hcells).
    exists (), h'. do 3 (split; [done|]). intros b. rewrite Hcells. by left.
  - rewrite bool_decide_eq_false_2 by (by intros [? ?]).
    by apply local_ret.
Qed.

Lemma assign_sprite_local s name f :
  local_step s (present ← has_character s name;
                if present : bool then assign_sprite s name f else mret ()).
Proof.
  apply sprite_command_local. intros h sc items a Hown Hsc Hitems Hget.
  destruct (assign_sprite_at s name f h sc items a Hown Hsc Hitems Hget)
    as (h' & ? & ? & ? & ? & _).
  by exists h'.
Qed.

Lemma assign_sprite_twice_local s name f g :
  local_step s (present ← has_character s name;
                if present : bool
                then assign_sprite s name f;; assign_sprite s name g
                else mret ()).
Proof.
  apply sprite_command_local. intros h sc items a Hown Hsc Hitems Hget.
  destruct (assign_sprite_at s name f h sc items a Hown Hsc Hitems Hget)
    as (h1 & Hrun1 & Hfr1 & Hown1 & Hcells1 & Hsc1 & Hitems1).
  destruct (assign_sprite_at s name g h1 sc items a Hown1 Hsc1 Hitems1 Hget)
    as (h2 & Hrun2 & Hfr2 & Hown2 & Hcells2 & _).
  exists h2. split; [by rewrite (bind_Some _ _ _ _ _ Hrun1)|].
  split; [|split; [done|congruence]].
  eapply frames_trans; [done..|]. intros b. by rewrite Hcells1.
Qed.

End StepFacts.

(* ===================================================================== *)
(** * Emitting a scene: [_clone_state], steps, [_push_state] *)
(* ===================================================================== *)

Module EmitFacts.
Import Heap Sharing HeapFacts CopyFacts StepFacts VisualNovelBuilder.
Local Open Scope nat_scope.

Lemma bind_assoc {A B C} (m : M A) (f : A → M B) (g : B → M C) h :
  (m ≫= λ x, f x ≫= g) h = ((m ≫= f) ≫= g) h.
Proof. unfold mbind, M_bind. by destruct (m h) as [[a h']|]. Qed.

Lemma consistent_inv h self :
  consistent h self →
  ∃ states, read the_list h (_states self) = Some states
    ∧ is_Some (read_dict the_sprite h (_current_sprites self))
    ∧ Forall (λ s, is_Some (read_scene h s)) states
    ∧ NoDup (regions h self states)
    ∧ (∀ a, a ∈ regions h self states → a < length h).
Proof.
  intros (states & Hst & Htpl & Hsc & Hnd). exists states.
  assert (is_Some (read_dict the_sprite h (_current_sprites self))) as Hd.
  { unfold read_template in Htpl. destruct (read_dict _ _ _); [by eexists|].
    by destruct Htpl. }
  do 4 (split; [done|]).
  intros a. unfold regions, template_cells. rewrite elem_of_cons, elem_of_app.
  intros [->|[Ha|Ha]].
  - by eapply read_lt.
  - destruct Hd as [d Hd]. by eapply read_dict_lt.
  - apply list_elem_of_join in Ha as (cells & Ha & Hcells).
    apply list_elem_of_fmap in Hcells as (s & -> & Hs).
    rewrite Forall_forall in Hsc. destruct (Hsc s Hs) as [v Hv].
    by eapply read_scene_lt.
Qed.

Lemma read_template_is_Some h self :
  is_Some (read_dict the_sprite h (_current_sprites self)) →
  is_Some (read_template h self).
Proof. intros [d Hd]. unfold read_template. rewrite Hd. by eexists. Qed.

(** [_clone_state] builds a scene out of new objects. *)
Lemma clone_building h0 self :
  consistent h0 self →
  ∃ s h1, _clone_state self h0 = Some (s, h1) ∧ building h0 s h1.
Proof.
  intros Hc. destruct (consistent_inv h0 self Hc) as (states & _ & [d Hd] & _ & Hnd & _).
  assert (NoDup (dict_cells h0 (_current_sprites self))) as Hndd.
  { unfold regions, template_cells in Hnd. apply NoDup_cons in Hnd as [_ Hnd].
    by apply NoDup_app in Hnd as [Hnd _]. }
  destruct (deepcopy_fresh _ _ _ Hd Hndd) as (d' & k & Hcopy & Hd' & Hnd' & Hge & Hlt).
  set (h1 := h0 ++ k) in *.
  set (m := length h1).
  set (sc := {| SceneObject.background_url := _current_background self;
                SceneObject.background_label := _current_label self;
                SceneObject.characters := d';
                SceneObject.speaker := "";
                SceneObject.text := "";
                SceneObject.show_camera := _current_show_camera self;
                SceneObject.show_voice := _current_show_voice self;
                SceneObject.show_motors := _current_show_motors self;
                SceneObject.show_robot := _current_show_robot self;
                SceneObject.background_blur := _current_background_blur self;
                SceneObject.stage_url := _current_stage self;
                SceneObject.stage_blur := _current_stage_blur self;
                SceneObject.choices := None;
                SceneObject.input_request := None;
                SceneObject.path := _current_path self;
                SceneObject.motor_commands := m;
                SceneObject.audio_file := None;
                SceneObject.robot_pose := None |}).
  set (h2 := h1 ++ [OList []; OScene sc]).
  exists (S m), h2.
  assert (read the_scene h2 (S m) = Some sc) as Hsc.
  { unfold h2, m, read. replace (h1 ++ [OList []; OScene sc])
      with ((h1 ++ [OList []]) ++ [OScene sc]) by by rewrite <- app_assoc.
    replace (S (length h1)) with (length (h1 ++ [OList []]))
      by (rewrite length_app; simpl; lia).
    by rewrite list_lookup_middle. }
  assert (read the_list h2 m = Some []) as Hm.
  { unfold h2, m, read. by rewrite list_lookup_middle. }
  assert (same_at (dict_cells h1 d') h1 h2) as Hsame.
  { intros a Ha. apply lookup_app_l. by apply Hlt. }
  assert (part_cells h2 sc = dict_cells h1 d' ++ [m]) as Hcells.
  { unfold part_cells. cbn [SceneObject.characters SceneObject.choices
      SceneObject.input_request SceneObject.motor_commands SceneObject.robot_pose
      sc opt_cells].
    rewrite (dict_cells_same h1 h2 d') by (apply Hsame, elem_of_cons; by left).
    unfold list_cells. rewrite Hm. reflexivity. }
  split; [|split; [|split]].
  - unfold _clone_state. rewrite (bind_Some _ _ _ _ _ Hcopy).
    unfold mbind, M_bind, alloc. fold h1. unfold h2.
    rewrite length_app. simpl. rewrite <- app_assoc. simpl.
    by rewrite Nat.add_1_r.
  - unfold h2, h1. rewrite <- app_assoc. apply frames_alloc.
  - apply (owned_intro _ _ sc Hsc).
    + unfold parts_readable. cbn [SceneObject.characters SceneObject.choices
        SceneObject.input_request SceneObject.motor_commands SceneObject.robot_pose
        sc read_opt].
      rewrite (read_dict_same the_sprite h1 h2 d' Hsame), Hd'.
      unfold read_list. rewrite Hm. simpl. repeat split; by eexists.
    + rewrite Hcells, not_elem_of_app, list_elem_of_singleton. split; [|lia].
      intros Ha. apply Hlt in Ha. fold m in Ha. lia.
    + rewrite Hcells. apply NoDup_app. split; [done|]. split; [|apply NoDup_singleton].
      intros a Ha ->%list_elem_of_singleton. apply Hlt in Ha. fold m in Ha. lia.
  - intros a. rewrite (scene_cells_eq _ _ _ Hsc), Hcells, elem_of_cons, elem_of_app.
    rewrite list_elem_of_singleton.
    assert (length h0 ≤ m) by (unfold m, h1; rewrite length_app; lia).
    intros [->|[Ha| ->]]; [lia|by apply Hge|lia].
Qed.

(** A step on the new scene keeps the command in the same situation. *)
Lemma building_step {A} h0 s (m : M A) h1 :
  local_step s m → building h0 s h1 →
  ∃ x h2, m h1 = Some (x, h2) ∧ building h0 s h2.
Proof.
  intros Hm (Hfr & Hown & Hge).
  destruct (Hm h1 Hown) as (x & h2 & Hrun & Hfr2 & Hown2 & Hsub).
  exists x, h2. split; [done|]. split; [|split; [done|]].
  - eapply frames_trans; [done..|]. intros a Ha Hlt. apply Hge in Ha. lia.
  - intros a Ha. destruct (Hsub a Ha) as [Ha'|Ha']; [by apply Hge|].
    destruct Hfr. lia.
Qed.

Lemma pushes_step {A} h0 self s (m : M A) (k : A → M t) :
  local_step s m → (∀ x, pushes h0 self s (k x)) → pushes h0 self s (m ≫= k).
Proof.
  intros Hm Hk h1 Hb.
  destruct (building_step h0 s m h1 Hm Hb) as (x & h2 & Hrun & Hb2).
  destruct (Hk x h2 Hb2) as (self' & h' & Hrun' & Hpost).
  exists self', h'. split; [|done]. by rewrite (bind_Some _ _ _ _ _ Hrun).
Qed.

Lemma pushes_ext h0 self s (k k' : M t) :
  (∀ h, k h = k' h) → pushes h0 self s k' → pushes h0 self s k.
Proof. intros Heq Hk h1 Hb. rewrite Heq. by apply Hk. Qed.

Lemma join_snoc (f : addr → list addr) states s :
  mjoin (f <$> (states ++ [s])) = mjoin (f <$> states) ++ f s.
Proof. rewrite fmap_app, join_app. simpl. by rewrite app_nil_r. Qed.

(** The scenes of a consistent builder in a heap that agrees on them. *)
Lemma scenes_same h h' (states : list addr) :
  (∀ s, s ∈ states → same_at (scene_cells h s) h h') →
  Forall (λ s, is_Some (read_scene h s)) states →
  Forall (λ s, is_Some (read_scene h' s)) states
  ∧ scene_cells h' <$> states = scene_cells h <$> states
  ∧ mapM (read_scene h') states = mapM (read_scene h) states.
Proof.
  intros Hsame Hall. split; [|split].
  - rewrite Forall_forall in Hall. apply Forall_forall. intros s Hs.
    rewrite (read_scene_same h h' s); auto.
  - apply list_fmap_ext. intros i s Hs%list_elem_of_lookup_2.
    apply scene_cells_same; auto.
  - clear Hall. induction states as [|s states IH]; [done|].
    simpl. rewrite (read_scene_same h h' s) by (apply Hsame; by left).
    rewrite IH; [done|]. intros s' Hs'. apply Hsame. by right.
Qed.

(** [_push_state] at the end of a command. *)
Lemma pushes_push h0 self s :
  consistent h0 self → pushes h0 self s (_push_state self s).
Proof.
  intros Hc h1 (Hfr & Hown & Hge).
  destruct (consistent_inv h0 self Hc) as (states & Hst & _ & Hsc & Hnd & Hlt).
  set (g := _states self) in *.
  destruct Hfr as [Hlen Hfr].
  assert (g < length h0) as Hg by (apply Hlt; by left).
  assert (read the_list h1 g = Some states) as Hst1.
  { rewrite <- Hst. apply read_same, Hfr; [done|apply not_elem_of_nil]. }
  set (h2 := <[g:=OList (states ++ [s])]> h1).
  assert (length h2 = length h1) as Hlen2 by apply length_insert.
  assert (g ∉ scene_cells h1 s) as Hgs.
  { intros Hin. apply Hge in Hin. lia. }
  assert (same_at (scene_cells h1 s) h1 h2) as Hsame12.
  { intros a Ha. apply list_lookup_insert_ne. by intros ->. }
  pose proof (owned_same h1 h2 s Hsame12 Hown) as Hown2.
  destruct (owned_inv h2 s Hown2) as (sc & Hscene & Hparts & Hs & Hndp & Hlts).
  destruct Hparts as ([d Hd] & _).
  assert (NoDup (dict_cells h2 (SceneObject.characters sc))) as Hndd.
  { unfold part_cells in Hndp. by apply NoDup_app in Hndp as [? _]. }
  destruct (deepcopy_fresh _ _ _ Hd Hndd) as (d' & k & Hcopy & Hd' & Hnd' & Hge' & Hlt').
  set (h3 := h2 ++ k) in *.
  set (self' := make g (_character_defs self)
          (SceneObject.background_url sc) (SceneObject.background_label sc) d'
          (_current_show_camera self) (_current_show_voice self)
          (_current_show_motors self) (_current_show_robot self)
          (_current_background_blur self) (_current_stage self)
          (_current_stage_blur self) (_current_path self)).
  exists self', h3.
  assert (frames [g] h0 h3) as Hfr3.
  { split; [unfold h3; rewrite length_app; lia|].
    intros a Ha Hag. unfold h3. rewrite lookup_app_l by lia.
    unfold h2. rewrite list_lookup_insert_ne.
    - apply Hfr; [done|apply not_elem_of_nil].
    - intros ->. apply Hag. by apply list_elem_of_singleton. }
  assert (read the_list h3 g = Some (states ++ [s])) as Hst3.
  { unfold h3. rewrite read_app_l by lia. unfold h2. rewrite read_insert_eq; [done|lia]. }
  (* the scenes emitted before *)
  assert (∀ s', s' ∈ states → same_at (scene_cells h0 s') h0 h3) as Hold.
  { intros s' Hs'. eapply frames_same_at; [exact Hfr3|]. intros a Ha.
    assert (a ∈ mjoin (scene_cells h0 <$> states)) as Hin.
    { apply list_elem_of_join. exists (scene_cells h0 s'). split; [done|].
      apply list_elem_of_fmap. by exists s'. }
    split.
    - apply Hlt. unfold regions. right. apply elem_of_app. by right.
    - intros ->%list_elem_of_singleton. unfold regions in Hnd.
      apply NoDup_cons in Hnd as [Hnd _]. apply Hnd. apply elem_of_app. by right. }
  destruct (scenes_same h0 h3 states Hold Hsc) as (Hsc3 & Hcells3 & _).
  (* the new scene *)
  assert (same_at (scene_cells h2 s) h2 h3) as Hsame23.
  { intros a Ha. apply lookup_app_l. apply Hlts.
    by rewrite <- (scene_cells_eq _ _ _ Hscene). }
  pose proof (owned_same h2 h3 s Hsame23 Hown2) as [Hread3 Hnd3].
  rewrite (scene_cells_same h2 h3 s Hsame23),
          (scene_cells_same h1 h2 s Hsame12) in Hnd3.
  assert (scene_cells h3 s = scene_cells h1 s) as Hcells_s.
  { by rewrite (scene_cells_same h2 h3 s Hsame23), (scene_cells_same h1 h2 s Hsame12). }
  assert (∀ a, a ∈ scene_cells h1 s → a < length h1) as Hlts1.
  { intros a Ha. rewrite <- Hlen2. apply Hlts.
    by rewrite <- (scene_cells_eq _ _ _ Hscene), (scene_cells_same h1 h2 s Hsame12). }
  split.
  { unfold _push_state. fold g.
    rewrite (bind_Some _ _ _ _ _ (append_run _ _ _ s Hst1)). fold h2.
    rewrite (bind_Some _ _ _ _ _ (load_scene_Some _ _ _ Hscene)).
    by rewrite (bind_Some _ _ _ _ _ Hcopy). }
  split; [|split; [done|split; [done|split]]].
  - exists (states ++ [s]). split; [done|]. split; [|split].
    + apply read_template_is_Some. by eexists.
    + apply Forall_app. split; [done|]. by constructor.
    + unfold regions, template_cells. cbn [_states _current_sprites self'].
      rewrite join_snoc, Hcells3, Hcells_s.
      rewrite app_assoc. apply NoDup_cons. split.
      * rewrite !elem_of_app. intros [[Ha|Ha]|Ha].
        -- apply Hge' in Ha. lia.
        -- unfold regions in Hnd. apply NoDup_cons in Hnd as [Hnd _].
           apply Hnd. apply elem_of_app. by right.
        -- by apply Hgs.
      * apply NoDup_app. split; [|split; [|done]].
        -- apply (NoDup_replace [] (template_cells h0 self)).
           ++ unfold regions in Hnd. by apply NoDup_cons in Hnd as [_ Hnd].
           ++ done.
           ++ intros a Ha. right. split; [apply not_elem_of_nil|].
              intros Hin. apply Hge' in Ha.
              assert (a < length h0); [|lia]. apply Hlt. unfold regions.
              right. apply elem_of_app. by right.
        -- intros a. rewrite elem_of_app. intros [Ha|Ha] Has.
           ++ apply Hge' in Ha. apply Hlts1 in Has. lia.
           ++ apply Hge in Has. assert (a < length h0); [|lia].
              apply Hlt. unfold regions. right. apply elem_of_app. by right.
  - intros states' Hst'. fold g in Hst'. rewrite Hst in Hst'. by injection Hst' as <-.
  - apply Hge. unfold scene_cells. by left.
Qed.

(** The assignments of scalars keep the references of the scene. *)
Lemma set_scene_background_refs url label sc :
  same_refs sc (set_scene_background url label sc).
Proof. by repeat split. Qed.

Lemma set_scene_line_refs speaker text sc :
  same_refs sc (set_scene_line speaker text sc).
Proof. by repeat split. Qed.

Lemma set_scene_audio_file_refs f sc :
  same_refs sc (set_scene_audio_file f sc).
Proof. by repeat split. Qed.

(** Every command that emits a scene: it runs to its end, appends one new
    scene to the list, keeps the builder consistent, and leaves every
    object that existed before as it was, except the list itself. *)
Lemma emits_emitted h0 self c :
  consistent h0 self → emits c = true →
  ∃ s self' h', call self c h0 = Some (self', h') ∧ emitted h0 self s self' h'.
Proof.
  intros Hc Hemit.
  destruct (clone_building h0 self Hc) as (s & h1 & Hclone & Hb).
  pose proof (pushes_push h0 self s Hc) as Hpush.
  exists s.
  assert (∀ k : addr → M t, pushes h0 self s (k s) →
            ∃ self' h', (_clone_state self ≫= k) h0 = Some (self', h')
                        ∧ emitted h0 self s self' h') as Hrest.
  { intros k Hk. destruct (Hk h1 Hb) as (self' & h' & Hrun & Hpost).
    exists self', h'. split; [|done]. by rewrite (bind_Some _ _ _ _ _ Hclone). }
  destruct c; try discriminate Hemit; cbn [call]; apply Hrest.
  - (* set_background *)
    apply pushes_step; [apply assign_scene_local; intros; apply set_scene_background_refs|].
    intros _. apply pushes_step; [|done].
    apply assign_scene_local; intros; apply set_scene_background_refs.
  - (* show_character *)
    eapply pushes_ext; [intros h; apply bind_assoc|].
    apply pushes_step; [apply assign_sprite_twice_local|done].
  - (* hide_character *)
    eapply pushes_ext; [intros h; apply bind_assoc|].
    apply pushes_step; [apply assign_sprite_local|done].
  - (* move_character *)
    eapply pushes_ext; [intros h; apply bind_assoc|].
    apply pushes_step; [apply assign_sprite_local|done].
  - (* change_character_sprite *)
    eapply pushes_ext; [intros h; apply bind_assoc|].
    apply pushes_step; [apply assign_sprite_local|done].
  - (* set_character_animation *)
    eapply pushes_ext; [intros h; apply bind_assoc|].
    apply pushes_step; [apply assign_sprite_local|done].
  - (* set_character_scale *)
    eapply pushes_ext; [intros h; apply bind_assoc|].
    apply pushes_step; [apply assign_sprite_local|done].
  - (* dialogue *)
    apply pushes_step; [apply assign_scene_local; intros; apply set_scene_line_refs|].
    intros _. apply pushes_step; [|done].
    apply assign_scene_local; intros; apply set_scene_line_refs.
  - (* narration *)
    apply pushes_step; [apply assign_scene_local; intros; apply set_scene_line_refs|].
    intros _. apply pushes_step; [|done].
    apply assign_scene_local; intros; apply set_scene_line_refs.
  - (* request_input *)
    eapply pushes_ext; [intros h; apply bind_assoc|].
    apply pushes_step; [apply assign_input_request_local|done].
  - (* send_motor_command *)
    apply pushes_step; [apply append_motor_command_local|done].
  - (* send_motor_commands *)
    apply pushes_step; [apply append_motor_commands_local|done].
  - (* send_robot_pose *)
    eapply pushes_ext; [intros h; apply bind_assoc|].
    apply pushes_step; [apply assign_robot_pose_local|done].
  - (* play_sound *)
    apply pushes_step; [|done].
    apply assign_scene_local; intros; apply set_scene_audio_file_refs.
Qed.

End EmitFacts.

(* ===================================================================== *)
(** * [add_choice] *)
(* ===================================================================== *)

Module ChoiceFacts.
Import Heap Sharing HeapFacts CopyFacts StepFacts EmitFacts VisualNovelBuilder.
Local Open Scope nat_scope.

Lemma read_scene_Some h s v :
  read_scene h s = Some v ↔
  ∃ sc d ch ir ms rp,
    read the_scene h s = Some sc ∧ reads h sc d ch ir ms rp
    ∧ v = scene_value sc d ch ir ms rp.
Proof.
  unfold read_scene, reads. split.
  - destruct (read the_scene h s) as [sc|] eqn:E0; [|done]. cbn [mbind option_bind].
    destruct (read_dict _ _ _) as [d|] eqn:E1; [|done]. cbn [mbind option_bind].
    destruct (read_opt (read_list _ _) _) as [ch|] eqn:E2; [|done].
    cbn [mbind option_bind].
    destruct (read_opt (read the_input_request _) _) as [ir|] eqn:E3; [|done].
    cbn [mbind option_bind].
    destruct (read_list _ _ _) as [ms|] eqn:E4; [|done]. cbn [mbind option_bind].
    destruct (read_opt (read the_robot_pose _) _) as [rp|] eqn:E5; [|done].
    cbn [mbind option_bind]. intros [= <-]. by exists sc, d, ch, ir, ms, rp.
  - intros (sc & d & ch & ir & ms & rp & -> & (Hd & Hc & Hi & Hm & Hr) & ->).
    cbn [mbind option_bind]. rewrite Hd. cbn [mbind option_bind].
    rewrite Hc. cbn [mbind option_bind]. rewrite Hi. cbn [mbind option_bind].
    rewrite Hm. cbn [mbind option_bind]. by rewrite Hr.
Qed.

Lemma reads_readable h sc d ch ir ms rp :
  reads h sc d ch ir ms rp → parts_readable h sc.
Proof. intros (Hd & Hc & Hi & Hm & Hr). repeat split; by eexists. Qed.

(** [self._states[-1].choices = []] *)
Lemma create_choices_at h s sc d ir ms rp :
  owned h s → read the_scene h s = Some sc → SceneObject.choices sc = None →
  reads h sc d None ir ms rp →
  let sc1 := set_scene_choices (Some (length h)) sc in
  let h1 := <[s:=OScene sc1]> (h ++ [OList []]) in
  (c ← alloc (OList []); assign_scene s (set_scene_choices (Some c))) h = Some ((), h1)
  ∧ frames (scene_cells h s) h h1
  ∧ owned h1 s
  ∧ (∀ a, a ∈ scene_cells h1 s → a ∈ scene_cells h s ∨ length h ≤ a)
  ∧ read the_scene h1 s = Some sc1
  ∧ reads h1 sc1 d (Some []) ir ms rp.
Proof.
  intros Hown Hsc Hnone Hreads sc1 h1.
  destruct (owned_inv h s Hown) as (sc0 & Hsc0 & _ & Hs & Hnd & Hlt).
  assert (sc0 = sc) as -> by congruence. clear Hsc0.
  assert (s < length h) as Hslt by (apply Hlt; by left).
  assert (same_at (part_cells h sc) h h1) as Hsame.
  { apply alloc_store_same; [|done]. intros a Ha. apply Hlt. by right. }
  destruct (parts_same h h1 sc Hsame) as (Ed & Ec & Em & Rd & Rc & Ri & Rm & Rr).
  destruct Hreads as (Pd & Pc & Pi & Pm & Pr).
  assert (read the_scene h1 s = Some sc1) as Hsc1.
  { unfold h1. rewrite read_insert_eq; [done|]. rewrite length_app. lia. }
  assert (read the_list h1 (length h) = Some []) as Hl.
  { unfold h1, read. rewrite list_lookup_insert_ne by lia.
    by rewrite list_lookup_middle. }
  assert (part_cells h1 sc1 =
            dict_cells h (SceneObject.characters sc)
            ++ [length h]
            ++ opt_cells (λ r, [r]) (SceneObject.input_request sc)
            ++ list_cells h (SceneObject.motor_commands sc)
            ++ opt_cells (λ r, [r]) (SceneObject.robot_pose sc)) as Hcells.
  { unfold part_cells, sc1. scene_fields. rewrite Ed, Em.
    unfold list_cells at 1. rewrite Hl. reflexivity. }
  assert (∀ a, a ∈ part_cells h1 sc1 → a ∈ part_cells h sc ∨ length h ≤ a) as Hsub.
  { intros a. rewrite Hcells. unfold part_cells. rewrite !elem_of_app.
    rewrite list_elem_of_singleton. intros [?|[->|[?|[?|?]]]]; auto 10. }
  assert (reads h1 sc1 d (Some []) ir ms rp) as Hreads1.
  { unfold reads, sc1. scene_fields. rewrite Rd, Ri, Rm, Rr.
    split; [done|]. split; [|by repeat split]. cbn [read_opt].
    unfold read_list. by rewrite Hl. }
  split; [|split; [|split; [|split; [|split; [done|done]]]]].
  - assert (read the_scene (h ++ [OList []]) s = Some sc) as Hsc'
      by by rewrite read_app_l.
    unfold mbind at 1, M_bind at 1, alloc at 1. unfold assign_scene.
    rewrite (bind_Some _ _ _ _ _ (load_scene_Some _ _ _ Hsc')).
    apply store_Some. rewrite length_app. lia.
  - apply alloc_store_frames.
  - apply (owned_intro _ _ sc1 Hsc1).
    + by eapply reads_readable.
    + intros Hin. destruct (Hsub s Hin) as [?|?]; [done|lia].
    + rewrite Hcells. apply (NoDup_replace _ (opt_cells (list_cells h) (SceneObject.choices sc))).
      * exact Hnd.
      * apply NoDup_singleton.
      * intros a ->%list_elem_of_singleton. right.
        split; intros Ha; (assert (length h < length h); [|lia]); apply Hlt; right;
          unfold part_cells; rewrite !elem_of_app in *; tauto.
  - intros a. rewrite (scene_cells_eq _ _ _ Hsc1), (scene_cells_eq _ _ _ Hsc).
    rewrite !elem_of_cons. intros [->|Ha]; [by left; left|].
    destruct (Hsub a Ha); auto.
Qed.

(** [self._states[-1].choices.append(Choice(...))] *)
Lemma append_choice_at h s sc l d cs ir ms rp c :
  owned h s → read the_scene h s = Some sc → SceneObject.choices sc = Some l →
  reads h sc d (Some cs) ir ms rp →
  ∃ h2, (choice ← alloc (OChoice c); append l choice) h = Some ((), h2)
    ∧ frames (scene_cells h s) h h2
    ∧ owned h2 s
    ∧ (∀ a, a ∈ scene_cells h2 s → a ∈ scene_cells h s ∨ length h ≤ a)
    ∧ read the_scene h2 s = Some sc
    ∧ reads h2 sc d (Some (cs ++ [c])) ir ms rp.
Proof.
  intros Hown Hsc Hl Hreads.
  destruct (owned_inv h s Hown) as (sc0 & Hsc0 & _ & Hs & Hnd & Hlt).
  assert (sc0 = sc) as -> by congruence. clear Hsc0.
  destruct Hreads as (Pd & Pc & Pi & Pm & Pr).
  rewrite Hl in Pc. cbn [read_opt] in Pc.
  destruct (read_list the_choice h l) as [cs'|] eqn:Hcs; [|done].
  injection Pc as ->.
  unfold part_cells in Hnd. rewrite Hl in Hnd. cbn [opt_cells] in Hnd.
  assert (NoDup (list_cells h l)) as Hndl.
  { rewrite !NoDup_app in Hnd. tauto. }
  destruct (append_fresh the_choice h (OChoice c) c l cs eq_refl Hcs Hndl)
    as (Hrun & Hread & Hcells & Hnd').
  set (h2 := <[l:=OList (default [] (read the_list h l) ++ [length h])]>
               (h ++ [OChoice c])) in *.
  assert (l ∈ list_cells h l) as Hll by (apply elem_of_cons; by left).
  assert (l ∈ part_cells h sc) as Hlp.
  { unfold part_cells. rewrite Hl. cbn [opt_cells]. rewrite !elem_of_app. auto. }
  assert (∀ A, (∀ a, a ∈ A → a ∈ (s :: part_cells h sc)) → l ∉ A → same_at A h h2)
    as Hsame.
  { intros A HA HlA. apply write_same_at; [|done]. intros a Ha. by apply Hlt, HA. }
  assert (read the_scene h2 s = Some sc) as Hsc2.
  { rewrite <- Hsc. apply read_same, (Hsame [s]); [| |by apply list_elem_of_singleton].
    - intros a ->%list_elem_of_singleton. by left.
    - intros ->%list_elem_of_singleton. done. }
  destruct (NoDup_app_notin _ _ _ l Hnd Hll) as [HlD HlY].
  rewrite !not_elem_of_app in HlY. destruct HlY as (HlI & HlM & HlR).
  assert (same_at (dict_cells h (SceneObject.characters sc)) h h2) as SD.
  { apply Hsame; [|done]. intros a Ha. right. unfold part_cells.
    rewrite !elem_of_app. auto. }
  assert (same_at (opt_cells (λ r, [r]) (SceneObject.input_request sc)) h h2) as SI.
  { apply Hsame; [|done]. intros a Ha. right. unfold part_cells.
    rewrite !elem_of_app. auto. }
  assert (same_at (list_cells h (SceneObject.motor_commands sc)) h h2) as SM.
  { apply Hsame; [|done]. intros a Ha. right. unfold part_cells.
    rewrite !elem_of_app. auto 10. }
  assert (same_at (opt_cells (λ r, [r]) (SceneObject.robot_pose sc)) h h2) as SR.
  { apply Hsame; [|done]. intros a Ha. right. unfold part_cells.
    rewrite !elem_of_app. auto 10. }
  assert (part_cells h2 sc =
            dict_cells h (SceneObject.characters sc)
            ++ (list_cells h l ++ [length h])
            ++ opt_cells (λ r, [r]) (SceneObject.input_request sc)
            ++ list_cells h (SceneObject.motor_commands sc)
            ++ opt_cells (λ r, [r]) (SceneObject.robot_pose sc)) as Hcells2.
  { unfold part_cells. rewrite Hl. cbn [opt_cells]. rewrite Hcells.
    rewrite (dict_cells_same h h2 (SceneObject.characters sc))
      by (apply SD, elem_of_cons; by left).
    by rewrite (list_cells_same h h2 (SceneObject.motor_commands sc))
      by (apply SM, elem_of_cons; by left). }
  assert (∀ a, a ∈ part_cells h2 sc → a ∈ part_cells h sc ∨ length h ≤ a) as Hsub.
  { intros a. rewrite Hcells2. unfold part_cells. rewrite Hl. cbn [opt_cells].
    rewrite !elem_of_app, list_elem_of_singleton.
    intros [?|[[?| ->]|[?|[?|?]]]]; auto 10. }
  assert (reads h2 sc d (Some (cs ++ [c])) ir ms rp) as Hreads2.
  { unfold reads. rewrite Hl. cbn [read_opt]. rewrite Hread.
    rewrite (read_dict_same the_sprite h h2 _ SD).
    rewrite (leaf_same the_input_request h h2 _ SI).
    rewrite (leaf_same the_robot_pose h h2 _ SR).
    by rewrite (read_list_same the_motor_command h h2 _ SM). }
  exists h2. split; [done|]. split; [|split; [|split; [|done]]].
  - apply write_frames. rewrite (scene_cells_eq _ _ _ Hsc). by right.
  - apply (owned_intro _ _ sc Hsc2).
    + by eapply reads_readable.
    + intros Hin. destruct (Hsub s Hin) as [?|?]; [done|].
      assert (s < length h); [|lia]. apply Hlt. by left.
    + rewrite Hcells2. apply NoDup_replace with (P := list_cells h l).
      * exact Hnd.
      * by rewrite <- Hcells.
      * intros a. rewrite elem_of_app, list_elem_of_singleton. intros [?| ->]; [by left|].
        right. split; intros Ha; (assert (length h < length h); [|lia]);
          apply Hlt; right; unfold part_cells; rewrite Hl; cbn [opt_cells];
          rewrite !elem_of_app in *; tauto.
  - intros a. rewrite (scene_cells_eq _ _ _ Hsc2), (scene_cells_eq _ _ _ Hsc).
    rewrite !elem_of_cons. intros [->|Ha]; [by left; left|].
    destruct (Hsub a Ha); auto.
Qed.

(** The part of [add_choice] that works on the last scene. *)
Lemma add_choice_scene h last v (self : t) text next_scene_index :
  owned h last → read_scene h last = Some v →
  ∃ h',
    (s ← load_scene last;
     (match SceneObject.choices s with
      | None =>
          choices ← alloc (OList []);
          assign_scene last (set_scene_choices (Some choices))
      | Some _ => mret ()
      end);;
     s ← load_scene last;
     match SceneObject.choices s with
     | None => fail
     | Some choices =>
         choice ← alloc (OChoice (Choice.make text next_scene_index));
         append choices choice;;
         mret self
     end) h = Some (self, h')
    ∧ frames (scene_cells h last) h h'
    ∧ owned h' last
    ∧ (∀ a, a ∈ scene_cells h' last → a ∈ scene_cells h last ∨ length h ≤ a)
    ∧ read_scene h' last = Some (with_choice v (Choice.make text next_scene_index)).
Proof.
  intros Hown Hv.
  apply read_scene_Some in Hv as (sc & d & ch & ir & ms & rp & Hsc & Hreads & ->).
  rewrite (bind_Some _ _ _ _ _ (load_scene_Some _ _ _ Hsc)).
  assert (∃ h1 sc1 l,
            (match SceneObject.choices sc with
             | None =>
                 choices ← alloc (OList []);
                 assign_scene last (set_scene_choices (Some choices))
             | Some _ => mret ()
             end) h = Some ((), h1)
            ∧ frames (scene_cells h last) h h1
            ∧ owned h1 last
            ∧ (∀ a, a ∈ scene_cells h1 last → a ∈ scene_cells h last ∨ length h ≤ a)
            ∧ read the_scene h1 last = Some sc1
            ∧ SceneObject.choices sc1 = Some l
            ∧ reads h1 sc1 d (Some (default [] ch)) ir ms rp
            ∧ ∀ d' ch' ir' ms' rp', scene_value sc1 d' ch' ir' ms' rp'
                                    = scene_value sc d' ch' ir' ms' rp')
    as (h1 & sc1 & l & Hrun1 & Hfr1 & Hown1 & Hsub1 & Hsc1 & Hl & Hreads1 & Hval).
  { destruct (SceneObject.choices sc) as [l|] eqn:Hch.
    - exists h, sc, l. split; [done|]. split; [apply frames_refl|].
      do 2 (split; [by auto|]). split; [done|]. split; [done|]. split; [|done].
      destruct Hreads as (? & Hc & ?). rewrite Hch in Hc. cbn [read_opt] in Hc.
      destruct (read_list the_choice h l) as [cs|] eqn:Hcs; [|done].
      injection Hc as <-. unfold reads. rewrite Hch. cbn [read_opt]. by rewrite Hcs.
    - assert (ch = None) as ->.
      { destruct Hreads as (_ & Hc & _). rewrite Hch in Hc. by injection Hc. }
      destruct (create_choices_at h last sc d ir ms rp Hown Hsc Hch Hreads)
        as (Hrun & Hfr & Hown' & Hsub & Hsc' & Hreads').
      eexists _, _, (length h). do 5 (split; [done|]). by split. }
  rewrite (bind_Some _ _ _ _ _ Hrun1).
  rewrite (bind_Some _ _ _ _ _ (load_scene_Some _ _ _ Hsc1)). rewrite Hl.
  destruct (append_choice_at h1 last sc1 l d (default [] ch) ir ms rp
              (Choice.make text next_scene_index) Hown1 Hsc1 Hl Hreads1)
    as (h2 & Hrun2 & Hfr2 & Hown2 & Hsub2 & Hsc2 & Hreads2).
  exists h2. split; [|split; [|split; [done|split]]].
  - rewrite bind_assoc. by rewrite (bind_Some _ _ _ _ _ Hrun2).
  - eapply frames_trans; [done..|]. intros a Ha Hlt.
    destruct (Hsub1 a Ha) as [?|?]; [done|lia].
  - intros a Ha. destruct Hfr1 as [Hlen1 _].
    destruct (Hsub2 a Ha) as [Ha1|?]; [by apply Hsub1|right; lia].
  - apply read_scene_Some. exists sc1, d, (Some (default [] ch ++ [Choice.make text next_scene_index])), ir, ms, rp.
    split; [done|]. split; [done|]. by rewrite Hval.
Qed.

(** A step on the last scene of a consistent builder. *)
Lemma last_step_consistent h self init last h' v' :
  consistent h self →
  read the_list h (_states self) = Some (init ++ [last]) →
  frames (scene_cells h last) h h' → owned h' last →
  (∀ a, a ∈ scene_cells h' last → a ∈ scene_cells h last ∨ length h ≤ a) →
  read_scene h' last = Some v' →
  consistent h' self
  ∧ ∃ vs, mapM (read_scene h) init = Some vs
          ∧ read_graph h' (_states self) = Some (vs ++ [v']).
Proof.
  intros Hc Hst Hfr [Hread' Hnd'] Hsub Hv'.
  destruct (consistent_inv h self Hc) as (states & Hst0 & Hd & Hsc & Hnd & Hlt).
  assert (states = init ++ [last]) as -> by congruence. clear Hst0.
  set (g := _states self) in *.
  unfold regions in Hnd, Hlt. fold g in Hnd, Hlt.
  rewrite join_snoc in Hnd, Hlt.
  rewrite app_assoc in Hnd. rewrite app_comm_cons in Hnd.
  rewrite <- (app_nil_r (scene_cells h last)) in Hnd.
  assert (∀ a, a ∈ (g :: template_cells h self ++ mjoin (scene_cells h <$> init))
               → a < length h ∧ a ∉ scene_cells h last) as Hothers.
  { intros a Ha. split.
    - apply Hlt. rewrite app_assoc, app_comm_cons. apply elem_of_app. by left.
    - intros Hin. apply NoDup_app in Hnd as (_ & Hnd & _). apply (Hnd a Ha).
      apply elem_of_app. by left. }
  assert (same_at (g :: template_cells h self ++ mjoin (scene_cells h <$> init)) h h')
    as Hsame.
  { eapply frames_same_at; [exact Hfr|]. done. }
  apply same_at_cons in Hsame as [Hg Hsame].
  apply same_at_app in Hsame as [HT Hinit].
  assert (read the_list h' g = Some (init ++ [last])) as Hst'.
  { rewrite <- Hst. by apply read_same. }
  apply Forall_app in Hsc as [Hsc_init _].
  destruct (scenes_same h h' init) as (Hsc' & Hcells' & Hvals'); [|done|].
  { intros s Hs a Ha. apply Hinit. apply list_elem_of_join.
    exists (scene_cells h s). split; [done|]. apply list_elem_of_fmap. by exists s. }
  split.
  - exists (init ++ [last]). split; [done|]. split; [|split].
    + apply read_template_is_Some. unfold template_cells in HT.
      by rewrite (read_dict_same the_sprite h h' _ HT).
    + apply Forall_app. split; [done|]. constructor; [done|constructor].
    + unfold regions. fold g. rewrite join_snoc, Hcells'.
      unfold template_cells in *.
      rewrite (dict_cells_same h h' (_current_sprites self))
        by (apply HT, elem_of_cons; by left).
      rewrite app_assoc, app_comm_cons.
      rewrite <- (app_nil_r (scene_cells h' last)).
      eapply NoDup_replace; [exact Hnd|done|].
      intros a Ha. destruct (Hsub a Ha) as [?|Hge]; [by left|]. right.
      split; [|apply not_elem_of_nil]. intros Hin.
      destruct (Hothers a Hin). lia.
  - apply mapM_is_Some_2 in Hsc_init as [vs Hvs]. exists vs. split; [done|].
    unfold read_graph. fold g. rewrite Hst'. simpl.
    apply mapM_Some. apply Forall2_app.
    + apply mapM_Some. by rewrite Hvals'.
    + by repeat constructor.
Qed.

End ChoiceFacts.

(* ===================================================================== *)
(** * Every command keeps the builder consistent *)
(* ===================================================================== *)

Module CommandFacts.
Import Heap Sharing HeapFacts CopyFacts StepFacts EmitFacts ChoiceFacts
  VisualNovelBuilder.
Local Open Scope nat_scope.

Lemma consistent_graph h self :
  consistent h self → is_Some (read_graph h (_states self)).
Proof.
  intros (states & Hst & _ & Hsc & _). unfold read_graph. rewrite Hst. simpl.
  by apply mapM_is_Some_2.
Qed.

(** [add_choice]: without a scene nothing happens; otherwise the last
    scene gets the choice and the other scenes stay as they are. *)
Lemma add_choice_consistent h self text next_scene_index graph :
  consistent h self → read_graph h (_states self) = Some graph →
  ∃ h', add_choice self text next_scene_index h = Some (self, h')
    ∧ consistent h' self
    ∧ read_graph h' (_states self)
      = Some (graph_with_choice graph (Choice.make text next_scene_index)).
Proof.
  intros Hc Hgraph.
  destruct (consistent_inv h self Hc) as (states & Hst & _ & Hsc & Hnd & _).
  unfold read_graph in Hgraph. rewrite Hst in Hgraph. simpl in Hgraph.
  unfold add_choice. rewrite (bind_Some _ _ _ _ _ (load_list_Some _ _ _ Hst)).
  destruct states as [|s0 states0] using rev_ind.
  - injection Hgraph as <-. exists h. split; [done|]. split; [done|].
    unfold read_graph. by rewrite Hst.
  - clear IHstates0. rename states0 into init. rename s0 into last.
    rewrite PyFacts.index_last.
    apply mapM_Some, Forall2_app_inv_l in Hgraph as (vs & vl & Hvs & Hvl & ->).
    apply Forall2_cons_inv_l in Hvl as (v & nil' & Hv & Hnil & ->).
    apply Forall2_nil_inv_l in Hnil as ->.
    assert (owned h last) as Hown.
    { split; [by eexists|]. unfold regions in Hnd. rewrite join_snoc in Hnd.
      apply NoDup_cons in Hnd as [_ Hnd]. rewrite !NoDup_app in Hnd. tauto. }
    destruct (add_choice_scene h last v self text next_scene_index Hown Hv)
      as (h' & Hrun & Hfr & Hown' & Hsub & Hv').
    exists h'. split.
    { destruct (init ++ [last]) eqn:E; [by destruct init|]. exact Hrun. }
    destruct (last_step_consistent h self init last h' _ Hc Hst Hfr Hown' Hsub Hv')
      as (Hc' & vs' & Hvs' & Hgraph').
    split; [done|]. rewrite Hgraph'. f_equal.
    apply mapM_Some in Hvs. assert (vs' = vs) as -> by congruence.
    unfold graph_with_choice. by rewrite last_snoc, removelast_last.
Qed.

(** The invariant only looks at the two references of the builder. *)
Lemma consistent_same_refs h self self' :
  _states self' = _states self → _current_sprites self' = _current_sprites self →
  consistent h self → consistent h self'.
Proof.
  intros Hg Hd (states & Hst & Htpl & Hsc & Hnd). exists states.
  unfold regions, template_cells, read_template in *. rewrite Hg, Hd.
  split; [done|]. split; [|done].
  destruct (read_dict the_sprite h (_current_sprites self)); [by eexists|].
  by destruct Htpl.
Qed.

Lemma set_values_subset {V} (items : Py.dict V) k a b :
  b ∈ (Py.set items k a).*2 → b ∈ items.*2 ∨ b = a.
Proof.
  induction items as [|[k' v'] items IH]; cbn [Py.set].
  - rewrite fmap_cons, elem_of_cons. intros [->|[]%elem_of_nil]. by right.
  - destruct (String.eqb k' k); rewrite !fmap_cons, !elem_of_cons; cbn [snd].
    + intros [->|?]; auto.
    + intros [->|Hb]; [auto|]. destruct (IH Hb); auto.
Qed.

Lemma set_values_NoDup {V} (items : Py.dict V) k a :
  NoDup items.*2 → a ∉ items.*2 → NoDup (Py.set items k a).*2.
Proof.
  induction items as [|[k' v'] items IH]; cbn [Py.set].
  - intros _ _. apply NoDup_singleton.
  - rewrite fmap_cons, NoDup_cons, not_elem_of_cons. cbn [snd].
    intros [Hv Hnd] [Hne Ha].
    destruct (String.eqb k' k); rewrite fmap_cons, NoDup_cons; cbn [snd].
    + done.
    + split; [|by apply IH]. intros Hin.
      destruct (set_values_subset _ _ _ _ Hin) as [?| ->]; done.
Qed.

(** One character of [set_characters]: a new sprite goes into the dict of
    the template. *)
Lemma set_character_consistent h self sprite name :
  consistent h self →
  ∃ h', (a ← alloc (OSprite sprite);
         sprites ← load_dict (_current_sprites self);
         store (_current_sprites self) (ODict (Py.set sprites name a))) h
        = Some ((), h')
    ∧ consistent h' self
    ∧ read_graph h' (_states self) = read_graph h (_states self).
Proof.
  intros Hc.
  destruct (consistent_inv h self Hc) as (states & Hst & Hd & Hsc & Hnd & Hlt).
  set (g := _states self) in *. set (d := _current_sprites self) in *.
  apply read_dict_is_Some in Hd as (items & Hitems & Hall).
  set (items' := Py.set items name (length h)).
  set (h' := <[d:=ODict items']> (h ++ [OSprite sprite])).
  unfold regions, template_cells in Hnd, Hlt. fold g d in Hnd, Hlt.
  assert (d < length h) as Hdlt by by eapply read_lt.
  assert (dict_cells h d = d :: items.*2) as Hcells by (unfold dict_cells; by rewrite Hitems).
  rewrite Hcells in Hnd, Hlt.
  assert (∀ A, (∀ a, a ∈ A → a < length h) → d ∉ A → same_at A h h') as Hsame.
  { intros A HA HdA. by apply write_same_at. }
  assert (g ≠ d) as Hgd.
  { intros Heq. apply NoDup_cons in Hnd as [Hnd _]. apply Hnd. rewrite Heq.
    apply elem_of_app. left. by left. }
  assert (∀ s, s ∈ states → same_at (scene_cells h s) h h') as Hold.
  { intros s Hs. assert (∀ a, a ∈ scene_cells h s →
                           a ∈ mjoin (scene_cells h <$> states)) as Hin.
    { intros a Ha. apply list_elem_of_join. exists (scene_cells h s).
      split; [done|]. apply list_elem_of_fmap. by exists s. }
    apply Hsame.
    - intros a Ha. apply Hlt. right. apply elem_of_app. right. by apply Hin.
    - intros Hds. apply NoDup_cons in Hnd as [_ Hnd].
      apply NoDup_app in Hnd as (_ & Hnd & _). apply (Hnd d); [by left|by apply Hin]. }
  destruct (scenes_same h h' states Hold Hsc) as (Hsc' & Hcells' & Hvals').
  assert (read the_list h' g = Some states) as Hst'.
  { rewrite <- Hst. apply read_same, (Hsame [g]); [| |by apply list_elem_of_singleton].
    - intros a ->%list_elem_of_singleton. by eapply read_lt.
    - by intros ->%list_elem_of_singleton. }
  assert (read the_dict h' d = Some items') as Hitems'.
  { unfold h'. rewrite read_insert_eq; [done|]. rewrite length_app. lia. }
  assert (length h ∉ items.*2) as Hfresh.
  { intros Hin. assert (length h < length h); [|lia]. apply Hlt.
    right. apply elem_of_app. left. by right. }
  exists h'. split; [|split].
  - unfold mbind at 1, M_bind at 1, alloc at 1.
    assert (read the_dict (h ++ [OSprite sprite]) d = Some items) as Hitems1
      by by rewrite read_app_l.
    fold d. rewrite (bind_Some _ _ _ _ _ (load_dict_Some _ _ _ Hitems1)).
    apply store_Some. rewrite length_app. lia.
  - exists states. split; [done|]. split; [|split; [done|]].
    + apply read_template_is_Some. fold d. apply read_dict_is_Some.
      exists items'. split; [done|]. apply Forall_forall. intros a Ha.
      destruct (set_values_subset _ _ _ _ Ha) as [Hin| ->].
      * rewrite Forall_forall in Hall.
        rewrite (read_same the_sprite h h' a); [by apply Hall|].
        apply (Hsame [a]); [| |by apply list_elem_of_singleton].
        -- intros ? ->%list_elem_of_singleton. apply Hlt. right.
           apply elem_of_app. left. by right.
        -- intros ->%list_elem_of_singleton. apply NoDup_cons in Hnd as [_ Hnd].
           apply NoDup_app in Hnd as (Hnd & _). by apply NoDup_cons in Hnd as [? _].
      * unfold h', read. rewrite list_lookup_insert_ne by lia.
        rewrite list_lookup_middle by done. by eexists.
    + unfold regions, template_cells. fold g d. rewrite Hcells'.
      unfold dict_cells. rewrite Hitems'. simpl.
      apply NoDup_cons in Hnd as [Hg Hnd]. apply NoDup_cons. split.
      * rewrite elem_of_cons, elem_of_app. intros [?|[Hin|Hin]]; [done| |].
        -- destruct (set_values_subset _ _ _ _ Hin) as [?|Heq].
           ++ apply Hg. apply elem_of_app. left. by right.
           ++ assert (g < length h) by by eapply read_lt. lia.
        -- apply Hg. apply elem_of_app. by right.
      * apply (NoDup_replace [] (d :: items.*2) (d :: items'.*2)); [done| |].
        -- apply NoDup_app in Hnd as (Hnd & _). apply NoDup_cons in Hnd as [Hd Hnd].
           apply NoDup_cons. split; [|by apply set_values_NoDup].
           intros Hin. destruct (set_values_subset _ _ _ _ Hin) as [?|Heq]; [done|lia].
        -- intros a [->|Hin]%elem_of_cons; [left; by left|].
           destruct (set_values_subset _ _ _ _ Hin) as [?| ->]; [left; by right|].
           right. split; [apply not_elem_of_nil|]. intros Hin'.
           assert (length h < length h); [|lia]. apply Hlt. right.
           apply elem_of_app. by right.
  - unfold read_graph. fold g. rewrite Hst', Hst. cbn [mbind option_bind].
    by rewrite Hvals'.
Qed.

Lemma set_characters_consistent characters h self :
  consistent h self →
  ∃ self' h', set_characters self characters h = Some (self', h')
    ∧ consistent h' self'
    ∧ _states self' = _states self
    ∧ read_graph h' (_states self) = read_graph h (_states self).
Proof.
  revert h self. induction characters as [|char characters IH]; intros h self Hc.
  - by exists self, h.
  - cbn [set_characters].
    set (self1 := with_character_defs self _).
    assert (consistent h self1) as Hc1 by by apply (consistent_same_refs h self).
    destruct (set_character_consistent h self1
                {| CharacterSprite.name := CharacterDefinition.name char;
                   CharacterSprite.image_url := CharacterDefinition.image_url char;
                   CharacterSprite.position := "center";
                   CharacterSprite.visible := false;
                   CharacterSprite.animation :=
                     if CharacterDefinition.animated char then "idle" else "";
                   CharacterSprite.scale := 1%float |}
                (CharacterDefinition.name char) Hc1)
      as (h1 & Hrun & Hc1' & Hg1).
    destruct (IH h1 self1 Hc1') as (self' & h' & Hrun' & Hc' & Hst' & Hg').
    exists self', h'. split; [|split; [done|split; [done|]]].
    + rewrite <- Hrun'. revert Hrun. unfold mbind, M_bind, alloc.
      destruct (load_dict _ _) as [[sprites hx]|]; [|done].
      by intros ->.
    + change (_states self1) with (_states self) in *. congruence.
Qed.

(** The graph after a command that emits a scene: the scenes it had, and
    the new one. *)
Lemma emitted_graph h self s self' h' graph :
  consistent h self → read_graph h (_states self) = Some graph →
  emitted h self s self' h' →
  ∃ v, read_graph h' (_states self) = Some (graph ++ [v]).
Proof.
  intros Hc Hgraph (Hc' & Hg & Hfr & Hlist & Hs).
  destruct (consistent_inv h self Hc) as (states & Hst & _ & Hsc & Hnd & Hlt).
  specialize (Hlist states Hst).
  unfold read_graph in Hgraph. rewrite Hst in Hgraph. cbn [mbind option_bind] in Hgraph.
  assert (∀ s', s' ∈ states → same_at (scene_cells h s') h h') as Hold.
  { intros s' Hs'. eapply frames_same_at; [exact Hfr|]. intros a Ha.
    assert (a ∈ mjoin (scene_cells h <$> states)) as Hin.
    { apply list_elem_of_join. exists (scene_cells h s'). split; [done|].
      apply list_elem_of_fmap. by exists s'. }
    split.
    - apply Hlt. unfold regions. right. apply elem_of_app. by right.
    - intros ->%list_elem_of_singleton. unfold regions in Hnd.
      apply NoDup_cons in Hnd as [Hnd _]. apply Hnd. apply elem_of_app. by right. }
  destruct (scenes_same h h' states Hold Hsc) as (_ & _ & Hvals).
  destruct Hc' as (states' & Hst' & _ & Hsc' & _).
  rewrite Hg, Hlist in Hst'. injection Hst' as <-.
  apply Forall_app in Hsc' as [_ Hs']. apply Forall_cons in Hs' as [[v Hv] _].
  exists v. unfold read_graph. rewrite Hlist. cbn [mbind option_bind].
  apply mapM_Some, Forall2_app.
  - apply mapM_Some. by rewrite Hvals.
  - by repeat constructor.
Qed.

(** Every command runs to its end on a consistent builder, keeps it
    consistent and keeps its list of scenes; the graph changes as
    [graph_after] says. *)
Lemma call_consistent h self c graph :
  consistent h self → read_graph h (_states self) = Some graph →
  ∃ self' h' graph',
    call self c h = Some (self', h')
    ∧ consistent h' self'
    ∧ _states self' = _states self
    ∧ read_graph h' (_states self) = Some graph'
    ∧ graph_after c graph graph'.
Proof.
  intros Hc Hgraph.
  destruct (emits c) eqn:Hemit.
  { destruct (emits_emitted h self c Hc Hemit) as (s & self' & h' & Hrun & Hpost).
    destruct (emitted_graph h self s self' h' graph Hc Hgraph Hpost) as [v Hv].
    exists self', h', (graph ++ [v]).
    destruct Hpost as (Hc' & Hg & _).
    do 4 (split; [done|]).
    unfold graph_after. rewrite Hemit. destruct c; try discriminate Hemit; by exists v. }
  destruct c; try discriminate Hemit; cbn [call];
    try (eexists _, h, graph; split; [reflexivity|];
         split; [by apply (consistent_same_refs h self)|]; by repeat split).
  - destruct (set_characters_consistent characters h self Hc)
      as (self' & h' & Hrun & Hc' & Hg & Hgr).
    exists self', h', graph. do 3 (split; [done|]). split; [congruence|done].
  - destruct (add_choice_consistent h self text next_scene_index graph Hc Hgraph)
      as (h' & Hrun & Hc' & Hgr).
    by exists self, h', (graph_with_choice graph (Choice.make text next_scene_index)).
Qed.

(** A new builder is consistent. *)
Lemma init_consistent :
  ∃ self h, __init__ [] = Some (self, h) ∧ consistent h self
            ∧ read_graph h (_states self) = Some [].
Proof.
  eexists _, _. split; [reflexivity|]. split; [|reflexivity].
  exists []. split; [reflexivity|]. split; [by eexists|]. split; [constructor|].
  change (NoDup [0; 1]). apply NoDup_cons. split; [|apply NoDup_singleton].
  rewrite list_elem_of_singleton. lia.
Qed.

Lemma calls_consistent cs h self :
  consistent h self →
  ∃ self' h', calls self cs h = Some (self', h') ∧ consistent h' self'
              ∧ _states self' = _states self.
Proof.
  revert h self. induction cs as [|c cs IH]; intros h self Hc.
  - by exists self, h.
  - destruct (consistent_graph h self Hc) as [graph Hgraph].
    destruct (call_consistent h self c graph Hc Hgraph)
      as (self1 & h1 & graph1 & Hrun & Hc1 & Hg1 & _).
    destruct (IH h1 self1 Hc1) as (self' & h' & Hrun' & Hc' & Hg').
    exists self', h'. split; [|split; [done|congruence]].
    cbn [calls]. by rewrite (bind_Some _ _ _ _ _ Hrun).
Qed.

(** Every sequence of commands on a new builder runs to its end and
    leaves a consistent builder. *)
Lemma run_consistent cs :
  ∃ self h, run cs = Some (self, h) ∧ consistent h self.
Proof.
  destruct init_consistent as (self0 & h0 & Hinit & Hc0 & _).
  destruct (calls_consistent cs h0 self0 Hc0) as (self & h & Hrun & Hc & _).
  exists self, h. split; [|done]. unfold run.
  by rewrite (bind_Some _ _ _ _ _ Hinit).
Qed.

End CommandFacts.

(* ===================================================================== *)
(** * The navigator's claims *)
(* ===================================================================== *)

Module NavClaims.
Import App Nav NavFacts HandlerFacts Examples.

(** C4 (the code departs from the claim). On a graph without scenes
    [change_scene] returns the "No scenes available." outputs and the state
    as it was, for every direction. [handle_choice] and [handle_input]
    instead evaluate [scenes[story_state["index"]]] first and raise
    [IndexError], whatever the index, the choice and the input. *)
Theorem empty_graph_handlers (fuel : nat) (i : Z) (vars : Py.dict string)
    (active : gset string) (d choice_index : Z) (user_input : string) :
  let st := {| scenes := []; index := i; variables := vars; active_paths := active |} in
  change_scene fuel st d = Returned st no_scenes
  ∧ handle_choice fuel st choice_index = Raised Py.IndexError st
  ∧ handle_input st user_input = Raised Py.IndexError st.
Proof.
  intros st. split; [done|].
  unfold handle_choice, handle_input. simpl. by rewrite PyFacts.index_nil.
Qed.

(** C5. On a graph with scenes and a valid index, [change_scene] with
    direction +1 or -1 returns a state with the same scenes, variables
    and active paths, whose index is the first accessible index met by a
    scan that starts one step away and proceeds in that direction, or the
    old index when the scan meets none. A scene is accessible when its
    path is absent or active. *)
Theorem advance_stops_at_first_accessible (st : StoryState) (d : Z) (fuel : nat) :
  scenes st ≠ [] → valid st → d = 1 ∨ d = -1 →
  (length (scenes st) ≤ fuel)%nat →
  ∃ st' out, change_scene fuel st d = Returned st' out
             ∧ scenes st' = scenes st
             ∧ variables st' = variables st
             ∧ active_paths st' = active_paths st
             ∧ scan_stops_at st d (index st').
Proof.
  intros _ Hv Hd Hfuel.
  destruct (change_scene_unit_step st d fuel Hv Hd Hfuel) as (n & scene & Hc & _ & _ & Hs).
  exists (with_index st n). eexists. by split.
Qed.

(** From the first of three scenes, over a scene that is not accessible,
    to the third. *)
Lemma advance_stops_at_first_accessible_witness :
  ∃ st' out, change_scene 3 skipping 1 = Returned st' out
             ∧ scenes st' = scenes skipping
             ∧ variables st' = variables skipping
             ∧ active_paths st' = active_paths skipping
             ∧ scan_stops_at skipping 1 (index st')
             ∧ index skipping = 0 ∧ index st' = 2.
Proof.
  destruct (advance_stops_at_first_accessible skipping 1 3)
    as (st' & out & Hrun & Hscenes & Hvars & Hpaths & Hstop).
  - discriminate.
  - unfold valid, total. simpl. lia.
  - left. reflexivity.
  - simpl. lia.
  - exists st', out. do 5 (split; [done|]). split; [done|].
    revert Hrun. vm_compute. by intros [= <- _].
Defined.

(** What [handle_choice] does with a valid index and valid targets: a
    choice index in range moves to the target of that choice and adds the
    target's path to the active paths when that path is neither absent nor
    the empty string, leaving the variables alone; without a choice in
    range, and with the current scene accessible, the call returns the
    state unchanged and renders the current scene; and no handler that
    returns has removed an active path. *)
Theorem select_choice (st : StoryState) (choice_index : Z) (fuel : nat)
    (scene : SceneState.t) :
  valid st → targets_valid (scenes st) →
  scenes st !! Z.to_nat (index st) = Some scene → (0 < fuel)%nat →
  (∀ chosen, selected scene choice_index = Some chosen →
     ∃ target st' out,
       scenes st !! Z.to_nat (Choice.next_scene_index chosen) = Some target
       ∧ handle_choice fuel st choice_index = Returned st' out
       ∧ index st' = Choice.next_scene_index chosen
       ∧ variables st' = variables st
       ∧ scenes st' = scenes st
       ∧ active_paths st' = activated target (active_paths st))
  ∧ (selected scene choice_index = None → accessible scene (active_paths st) →
     handle_choice fuel st choice_index = Returned st (rendering st scene))
  ∧ (∀ st' out d user_input,
       change_scene fuel st d = Returned st' out
       ∨ handle_choice fuel st choice_index = Returned st' out
       ∨ handle_input st user_input = Returned st' out →
       active_paths st ⊆ active_paths st').
Proof.
  intros Hv Ht Hscene Hfuel. split; [|split].
  - intros chosen Hsel.
    destruct (handle_choice_selected st choice_index fuel scene chosen Hv Ht Hscene Hsel)
      as (target & Htarget & Hcall).
    exists target. eexists. eexists. split; [done|]. split; [exact Hcall|]. done.
  - intros Hsel Hacc. by apply handle_choice_fallback.
  - intros st' out d user_input [H|[H|H]].
    + by rewrite (change_scene_active_paths _ _ _ _ _ H).
    + by eapply handle_choice_active_paths.
    + by rewrite (handle_input_active_paths _ _ _ _ H).
Qed.

Lemma select_choice_witness :
  ∃ target st' out,
    scenes at_question !! 1%nat = Some target
    ∧ handle_choice 1 at_question 0 = Returned st' out
    ∧ index st' = 1
    ∧ variables st' = variables at_question
    ∧ scenes st' = scenes at_question
    ∧ active_paths st' = activated target (active_paths at_question).
Proof.
  assert (valid at_question) as Hv by (unfold valid, total; simpl; lia).
  assert (targets_valid (scenes at_question)) as Ht.
  { unfold targets_valid. simpl. repeat constructor; simpl; lia. }
  destruct (select_choice at_question 0 1
              (scene "Will you help?"
                 (Some [Choice.make "Yes" 1; Choice.make "No" 2]) None None)
              Hv Ht eq_refl (Nat.lt_0_1)) as [Hsel _].
  exact (Hsel (Choice.make "Yes" 1) eq_refl).
Defined.

(** The target of the choice has the empty string as its path, which is
    not absent, and [handle_choice] moves there without adding it to the
    active paths. *)
Lemma empty_path_not_activated :
  ∃ target out,
    scenes to_empty_path !! 1%nat = Some target
    ∧ SceneState.path target = Some ""%string
    ∧ handle_choice 1 to_empty_path 0 = Returned (with_index to_empty_path 1) out
    ∧ active_paths (with_index to_empty_path 1) = ∅.
Proof. eexists. eexists. repeat split. Qed.

(** The fallback of [handle_choice] on a current scene that is not
    accessible: the call is still running whatever fuel it is given. *)
Lemma fallback_on_inaccessible_scene_runs_forever (fuel : nat) (choice_index : Z) :
  handle_choice fuel gated_start choice_index = OutOfFuel.
Proof.
  unfold handle_choice. simpl.
  rewrite change_scene_nonempty by done.
  unfold total. simpl.
  rewrite (scan_zero_step_stuck fuel _ _ 1 0 0
             (scene "Hidden" None None (Some "secret"))); done.
Qed.

(** C6 (the code departs from the claim). A choice whose target has the
    empty string as its path: [handle_choice] moves to the target and
    adds nothing to the active paths, because it tests
    [if target_scene.path:] where [is_scene_accessible] tests
    [scene.path is None]. That path is not absent, so the claim has it
    added. The player is then on a scene that [is_scene_accessible]
    rejects, and there the other half of the claim fails too: with no
    choice in range, or called with [None] as the user interface does
    right after the choice, [handle_choice] does not re-render the
    scene, its call of [change_scene(story_state, 0)] never finishes,
    whatever the fuel. *)
Theorem choice_to_empty_path_is_stuck (st : StoryState) (choice_index : Z)
    (fuel : nat) (scene target : SceneState.t) (chosen : Choice.t) :
  valid st → targets_valid (scenes st) →
  scenes st !! Z.to_nat (index st) = Some scene →
  selected scene choice_index = Some chosen →
  scenes st !! Z.to_nat (Choice.next_scene_index chosen) = Some target →
  SceneState.path target = Some ""%string →
  ""%string ∉ active_paths st →
  ∃ st' out,
    handle_choice fuel st choice_index = Returned st' out
    ∧ index st' = Choice.next_scene_index chosen
    ∧ scenes st' = scenes st
    ∧ active_paths st' = active_paths st
    ∧ is_scene_accessible target (active_paths st') = false
    ∧ ∀ fuel',
        (∀ choice_index',
           selected target choice_index' = None →
           handle_choice fuel' st' choice_index' = OutOfFuel)
        ∧ (bool_choices (SceneState.choices target) = false →
           handle_choice_none fuel' st' = OutOfFuel).
Proof.
  intros Hv Ht Hscene Hsel Htarget Hpath Hactive.
  destruct (handle_choice_selected st choice_index fuel scene chosen Hv Ht Hscene Hsel)
    as (target' & Htarget' & Hcall).
  assert (target' = target) as -> by congruence.
  cbv zeta in Hcall. revert Hcall. unfold activated. rewrite Hpath.
  destruct (decide (""%string = ""%string)) as [_|?]; [|done]. intros Hcall.
  pose proof (targets_valid_lookup _ _ _ _ Ht Hscene (selected_elem_of _ _ _ Hsel))
    as Hrange.
  assert (is_scene_accessible target (active_paths st) = false) as Hgated.
  { unfold is_scene_accessible. rewrite Hpath. by apply bool_decide_eq_false. }
  eexists. eexists. split; [exact Hcall|].
  cbn [index scenes active_paths with_index with_active_paths].
  do 4 (split; [done|]).
  intros fuel'.
  assert (change_scene fuel'
            (with_active_paths (with_index st (Choice.next_scene_index chosen))
               (active_paths st)) 0 = OutOfFuel) as Hloop.
  { rewrite change_scene_nonempty
      by (cbn [scenes with_index with_active_paths]; by apply valid_nonempty).
    cbn [index scenes active_paths with_index with_active_paths]. unfold total.
    cbn [index scenes active_paths with_index with_active_paths].
    rewrite Z.add_0_r.
    rewrite (scan_zero_step_stuck fuel' _ _ _ _ _ target); [done|done| |done].
    by rewrite PyFacts.index_in_range. }
  split.
  - intros choice_index' Hnone. unfold handle_choice.
    cbn [index scenes active_paths with_index with_active_paths].
    rewrite PyFacts.index_in_range by done.
    by rewrite Htarget, (selected_None _ _ Hnone).
  - intros Hnone. unfold handle_choice_none.
    cbn [index scenes active_paths with_index with_active_paths].
    rewrite PyFacts.index_in_range by done. by rewrite Htarget, Hnone.
Qed.

Lemma choice_to_empty_path_is_stuck_witness :
  ∃ st' out,
    handle_choice 1 to_empty_path 0 = Returned st' out
    ∧ index st' = 1
    ∧ scenes st' = scenes to_empty_path
    ∧ active_paths st' = active_paths to_empty_path
    ∧ is_scene_accessible (scene "There" None None (Some "")) (active_paths st')
      = false
    ∧ ∀ fuel',
        (∀ choice_index',
           selected (scene "There" None None (Some "")) choice_index' = None →
           handle_choice fuel' st' choice_index' = OutOfFuel)
        ∧ (bool_choices (SceneState.choices (scene "There" None None (Some "")))
           = false →
           handle_choice_none fuel' st' = OutOfFuel).
Proof.
  apply (choice_to_empty_path_is_stuck to_empty_path 0 1
           (scene "Go?" (Some [Choice.make "Go" 1]) None None)
           (scene "There" None None (Some "")) (Choice.make "Go" 1)).
  - unfold valid, total. simpl. lia.
  - unfold targets_valid. simpl. repeat constructor; simpl; lia.
  - reflexivity.
  - reflexivity.
  - reflexivity.
  - reflexivity.
  - apply not_elem_of_empty.
Defined.

(** C7. With scenes in the graph and an index that Python accepts,
    [handle_input] returns without raising and moves the index to
    [min (index + 1, last)]. When the current scene requests an input and
    the value is not empty, the variable of the request then holds the
    value and every other variable is as before; otherwise the variables
    are unchanged. *)
Theorem submit_input (st : StoryState) (user_input : string) :
  scenes st ≠ [] → - total st ≤ index st < total st →
  ∃ scene st' out,
    Py.index (scenes st) (index st) = Some scene
    ∧ handle_input st user_input = Returned st' out
    ∧ index st' = Z.min (index st + 1) (total st - 1)
    ∧ scenes st' = scenes st
    ∧ active_paths st' = active_paths st
    ∧ (∀ request, SceneState.input_request scene = Some request →
         user_input ≠ ""%string →
         Py.get (variables st') (InputRequest.variable_name request) = Some user_input
         ∧ ∀ k, k ≠ InputRequest.variable_name request →
                Py.get (variables st') k = Py.get (variables st) k)
    ∧ (SceneState.input_request scene = None ∨ user_input = ""%string →
       variables st' = variables st).
Proof.
  intros _ Hi.
  destruct (PyFacts.index_is_Some (scenes st) (index st) Hi) as [scene Hscene].
  destruct (PyFacts.index_is_Some (scenes st) (Z.min (index st + 1) (total st - 1)))
    as [next Hnext]; [unfold total in *; lia|].
  exists scene. unfold handle_input. rewrite Hscene.
  cbn [scenes index with_index with_variables]. fold (total st). rewrite Hnext.
  eexists. eexists. split; [done|]. split; [done|].
  cbn [scenes index variables active_paths with_index with_variables].
  split; [done|]. split; [done|]. split; [done|]. split.
  - intros request -> Hv. destruct (String.eqb_spec user_input ""); [done|]. simpl.
    split; [apply PyFacts.get_set_eq|]. intros k Hk. by apply PyFacts.get_set_ne.
  - intros [-> | ->]; [done|]. by destruct (SceneState.input_request scene).
Qed.

Lemma submit_input_witness :
  ∃ scene st' out,
    Py.index (scenes asking) (index asking) = Some scene
    ∧ handle_input asking "Alice" = Returned st' out
    ∧ index st' = Z.min (index asking + 1) (total asking - 1)
    ∧ scenes st' = scenes asking
    ∧ active_paths st' = active_paths asking
    ∧ (∀ request, SceneState.input_request scene = Some request →
         "Alice"%string ≠ ""%string →
         Py.get (variables st') (InputRequest.variable_name request) = Some "Alice"%string
         ∧ ∀ k, k ≠ InputRequest.variable_name request →
                Py.get (variables st') k = Py.get (variables asking) k)
    ∧ (SceneState.input_request scene = None ∨ "Alice"%string = ""%string →
       variables st' = variables asking).
Proof.
  apply (submit_input asking "Alice").
  - discriminate.
  - unfold total. simpl. lia.
Defined.

(** One step forwards and one step backwards, by the indices reached. *)
Lemma forth_and_back_indices (st : StoryState) (fuel : nat) :
  valid st → accessible_at st (index st) → (length (scenes st) ≤ fuel)%nat →
  ∃ n m out1 out2,
    change_scene fuel st 1 = Returned (with_index st n) out1
    ∧ change_scene fuel (with_index st n) (-1) = Returned (with_index st m) out2
    ∧ scan_stops_at st 1 n
    ∧ (n ≠ index st → m = index st)
    ∧ (n = index st → scan_stops_at st (-1) m)
    ∧ returned_state (forth_and_back fuel (with_index st m)) = Some (with_index st m).
Proof.
  intros Hv Hacc Hfuel.
  destruct (forth_then_back st fuel Hv Hacc Hfuel)
    as (n & m & out1 & out2 & Hc1 & Hc2 & Hstop1 & Hm & Haccm & Hmoved & Hstayed).
  exists n, m, out1, out2. do 5 (split; [done|]).
  destruct (forth_then_back (with_index st m) fuel) as
    (n' & m' & out1' & out2' & Hc1' & Hc2' & Hstop1' & _ & _ & Hmoved' & Hstayed');
    [done..|].
  unfold forth_and_back. rewrite Hc1'. cbn [with_index scenes index variables active_paths] in Hc2' |- *.
  rewrite Hc2'. simpl. f_equal.
  assert (m' = m) as ->; [|done].
  destruct (decide (n' = m)) as [->|Hne]; [|by apply Hmoved'].
  specialize (Hstayed' eq_refl).
  pose proof (scan_stops_none _ _ _ Hstop1' ltac:(done) eq_refl) as Hahead.
  simpl in Hahead.
  destruct (decide (n = index st)) as [->|Hn].
  - destruct (Hstayed eq_refl) as [(k & Hk & -> & _ & _)|[-> Hbehind]].
    + destruct (Hahead k Hk).
      by replace (index st + k * -1 + k * 1) with (index st) by lia.
    + destruct Hstayed' as [(k & Hk & -> & Ha & _)|[-> _]]; [|done].
      by destruct (Hbehind k Hk).
  - rewrite (Hmoved Hn) in *.
    destruct Hstop1 as [(k & Hk & -> & Ha & _)|[-> _]]; [|done].
    by destruct (Hahead k Hk).
Qed.

(** C9 (as the code has it). From a valid, accessible index, one step
    forwards and one step backwards, with the same active paths, return
    and change nothing but the index. If the step forwards moved, the
    step backwards comes back to the original index. If it did not move
    (no accessible scene lies ahead), the two steps do what one step
    backwards does: they stop at the first accessible scene behind, or
    stay when there is none. In both cases a second round of the two
    steps changes nothing. *)
Theorem forth_and_back_round (st : StoryState) (fuel : nat) :
  valid st → accessible_at st (index st) → (length (scenes st) ≤ fuel)%nat →
  ∃ st1 out1 st2 out2,
    change_scene fuel st 1 = Returned st1 out1
    ∧ change_scene fuel st1 (-1) = Returned st2 out2
    ∧ scenes st2 = scenes st
    ∧ variables st2 = variables st
    ∧ active_paths st2 = active_paths st
    ∧ scan_stops_at st 1 (index st1)
    ∧ (index st1 ≠ index st → index st2 = index st)
    ∧ (index st1 = index st → scan_stops_at st (-1) (index st2))
    ∧ returned_state (forth_and_back fuel st2) = Some st2.
Proof.
  intros Hv Hacc Hfuel.
  destruct (forth_and_back_indices st fuel Hv Hacc Hfuel)
    as (n & m & out1 & out2 & Hc1 & Hc2 & Hstop & Hmoved & Hstayed & Hround).
  by exists (with_index st n), out1, (with_index st m), out2.
Qed.

(** From the first of two scenes: the step forwards moves, and the step
    backwards comes back. *)
Lemma forth_and_back_round_witness :
  ∃ st1 out1 st2 out2,
    change_scene 2 at_first 1 = Returned st1 out1
    ∧ change_scene 2 st1 (-1) = Returned st2 out2
    ∧ scenes st2 = scenes at_first
    ∧ variables st2 = variables at_first
    ∧ active_paths st2 = active_paths at_first
    ∧ scan_stops_at at_first 1 (index st1)
    ∧ (index st1 ≠ index at_first → index st2 = index at_first)
    ∧ (index st1 = index at_first → scan_stops_at at_first (-1) (index st2))
    ∧ returned_state (forth_and_back 2 st2) = Some st2
    ∧ index at_first = 0 ∧ index st1 = 1 ∧ index st2 = 0.
Proof.
  destruct (forth_and_back_round at_first 2)
    as (st1 & out1 & st2 & out2 & H1 & H2 & Hs & Hv & Ha & Hstop & Hmoved & Hstayed
        & Hround).
  - unfold valid, total. simpl. lia.
  - split; [simpl; lia|]. by eexists.
  - simpl. lia.
  - exists st1, out1, st2, out2. do 9 (split; [done|]). split; [done|].
    assert (index st1 = 1) as Hi1.
    { revert H1. vm_compute. by intros [= <- _]. }
    split; [done|]. apply Hmoved. by rewrite Hi1.
Defined.

(** C9, where the claim fails: on the last of two accessible scenes, the
    step forwards stays and the step backwards moves to the first scene, so
    the index is not left unchanged at the end of the graph. *)
Lemma forth_and_back_leaves_the_last_scene :
  index at_last = total at_last - 1
  ∧ accessible_at at_last (index at_last)
  ∧ index <$> returned_state (forth_and_back 2 at_last) = Some 0
  ∧ index at_last = 1.
Proof.
  split; [done|]. split; [|done].
  split; [simpl; lia|]. by eexists.
Qed.

End NavClaims.

(* ===================================================================== *)
(** * The claim on the rendered text *)
(* ===================================================================== *)

Module TextClaims.
Import App Nav TextFacts Examples.

(** C8 (as the code has it). [render_scene] always returns. Take a scene
    text that, once stripped of leading and trailing white space, is a
    template: a sequence of plain pieces without ["{"] and of placeholders
    [{name}] with names free of braces. If the variable names are free of
    braces and no value contains ["{"], the text of the bubble is the
    template where each placeholder of a variable is replaced by the value
    and every other placeholder is kept; the bubble is left out when that
    text is empty. *)
Theorem rendered_text_fills_placeholders (scene : SceneState.t)
    (variables : Py.dict string) (ps : list piece) (index total : Z) :
  Py.strip (SceneState.text scene) = template_text ps →
  Forall well_formed ps →
  Forall (λ kv, brace_free kv.1 ∧ ¬ has_char "{" kv.2) variables →
  text_content scene variables = filled variables ps
  ∧ bubble_text <$> bubble (r_stage_html (render_scene scene index total variables))
    = if String.eqb (filled variables ps) "" then None
      else Some (filled variables ps).
Proof.
  intros Htext Hps Hvars.
  assert (text_content scene variables = filled variables ps) as Heq.
  { unfold text_content. rewrite Htext. by apply substitute_template. }
  split; [done|].
  unfold render_scene. cbn [r_stage_html bubble]. rewrite Heq.
  by destruct (String.eqb (filled variables ps) "").
Qed.

Lemma rendered_text_fills_placeholders_witness :
  let scene := scene "  Hi {n}, meet {m}. " None None None in
  let ps := [Plain "Hi "; Placeholder "n"; Plain ", meet "; Placeholder "m"; Plain "."] in
  let variables := [("n", "Sam")] in
  text_content scene variables = filled variables ps
  ∧ bubble_text <$> bubble (r_stage_html (render_scene scene 0 1 variables))
    = if String.eqb (filled variables ps) "" then None
      else Some (filled variables ps).
Proof.
  apply rendered_text_fills_placeholders.
  - reflexivity.
  - unfold well_formed, brace_free, has_char. repeat constructor; compute_done.
  - unfold brace_free, has_char. repeat constructor; compute_done.
Defined.

(** C8, where the claim fails: the value of [a] is the text ["{b}"]. The
    loop replaces [{a}] by that value and then, in its round for [b],
    replaces the value itself, so [{a}] is shown as ["X"] and not as the
    value of [a]. *)
Lemma value_is_substituted_again :
  let scene := scene "{a}" None None None in
  Py.strip (SceneState.text scene) = template_text [Placeholder "a"]
  ∧ Py.get nested_variables "a" = Some "{b}"%string
  ∧ filled nested_variables [Placeholder "a"] = "{b}"%string
  ∧ text_content scene nested_variables = "X"%string.
Proof. repeat split. Qed.

End TextClaims.

(* ===================================================================== *)
(** * The builder's claims *)
(* ===================================================================== *)

Module BuilderClaims.
Import Heap Sharing HeapFacts CopyFacts StepFacts EmitFacts ChoiceFacts
  CommandFacts VisualNovelBuilder BuilderExamples.
Local Open Scope nat_scope.

Lemma calls_app cs cs' self h :
  calls self (cs ++ cs') h
  = match calls self cs h with
    | Some (self', h') => calls self' cs' h'
    | None => None
    end.
Proof.
  revert self h. induction cs as [|c cs IH]; intros self h; [done|].
  cbn [calls app]. unfold mbind, M_bind.
  destruct (call self c h) as [[self1 h1]|]; [apply IH|done].
Qed.

Lemma run_snoc cs c self h :
  run cs = Some (self, h) → run (cs ++ [c]) = call self c h.
Proof.
  unfold run, mbind, M_bind. destruct (__init__ []) as [[self0 h0]|]; [|done].
  rewrite calls_app. intros ->. cbn [calls]. unfold mbind, M_bind.
  by destruct (call self c h) as [[self1 h1]|].
Qed.

(** After any commands the builder is consistent and its graph can be
    read. *)
Lemma run_graph cs :
  ∃ self h graph, run cs = Some (self, h) ∧ consistent h self
                  ∧ read_graph h (_states self) = Some graph.
Proof.
  destruct (run_consistent cs) as (self & h & Hrun & Hc).
  destruct (consistent_graph h self Hc) as [graph Hgraph]. by exists self, h, graph.
Qed.



(** C10. [add_choice] on a builder whose list of scenes is empty returns
    without an error and leaves the builder and the heap, hence the list
    of scenes and the template, as they were. *)
Theorem add_choice_without_scene (self : t) (h : heap) (text : string)
    (next_scene_index : Z) :
  read the_list h (_states self) = Some [] →
  add_choice self text next_scene_index h = Some (self, h).
Proof.
  intros Hst. unfold add_choice.
  by rewrite (bind_Some _ _ _ _ _ (load_list_Some _ _ _ Hst)).
Qed.

Lemma add_choice_without_scene_witness :
  __init__ [] = Some (new_builder, new_heap)
  ∧ add_choice new_builder "Yes" 5 new_heap = Some (new_builder, new_heap).
Proof.
  split; [reflexivity|].
  apply (add_choice_without_scene new_builder new_heap "Yes" 5). reflexivity.
Defined.

(** C3 (as the code has it). [build] returns the builder's own list of
    scenes. A command called after [build] runs to its end, and the graph
    behind the returned list is then: the same graph, if the command only
    sets the template ([set_camera], [set_voice], [set_motors],
    [set_robot], the blurs, [set_stage], [set_path], [set_characters]);
    the graph with one scene more at its end, if the command emits a
    scene; the graph whose last scene has one choice more, if the command
    is [add_choice] (the same graph when it has no scene). *)
Theorem graph_after_build (cs : list command) (c : command) :
  ∃ self h g graph self' h' graph',
    run cs = Some (self, h)
    ∧ build self h = Some (g, h)
    ∧ read_graph h g = Some graph
    ∧ call self c h = Some (self', h')
    ∧ read_graph h' g = Some graph'
    ∧ graph_after c graph graph'.
Proof.
  destruct (run_graph cs) as (self & h & graph & Hrun & Hc & Hgraph).
  destruct (call_consistent h self c graph Hc Hgraph)
    as (self' & h' & graph' & Hcall & _ & _ & Hgraph' & Hafter).
  by exists self, h, (_states self), graph, self', h', graph'.
Qed.

(** C3, where the claim fails: [build] after one line of dialogue, then
    [narration]. The graph behind the list that [build] returned had one
    scene and now has two. *)
Lemma graph_grows_after_build :
  ∃ self h g graph self' h' graph',
    run one_line = Some (self, h)
    ∧ build self h = Some (g, h)
    ∧ read_graph h g = Some graph
    ∧ call self (Narration "Later") h = Some (self', h')
    ∧ read_graph h' g = Some graph'
    ∧ length graph = 1
    ∧ length graph' = 2.
Proof. eexists _, _, _, _, _, _, _. split; [reflexivity|]. by repeat split. Qed.

Lemma join_lookup_elem_of (Ls : list (list addr)) i A a :
  Ls !! i = Some A → a ∈ A → a ∈ mjoin Ls.
Proof.
  intros Hi Ha. apply list_elem_of_join. exists A. split; [done|].
  by eapply list_elem_of_lookup_2.
Qed.

Lemma NoDup_join_apart (Ls : list (list addr)) i j A B :
  NoDup (mjoin Ls) → Ls !! i = Some A → Ls !! j = Some B → i ≠ j → apart A B.
Proof.
  revert i j. induction Ls as [|L Ls IH]; intros i j Hnd Hi Hj Hij; [done|].
  cbn [mjoin list_join] in Hnd. apply NoDup_app in Hnd as (_ & Hdis & Hnd).
  destruct i as [|i], j as [|j]; simpl in Hi, Hj; [done| | |].
  - injection Hi as <-. intros a Ha Hb. apply (Hdis a Ha).
    by eapply join_lookup_elem_of.
  - injection Hj as <-. intros a Ha Hb. apply (Hdis a Hb).
    by eapply join_lookup_elem_of.
  - apply (IH i j); [done..|]. by intros ->.
Qed.

(** C2. After every sequence of commands, no object belongs to two
    emitted scenes, and none belongs to an emitted scene and to the
    template or is the list of scenes. Hence, whatever is assigned to
    objects of one scene (and whatever is allocated), the value of every
    other emitted scene and the value of the template stay the same. *)
Theorem snapshots_share_nothing (cs : list command) :
  ∃ self h states,
    run cs = Some (self, h)
    ∧ read the_list h (_states self) = Some states
    ∧ (∀ i si, states !! i = Some si →
         is_Some (read_scene h si)
         ∧ apart (scene_cells h si) (template_cells h self)
         ∧ _states self ∉ scene_cells h si)
    ∧ (∀ i j si sj, states !! i = Some si → states !! j = Some sj → i ≠ j →
         apart (scene_cells h si) (scene_cells h sj))
    ∧ (∀ i si h', states !! i = Some si → frames (scene_cells h si) h h' →
         read_template h' self = read_template h self
         ∧ ∀ j sj, states !! j = Some sj → j ≠ i →
                   read_scene h' sj = read_scene h sj).
Proof.
  destruct (run_consistent cs) as (self & h & Hrun & Hc).
  destruct (consistent_inv h self Hc) as (states & Hst & Hd & Hsc & Hnd & Hlt).
  exists self, h, states. do 2 (split; [done|]).
  unfold regions in Hnd, Hlt.
  pose proof Hnd as Hnd0.
  apply NoDup_cons in Hnd as [Hg Hnd].
  apply NoDup_app in Hnd as (HndT & HdisT & HndS).
  assert (∀ i si, states !! i = Some si →
            ∀ a, a ∈ scene_cells h si → a ∈ mjoin (scene_cells h <$> states)) as Hin.
  { intros i si Hi a Ha. apply (join_lookup_elem_of _ i (scene_cells h si)); [|done].
    by rewrite list_lookup_fmap, Hi. }
  assert (∀ i si, states !! i = Some si →
            apart (scene_cells h si) (template_cells h self)) as HapT.
  { intros i si Hi a Ha HaT. apply (HdisT a HaT). by eapply Hin. }
  assert (∀ i j si sj, states !! i = Some si → states !! j = Some sj → i ≠ j →
            apart (scene_cells h si) (scene_cells h sj)) as HapS.
  { intros i j si sj Hi Hj Hij.
    apply (NoDup_join_apart (scene_cells h <$> states) i j); [done| | |done].
    - by rewrite list_lookup_fmap, Hi.
    - by rewrite list_lookup_fmap, Hj. }
  split; [|split; [done|]].
  - intros i si Hi. split; [|split; [by eapply HapT|]].
    + rewrite Forall_forall in Hsc. apply Hsc. by eapply list_elem_of_lookup_2.
    + intros Hgs. apply Hg. apply elem_of_app. right. by eapply Hin.
  - intros i si h' Hi Hfr. split.
    + unfold read_template.
      rewrite (read_dict_same the_sprite h h' (_current_sprites self)); [done|].
      eapply frames_same_at; [exact Hfr|]. intros a Ha. split.
      * apply Hlt. right. apply elem_of_app. by left.
      * intros Hs. by apply (HapT i si Hi a).
    + intros j sj Hj Hij. apply read_scene_same.
      eapply frames_same_at; [exact Hfr|]. intros a Ha. split.
      * apply Hlt. right. apply elem_of_app. right. by eapply Hin.
      * intros Hs. by apply (HapS i j si sj Hi Hj (not_eq_sym Hij) a).
Qed.

(** The objects of a run with two characters and three scenes: the list
    of scenes, the template (a dict and two sprites), and per scene the
    scene object, its dict, its two sprites and its list of motor
    commands. *)
Example two_characters_cells :
  (λ '(self, h),
     (_states self, template_cells h self,
      scene_cells h <$> default [] (read the_list h (_states self))))
    <$> run two_characters
  = Some (0, [27; 25; 26],
          [[8; 6; 4; 5; 7]; [16; 14; 12; 13; 15]; [24; 22; 20; 21; 23]]).
Proof. vm_compute. reflexivity. Qed.

End BuilderClaims.

(* ===================================================================== *)
(** * Navigation: whole sessions *)
(* ===================================================================== *)

Module SessionFacts.
Import App Nav NavFacts HandlerFacts.

(** Where the loop of [change_scene] can stop, when it stops: at the
    index it was given as [new_index] or at an accessible scene of the
    graph. The lookup inside the loop never fails. *)
Lemma scan_in_graph fuel graph active d si new r :
  scan fuel graph active (Z.of_nat (length graph)) d si new = Some r →
  ∃ n, r = Some n
       ∧ (n = new
          ∨ (0 ≤ n < Z.of_nat (length graph)
             ∧ ∃ scene, graph !! Z.to_nat n = Some scene
                        ∧ is_scene_accessible scene active = true)).
Proof.
  revert si. induction fuel as [|fuel IH]; intros si; [done|]. simpl.
  destruct ((0 <=? si) && (si <? Z.of_nat (length graph))) eqn:Hin.
  - apply andb_true_iff in Hin as [H0%Z.leb_le H1%Z.ltb_lt].
    rewrite PyFacts.index_in_range by lia.
    destruct (lookup_lt_is_Some_2 graph (Z.to_nat si)) as [scene Hscene]; [lia|].
    rewrite Hscene.
    destruct (is_scene_accessible scene active) eqn:Hacc.
    + intros [= <-]. exists si. split; [done|]. right. split; [lia|]. eauto.
    + apply IH.
  - intros [= <-]. eauto.
Qed.

(** With a step that is not zero the loop ends: every iteration moves the
    search index towards one end of the graph. *)
Lemma scan_finishes fuel graph active d si new :
  d ≠ 0 → (0 < fuel)%nat →
  (0 ≤ si < Z.of_nat (length graph) →
   (0 < d → Z.of_nat (length graph) - si < Z.of_nat fuel)
   ∧ (d < 0 → si + 1 < Z.of_nat fuel)) →
  is_Some (scan fuel graph active (Z.of_nat (length graph)) d si new).
Proof.
  intros Hd. revert si. induction fuel as [|fuel IH]; intros si Hfuel Hm; [lia|].
  simpl.
  destruct ((0 <=? si) && (si <? Z.of_nat (length graph))) eqn:Hin; [|by eexists].
  apply andb_true_iff in Hin as [H0%Z.leb_le H1%Z.ltb_lt].
  destruct (Hm ltac:(lia)) as [Hup Hdown].
  rewrite PyFacts.index_in_range by lia.
  destruct (lookup_lt_is_Some_2 graph (Z.to_nat si)) as [scene ->]; [lia|].
  destruct (is_scene_accessible scene active); [by eexists|].
  apply IH; [lia|]. intros Hr. split; intros Hs; lia.
Qed.

Lemma with_index_same st : with_index st (index st) = st.
Proof. by destruct st. Qed.

(** [change_scene] on a graph with scenes, for every direction and every
    amount of fuel: it does not raise from an index that Python accepts,
    and the index it leaves is the old one or an index of the graph. *)
Lemma change_scene_cases st d fuel :
  scenes st ≠ [] →
  change_scene fuel st d = OutOfFuel
  ∨ (change_scene fuel st d = Raised Py.IndexError st
     ∧ ¬ (- total st ≤ index st < total st))
  ∨ ∃ n scene,
      change_scene fuel st d
        = Returned (with_index st n) (rendering (with_index st n) scene)
      ∧ Py.index (scenes st) n = Some scene
      ∧ (n = index st ∨ accessible_at st n).
Proof.
  intros Hne. rewrite change_scene_nonempty by done. unfold total.
  destruct (scan fuel _ _ _ d _ _) as [r|] eqn:Hscan; [|by left].
  right. destruct (scan_in_graph _ _ _ _ _ _ _ Hscan) as (n & -> & Hn).
  destruct (Py.index (scenes st) n) as [scene|] eqn:Hscene.
  - right. exists n, scene. do 2 (split; [done|]).
    destruct Hn as [-> | (Hn & scene' & Hs & Hacc)]; [by left|]. right.
    split; [lia|]. exists scene'. split; [done|]. by apply is_scene_accessible_spec.
  - left. destruct Hn as [-> | [Hn _]].
    + rewrite with_index_same. split; [done|]. intros Hr.
      destruct (PyFacts.index_is_Some (scenes st) (index st) Hr) as [? ?]. congruence.
    + destruct (PyFacts.index_is_Some (scenes st) n) as [? ?]; [lia|congruence].
Qed.

Lemma change_scene_returns st d fuel :
  scenes st ≠ [] → d ≠ 0 → (length (scenes st) < fuel)%nat →
  change_scene fuel st d ≠ OutOfFuel.
Proof.
  intros Hne Hd Hfuel. rewrite change_scene_nonempty by done. unfold total.
  destruct (scan_finishes fuel (scenes st) (active_paths st) d
              (index st + d) (index st)) as [r ->]; [done|lia| |].
  - intros Hr. split; intros; lia.
  - destruct r as [n|]; [|done]. by destruct (Py.index _ _).
Qed.

(** [handle_input] from an index that Python accepts. *)
Lemma handle_input_returns st user_input :
  scenes st ≠ [] → - total st ≤ index st < total st →
  ∃ st' out, handle_input st user_input = Returned st' out
             ∧ scenes st' = scenes st
             ∧ index st' = Z.min (index st + 1) (total st - 1).
Proof.
  intros Hne Hi.
  destruct (PyFacts.index_is_Some (scenes st) (index st) Hi) as [scene Hscene].
  destruct (PyFacts.index_is_Some (scenes st) (Z.min (index st + 1) (total st - 1)))
    as [next Hnext]; [unfold total in *; lia|].
  unfold handle_input. rewrite Hscene.
  cbn [scenes index with_index with_variables]. fold (total st). rewrite Hnext.
  eexists. eexists. done.
Qed.

(** [change_scene] with direction zero on an accessible scene. *)
Lemma change_scene_zero_accessible fuel st scene :
  valid st → scenes st !! Z.to_nat (index st) = Some scene →
  accessible scene (active_paths st) → (0 < fuel)%nat →
  change_scene fuel st 0 = Returned st (rendering st scene).
Proof.
  intros Hv Hscene Hacc Hfuel.
  assert (selected scene (-1) = None) as Hsel.
  { unfold selected. by destruct (SceneState.choices scene). }
  rewrite <- (handle_choice_fallback st (-1) fuel scene Hv Hscene Hsel Hacc Hfuel).
  unfold handle_choice. rewrite PyFacts.index_in_range by done.
  by rewrite Hscene, (selected_None _ _ Hsel).
Qed.

(** One event on a state with a valid index, in a graph whose choices
    point into the graph. *)
Lemma handle_outcome fuel st ev :
  valid st → targets_valid (scenes st) → (length (scenes st) < fuel)%nat →
  match handle fuel st ev with
  | Returned st' _ => scenes st' = scenes st ∧ valid st'
  | Raised e st' =>
      e = Py.TypeError ∧ st' = st ∧ ev = Deselect
      ∧ ∃ scene, scenes st !! Z.to_nat (index st) = Some scene
                 ∧ bool_choices (SceneState.choices scene) = true
  | OutOfFuel =>
      ∃ scene, scenes st !! Z.to_nat (index st) = Some scene
               ∧ ¬ accessible scene (active_paths st)
               ∧ (ev = Deselect
                  ∨ ∃ choice_index, ev = Select choice_index
                                    ∧ selected scene choice_index = None)
  end.
Proof.
  intros Hv Ht Hfuel. pose proof (valid_nonempty st Hv) as Hne.
  destruct (lookup_lt_is_Some_2 (scenes st) (Z.to_nat (index st)))
    as [scene Hscene]; [unfold valid, total in Hv; lia|].
  assert (∀ d, match change_scene fuel st d with
               | Returned st' _ => scenes st' = scenes st ∧ valid st'
               | Raised _ _ => False
               | OutOfFuel => d = 0 ∧ ¬ accessible scene (active_paths st)
               end) as Hchange.
  { intros d. destruct (change_scene_cases st d fuel Hne)
      as [Hc|[[Hc Hr]|(n & scene' & Hc & _ & Hn)]].
    - rewrite Hc. destruct (decide (d = 0)) as [->|Hd].
      + split; [done|]. intros Hacc.
        rewrite (change_scene_zero_accessible fuel st scene) in Hc by (done || lia).
        done.
      + destruct (change_scene_returns st d fuel); [done|done|lia|done].
    - destruct Hr. unfold valid in Hv. lia.
    - rewrite Hc. split; [done|]. unfold valid. simpl.
      destruct Hn as [-> | Hn%accessible_at_range]; done. }
  destruct ev as [| |choice_index| |user_input]; cbn [handle].
  - specialize (Hchange (-1)). destruct (change_scene fuel st (-1)); [done|done|].
    destruct Hchange as [? _]. lia.
  - specialize (Hchange 1). destruct (change_scene fuel st 1); [done|done|].
    destruct Hchange as [? _]. lia.
  - destruct (selected scene choice_index) as [chosen|] eqn:Hsel.
    + destruct (handle_choice_selected st choice_index fuel scene chosen Hv Ht Hscene Hsel)
        as (target & Htarget & Hcall).
      cbv zeta in Hcall. rewrite Hcall. split; [done|].
      apply lookup_lt_Some in Htarget.
      pose proof (targets_valid_lookup _ _ _ _ Ht Hscene (selected_elem_of _ _ _ Hsel)).
      unfold valid, total. simpl. lia.
    + assert (handle_choice fuel st choice_index = change_scene fuel st 0) as ->.
      { unfold handle_choice. rewrite PyFacts.index_in_range by done.
        by rewrite Hscene, (selected_None _ _ Hsel). }
      specialize (Hchange 0). destruct (change_scene fuel st 0); [done|done|].
      exists scene. split; [done|]. split; [by destruct Hchange|].
      right. by exists choice_index.
  - unfold handle_choice_none. rewrite PyFacts.index_in_range by done. rewrite Hscene.
    destruct (bool_choices (SceneState.choices scene)) eqn:Hchoices.
    + do 3 (split; [done|]). by exists scene.
    + specialize (Hchange 0). destruct (change_scene fuel st 0); [done|done|].
      exists scene. split; [done|]. split; [by destruct Hchange|]. by left.
  - destruct (handle_input_returns st user_input Hne) as (st' & out & -> & Hs & Hi).
    { unfold valid in Hv. lia. }
    split; [done|]. unfold valid, total in *. rewrite Hs, Hi. lia.
Qed.

Lemma session_stopped fuel o events :
  (∀ st out, o ≠ Returned st out) → session fuel o events = o.
Proof.
  intros Ho. destruct events; [done|].
  destruct o as [st out| |]; [by destruct (Ho st out)|done..].
Qed.

(** A session from a state with a valid index: how it ends, and at which
    event when it does not return. *)
Lemma session_outcome fuel events st0 out0 :
  valid st0 → targets_valid (scenes st0) → (length (scenes st0) < fuel)%nat →
  match session fuel (Returned st0 out0) events with
  | Returned st _ => scenes st = scenes st0 ∧ valid st
  | Raised e st =>
      e = Py.TypeError
      ∧ ∃ before after out scene,
          events = before ++ Deselect :: after
          ∧ session fuel (Returned st0 out0) before = Returned st out
          ∧ scenes st0 !! Z.to_nat (index st) = Some scene
          ∧ bool_choices (SceneState.choices scene) = true
  | OutOfFuel =>
      ∃ before ev after st out scene,
        events = before ++ ev :: after
        ∧ session fuel (Returned st0 out0) before = Returned st out
        ∧ scenes st0 !! Z.to_nat (index st) = Some scene
        ∧ ¬ accessible scene (active_paths st)
        ∧ (ev = Deselect
           ∨ ∃ choice_index, ev = Select choice_index
                             ∧ selected scene choice_index = None)
  end.
Proof.
  revert st0 out0. induction events as [|ev events IH]; intros st0 out0 Hv Ht Hfuel;
    [done|].
  cbn [session]. pose proof (handle_outcome fuel st0 ev Hv Ht Hfuel) as Hstep.
  destruct (handle fuel st0 ev) as [st1 out1|e st1|] eqn:Hh.
  - destruct Hstep as [Hs Hv1].
    specialize (IH st1 out1 Hv1). rewrite Hs in IH. specialize (IH Ht Hfuel).
    destruct (session fuel (Returned st1 out1) events) as [st out|e st|].
    + done.
    + destruct IH as (He & before & after & out & scene & -> & Hrun & Hscene & Hch).
      split; [done|]. exists (ev :: before), after, out, scene.
      split; [done|]. cbn [session]. by rewrite Hh.
    + destruct IH as (before & ev' & after & st & out & scene & -> & Hrun & Hrest).
      exists (ev :: before), ev', after, st, out, scene.
      split; [done|]. cbn [session]. by rewrite Hh.
  - rewrite session_stopped by done.
    destruct Hstep as (-> & -> & -> & scene & Hscene & Hch).
    split; [done|]. by exists [], events, out0, scene.
  - rewrite session_stopped by done.
    destruct Hstep as (scene & Hscene & Hacc & Hev).
    by exists [], ev, events, st0, out0, scene.
Qed.

(** A session on a graph with scenes whose choices point into it. *)
Lemma session_on_valid_graph graph fuel events :
  graph ≠ [] → targets_valid graph → (length graph < fuel)%nat →
  session_ends_well graph fuel events.
Proof.
  intros Hne Ht Hfuel. unfold session_ends_well.
  assert (∃ out, load_initial_state graph = Returned (initial_state graph) out)
    as [out ->].
  { unfold load_initial_state. destruct graph as [|s0 graph]; [done|]. by eexists. }
  apply (session_outcome fuel events (initial_state graph) out); [|done..].
  unfold valid, total. simpl. destruct graph; [done|]. simpl. lia.
Qed.

End SessionFacts.

(* ===================================================================== *)
(** * Motor positions, and texts without placeholders *)
(* ===================================================================== *)

Module TicksFacts.
Import App Nav.

(** The comparisons of an [int] with the two bounds. *)
Lemma int_lt_360 (p : Z) : Py.lt (Py.Int p) (Py.Float 360) = (p <? 360).
Proof.
  unfold Py.lt, Py.int_lt_float.
  replace (Prim2SF 360) with (S754_finite false 6333186975989760 (-44))
    by (vm_compute; reflexivity).
  cbn [Z.leb Z.opp]. change (0 <=? -44) with false. cbv iota.
  change (2 ^ 44) with 17592186044416.
  destruct (Z.ltb_spec p 360), (Z.ltb_spec (p * 17592186044416) 6333186975989760);
    lia.
Qed.

Lemma zero_lt_int (p : Z) : Py.lt (Py.Float 0) (Py.Int p) = (0 <? p).
Proof.
  unfold Py.lt, Py.float_lt_int.
  by replace (Prim2SF 0) with (S754_zero false) by (vm_compute; reflexivity).
Qed.

(** The positions strictly between the bounds, one by one. *)
Lemma ticks_between (p : Z) :
  0 < p < 360 → goal_position_ticks (Py.Int p) = Py.Value (ticks_of p).
Proof.
  intros Hp.
  assert (forallb ticks_agree (seqZ 1 359) = true) as Hall by (vm_compute; reflexivity).
  rewrite forallb_forall in Hall.
  specialize (Hall p). unfold ticks_agree in Hall.
  destruct (goal_position_ticks (Py.Int p)) as [ticks|e].
  - f_equal. apply Z.eqb_eq, Hall. apply list_elem_of_In, elem_of_seqZ. lia.
  - discriminate Hall. apply list_elem_of_In, elem_of_seqZ. lia.
Qed.

Lemma ticks_of_int (p : Z) :
  goal_position_ticks (Py.Int p) = Py.Value (ticks_of p).
Proof.
  destruct (decide (0 < p < 360)) as [Hp|Hp]; [by apply ticks_between|].
  unfold goal_position_ticks, Py.min, Py.max.
  rewrite int_lt_360. destruct (Z.ltb_spec p 360) as [Hlt|Hge].
  - rewrite zero_lt_int. destruct (Z.ltb_spec 0 p); [lia|].
    unfold ticks_of. replace (Z.max 0 (Z.min 360 p)) with 0 by lia.
    vm_compute. reflexivity.
  - unfold ticks_of. replace (Z.max 0 (Z.min 360 p)) with 360 by lia.
    vm_compute. reflexivity.
Qed.

Lemma ticks_of_range (p : Z) : 0 ≤ ticks_of p ≤ 4095.
Proof.
  unfold ticks_of. split.
  - apply Z.div_pos; lia.
  - apply Z.div_le_upper_bound; lia.
Qed.

Lemma ticks_of_monotone (p q : Z) : p ≤ q → ticks_of p ≤ ticks_of q.
Proof. intros Hpq. unfold ticks_of. apply Z.div_le_mono; lia. Qed.

(** A float at or above the upper bound, or a NaN: [min] keeps 360.0. *)
Lemma ticks_of_large (f : float) :
  PrimFloat.ltb f 360 = false → goal_position_ticks (Py.Float f) = Py.Value 4095.
Proof.
  intros Hf. unfold goal_position_ticks, Py.min, Py.max.
  cbn [Py.lt]. rewrite Hf. vm_compute. reflexivity.
Qed.

(** A float at or below the lower bound: [max] keeps 0.0. *)
Lemma ticks_of_small (f : float) :
  PrimFloat.ltb f 360 = true → PrimFloat.ltb 0 f = false →
  goal_position_ticks (Py.Float f) = Py.Value 0.
Proof.
  intros Hf H0. unfold goal_position_ticks, Py.min, Py.max.
  cbn [Py.lt]. rewrite Hf. cbn [Py.lt]. rewrite H0. vm_compute. reflexivity.
Qed.

Lemma index_in_range_spec st :
  index_in_range st = true ↔ 0 ≤ index st < total st.
Proof.
  unfold index_in_range, total. rewrite andb_true_iff, Z.leb_le, Z.ltb_lt. done.
Qed.

Lemma mapM_result_ext {A B} (f g : A → Py.result B) (l : list A) :
  (∀ x, f x = g x) → mapM f l = mapM g l.
Proof.
  intros Hfg. induction l as [|x l IH]; [done|]. simpl. by rewrite Hfg, IH.
Qed.

End TicksFacts.

Module PlainTextFacts.
Import App Nav TextFacts.

Lemma append_empty_r (s : string) : s +:+ "" = s.
Proof.
  induction s as [|a s IH]; [done|]. by rewrite append_cons, IH.
Qed.

(** A text without an opening brace holds no placeholder. *)
Lemma replace_no_brace (s k v : string) :
  ¬ has_char "{" s → Py.replace s ("{" +:+ k +:+ "}") v = s.
Proof.
  intros Hs. unfold Py.replace.
  change ("{" +:+ k +:+ "}")%string with (String "{" ("" +:+ (k +:+ "}")))%string.
  rewrite append_nil. cbn [String.eqb].
  rewrite <- (append_empty_r s) at 1.
  rewrite (replace_from_plain (k +:+ "}") v s "" Hs). simpl.
  apply append_empty_r.
Qed.

Lemma substitute_no_brace (variables : Py.dict string) (s : string) :
  ¬ has_char "{" s → substitute variables s = s.
Proof.
  intros Hs. induction variables as [|[k v] variables IH]; [done|].
  cbn [substitute]. by rewrite replace_no_brace.
Qed.

End PlainTextFacts.

(* ===================================================================== *)
(** * The addresses of the assets and the data URL *)
(* ===================================================================== *)

Module AssetFacts.
Import Nav TextFacts Assets.

Lemma append_inj_l (s t t' : string) : s +:+ t = s +:+ t' → t = t'.
Proof.
  induction s as [|a s IH]; [by rewrite !append_nil|].
  rewrite !append_cons. intros [= H]. by apply IH.
Qed.

(** The characters of the result of [replace] come from the text or from
    the replacement. *)
Lemma replace_from_chars (d : ascii) (old new : string) (skip : nat) (s : string) :
  has_char d (Py.replace_from old new skip s) → has_char d s ∨ has_char d new.
Proof.
  revert skip. induction s as [|a s IH]; intros skip; [by left|].
  cbn [Py.replace_from]. destruct skip as [|k].
  - destruct (String.prefix old (String a s)).
    + rewrite has_char_app. intros [H|H]; [by right|].
      destruct (IH _ H) as [?|?]; [|by right]. left. apply has_char_cons. by right.
    + rewrite !has_char_cons. intros [->|H]; [left; by left|].
      destruct (IH _ H) as [?|?]; [|by right]. left. by right.
  - intros H. destruct (IH _ H) as [?|?]; [|by right]. left. apply has_char_cons. by right.
Qed.

Lemma replace_empty_chars (d : ascii) (new s : string) :
  has_char d (Py.replace_empty new s) → has_char d s ∨ has_char d new.
Proof.
  induction s as [|a s IH]; [by right|].
  cbn [Py.replace_empty]. rewrite has_char_app, !has_char_cons.
  intros [H|[->|H]]; [by right|left; by left|].
  destruct (IH H) as [?|?]; [|by right]. left. by right.
Qed.

Lemma replace_keeps_absent (d : ascii) (s old new : string) :
  ¬ has_char d s → ¬ has_char d new → ¬ has_char d (Py.replace s old new).
Proof.
  intros Hs Hnew. unfold Py.replace. destruct (String.eqb old "").
  - intros [?|?]%replace_empty_chars; done.
  - intros [?|?]%replace_from_chars; done.
Qed.

(** After [replace] of one character by a text without it, the character
    is gone. *)
Lemma replace_char_absent (c : ascii) (s new : string) :
  ¬ has_char c new → ¬ has_char c (Py.replace s (String c "") new).
Proof.
  intros Hnew. unfold Py.replace. cbn [String.eqb].
  induction s as [|a s IH]; [apply has_char_empty|].
  cbn [Py.replace_from String.prefix String.length Nat.sub].
  destruct (Ascii.ascii_dec c a) as [->|Hca].
  - assert (String.prefix "" s = true) as -> by by destruct s.
    rewrite has_char_app. tauto.
  - rewrite has_char_cons. intros [?|?]; [done|by apply IH].
Qed.

End AssetFacts.

(* ===================================================================== *)
(** * The values behind the steps of a command *)
(* ===================================================================== *)

Module ValueFacts.
Import Heap Sharing Values HeapFacts CopyFacts StepFacts EmitFacts ChoiceFacts
  CommandFacts VisualNovelBuilder.
Local Open Scope nat_scope.

Lemma reads_same h h' sc sc' d ch ir ms rp :
  same_refs sc sc' → same_at (part_cells h sc) h h' →
  reads h sc d ch ir ms rp → reads h' sc' d ch ir ms rp.
Proof.
  intros (Hc & Hch & Hi & Hm & Hr) Hsame. unfold reads. rewrite Hc, Hch, Hi, Hm, Hr.
  destruct (parts_same h h' sc Hsame) as (_ & _ & _ & Rd & Rc & Ri & Rm & Rr).
  by rewrite Rd, Rc, Ri, Rm, Rr.
Qed.

(** ** Steps compose *)

Lemma acts_bind {A B} s (m : M A) (k : A → M B) f g :
  local_step s m → acts s m f → (∀ x, acts s (k x) g) →
  acts s (m ≫= k) (λ v, g (f v)).
Proof.
  intros Hl Hm Hk h v Hown Hv.
  destruct (Hm h v Hown Hv) as (x & h1 & Hrun & Hv1).
  destruct (Hl h Hown) as (x' & h1' & Hrun' & _ & Hown1 & _).
  rewrite Hrun in Hrun'. injection Hrun' as <- <-.
  destruct (Hk x h1 (f v) Hown1 Hv1) as (y & h2 & Hrun2 & Hv2).
  exists y, h2. split; [|done]. by rewrite (bind_Some _ _ _ _ _ Hrun).
Qed.

Lemma acts_ext {A} s (m : M A) f g :
  acts s m f → (∀ v, f v = g v) → acts s m g.
Proof.
  intros Hm Hfg h v Hown Hv. destruct (Hm h v Hown Hv) as (x & h' & Hrun & Hv').
  exists x, h'. by rewrite <- Hfg.
Qed.

Lemma acts_ret {A} s (x : A) : acts s (mret x) (λ v, v).
Proof. intros h v _ Hv. by exists x, h. Qed.

(** ** Assignments of attributes that are not references *)

Lemma acts_assign_scene s g f :
  (∀ sc, same_refs sc (g sc)) →
  (∀ sc d ch ir ms rp,
     scene_value (g sc) d ch ir ms rp = f (scene_value sc d ch ir ms rp)) →
  acts s (assign_scene s g) f.
Proof.
  intros Hrefs Hval h v Hown Hv.
  destruct (owned_inv h s Hown) as (sc & Hsc & Hparts & Hs & Hnd & Hlt).
  apply read_scene_Some in Hv as (sc' & d & ch & ir & ms & rp & Hsc' & Hreads & ->).
  assert (sc' = sc) as -> by congruence.
  assert (s < length h) as Hslt by (apply Hlt; by left).
  exists (), (<[s:=OScene (g sc)]> h). split.
  - unfold assign_scene. rewrite (bind_Some _ _ _ _ _ (load_scene_Some _ _ _ Hsc)).
    by apply store_Some.
  - apply read_scene_Some. exists (g sc), d, ch, ir, ms, rp.
    split; [by rewrite read_insert_eq|]. split; [|by rewrite Hval].
    apply (reads_same h _ sc); [apply Hrefs| |done].
    intros a Ha. apply list_lookup_insert_ne. by intros ->.
Qed.

(** ** [state.input_request = InputRequest(...)] and
       [state.robot_pose = RobotPose(...)] *)

Lemma acts_input_request s x :
  acts s (r ← alloc (OInputRequest x);
          assign_scene s (set_scene_input_request (Some r)))
       (with_input_request (Some x)).
Proof.
  intros h v Hown Hv.
  destruct (owned_inv h s Hown) as (sc & Hsc & Hparts & Hs & Hnd & Hlt).
  apply read_scene_Some in Hv as (sc0 & d & ch & ir & ms & rp & Hsc0 & Hreads & ->).
  assert (sc0 = sc) as -> by congruence.
  assert (s < length h) as Hslt by (apply Hlt; by left).
  set (sc' := set_scene_input_request (Some (length h)) sc).
  set (h' := <[s:=OScene sc']> (h ++ [OInputRequest x])).
  assert (same_at (part_cells h sc) h h') as Hsame.
  { apply alloc_store_same; [|done]. intros a Ha. apply Hlt. by right. }
  destruct (parts_same h h' sc Hsame) as (_ & _ & _ & Rd & Rc & _ & Rm & Rr).
  destruct Hreads as (Pd & Pc & Pi & Pm & Pr).
  exists (), h'. split.
  - assert (read the_scene (h ++ [OInputRequest x]) s = Some sc) as Hsc1
      by by rewrite read_app_l.
    unfold mbind at 1, M_bind at 1, alloc at 1.
    unfold assign_scene.
    rewrite (bind_Some _ _ _ _ _ (load_scene_Some _ _ _ Hsc1)).
    apply store_Some. rewrite length_app. lia.
  - apply read_scene_Some. exists sc', d, ch, (Some x), ms, rp.
    split; [|split; [|done]].
    + unfold h'. rewrite read_insert_eq; [done|]. rewrite length_app. lia.
    + unfold reads, sc'. scene_fields. rewrite Rd, Rc, Rm, Rr.
      do 2 (split; [done|]). split; [|done]. cbn [read_opt].
      unfold h', read. rewrite list_lookup_insert_ne by lia.
      by rewrite list_lookup_middle.
Qed.

Lemma acts_robot_pose s x :
  acts s (r ← alloc (ORobotPose x);
          assign_scene s (set_scene_robot_pose (Some r)))
       (with_robot_pose (Some x)).
Proof.
  intros h v Hown Hv.
  destruct (owned_inv h s Hown) as (sc & Hsc & Hparts & Hs & Hnd & Hlt).
  apply read_scene_Some in Hv as (sc0 & d & ch & ir & ms & rp & Hsc0 & Hreads & ->).
  assert (sc0 = sc) as -> by congruence.
  assert (s < length h) as Hslt by (apply Hlt; by left).
  set (sc' := set_scene_robot_pose (Some (length h)) sc).
  set (h' := <[s:=OScene sc']> (h ++ [ORobotPose x])).
  assert (same_at (part_cells h sc) h h') as Hsame.
  { apply alloc_store_same; [|done]. intros a Ha. apply Hlt. by right. }
  destruct (parts_same h h' sc Hsame) as (_ & _ & _ & Rd & Rc & Ri & Rm & _).
  destruct Hreads as (Pd & Pc & Pi & Pm & Pr).
  exists (), h'. split.
  - assert (read the_scene (h ++ [ORobotPose x]) s = Some sc) as Hsc1
      by by rewrite read_app_l.
    unfold mbind at 1, M_bind at 1, alloc at 1.
    unfold assign_scene.
    rewrite (bind_Some _ _ _ _ _ (load_scene_Some _ _ _ Hsc1)).
    apply store_Some. rewrite length_app. lia.
  - apply read_scene_Some. exists sc', d, ch, ir, ms, (Some x).
    split; [|split; [|done]].
    + unfold h'. rewrite read_insert_eq; [done|]. rewrite length_app. lia.
    + unfold reads, sc'. scene_fields. rewrite Rd, Rc, Ri, Rm.
      do 4 (split; [done|]). cbn [read_opt].
      unfold h', read. rewrite list_lookup_insert_ne by lia.
      by rewrite list_lookup_middle.
Qed.

(** ** [state.motor_commands.append(MotorCommand(...))] *)

Lemma acts_motor_command s motor_id position :
  acts s (append_motor_command s motor_id position)
       (λ v, with_motor_commands
               (SceneState.motor_commands v ++ [MotorCommand.make motor_id position]) v).
Proof.
  intros h v Hown Hv.
  destruct (owned_inv h s Hown) as (sc & Hsc & Hparts & Hs & Hnd & Hlt).
  apply read_scene_Some in Hv as (sc0 & d & ch & ir & ms & rp & Hsc0 & Hreads & ->).
  assert (sc0 = sc) as -> by congruence.
  destruct Hreads as (Pd & Pc & Pi & Pm & Pr).
  set (m := SceneObject.motor_commands sc) in *.
  set (o := OMotorCommand (MotorCommand.make motor_id position)).
  assert (NoDup (list_cells h m)) as Hndm.
  { unfold part_cells in Hnd. rewrite !NoDup_app in Hnd. tauto. }
  destruct (append_fresh the_motor_command h o _ m ms eq_refl Pm Hndm)
    as (Hrun & Hread & Hcells & Hnd').
  set (h' := <[m:=OList (default [] (read the_list h m) ++ [length h])]> (h ++ [o])) in *.
  assert (m ∈ list_cells h m) as Hm by (apply elem_of_cons; by left).
  assert (m ∈ part_cells h sc) as Hmp.
  { unfold part_cells. rewrite !elem_of_app. auto. }
  assert (∀ A, (∀ a, a ∈ A → a ∈ (s :: part_cells h sc)) → m ∉ A → same_at A h h') as Hsame.
  { intros A HA HmA. apply write_same_at; [|done]. intros a Ha. by apply Hlt, HA. }
  unfold part_cells in Hnd. fold m in Hnd.
  assert (read the_scene h' s = Some sc) as Hsc'.
  { rewrite <- Hsc. apply read_same, (Hsame [s]); [| |by apply list_elem_of_singleton].
    - intros a ->%list_elem_of_singleton. by left.
    - intros ->%list_elem_of_singleton. done. }
  assert (NoDup ((dict_cells h (SceneObject.characters sc)
                  ++ opt_cells (list_cells h) (SceneObject.choices sc)
                  ++ opt_cells (λ r, [r]) (SceneObject.input_request sc))
                 ++ list_cells h m
                 ++ opt_cells (λ r, [r]) (SceneObject.robot_pose sc))) as Hnd3
    by by rewrite <- !app_assoc.
  destruct (NoDup_app_notin _ _ _ m Hnd3 Hm) as [HmX HmR].
  rewrite !not_elem_of_app in HmX. destruct HmX as (HmD & HmC & HmI).
  assert (same_at (dict_cells h (SceneObject.characters sc)) h h') as SD.
  { apply Hsame; [|done]. intros a Ha. right. unfold part_cells.
    rewrite !elem_of_app. auto. }
  assert (same_at (opt_cells (list_cells h) (SceneObject.choices sc)) h h') as SC.
  { apply Hsame; [|done]. intros a Ha. right. unfold part_cells.
    rewrite !elem_of_app. auto. }
  assert (same_at (opt_cells (λ r, [r]) (SceneObject.input_request sc)) h h') as SI.
  { apply Hsame; [|done]. intros a Ha. right. unfold part_cells.
    rewrite !elem_of_app. auto. }
  assert (same_at (opt_cells (λ r, [r]) (SceneObject.robot_pose sc)) h h') as SR.
  { apply Hsame; [|done]. intros a Ha. right. unfold part_cells.
    rewrite !elem_of_app. auto 10. }
  destruct (choices_same h h' _ SC) as [_ RC].
  exists (), h'. split.
  - unfold append_motor_command.
    unfold mbind at 1, M_bind at 1, alloc at 1.
    assert (read the_scene (h ++ [o]) s = Some sc) as Hsc1.
    { rewrite read_app_l; [done|]. apply Hlt. by left. }
    fold o. rewrite (bind_Some _ _ _ _ _ (load_scene_Some _ _ _ Hsc1)).
    revert Hrun. unfold mbind at 1, M_bind at 1, alloc at 1. done.
  - apply read_scene_Some.
    exists sc, d, ch, ir, (ms ++ [MotorCommand.make motor_id position]), rp.
    split; [done|]. split; [|done]. unfold reads. fold m.
    rewrite (read_dict_same the_sprite h h' _ SD), RC.
    rewrite (leaf_same the_input_request h h' _ SI).
    by rewrite (leaf_same the_robot_pose h h' _ SR), Hread.
Qed.

Lemma acts_motor_commands s commands :
  acts s (append_motor_commands s commands)
       (λ v, with_motor_commands
               (SceneState.motor_commands v
                ++ ((λ c, MotorCommand.make c.1 c.2) <$> commands)) v).
Proof.
  induction commands as [|[motor_id position] commands IH].
  - eapply acts_ext; [apply acts_ret|]. intros v. cbn [fmap list_fmap].
    rewrite app_nil_r. by destruct v.
  - cbn [append_motor_commands].
    eapply acts_ext.
    + apply acts_bind; [apply append_motor_command_local|apply acts_motor_command|].
      intros _. exact IH.
    + intros v. unfold with_motor_commands, amended. cbn. by rewrite <- app_assoc.
Qed.

(** ** Assignments to a sprite of the scene *)

Lemma get_values {A} (cls : object → option A) h (items : Py.dict addr)
    (d : Py.dict A) name :
  Forall2 (λ kv y, pair kv.1 <$> read cls h kv.2 = Some y) items d →
  Py.get d name = Py.get items name ≫= read cls h.
Proof.
  induction 1 as [|[k a] y items d Hy _ IH]; [done|].
  apply fmap_Some in Hy as (x & Hx & ->). cbn [Py.get fst snd] in *.
  destruct (String.eqb k name); [|done]. cbn [mbind option_bind]. by rewrite Hx.
Qed.

Lemma values_same {A} (cls : object → option A) h h' (items : Py.dict addr)
    (d : Py.dict A) :
  same_at items.*2 h h' →
  Forall2 (λ kv y, pair kv.1 <$> read cls h kv.2 = Some y) items d →
  Forall2 (λ kv y, pair kv.1 <$> read cls h' kv.2 = Some y) items d.
Proof.
  intros Hsame H. induction H as [|[k a] y items d Hy _ IH]; [constructor|].
  rewrite fmap_cons in Hsame. apply same_at_cons in Hsame as [Ha Hsame].
  constructor; [|by apply IH]. cbn [fst snd] in *.
  by rewrite (read_same cls h h' a).
Qed.

Lemma set_values h (items : Py.dict addr) (d : Py.dict CharacterSprite.t) name a x :
  NoDup items.*2 → a < length h →
  Forall2 (λ kv y, pair kv.1 <$> read the_sprite h kv.2 = Some y) items d →
  Py.get items name = Some a →
  Forall2 (λ kv y, pair kv.1 <$> read the_sprite (<[a:=OSprite x]> h) kv.2 = Some y)
          items (Py.set d name x).
Proof.
  intros Hnd Ha H. induction H as [|[k b] y items d Hy Hrest IH]; [done|].
  rewrite fmap_cons in Hnd. apply NoDup_cons in Hnd as [Hb Hnd]. cbn [snd] in Hb.
  apply fmap_Some in Hy as (x0 & Hx0 & ->). cbn [Py.get Py.set fst snd] in *.
  destruct (String.eqb k name).
  - intros [= ->]. constructor.
    + cbn [fst snd]. by rewrite read_insert_eq.
    + apply (values_same the_sprite h); [|done].
      intros c Hc. apply list_lookup_insert_ne. by intros ->.
  - intros Hget. constructor; [|by apply IH]. cbn [fst snd].
    rewrite (read_same the_sprite h (<[a:=OSprite x]> h) b); [by rewrite Hx0|].
    apply list_lookup_insert_ne. intros ->. by apply Hb, (get_elem_of _ name).
Qed.

(** [state.characters[name].f = ...] for a name of the dict. *)
Lemma assign_sprite_value s name f h v sprite :
  owned h s → read_scene h s = Some v →
  Py.get (SceneState.characters v) name = Some sprite →
  ∃ h', assign_sprite s name f h = Some ((), h')
    ∧ owned h' s
    ∧ frames (scene_cells h s) h h'
    ∧ scene_cells h' s = scene_cells h s
    ∧ read_scene h' s
      = Some (with_characters (Py.set (SceneState.characters v) name (f sprite)) v).
Proof.
  intros Hown Hv Hget.
  destruct (owned_inv h s Hown) as (sc & Hsc & Hparts & Hs & Hnd & Hlt).
  apply read_scene_Some in Hv as (sc0 & d & ch & ir & ms & rp & Hsc0 & Hreads & ->).
  assert (sc0 = sc) as -> by congruence.
  destruct Hreads as (Pd & Pc & Pi & Pm & Pr).
  cbn [scene_value SceneState.characters] in Hget.
  set (da := SceneObject.characters sc) in *.
  unfold read_dict in Pd.
  destruct (read the_dict h da) as [items|] eqn:Hitems; [|done].
  cbn [mbind option_bind] in Pd. apply mapM_Some in Pd.
  rewrite (get_values the_sprite h items d name Pd) in Hget.
  destruct (Py.get items name) as [a|] eqn:Hgeta; [|done].
  cbn [mbind option_bind] in Hget.
  destruct (assign_sprite_at s name f h sc items a Hown Hsc Hitems Hgeta)
    as (h' & Hrun & Hfr & Hown' & Hcells & Hsc' & Hitems').
  fold da in Hitems'.
  apply get_elem_of in Hgeta as Ha.
  assert (a ∈ dict_cells h da) as Had.
  { unfold dict_cells. rewrite Hitems. by right. }
  assert (a < length h) as Halt.
  { apply Hlt. right. unfold part_cells. fold da. rewrite !elem_of_app. auto. }
  assert (h' = <[a:=OSprite (f sprite)]> h) as ->.
  { revert Hrun. unfold assign_sprite.
    rewrite (bind_Some _ _ _ _ _ (load_scene_Some _ _ _ Hsc)).
    fold da. rewrite (bind_Some _ _ _ _ _ (load_dict_Some _ _ _ Hitems)).
    rewrite Hgeta. rewrite (bind_Some _ _ _ _ _ (load_sprite_Some _ _ _ Hget)).
    rewrite (store_Some _ _ _ Halt). by intros [= <-]. }
  exists (<[a:=OSprite (f sprite)]> h). do 4 (split; [done|]).
  unfold part_cells in Hnd. fold da in Hnd.
  destruct (NoDup_app_notin [] _ _ a Hnd Had) as [_ HaY].
  rewrite !not_elem_of_app in HaY. destruct HaY as (HaC & HaI & HaM & HaR).
  assert (∀ A, a ∉ A → same_at A h (<[a:=OSprite (f sprite)]> h)) as Hsame.
  { intros A HaA b Hb. apply list_lookup_insert_ne. by intros ->. }
  apply read_scene_Some.
  exists sc, (Py.set d name (f sprite)), ch, ir, ms, rp.
  split; [done|]. split; [|done]. unfold reads. fold da.
  destruct (choices_same h _ _ (Hsame _ HaC)) as [_ RC].
  rewrite RC, (leaf_same the_input_request h _ _ (Hsame _ HaI)).
  rewrite (leaf_same the_robot_pose h _ _ (Hsame _ HaR)).
  rewrite (read_list_same the_motor_command h _ _ (Hsame _ HaM)).
  split; [|done]. unfold read_dict. rewrite Hitems'. cbn [mbind option_bind].
  apply mapM_Some. apply set_values; [|done..].
  assert (NoDup (dict_cells h da)) as Hd by (rewrite !NoDup_app in Hnd; tauto).
  unfold dict_cells in Hd. rewrite Hitems in Hd. simpl in Hd.
  by apply NoDup_cons in Hd as [_ ?].
Qed.

(** [name in state.characters] *)
Lemma has_character_value s name h v :
  owned h s → read_scene h s = Some v →
  has_character s name h
  = Some (bool_decide (is_Some (Py.get (SceneState.characters v) name)), h).
Proof.
  intros Hown Hv.
  destruct (owned_inv h s Hown) as (sc & Hsc & Hparts & _).
  apply read_scene_Some in Hv as (sc0 & d & ch & ir & ms & rp & Hsc0 & Hreads & ->).
  assert (sc0 = sc) as -> by congruence.
  destruct Hreads as (Pd & _). cbn [scene_value SceneState.characters].
  unfold read_dict in Pd.
  destruct (read the_dict h (SceneObject.characters sc)) as [items|] eqn:Hitems; [|done].
  cbn [mbind option_bind] in Pd. apply mapM_Some in Pd.
  unfold has_character.
  rewrite (bind_Some _ _ _ _ _ (load_scene_Some _ _ _ Hsc)).
  rewrite (bind_Some _ _ _ _ _ (load_dict_Some _ _ _ Hitems)).
  unfold mret, M_ret.
  assert (is_Some (Py.get items name) ↔ is_Some (Py.get d name)) as Hiff.
  { rewrite (get_values the_sprite h items d name Pd).
    destruct (Py.get items name) as [a|] eqn:Hget; cbn [mbind option_bind]; [|done].
    split; [intros _|intros _; by eexists].
    apply get_elem_of in Hget. apply list_elem_of_fmap in Hget as ([k a'] & -> & Hin).
    apply list_elem_of_lookup_1 in Hin as [i Hi].
    destruct (Forall2_lookup_l _ _ _ _ _ Pd Hi) as (y & _ & Hy).
    apply fmap_Some in Hy as (x & Hx & _). by eexists. }
  by rewrite (bool_decide_ext _ _ Hiff).
Qed.

Lemma on_sprite_present name f v sprite :
  Py.get (SceneState.characters v) name = Some sprite →
  on_sprite name f v
  = with_characters (Py.set (SceneState.characters v) name (f sprite)) v.
Proof. intros Hget. unfold on_sprite, sprite_assigned. by rewrite Hget. Qed.

Lemma on_sprite_absent name f v :
  Py.get (SceneState.characters v) name = None → on_sprite name f v = v.
Proof.
  intros Hget. unfold on_sprite, sprite_assigned. rewrite Hget. by destruct v.
Qed.

Lemma acts_sprite s name f :
  acts s (present ← has_character s name;
          if present : bool then assign_sprite s name f else mret ())
       (on_sprite name f).
Proof.
  intros h v Hown Hv. rewrite (bind_Some _ _ _ _ _ (has_character_value s name h v Hown Hv)).
  destruct (Py.get (SceneState.characters v) name) as [sprite|] eqn:Hget.
  - rewrite bool_decide_eq_true_2 by by eexists.
    destruct (assign_sprite_value s name f h v sprite Hown Hv Hget)
      as (h' & Hrun & _ & _ & _ & Hv').
    exists (), h'. split; [done|]. by rewrite (on_sprite_present name f v sprite).
  - rewrite bool_decide_eq_false_2 by (by intros [? ?]).
    exists (), h. split; [done|]. by rewrite on_sprite_absent.
Qed.

Lemma acts_sprite_twice s name f g :
  acts s (present ← has_character s name;
          if present : bool
          then assign_sprite s name f;; assign_sprite s name g
          else mret ())
       (λ v, on_sprite name g (on_sprite name f v)).
Proof.
  intros h v Hown Hv. rewrite (bind_Some _ _ _ _ _ (has_character_value s name h v Hown Hv)).
  destruct (Py.get (SceneState.characters v) name) as [sprite|] eqn:Hget.
  - rewrite bool_decide_eq_true_2 by by eexists.
    destruct (assign_sprite_value s name f h v sprite Hown Hv Hget)
      as (h1 & Hrun1 & Hown1 & _ & _ & Hv1).
    rewrite <- (on_sprite_present name f v sprite Hget) in Hv1.
    assert (Py.get (SceneState.characters (on_sprite name f v)) name
            = Some (f sprite)) as Hget1.
    { rewrite (on_sprite_present name f v sprite Hget).
      cbn [with_characters amended SceneState.characters]. apply PyFacts.get_set_eq. }
    destruct (assign_sprite_value s name g h1 _ (f sprite) Hown1 Hv1 Hget1)
      as (h2 & Hrun2 & _ & _ & _ & Hv2).
    exists (), h2. split; [by rewrite (bind_Some _ _ _ _ _ Hrun1)|].
    by rewrite (on_sprite_present name g _ (f sprite) Hget1).
  - rewrite bool_decide_eq_false_2 by (by intros [? ?]).
    exists (), h. split; [done|].
    by rewrite (on_sprite_absent name f v Hget), (on_sprite_absent name g v Hget).
Qed.

(** ** [_clone_state] and [_push_state] *)

Lemma clone_snapshot h0 self T :
  consistent h0 self → read_template h0 self = Some T →
  ∃ s h1, _clone_state self h0 = Some (s, h1) ∧ building h0 s h1
          ∧ read_scene h1 s = Some (snapshot T).
Proof.
  intros Hc HT. destruct (clone_building h0 self Hc) as (s & h1 & Hclone & Hb).
  exists s, h1. do 2 (split; [done|]).
  destruct (consistent_inv h0 self Hc) as (states & _ & [d Hd] & _ & Hnd & _).
  unfold read_template in HT. rewrite Hd in HT. cbn [mbind option_bind] in HT.
  injection HT as <-.
  assert (NoDup (dict_cells h0 (_current_sprites self))) as Hndd.
  { unfold regions, template_cells in Hnd. apply NoDup_cons in Hnd as [_ Hnd].
    by apply NoDup_app in Hnd as [Hnd _]. }
  destruct (deepcopy_fresh _ _ _ Hd Hndd) as (d' & k & Hcopy & Hd' & _ & _ & Hlt).
  revert Hclone. unfold _clone_state. rewrite (bind_Some _ _ _ _ _ Hcopy).
  unfold mbind, M_bind, alloc. intros [= <- <-].
  set (h1 := h0 ++ k) in *.
  apply read_scene_Some.
  match goal with
  | |- context [OScene ?sc] => exists sc, d, None, None, [], None
  end.
  split; [|split; [|reflexivity]].
  - apply (read_alloc the_scene (h1 ++ [OList []]) (OScene _) []).
  - unfold reads. cbn [SceneObject.characters SceneObject.choices
      SceneObject.input_request SceneObject.motor_commands SceneObject.robot_pose
      read_opt].
    split; [|split; [done|split; [done|split; [|done]]]].
    + rewrite <- Hd'. apply read_dict_same. intros a Ha%Hlt.
      rewrite lookup_app_l by (rewrite length_app; lia). by apply lookup_app_l.
    + unfold read_list. rewrite read_app_l by (rewrite length_app; simpl; lia).
      by rewrite (read_alloc the_list h1 (OList []) []).
Qed.

Lemma push_value h0 self s h1 v T graph :
  consistent h0 self → read_template h0 self = Some T →
  read_graph h0 (_states self) = Some graph →
  building h0 s h1 → read_scene h1 s = Some v →
  ∃ self' h', _push_state self s h1 = Some (self', h')
    ∧ consistent h' self' ∧ _states self' = _states self
    ∧ read_graph h' (_states self') = Some (graph ++ [v])
    ∧ read_template h' self' = Some (pushed T v).
Proof.
  intros Hc HT Hgraph Hb Hv.
  destruct (pushes_push h0 self s Hc h1 Hb) as (self' & h' & Hrun & Hem).
  destruct (emitted_graph h0 self s self' h' graph Hc Hgraph Hem) as [v' Hg'].
  pose proof Hem as (Hc' & Hg & Hfr & Hlist & Hs).
  exists self', h'. do 3 (split; [done|]).
  destruct (consistent_inv h0 self Hc) as (states & Hst & [d0 Hd0] & Hsc & Hnd & Hlt).
  specialize (Hlist states Hst).
  destruct Hb as ([Hlen Hfr1] & Hown & Hge).
  set (g := _states self) in *.
  assert (g < length h0) as Hglt by (apply Hlt; by left).
  assert (read the_list h1 g = Some states) as Hst1.
  { rewrite <- Hst. apply read_same, Hfr1; [done|apply not_elem_of_nil]. }
  set (h2 := <[g:=OList (states ++ [s])]> h1).
  assert (same_at (scene_cells h1 s) h1 h2) as Hsame12.
  { intros a Ha. apply list_lookup_insert_ne. intros ->. apply Hge in Ha. lia. }
  pose proof (owned_same h1 h2 s Hsame12 Hown) as Hown2.
  assert (read_scene h2 s = Some v) as Hv2 by by rewrite (read_scene_same h1 h2 s).
  destruct (owned_inv h2 s Hown2) as (sc & Hscene & _ & _ & Hndp & Hlts).
  apply read_scene_Some in Hv2 as (sc0 & d & ch & ir & ms & rp & Hsc0 & Hreads & ->).
  assert (sc0 = sc) as -> by congruence.
  destruct Hreads as (Pd & _).
  assert (NoDup (dict_cells h2 (SceneObject.characters sc))) as Hndd.
  { unfold part_cells in Hndp. by apply NoDup_app in Hndp as [? _]. }
  destruct (deepcopy_fresh _ _ _ Pd Hndd) as (d' & k & Hcopy & Hd' & _).
  assert (_push_state self s h1
          = Some (make g (_character_defs self)
                    (SceneObject.background_url sc) (SceneObject.background_label sc) d'
                    (_current_show_camera self) (_current_show_voice self)
                    (_current_show_motors self) (_current_show_robot self)
                    (_current_background_blur self) (_current_stage self)
                    (_current_stage_blur self) (_current_path self),
                  h2 ++ k)) as Hrun'.
  { unfold _push_state. fold g.
    rewrite (bind_Some _ _ _ _ _ (append_run _ _ _ s Hst1)). fold h2.
    rewrite (bind_Some _ _ _ _ _ (load_scene_Some _ _ _ Hscene)).
    by rewrite (bind_Some _ _ _ _ _ Hcopy). }
  rewrite Hrun in Hrun'. injection Hrun' as -> ->.
  cbn [_states] in *.
  split.
  - rewrite Hg'. do 2 f_equal.
    unfold read_graph in Hg'. fold g in Hg'. rewrite Hlist in Hg'.
    cbn [mbind option_bind] in Hg'.
    apply mapM_Some, Forall2_app_inv_l in Hg' as (vs & vl & _ & Hvl & Heq).
    apply Forall2_cons_inv_l in Hvl as (v1 & nil' & Hv1 & Hnil & ->).
    apply Forall2_nil_inv_l in Hnil as ->.
    apply app_inj_tail in Heq as [_ ->].
    rewrite (read_scene_same h2 (h2 ++ k) s) in Hv1.
    + assert (read_scene h2 s = Some (scene_value sc d ch ir ms rp)) as Hv2
        by by rewrite (read_scene_same h1 h2 s).
      congruence.
    + intros a Ha. apply lookup_app_l. apply Hlts.
      by rewrite <- (scene_cells_eq _ _ _ Hscene).
  - unfold read_template. cbn [_current_sprites]. rewrite Hd'.
    cbn [mbind option_bind]. f_equal.
    unfold read_template in HT. rewrite Hd0 in HT. cbn [mbind option_bind] in HT.
    by injection HT as <-.
Qed.

Lemma bind_ext {A B} (m : M A) (k k' : A → M B) h :
  (∀ x h', k x h' = k' x h') → (m ≫= k) h = (m ≫= k') h.
Proof. intros Hk. unfold mbind, M_bind. by destruct (m h) as [[x h']|]. Qed.

(** A method that clones, works on the clone and pushes it. *)
Lemma emit_value {A} h0 self T graph (body : addr → M A) f (k : M t) :
  consistent h0 self → read_template h0 self = Some T →
  read_graph h0 (_states self) = Some graph →
  (∀ s, local_step s (body s)) → (∀ s, acts s (body s) f) →
  (∀ h, k h = (state ← _clone_state self;
               body state ≫= λ _, _push_state self state) h) →
  ∃ self' h', k h0 = Some (self', h')
    ∧ consistent h' self' ∧ _states self' = _states self
    ∧ read_graph h' (_states self') = Some (graph ++ [f (snapshot T)])
    ∧ read_template h' self' = Some (pushed T (f (snapshot T))).
Proof.
  intros Hc HT Hgraph Hl Ha Hk.
  destruct (clone_snapshot h0 self T Hc HT) as (s & h1 & Hclone & Hb & Hv).
  destruct (building_step h0 s (body s) h1 (Hl s) Hb) as (x & h2 & Hrun & Hb2).
  pose proof Hb as (_ & Hown & _).
  destruct (Ha s h1 _ Hown Hv) as (x' & h2' & Hrun' & Hv2).
  rewrite Hrun in Hrun'. injection Hrun' as <- <-.
  destruct (push_value h0 self s h2 _ T graph Hc HT Hgraph Hb2 Hv2)
    as (self' & h' & Hpush & Hpost).
  exists self', h'. split; [|done].
  rewrite Hk, (bind_Some _ _ _ _ _ Hclone). by rewrite (bind_Some _ _ _ _ _ Hrun).
Qed.

(** ** Every method that emits a scene *)

Lemma emits_value h0 self c T graph :
  consistent h0 self → read_template h0 self = Some T →
  read_graph h0 (_states self) = Some graph → emits c = true →
  ∃ self' h', call self c h0 = Some (self', h')
    ∧ consistent h' self' ∧ _states self' = _states self
    ∧ read_graph h' (_states self') = Some (graph ++ [emitted_scene T c])
    ∧ read_template h' self' = Some (pushed T (emitted_scene T c)).
Proof.
  intros Hc HT Hgraph Hemit. unfold emitted_scene.
  destruct c; try discriminate Hemit; cbn [call].
  - (* set_background *)
    apply (emit_value h0 self T graph
             (λ state,
                assign_scene state
                  (λ s, set_scene_background image_url (SceneObject.background_label s) s);;
                assign_scene state
                  (λ s, set_scene_background (SceneObject.background_url s) label s)));
      try done.
    + intros s. apply local_bind; [|intros _];
        apply assign_scene_local; intros; apply set_scene_background_refs.
    + intros s. eapply acts_ext.
      * apply acts_bind.
        -- apply assign_scene_local; intros; apply set_scene_background_refs.
        -- apply (acts_assign_scene s _
                    (λ v, with_background image_url (SceneState.background_label v) v));
             [intros; apply set_scene_background_refs|done].
        -- intros _.
           apply (acts_assign_scene s _
                    (λ v, with_background (SceneState.background_url v) label v));
             [intros; apply set_scene_background_refs|done].
      * done.
    + intros h. unfold set_background. apply bind_ext. intros s h1. apply bind_assoc.
  - (* show_character *)
    apply (emit_value h0 self T graph
             (λ state,
                present ← has_character state name;
                if present : bool
                then assign_sprite state name (set_sprite_visible true);;
                     assign_sprite state name (set_sprite_position position)
                else mret ())); try done.
    + intros s. apply assign_sprite_twice_local.
    + intros s. apply acts_sprite_twice.
    + intros h. unfold show_character. apply bind_ext. intros s h1. apply bind_assoc.
  - (* hide_character *)
    apply (emit_value h0 self T graph
             (λ state,
                present ← has_character state name;
                if present : bool
                then assign_sprite state name (set_sprite_visible false)
                else mret ())); try done.
    + intros s. apply assign_sprite_local.
    + intros s. apply acts_sprite.
    + intros h. unfold hide_character. apply bind_ext. intros s h1. apply bind_assoc.
  - (* move_character *)
    apply (emit_value h0 self T graph
             (λ state,
                present ← has_character state name;
                if present : bool
                then assign_sprite state name (set_sprite_position position)
                else mret ())); try done.
    + intros s. apply assign_sprite_local.
    + intros s. apply acts_sprite.
    + intros h. unfold move_character. apply bind_ext. intros s h1. apply bind_assoc.
  - (* change_character_sprite *)
    apply (emit_value h0 self T graph
             (λ state,
                present ← has_character state name;
                if present : bool
                then assign_sprite state name (set_sprite_image_url image_url)
                else mret ())); try done.
    + intros s. apply assign_sprite_local.
    + intros s. apply acts_sprite.
    + intros h. unfold change_character_sprite. apply bind_ext. intros s h1.
      apply bind_assoc.
  - (* set_character_animation *)
    apply (emit_value h0 self T graph
             (λ state,
                present ← has_character state name;
                if present : bool
                then assign_sprite state name (set_sprite_animation animation)
                else mret ())); try done.
    + intros s. apply assign_sprite_local.
    + intros s. apply acts_sprite.
    + intros h. unfold set_character_animation. apply bind_ext. intros s h1.
      apply bind_assoc.
  - (* set_character_scale *)
    apply (emit_value h0 self T graph
             (λ state,
                present ← has_character state name;
                if present : bool
                then assign_sprite state name (set_sprite_scale scale)
                else mret ())); try done.
    + intros s. apply assign_sprite_local.
    + intros s. apply acts_sprite.
    + intros h. unfold set_character_scale. apply bind_ext. intros s h1.
      apply bind_assoc.
  - (* dialogue *)
    apply (emit_value h0 self T graph
             (λ state,
                assign_scene state (λ s, set_scene_line speaker (SceneObject.text s) s);;
                assign_scene state (λ s, set_scene_line (SceneObject.speaker s) text s)));
      try done.
    + intros s. apply local_bind; [|intros _];
        apply assign_scene_local; intros; apply set_scene_line_refs.
    + intros s. eapply acts_ext.
      * apply acts_bind.
        -- apply assign_scene_local; intros; apply set_scene_line_refs.
        -- apply (acts_assign_scene s _
                    (λ v, with_line speaker (SceneState.text v) v));
             [intros; apply set_scene_line_refs|done].
        -- intros _.
           apply (acts_assign_scene s _
                    (λ v, with_line (SceneState.speaker v) text v));
             [intros; apply set_scene_line_refs|done].
      * done.
    + intros h. unfold dialogue. apply bind_ext. intros s h1. apply bind_assoc.
  - (* narration *)
    apply (emit_value h0 self T graph
             (λ state,
                assign_scene state (λ s, set_scene_line "" (SceneObject.text s) s);;
                assign_scene state (λ s, set_scene_line (SceneObject.speaker s) text s)));
      try done.
    + intros s. apply local_bind; [|intros _];
        apply assign_scene_local; intros; apply set_scene_line_refs.
    + intros s. eapply acts_ext.
      * apply acts_bind.
        -- apply assign_scene_local; intros; apply set_scene_line_refs.
        -- apply (acts_assign_scene s _
                    (λ v, with_line "" (SceneState.text v) v));
             [intros; apply set_scene_line_refs|done].
        -- intros _.
           apply (acts_assign_scene s _
                    (λ v, with_line (SceneState.speaker v) text v));
             [intros; apply set_scene_line_refs|done].
      * done.
    + intros h. unfold narration. apply bind_ext. intros s h1. apply bind_assoc.
  - (* request_input *)
    apply (emit_value h0 self T graph
             (λ state,
                r ← alloc (OInputRequest (InputRequest.make prompt variable_name));
                assign_scene state (set_scene_input_request (Some r)))); try done.
    + intros s. apply assign_input_request_local.
    + intros s. apply acts_input_request.
  - (* send_motor_command *)
    apply (emit_value h0 self T graph
             (λ state, append_motor_command state motor_id position)); try done.
    + intros s. apply append_motor_command_local.
    + intros s. apply acts_motor_command.
  - (* send_motor_commands *)
    apply (emit_value h0 self T graph
             (λ state, append_motor_commands state commands)); try done.
    + intros s. apply append_motor_commands_local.
    + intros s. apply acts_motor_commands.
  - (* send_robot_pose *)
    apply (emit_value h0 self T graph
             (λ state,
                r ← alloc (ORobotPose pose);
                assign_scene state (set_scene_robot_pose (Some r)))); try done.
    + intros s. apply assign_robot_pose_local.
    + intros s. apply acts_robot_pose.
  - (* play_sound *)
    apply (emit_value h0 self T graph
             (λ state, assign_scene state (set_scene_audio_file (Some audio_file))));
      try done.
    + intros s. apply assign_scene_local; intros; apply set_scene_audio_file_refs.
    + intros s.
      apply (acts_assign_scene s _ (with_audio_file (Some audio_file)));
        [intros; apply set_scene_audio_file_refs|done].
Qed.


(** ** The methods that emit nothing *)

Lemma read_template_inv h self T :
  read_template h self = Some T →
  ∃ sprites, read_dict the_sprite h (_current_sprites self) = Some sprites
    ∧ T = {| current_background := _current_background self;
             current_label := _current_label self;
             current_sprites := sprites;
             current_show_camera := _current_show_camera self;
             current_show_voice := _current_show_voice self;
             current_show_motors := _current_show_motors self;
             current_show_robot := _current_show_robot self;
             current_background_blur := _current_background_blur self;
             current_stage := _current_stage self;
             current_stage_blur := _current_stage_blur self;
             current_path := _current_path self |}.
Proof.
  unfold read_template.
  destruct (read_dict the_sprite h (_current_sprites self)) as [sprites|]; [|done].
  intros [= <-]. by exists sprites.
Qed.

(** The methods that assign one attribute of the builder. *)
Lemma template_only_value h self c T :
  read_template h self = Some T → template_only c = true →
  ∃ self', call self c h = Some (self', h)
    ∧ _states self' = _states self
    ∧ _current_sprites self' = _current_sprites self
    ∧ read_template h self' = Some (template_after c T).
Proof.
  intros (sprites & Hd & ->)%read_template_inv Hc.
  destruct c; try discriminate Hc; cbn [call];
    (eexists; split; [reflexivity|]; do 2 (split; [done|]);
     unfold read_template; cbn [_current_sprites]; by rewrite Hd).
Qed.

(** A new value under a key of a dict of references. *)
Lemma register_values h (items : Py.dict addr) (d : Py.dict CharacterSprite.t)
    name a x :
  Forall2 (λ kv y, pair kv.1 <$> read the_sprite h kv.2 = Some y) items d →
  read the_sprite h a = Some x →
  Forall2 (λ kv y, pair kv.1 <$> read the_sprite h kv.2 = Some y)
          (Py.set items name a) (Py.set d name x).
Proof.
  intros H Ha. induction H as [|[k b] y items d Hy Hrest IH].
  - cbn [Py.set]. constructor; [|constructor]. cbn [fst snd]. by rewrite Ha.
  - apply fmap_Some in Hy as (x0 & Hx0 & ->). cbn [Py.set fst snd] in *.
    destruct (String.eqb k name).
    + constructor; [|done]. cbn [fst snd]. by rewrite Ha.
    + constructor; [|done]. cbn [fst snd]. by rewrite Hx0.
Qed.

(** One character of [set_characters], on the value of the template. *)
Lemma set_character_value h self sprite name T :
  consistent h self → read_template h self = Some T →
  ∃ h', (a ← alloc (OSprite sprite);
         sprites ← load_dict (_current_sprites self);
         store (_current_sprites self) (ODict (Py.set sprites name a))) h
        = Some ((), h')
    ∧ consistent h' self
    ∧ read_graph h' (_states self) = read_graph h (_states self)
    ∧ read_template h' self
      = Some (template_with T (current_background T) (current_label T)
                (Py.set (current_sprites T) name sprite)).
Proof.
  intros Hc HT.
  destruct (set_character_consistent h self sprite name Hc) as (h' & Hrun & Hc' & Hg).
  exists h'. do 3 (split; [done|]).
  apply read_template_inv in HT as (dv & Hd & ->).
  destruct (consistent_inv h self Hc) as (states & _ & _ & _ & Hnd & Hlt).
  set (d := _current_sprites self) in *.
  pose proof Hd as Hd0. unfold read_dict in Hd0.
  destruct (read the_dict h d) as [items|] eqn:Hitems; [|done].
  cbn [mbind option_bind] in Hd0. apply mapM_Some in Hd0.
  unfold regions, template_cells in Hnd, Hlt. fold d in Hnd, Hlt.
  assert (dict_cells h d = d :: items.*2) as Hcells
    by (unfold dict_cells; by rewrite Hitems).
  rewrite Hcells in Hnd, Hlt.
  assert (d < length h) as Hdlt by by eapply read_lt.
  assert (h' = <[d:=ODict (Py.set items name (length h))]> (h ++ [OSprite sprite]))
    as ->.
  { revert Hrun. unfold mbind at 1, M_bind at 1, alloc at 1.
    assert (read the_dict (h ++ [OSprite sprite]) d = Some items) as Hitems1
      by by rewrite read_app_l.
    rewrite (bind_Some _ _ _ _ _ (load_dict_Some _ _ _ Hitems1)).
    rewrite store_Some by (rewrite length_app; lia). by intros [= <-]. }
  set (h' := <[d:=ODict _]> _).
  unfold read_template. fold d. unfold read_dict.
  assert (read the_dict h' d = Some (Py.set items name (length h))) as ->.
  { unfold h'. rewrite read_insert_eq; [done|]. rewrite length_app. lia. }
  cbn [mbind option_bind].
  assert (mapM (λ kv, pair kv.1 <$> read the_sprite h' kv.2)
               (Py.set items name (length h))
          = Some (Py.set dv name sprite)) as ->; [|done].
  apply mapM_Some, register_values.
  - apply (values_same the_sprite h); [|done].
    apply write_same_at.
    + intros b Hb. apply Hlt. right. apply elem_of_app. left. by right.
    + apply NoDup_cons in Hnd as [_ Hnd]. apply NoDup_app in Hnd as (Hnd & _).
      by apply NoDup_cons in Hnd as [? _].
  - unfold h', read. rewrite list_lookup_insert_ne by lia.
    by rewrite list_lookup_middle.
Qed.

(** [set_characters] registers the sprites in the order of the list. *)
Lemma set_characters_value characters h self T :
  consistent h self → read_template h self = Some T →
  ∃ self' h', set_characters self characters h = Some (self', h')
    ∧ consistent h' self'
    ∧ _states self' = _states self
    ∧ read_graph h' (_states self) = read_graph h (_states self)
    ∧ read_template h' self'
      = Some (template_with T (current_background T) (current_label T)
                (registered (current_sprites T) characters)).
Proof.
  revert h self T. induction characters as [|char characters IH]; intros h self T Hc HT.
  - exists self, h. do 4 (split; [done|]). rewrite HT. by destruct T.
  - cbn [set_characters].
    set (self1 := with_character_defs self _).
    assert (consistent h self1) as Hc1 by by apply (consistent_same_refs h self).
    assert (read_template h self1 = Some T) as HT1 by exact HT.
    destruct (set_character_value h self1 (new_sprite char)
                (CharacterDefinition.name char) T Hc1 HT1)
      as (h1 & Hrun & Hc1' & Hg1 & HT1').
    destruct (IH h1 self1 _ Hc1' HT1') as (self' & h' & Hrun' & Hc' & Hst' & Hg' & HT').
    exists self', h'. split; [|split; [done|split; [done|split]]].
    + rewrite <- Hrun'. revert Hrun. unfold new_sprite, mbind, M_bind, alloc.
      destruct (load_dict _ _) as [[sprites hx]|]; [|done].
      by intros ->.
    + change (_states self1) with (_states self) in *. congruence.
    + rewrite HT'. by destruct T.
Qed.

(** [add_choice] leaves the template as it is. *)
Lemma add_choice_template h self text next_scene_index h' T :
  consistent h self → read_template h self = Some T →
  add_choice self text next_scene_index h = Some (self, h') →
  read_template h' self = Some T.
Proof.
  intros Hc HT Hrun.
  destruct (consistent_inv h self Hc) as (states & Hst & _ & Hsc & Hnd & Hlt).
  revert Hrun. unfold add_choice.
  rewrite (bind_Some _ _ _ _ _ (load_list_Some _ _ _ Hst)).
  destruct states as [|s0 states0] using rev_ind.
  - by intros [= <-].
  - clear IHstates0. rename states0 into init. rename s0 into last.
    rewrite PyFacts.index_last.
    apply Forall_app in Hsc as [_ Hlast]. apply Forall_cons in Hlast as [[v Hv] _].
    assert (owned h last) as Hown.
    { split; [by eexists|]. unfold regions in Hnd. rewrite join_snoc in Hnd.
      apply NoDup_cons in Hnd as [_ Hnd]. rewrite !NoDup_app in Hnd. tauto. }
    destruct (add_choice_scene h last v self text next_scene_index Hown Hv)
      as (h2 & Hrun2 & Hfr & _).
    destruct (init ++ [last]) eqn:E; [by destruct init|]. rewrite Hrun2.
    intros [= <-]. rewrite <- HT. unfold read_template.
    rewrite (read_dict_same the_sprite h h2 (_current_sprites self)); [done|].
    eapply frames_same_at; [exact Hfr|]. intros a Ha. split.
    + apply Hlt. unfold regions. right. apply elem_of_app. by left.
    + intros Hin. unfold regions in Hnd. rewrite <- E, join_snoc in Hnd.
      apply NoDup_cons in Hnd as [_ Hnd]. apply NoDup_app in Hnd as (_ & Hnd & _).
      apply (Hnd a Ha). apply elem_of_app. by right.
Qed.

(** ** Every method, and every sequence of methods *)

Lemma call_value h self c T graph :
  consistent h self → read_template h self = Some T →
  read_graph h (_states self) = Some graph →
  ∃ self' h', call self c h = Some (self', h')
    ∧ consistent h' self' ∧ _states self' = _states self
    ∧ read_template h' self' = Some (template_after c T)
    ∧ read_graph h' (_states self') = Some (graph_then c T graph).
Proof.
  intros Hc HT Hgraph.
  destruct (emits c) eqn:Hemit.
  { destruct (emits_value h self c T graph Hc HT Hgraph Hemit)
      as (self' & h' & Hrun & Hc' & Hst & Hg & HT').
    exists self', h'. do 3 (split; [done|]).
    destruct c; try discriminate Hemit; by split. }
  destruct (template_only c) eqn:Honly.
  { destruct (template_only_value h self c T HT Honly)
      as (self' & Hrun & Hst & Hsp & HT').
    exists self', h. split; [done|].
    split; [by apply (consistent_same_refs h self)|]. do 2 (split; [done|]).
    rewrite Hst, Hgraph. by destruct c. }
  destruct c; try discriminate Hemit; try discriminate Honly; cbn [call].
  - destruct (set_characters_value characters h self T Hc HT)
      as (self' & h' & Hrun & Hc' & Hst & Hg & HT').
    exists self', h'. do 4 (split; [done|]). rewrite Hst. cbn. congruence.
  - destruct (add_choice_consistent h self text next_scene_index graph Hc Hgraph)
      as (h' & Hrun & Hc' & Hg).
    exists self, h'. do 3 (split; [done|]).
    split; [by apply (add_choice_template h self text next_scene_index)|done].
Qed.

Lemma told_snoc cs c :
  told (cs ++ [c])
  = (template_after c (told cs).1, graph_then c (told cs).1 (told cs).2).
Proof. unfold told. by rewrite foldl_app. Qed.

(** The builder after any sequence of methods: its template and its
    graph are the ones that [told] computes on values. *)
Lemma run_told cs :
  ∃ self h, run cs = Some (self, h) ∧ consistent h self
    ∧ read_template h self = Some (told cs).1
    ∧ read_graph h (_states self) = Some (told cs).2.
Proof.
  induction cs as [|c cs IH] using rev_ind.
  - destruct init_consistent as (self & h & Hrun & Hc & Hg).
    exists self, h. unfold run. cbn [calls].
    split; [by rewrite (bind_Some _ _ _ _ _ Hrun)|]. split; [done|].
    split; [|done]. revert Hrun. unfold __init__, mbind, M_bind, alloc.
    by intros [= <- <-].
  - destruct IH as (self & h & Hrun & Hc & HT & Hg).
    destruct (call_value h self c _ _ Hc HT Hg)
      as (self' & h' & Hcall & Hc' & Hst & HT' & Hg').
    exists self', h'. rewrite (BuilderClaims.run_snoc cs c self h Hrun), told_snoc.
    done.
Qed.

End ValueFacts.

(* ===================================================================== *)
(** * What a sequence of methods builds *)
(* ===================================================================== *)

Module ToldFacts.
Import Heap Sharing Values HeapFacts CommandFacts ValueFacts VisualNovelBuilder.
Local Open Scope nat_scope.

(** The builder before and after one more method. *)
Lemma run_then cs c :
  ∃ self h self' h',
    run cs = Some (self, h)
    ∧ read_template h self = Some (told cs).1
    ∧ read_graph h (_states self) = Some (told cs).2
    ∧ run (cs ++ [c]) = Some (self', h')
    ∧ read_template h' self' = Some (template_after c (told cs).1)
    ∧ read_graph h' (_states self') = Some (graph_then c (told cs).1 (told cs).2).
Proof.
  destruct (run_told cs) as (self & h & Hrun & Hc & HT & Hg).
  destruct (call_value h self c _ _ Hc HT Hg)
    as (self' & h' & Hcall & _ & _ & HT' & Hg').
  exists self, h, self', h'. do 3 (split; [done|]).
  by rewrite (BuilderClaims.run_snoc cs c self h Hrun).
Qed.

(** ** The number of scenes *)

Lemma graph_with_choice_length graph c :
  length (graph_with_choice graph c) = length graph.
Proof.
  unfold graph_with_choice. destruct graph as [|v graph _] using rev_ind; [done|].
  rewrite last_snoc, removelast_last. by rewrite !length_app.
Qed.

Lemma told_length cs : length (told cs).2 = length (List.filter emits cs).
Proof.
  induction cs as [|c cs IH] using rev_ind; [done|].
  rewrite told_snoc, List.filter_app, length_app. cbn [snd List.filter].
  destruct c; cbn [graph_then emits length];
    rewrite ?graph_with_choice_length, ?length_app; cbn [length]; lia.
Qed.

(** ** From a scene to the next one *)

(** The scene cloned from the template that was taken from a scene. *)
Lemma snapshot_pushed T c :
  snapshot (pushed T (effect c (snapshot T))) = cleared (effect c (snapshot T)).
Proof. by destruct c. Qed.

Lemma pushed_snapshot T : pushed T (snapshot T) = T.
Proof. by destruct T. Qed.

Lemma effect_choices c v :
  SceneState.choices (effect c v) = SceneState.choices v.
Proof. by destruct c. Qed.

(** ** The characters *)

Lemma get_is_Some_keys {V} (d : Py.dict V) name :
  is_Some (Py.get d name) ↔ name ∈ d.*1.
Proof.
  induction d as [|[k v] d IH]; cbn [Py.get].
  - split; [by intros [? ?]|by intros ?%elem_of_nil].
  - rewrite fmap_cons, elem_of_cons. cbn [fst].
    destruct (String.eqb_spec k name) as [->|Hne].
    + split; [by left|by eexists].
    + rewrite IH. split; [by right|]. by intros [->|?].
Qed.

Lemma get_None_keys {V} (d : Py.dict V) name :
  name ∉ d.*1 → Py.get d name = None.
Proof.
  intros Hname. destruct (Py.get d name) eqn:E; [|done].
  destruct Hname. apply get_is_Some_keys. by eexists.
Qed.

Lemma keys_set_present {V} (d : Py.dict V) k v x :
  Py.get d k = Some x → (Py.set d k v).*1 = d.*1.
Proof.
  induction d as [|[k' v'] d IH]; [done|]. cbn [Py.get Py.set].
  destruct (String.eqb k' k); [done|].
  intros Hget. rewrite !fmap_cons. by rewrite IH.
Qed.

Lemma keys_set_elem {V} (d : Py.dict V) k v name :
  name ∈ (Py.set d k v).*1 ↔ name ∈ d.*1 ∨ name = k.
Proof.
  induction d as [|[k' v'] d IH]; cbn [Py.set].
  - rewrite fmap_cons, fmap_nil, elem_of_cons, elem_of_nil. cbn [fst]. tauto.
  - destruct (String.eqb_spec k' k) as [->|Hne]; rewrite !fmap_cons, !elem_of_cons;
      cbn [fst]; [|rewrite IH]; tauto.
Qed.

Lemma keys_sprite_assigned name f (d : Py.dict CharacterSprite.t) :
  (sprite_assigned name f d).*1 = d.*1.
Proof.
  unfold sprite_assigned. destruct (Py.get d name) eqn:E; [|done].
  by apply (keys_set_present d name _ t0).
Qed.

Lemma keys_registered sprites characters name :
  name ∈ (registered sprites characters).*1
  ↔ name ∈ sprites.*1 ∨ name ∈ CharacterDefinition.name <$> characters.
Proof.
  revert sprites. induction characters as [|char characters IH]; intros sprites.
  - cbn [registered]. rewrite fmap_nil, elem_of_nil. tauto.
  - cbn [registered]. rewrite IH, keys_set_elem, fmap_cons, elem_of_cons. tauto.
Qed.

Lemma effect_keys c v :
  (SceneState.characters (effect c v)).*1 = (SceneState.characters v).*1.
Proof.
  destruct c; try done; cbn [effect on_sprite with_characters amended
    SceneState.characters]; by rewrite ?keys_sprite_assigned.
Qed.

Lemma defined_names_snoc cs c :
  defined_names (cs ++ [c]) = defined_names cs ++ names_of c.
Proof.
  unfold defined_names. rewrite fmap_app, join_app. cbn. by rewrite app_nil_r.
Qed.

(** The template has a sprite for the registered names and for no other. *)
Lemma told_keys cs name :
  name ∈ (current_sprites (told cs).1).*1 ↔ name ∈ defined_names cs.
Proof.
  induction cs as [|c cs IH] using rev_ind.
  - done.
  - rewrite told_snoc, defined_names_snoc, elem_of_app, <- IH. cbn [fst].
    destruct (emits c) eqn:Hemit.
    + assert (template_after c (told cs).1
              = pushed (told cs).1 (emitted_scene (told cs).1 c)) as ->
        by (by destruct c).
      cbn [pushed template_with current_sprites]. unfold emitted_scene.
      rewrite effect_keys. cbn [snapshot SceneState.characters].
      destruct c; try discriminate Hemit; cbn [names_of]; rewrite elem_of_nil; tauto.
    + destruct c; try discriminate Hemit;
        cbn [template_after template_with current_sprites names_of];
        rewrite ?keys_registered, ?elem_of_nil; tauto.
Qed.

Lemma get_sprite_assigned name f (d : Py.dict CharacterSprite.t) other :
  Py.get (sprite_assigned name f d) other
  = if decide (other = name) then f <$> Py.get d name else Py.get d other.
Proof.
  unfold sprite_assigned. destruct (decide (other = name)) as [->|Hne].
  - destruct (Py.get d name) eqn:E; [|by rewrite E].
    by rewrite PyFacts.get_set_eq.
  - destruct (Py.get d name) eqn:E; [|done].
    by rewrite PyFacts.get_set_ne.
Qed.

(** A method that names a character changes the sprite of that character
    and nothing else of the scene. *)
Lemma effect_get c name v other :
  addressed c = Some name →
  Py.get (SceneState.characters (effect c v)) other
  = if decide (other = name)
    then sprite_update c <$> Py.get (SceneState.characters v) name
    else Py.get (SceneState.characters v) other.
Proof.
  intros Hc. destruct c; try discriminate Hc; injection Hc as ->;
    cbn [effect on_sprite with_characters amended SceneState.characters
         sprite_update];
    rewrite !get_sprite_assigned; repeat case_decide; try done.
  by destruct (Py.get (SceneState.characters v) name).
Qed.

Lemma effect_addressed c name v :
  addressed c = Some name →
  effect c v = with_characters (SceneState.characters (effect c v)) v.
Proof. intros Hc. by destruct c. Qed.

Lemma effect_absent c name v :
  addressed c = Some name → Py.get (SceneState.characters v) name = None →
  effect c v = v.
Proof.
  intros Hc Hget. destruct c; try discriminate Hc; injection Hc as ->;
    cbn [effect]; by rewrite !(on_sprite_absent name _ v Hget).
Qed.

Lemma addressed_emits c name : addressed c = Some name → emits c = true.
Proof. by destruct c. Qed.

(** In [set_characters] the last definition of a name wins. *)
Lemma get_registered sprites characters name :
  Py.get (registered sprites characters) name
  = match last (filter (λ char, CharacterDefinition.name char = name) characters) with
    | Some char => Some (new_sprite char)
    | None => Py.get sprites name
    end.
Proof.
  revert sprites. induction characters as [|char characters IH]; intros sprites; [done|].
  cbn [registered]. rewrite IH, filter_cons.
  destruct (decide (CharacterDefinition.name char = name)) as [<-|Hne].
  - rewrite last_cons.
    destruct (last (filter _ characters)); [done|]. by rewrite PyFacts.get_set_eq.
  - destruct (last (filter _ characters)); [done|]. by rewrite PyFacts.get_set_ne.
Qed.

(** ** The targets of the choices *)

Lemma choice_targets_snoc cs c :
  choice_targets (cs ++ [c]) = choice_targets cs ++ target_of c.
Proof.
  unfold choice_targets. rewrite fmap_app, join_app. cbn. by rewrite app_nil_r.
Qed.

(** Every choice of the graph was given its target by a call of
    [add_choice]. *)
Lemma told_targets cs :
  Forall (λ v, Forall (λ ch, Choice.next_scene_index ch ∈ choice_targets cs)
                      (default [] (SceneState.choices v))) (told cs).2.
Proof.
  induction cs as [|c cs IH] using rev_ind; [constructor|].
  rewrite told_snoc, choice_targets_snoc. cbn [snd].
  assert (Forall (λ v, Forall (λ ch, Choice.next_scene_index ch
                                     ∈ choice_targets cs ++ target_of c)
                              (default [] (SceneState.choices v))) (told cs).2)
    as IH'.
  { eapply Forall_impl; [exact IH|]. intros v Hv. eapply Forall_impl; [exact Hv|].
    intros ch Hch. apply elem_of_app. by left. }
  clear IH. destruct (emits c) eqn:Hemit.
  - assert (graph_then c (told cs).1 (told cs).2
            = (told cs).2 ++ [emitted_scene (told cs).1 c]) as ->.
    { unfold graph_then. rewrite Hemit. by destruct c. }
    apply Forall_app. split; [done|]. constructor; [|constructor].
    unfold emitted_scene. rewrite effect_choices. constructor.
  - destruct c; try discriminate Hemit; try exact IH'.
    cbn [graph_then target_of]. unfold graph_with_choice.
    destruct (told cs).2 as [|v graph _] using rev_ind; [constructor|].
    rewrite last_snoc, removelast_last.
    apply Forall_app in IH' as [Hinit Hlast]. apply Forall_cons in Hlast as [Hv _].
    apply Forall_app. split; [done|]. constructor; [|constructor].
    cbn [with_choice SceneState.choices default]. apply Forall_app. split; [done|].
    constructor; [|constructor]. cbn [Choice.next_scene_index].
    apply elem_of_app. right. by left.
Qed.

Lemma told_targets_valid cs :
  targets_in_range cs → Nav.targets_valid (told cs).2.
Proof.
  intros Hrange. unfold Nav.targets_valid. rewrite told_length.
  eapply Forall_impl; [apply told_targets|]. intros v Hv.
  eapply Forall_impl; [exact Hv|]. intros ch Hch.
  unfold targets_in_range in Hrange. rewrite Forall_forall in Hrange. by apply Hrange.
Qed.


(** ** Methods that emit a scene, and choices after them *)

Lemma graph_then_emits c T graph :
  emits c = true → graph_then c T graph = graph ++ [effect c (snapshot T)].
Proof. intros Hemit. unfold graph_then. rewrite Hemit. by destruct c. Qed.

Lemma template_after_emits c T :
  emits c = true → template_after c T = pushed T (effect c (snapshot T)).
Proof. intros Hemit. by destruct c. Qed.

Lemma graph_with_choice_snoc graph v c :
  graph_with_choice (graph ++ [v]) c = graph ++ [with_choice v c].
Proof. unfold graph_with_choice. by rewrite last_snoc, removelast_last. Qed.

Lemma add_choices_snoc choices text next_scene_index :
  add_choices (choices ++ [(text, next_scene_index)])
  = add_choices choices ++ [AddChoice text next_scene_index].
Proof. unfold add_choices. by rewrite fmap_app. Qed.

Lemma with_choice_choices v choices c :
  with_choice (with_choices v choices) c = with_choices v (choices ++ [c]).
Proof. done. Qed.

(** Choices added one after the other to the scene emitted last. *)
Lemma told_add_choices cs graph v choice choices :
  (told cs).2 = graph ++ [v] → SceneState.choices v = None →
  told (cs ++ add_choices (choice :: choices))
  = ((told cs).1,
     graph ++ [with_choices v ((λ ch, Choice.make ch.1 ch.2) <$> choice :: choices)]).
Proof.
  intros Hg Hv. induction choices as [|[text next_scene_index] choices IH] using rev_ind.
  - change (add_choices [choice]) with [AddChoice choice.1 choice.2].
    rewrite told_snoc, Hg. cbn [template_after graph_then fst snd].
    rewrite graph_with_choice_snoc. do 2 f_equal.
    unfold with_choice, with_choices. by rewrite Hv.
  - rewrite app_comm_cons, add_choices_snoc, app_assoc, told_snoc, IH.
    cbn [template_after graph_then fst snd].
    rewrite graph_with_choice_snoc, with_choice_choices. do 4 f_equal.
    by rewrite fmap_app.
Qed.


(** ** Stories without paths *)

Lemma effect_path c v : SceneState.path (effect c v) = SceneState.path v.
Proof. by destruct c. Qed.

Lemma story_paths_snoc cs c : story_paths (cs ++ [c]) = story_paths cs ++ path_of c.
Proof.
  unfold story_paths. rewrite fmap_app, join_app. cbn. by rewrite app_nil_r.
Qed.

Lemma told_paths cs :
  story_paths cs = [] →
  current_path (told cs).1 = None
  ∧ Forall (λ v, SceneState.path v = None) (told cs).2.
Proof.
  induction cs as [|c cs IH] using rev_ind; [by split|].
  rewrite story_paths_snoc. intros [Hcs Hc]%app_eq_nil.
  destruct (IH Hcs) as [HT Hg]. rewrite told_snoc. cbn [fst snd].
  destruct (emits c) eqn:Hemit.
  - rewrite graph_then_emits, template_after_emits by done. split; [done|].
    apply Forall_app. split; [done|]. constructor; [|constructor].
    by rewrite effect_path.
  - destruct c; try discriminate Hemit; try (by split).
    + by destruct path.
    + split; [done|]. cbn [graph_then]. unfold graph_with_choice.
      destruct (told cs).2 as [|v graph _] using rev_ind; [done|].
      rewrite last_snoc, removelast_last.
      apply Forall_app in Hg as [Hinit Hlast]. apply Forall_cons in Hlast as [Hv _].
      apply Forall_app. split; [done|]. by constructor.
Qed.


(** ** Characters on the stage *)

Lemma effect_characters c v :
  addressed c = None → SceneState.characters (effect c v) = SceneState.characters v.
Proof. intros Hc. by destruct c. Qed.

Lemma effect_on_stage c name v :
  keeps_on_stage name c = true →
  on_stage name (SceneState.characters v) →
  on_stage name (SceneState.characters (effect c v)).
Proof.
  intros Hkeep (sprite & Hget & Hvis). unfold on_stage.
  destruct (addressed c) as [n|] eqn:Hc; [|by rewrite effect_characters; eauto].
  rewrite (effect_get c n) by done.
  destruct (decide (name = n)) as [<-|Hne]; [|by eauto].
  rewrite Hget. exists (sprite_update c sprite). split; [done|].
  destruct c; try discriminate Hc; injection Hc as ->; try done.
  cbn [keeps_on_stage] in Hkeep. by rewrite String.eqb_refl in Hkeep.
Qed.

Lemma filter_names_nil name (characters : list CharacterDefinition.t) :
  name ∉ CharacterDefinition.name <$> characters →
  filter (λ char, CharacterDefinition.name char = name) characters = [].
Proof.
  induction characters as [|char characters IH]; [done|].
  rewrite fmap_cons, not_elem_of_cons. intros [Hne Hname].
  rewrite filter_cons. destruct (decide _) as [Heq|_]; [by destruct Hne|by apply IH].
Qed.

Lemma registered_on_stage name sprites characters :
  name ∉ CharacterDefinition.name <$> characters →
  on_stage name sprites → on_stage name (registered sprites characters).
Proof.
  intros Hname (sprite & Hget & Hvis). exists sprite. split; [|done].
  by rewrite get_registered, filter_names_nil.
Qed.

Lemma template_after_on_stage name c T :
  keeps_on_stage name c = true →
  on_stage name (current_sprites T) →
  on_stage name (current_sprites (template_after c T)).
Proof.
  intros Hkeep Hon. destruct (emits c) eqn:Hemit.
  - rewrite template_after_emits by done.
    by apply (effect_on_stage c name (snapshot T)).
  - destruct c; try discriminate Hemit; try done.
    cbn [template_after template_with current_sprites].
    apply registered_on_stage; [|done].
    cbn [keeps_on_stage] in Hkeep. apply negb_true_iff in Hkeep.
    by apply bool_decide_eq_false in Hkeep.
Qed.

(** After [show_character] of a registered character, as long as the
    character is neither hidden nor registered again: the scenes emitted
    since have it on the stage, and so has the template. *)
Lemma told_on_stage cs name position ds :
  name ∈ defined_names cs →
  Forall (λ c, keeps_on_stage name c = true) ds →
  on_stage name (current_sprites (told (cs ++ ShowCharacter name position :: ds)).1)
  ∧ ∃ graph later,
      (told (cs ++ ShowCharacter name position :: ds)).2 = graph ++ later
      ∧ length graph = length (told cs).2
      ∧ length later = S (length (List.filter emits ds))
      ∧ Forall (λ v, on_stage name (SceneState.characters v)) later.
Proof.
  intros Hname. induction ds as [|c ds IH] using rev_ind; intros Hkeep.
  - rewrite told_snoc. cbn [fst snd].
    rewrite graph_then_emits, template_after_emits by done.
    assert (on_stage name
              (SceneState.characters
                 (effect (ShowCharacter name position) (snapshot (told cs).1)))) as Hon.
    { apply told_keys, get_is_Some_keys in Hname as [sprite Hsprite].
      exists (sprite_update (ShowCharacter name position) sprite).
      rewrite (effect_get _ name) by done. rewrite decide_True by done.
      cbn [snapshot SceneState.characters]. by rewrite Hsprite. }
    split; [done|].
    exists (told cs).2, [effect (ShowCharacter name position) (snapshot (told cs).1)].
    do 3 (split; [done|]). by constructor.
  - apply Forall_app in Hkeep as [Hds Hc]. apply Forall_cons in Hc as [Hc _].
    destruct (IH Hds) as (Hon & graph & later & Hg & Hlen & Hlater & Hall).
    rewrite app_comm_cons, app_assoc, told_snoc. cbn [fst snd].
    split; [by apply template_after_on_stage|].
    rewrite List.filter_app, length_app. cbn [List.filter].
    destruct (emits c) eqn:Hemit.
    + rewrite graph_then_emits, Hg by done.
      exists graph, (later ++ [effect c (snapshot
        (told (cs ++ ShowCharacter name position :: ds)).1)]).
      split; [by rewrite app_assoc|]. split; [done|].
      split; [rewrite length_app; cbn [length]; lia|].
      apply Forall_app. split; [done|]. constructor; [|constructor].
      by apply (effect_on_stage c name (snapshot _)).
    + cbn [length]. rewrite Nat.add_0_r.
      destruct c; try discriminate Hemit;
        try (exists graph, later; by rewrite <- Hg).
      cbn [graph_then]. rewrite Hg.
      destruct later as [|v later _] using rev_ind; [done|].
      rewrite app_assoc, graph_with_choice_snoc, <- app_assoc.
      exists graph, (later ++ [with_choice v (Choice.make text next_scene_index)]).
      split; [done|]. split; [done|].
      split; [by rewrite length_app in *|].
      apply Forall_app in Hall as [Hinit Hlast]. apply Forall_cons in Hlast as [Hv _].
      apply Forall_app. split; [done|]. by constructor.
Qed.

End ToldFacts.

Module LinearFacts.
Import App Nav NavFacts.

(** In a graph whose scenes have no path, every scene is accessible. *)
Lemma accessible_at_pathless st i :
  Forall (λ v, SceneState.path v = None) (scenes st) →
  accessible_at st i ↔ 0 ≤ i < total st.
Proof.
  intros Hall. split; [apply accessible_at_range|]. intros Hi.
  split; [lia|].
  destruct (lookup_lt_is_Some_2 (scenes st) (Z.to_nat i)) as [scene Hscene];
    [unfold total in Hi; lia|].
  exists scene. split; [done|]. unfold accessible.
  rewrite Forall_forall in Hall.
  by rewrite (Hall scene (list_elem_of_lookup_2 _ _ _ Hscene)).
Qed.

(** There a step goes to the neighbour, and stays at either end. *)
Lemma change_scene_pathless st d fuel :
  Forall (λ v, SceneState.path v = None) (scenes st) →
  valid st → d = 1 ∨ d = -1 → (length (scenes st) ≤ fuel)%nat →
  ∃ out, change_scene fuel st d
         = Returned (with_index st (Z.max 0 (Z.min (index st + d) (total st - 1)))) out.
Proof.
  intros Hall Hv Hd Hfuel.
  destruct (change_scene_unit_step st d fuel Hv Hd Hfuel)
    as (n & scene & Hrun & _ & Hn & Hstop).
  assert (n = Z.max 0 (Z.min (index st + d) (total st - 1))) as <-; [|by eexists].
  unfold valid in Hv.
  destruct Hstop as [(k & Hk & -> & Ha & Hnot)|[-> Hnot]].
  - destruct (decide (k = 1)) as [->|Hk1]; [lia|].
    destruct (Hnot 1); [lia|]. apply accessible_at_pathless; [done|].
    destruct Hd as [-> | ->]; lia.
  - specialize (Hnot 1 ltac:(lia)). rewrite accessible_at_pathless in Hnot by done.
    destruct Hd as [-> | ->]; lia.
Qed.

End LinearFacts.

(* ===================================================================== *)
(** * Navigation: where the paths and the variables come from *)
(* ===================================================================== *)

Module ProvenanceFacts.
Import App Nav NavFacts HandlerFacts SessionFacts.








End ProvenanceFacts.

(* ===================================================================== *)
(** * Further properties of the navigator *)
(* ===================================================================== *)

Module NavExtras.
Import App Nav NavFacts HandlerFacts SessionFacts TicksFacts PlainTextFacts Examples.

(** X1. [change_scene] with a direction other than zero always finishes
    (the fuel only has to exceed the number of scenes). It returns with
    the scenes, the variables and the active paths as they were and with
    an index that is the old one or the index of an accessible scene; or,
    when it found no accessible scene and the old index is one that
    Python rejects, it raises [IndexError] and leaves the state as it
    was. *)
Theorem change_scene_with_a_step_finishes (st : StoryState) (d : Z) (fuel : nat) :
  d ≠ 0 → (length (scenes st) < fuel)%nat →
  (∃ n out, change_scene fuel st d = Returned (with_index st n) out
            ∧ (n = index st ∨ accessible_at st n))
  ∨ (change_scene fuel st d = Raised Py.IndexError st
     ∧ ¬ (- total st ≤ index st < total st)).
Proof.
  intros Hd Hfuel. destruct (decide (scenes st = [])) as [Hnil|Hne].
  - left. exists (index st). eexists. split; [|by left].
    rewrite with_index_same. unfold change_scene. by rewrite Hnil.
  - destruct (change_scene_cases st d fuel Hne)
      as [Hc|[Hc|(n & scene & Hc & _ & Hn)]].
    + by destruct (change_scene_returns st d fuel).
    + by right.
    + left. eauto.
Qed.

Lemma change_scene_with_a_step_finishes_witness :
  (∃ n out, change_scene 4 at_question 1 = Returned (with_index at_question n) out
            ∧ (n = index at_question ∨ accessible_at at_question n))
  ∨ (change_scene 4 at_question 1 = Raised Py.IndexError at_question
     ∧ ¬ (- total at_question ≤ index at_question < total at_question)).
Proof.
  apply (change_scene_with_a_step_finishes at_question 1 4); [done|simpl; lia].
Defined.

(** X2. [change_scene] with direction zero, on a valid index: it shows the
    current scene again and leaves the state as it was if that scene is
    accessible; if it is not, the loop never advances and the call does
    not finish, whatever the fuel, and so does [handle_choice] when no
    choice is selected. *)
Theorem change_scene_without_a_step (st : StoryState) (scene : SceneState.t) (fuel : nat) :
  valid st → scenes st !! Z.to_nat (index st) = Some scene →
  (accessible scene (active_paths st) → (0 < fuel)%nat →
   change_scene fuel st 0 = Returned st (rendering st scene))
  ∧ (¬ accessible scene (active_paths st) →
     change_scene fuel st 0 = OutOfFuel
     ∧ ∀ choice_index, selected scene choice_index = None →
         handle_choice fuel st choice_index = OutOfFuel).
Proof.
  intros Hv Hscene.
  assert (∀ choice_index, selected scene choice_index = None →
            handle_choice fuel st choice_index = change_scene fuel st 0) as Hfall.
  { intros ci Hsel. unfold handle_choice. rewrite PyFacts.index_in_range by done.
    by rewrite Hscene, (selected_None _ _ Hsel). }
  assert (selected scene (-1) = None) as Hnone.
  { unfold selected. by destruct (SceneState.choices scene). }
  split.
  - intros Hacc Hfuel. rewrite <- (Hfall (-1) Hnone).
    by apply handle_choice_fallback.
  - intros Hacc.
    assert (change_scene fuel st 0 = OutOfFuel) as Hstuck.
    { rewrite change_scene_nonempty by by apply valid_nonempty.
      rewrite Z.add_0_r.
      rewrite (scan_zero_step_stuck fuel _ _ _ _ _ scene); [done|done| |].
      - by rewrite PyFacts.index_in_range.
      - by apply not_accessible_spec. }
    split; [done|]. intros ci Hsel. by rewrite Hfall.
Qed.

Lemma change_scene_without_a_step_witness :
  let hidden := scene "Hidden" None None (Some "secret"%string) in
  (accessible hidden (active_paths gated_start) → (0 < 5)%nat →
   change_scene 5 gated_start 0 = Returned gated_start (rendering gated_start hidden))
  ∧ (¬ accessible hidden (active_paths gated_start) →
     change_scene 5 gated_start 0 = OutOfFuel
     ∧ ∀ choice_index, selected hidden choice_index = None →
         handle_choice 5 gated_start choice_index = OutOfFuel).
Proof.
  apply (change_scene_without_a_step gated_start _ 5).
  - unfold valid, total. simpl. lia.
  - reflexivity.
Defined.

(** X3. A session is what [load_initial_state] returns followed by any
    events of the user interface, each handled from the state that the
    event before it left; the events include the choice widget reporting
    that it was cleared, which calls [handle_choice] with [None]. On a
    graph with scenes whose choices all point into the graph, no handler
    of a session raises [IndexError], and a session that ends has the
    graph it started with and a valid index. The one exception that a
    session can raise is the [TypeError] of [handle_choice] called with
    [None] on a scene that has choices. The one call that can fail to
    finish is the fallback of [handle_choice] (called with [None], or
    with a number that selects no choice) on a scene that is not
    accessible; the fuel only has to exceed the number of scenes. *)
Theorem session_stops_only_in_the_choice_handler (graph : list SceneState.t)
    (events : list event) (fuel : nat) :
  graph ≠ [] → targets_valid graph → (length graph < fuel)%nat →
  match session fuel (load_initial_state graph) events with
  | Returned st _ => scenes st = graph ∧ valid st
  | Raised e st =>
      e = Py.TypeError
      ∧ ∃ before after out scene,
          events = before ++ Deselect :: after
          ∧ session fuel (load_initial_state graph) before = Returned st out
          ∧ graph !! Z.to_nat (index st) = Some scene
          ∧ bool_choices (SceneState.choices scene) = true
  | OutOfFuel =>
      ∃ before ev after st out scene,
        events = before ++ ev :: after
        ∧ session fuel (load_initial_state graph) before = Returned st out
        ∧ graph !! Z.to_nat (index st) = Some scene
        ∧ ¬ accessible scene (active_paths st)
        ∧ (ev = Deselect
           ∨ ∃ choice_index, ev = Select choice_index
                             ∧ selected scene choice_index = None)
  end.
Proof.
  intros Hne Ht Hfuel. exact (session_on_valid_graph graph fuel events Hne Ht Hfuel).
Qed.

Lemma session_stops_only_in_the_choice_handler_witness :
  match session 4 (load_initial_state branching) visit with
  | Returned st _ => scenes st = branching ∧ valid st
  | Raised e st =>
      e = Py.TypeError
      ∧ ∃ before after out scene,
          visit = before ++ Deselect :: after
          ∧ session 4 (load_initial_state branching) before = Returned st out
          ∧ branching !! Z.to_nat (index st) = Some scene
          ∧ bool_choices (SceneState.choices scene) = true
  | OutOfFuel =>
      ∃ before ev after st out scene,
        visit = before ++ ev :: after
        ∧ session 4 (load_initial_state branching) before = Returned st out
        ∧ branching !! Z.to_nat (index st) = Some scene
        ∧ ¬ accessible scene (active_paths st)
        ∧ (ev = Deselect
           ∨ ∃ choice_index, ev = Select choice_index
                             ∧ selected scene choice_index = None)
  end.
Proof.
  apply (session_stops_only_in_the_choice_handler branching visit 4).
  - discriminate.
  - unfold targets_valid. simpl. repeat constructor; simpl; lia.
  - simpl. lia.
Defined.

(** The exception is met: an answer that leads to another question, and
    then the widget of the choices reporting that it was cleared. *)
Lemma cleared_choice_raises :
  targets_valid chained
  ∧ ∃ st, session 3 (load_initial_state chained) [Select 0; Deselect]
          = Raised Py.TypeError st
          ∧ index st = 1.
Proof.
  split.
  - unfold targets_valid. simpl. repeat constructor; simpl; lia.
  - eexists. split; reflexivity.
Qed.

(** X4. [goal_position_ticks] is the computation of the ticks in
    [dxl_build_goal_position_packet]. For an [int] number of degrees it
    never raises and the rounding of the floats loses nothing: the ticks
    are the degrees clamped to 0..360, times 4095, divided by 360 and
    rounded down, hence between 0 and 4095 and monotone in the degrees.
    For a [float] that is not below 360.0, a NaN included, the ticks are
    4095; for one below 360.0 that is not above 0.0 they are 0. *)
Theorem goal_position_ticks_are_clamped :
  (∀ degrees : Z,
     goal_position_ticks (Py.Int degrees) = Py.Value (ticks_of degrees)
     ∧ 0 ≤ ticks_of degrees ≤ 4095
     ∧ ∀ degrees', degrees ≤ degrees' → ticks_of degrees ≤ ticks_of degrees')
  ∧ (∀ degrees : float,
       PrimFloat.ltb degrees 360 = false →
       goal_position_ticks (Py.Float degrees) = Py.Value 4095)
  ∧ (∀ degrees : float,
       PrimFloat.ltb degrees 360 = true → PrimFloat.ltb 0 degrees = false →
       goal_position_ticks (Py.Float degrees) = Py.Value 0).
Proof.
  split; [|split].
  - intros degrees. split; [apply ticks_of_int|]. split; [apply ticks_of_range|].
    intros degrees'. apply ticks_of_monotone.
  - apply ticks_of_large.
  - apply ticks_of_small.
Qed.

(** X5. The three functions that run after every handler
    ([get_scene_audio], [get_scene_robot_pose], [get_scene_motor_packets])
    never raise [IndexError]: with an index outside 0..len-1, and so on
    a graph without scenes, they return [None], [None] and the empty
    list. With a valid index they return the audio file of the current
    scene; [None] if the scene has no robot pose, and otherwise the dict
    whose head pose, body yaw and two antennas are those of the scene's
    robot pose; and one packet per motor command in order, built from
    the motor id and the ticks of the position. *)
Theorem scene_getters (goal_position_packet : Z → Z → Py.result (list Z))
    (st : StoryState) :
  (¬ (0 ≤ index st < total st) →
   get_scene_audio st = Py.Value None
   ∧ get_scene_robot_pose st = Py.Value None
   ∧ get_scene_motor_packets goal_position_packet st = Py.Value [])
  ∧ (∀ scene, 0 ≤ index st → scenes st !! Z.to_nat (index st) = Some scene →
     get_scene_audio st = Py.Value (SceneState.audio_file scene)
     ∧ match SceneState.robot_pose scene with
       | None => get_scene_robot_pose st = Py.Value None
       | Some pose =>
           ∃ target,
             get_scene_robot_pose st = Py.Value (Some target)
             ∧ HeadPose.x (RobotTarget.target_head_pose target) = RobotPose.head_x pose
             ∧ HeadPose.y (RobotTarget.target_head_pose target) = RobotPose.head_y pose
             ∧ HeadPose.z (RobotTarget.target_head_pose target) = RobotPose.head_z pose
             ∧ HeadPose.roll (RobotTarget.target_head_pose target)
               = RobotPose.head_roll pose
             ∧ HeadPose.pitch (RobotTarget.target_head_pose target)
               = RobotPose.head_pitch pose
             ∧ HeadPose.yaw (RobotTarget.target_head_pose target)
               = RobotPose.head_yaw pose
             ∧ RobotTarget.target_body_yaw target = RobotPose.body_yaw pose
             ∧ RobotTarget.target_antennas target
               = [RobotPose.antenna_left pose; RobotPose.antenna_right pose]
       end
     ∧ get_scene_motor_packets goal_position_packet st
       = mapM (λ cmd, goal_position_packet (MotorCommand.motor_id cmd)
                        (ticks_of (MotorCommand.position cmd)))
              (SceneState.motor_commands scene)).
Proof.
  split.
  - intros Hout.
    assert (index_in_range st = false) as Hr.
    { apply not_true_is_false. by rewrite index_in_range_spec. }
    unfold get_scene_audio, get_scene_robot_pose, get_scene_motor_packets.
    by rewrite Hr.
  - intros scene H0 Hscene. pose proof (lookup_lt_Some _ _ _ Hscene) as Hlt.
    assert (0 ≤ index st < total st) as Hin by (unfold total; lia).
    pose proof Hin as Hr. apply index_in_range_spec in Hr.
    unfold get_scene_audio, get_scene_robot_pose, get_scene_motor_packets.
    rewrite Hr, PyFacts.index_in_range by done. rewrite Hscene.
    split; [done|]. split.
    + destruct (SceneState.robot_pose scene) as [pose|]; [|done].
      eexists. by repeat split.
    + apply mapM_result_ext. intros cmd. unfold dxl_build_goal_position_packet.
      by rewrite ticks_of_int.
Qed.

(** X6. A choice whose target is a negative index that Python accepts
    (-len..-1) is followed: [handle_choice] returns, shows the scene
    counted from the end of the graph and activates its path, and the
    state keeps the negative index. The position shown is then not
    positive, and the functions that fetch the audio, the robot pose and
    the motor commands of the current scene return nothing, whatever that
    scene holds. *)
Theorem negative_target_wraps (st : StoryState) (choice_index : Z) (fuel : nat)
    (scene : SceneState.t) (chosen : Choice.t)
    (goal_position_packet : Z → Z → Py.result (list Z)) :
  valid st → scenes st !! Z.to_nat (index st) = Some scene →
  selected scene choice_index = Some chosen →
  - total st ≤ Choice.next_scene_index chosen < 0 →
  ∃ target,
    scenes st !! Z.to_nat (total st + Choice.next_scene_index chosen) = Some target
    ∧ let st' := with_active_paths
                   (with_index st (Choice.next_scene_index chosen))
                   (activated target (active_paths st)) in
      handle_choice fuel st choice_index = Returned st' (rendering st' target)
      ∧ meta_position <$> o_meta (rendering st' target)
        = Some (Choice.next_scene_index chosen + 1)
      ∧ get_scene_audio st' = Py.Value None
      ∧ get_scene_robot_pose st' = Py.Value None
      ∧ get_scene_motor_packets goal_position_packet st' = Py.Value [].
Proof.
  intros Hv Hscene Hsel Hneg.
  destruct (lookup_lt_is_Some_2 (scenes st)
              (Z.to_nat (total st + Choice.next_scene_index chosen)))
    as [target Htarget]; [unfold total in *; lia|].
  exists target. split; [done|]. cbv zeta.
  destruct (selected_Some _ _ _ Hsel) as [Hcond Hidx].
  assert (Py.index (scenes st) (Choice.next_scene_index chosen) = Some target) as Hpy.
  { rewrite PyFacts.index_negative by done. done. }
  split; [|split; [done|]].
  - unfold handle_choice. rewrite PyFacts.index_in_range by done.
    rewrite Hscene, Hcond, Hidx. cbn [index with_index scenes active_paths variables].
    rewrite Hpy.
    unfold activated, bool_path, rendering, total.
    destruct (SceneState.path target) as [p|].
    + destruct (String.eqb_spec p ""); destruct (decide (p = ""%string)); try done;
        cbn [index with_index with_active_paths scenes active_paths variables negb];
        by rewrite Hpy.
    + cbn [index with_index with_active_paths scenes active_paths variables].
      by rewrite Hpy.
  - unfold get_scene_audio, get_scene_robot_pose, get_scene_motor_packets,
      index_in_range.
    cbn [index with_index with_active_paths].
    destruct (Z.leb_spec 0 (Choice.next_scene_index chosen)); [lia|done].
Qed.

Lemma negative_target_wraps_witness :
  ∃ target,
    scenes wrapping !! Z.to_nat (total wrapping + -1) = Some target
    ∧ let st' := with_active_paths (with_index wrapping (-1))
                   (activated target (active_paths wrapping)) in
      handle_choice 1 wrapping 0 = Returned st' (rendering st' target)
      ∧ meta_position <$> o_meta (rendering st' target) = Some (-1 + 1)
      ∧ get_scene_audio st' = Py.Value None
      ∧ get_scene_robot_pose st' = Py.Value None
      ∧ get_scene_motor_packets (λ _ _, Py.Value []) st' = Py.Value [].
Proof.
  apply (negative_target_wraps wrapping 0 1
           (scene "Back?" (Some [Choice.make "Back" (-1)]) None None)
           (Choice.make "Back" (-1)) (λ _ _, Py.Value [])).
  - unfold valid, total. simpl. lia.
  - reflexivity.
  - reflexivity.
  - unfold total. simpl. lia.
Defined.

(** X7. Every choice that a rendering offers can be taken: on a valid
    index, in a graph whose choices point into the graph, each pair of a
    text and a number in the list of choices handed to the user interface
    is the text of a choice of the current scene, and [handle_choice] with
    that number returns and moves to the target of that choice. *)
Theorem offered_choice_is_taken (st : StoryState) (scene : SceneState.t)
    (text : string) (number : Z) (fuel : nat) :
  valid st → targets_valid (scenes st) →
  scenes st !! Z.to_nat (index st) = Some scene →
  (text, number) ∈ o_choices (rendering st scene) →
  ∃ chosen target st' out,
    selected scene number = Some chosen
    ∧ Choice.text chosen = text
    ∧ scenes st !! Z.to_nat (Choice.next_scene_index chosen) = Some target
    ∧ handle_choice fuel st number = Returned st' out
    ∧ index st' = Choice.next_scene_index chosen.
Proof.
  intros Hv Ht Hscene Hin.
  assert (∃ chosen, selected scene number = Some chosen ∧ Choice.text chosen = text)
    as (chosen & Hsel & Htext).
  { unfold rendering, outputs_of, render_scene in Hin. cbn [o_choices r_choices] in Hin.
    unfold enumerate_choices, selected in *.
    destruct (SceneState.choices scene) as [cs|]; [|by apply elem_of_nil in Hin].
    apply elem_of_lookup_imap in Hin as (k & c & [= -> ->] & Hc).
    exists c. split; [|done].
    destruct (Z.leb_spec 0 (Z.of_nat k)); [|lia]. by rewrite Nat2Z.id. }
  destruct (handle_choice_selected st number fuel scene chosen Hv Ht Hscene Hsel)
    as (target & Htarget & Hcall).
  exists chosen, target. eexists. eexists.
  do 3 (split; [done|]). split; [exact Hcall|done].
Qed.

Lemma offered_choice_is_taken_witness :
  ∃ chosen target st' out,
    selected (scene "Will you help?"
                (Some [Choice.make "Yes" 1; Choice.make "No" 2]) None None) 1
      = Some chosen
    ∧ Choice.text chosen = "No"%string
    ∧ scenes at_question !! Z.to_nat (Choice.next_scene_index chosen) = Some target
    ∧ handle_choice 1 at_question 1 = Returned st' out
    ∧ index st' = Choice.next_scene_index chosen.
Proof.
  apply (offered_choice_is_taken at_question _ "No" 1 1).
  - unfold valid, total. simpl. lia.
  - unfold targets_valid. simpl. repeat constructor; simpl; lia.
  - reflexivity.
  - compute_done.
Defined.

(** X8. A text that holds no opening brace once stripped of the white
    space around it is shown as it is, whatever the variables: the bubble
    holds the stripped text, with the speaker if the scene has one, and
    there is no bubble when the stripped text is empty. *)
Theorem text_without_placeholder (scene : SceneState.t)
    (variables : Py.dict string) (index total : Z) :
  ¬ has_char "{" (Py.strip (SceneState.text scene)) →
  text_content scene variables = Py.strip (SceneState.text scene)
  ∧ bubble (r_stage_html (render_scene scene index total variables))
    = if String.eqb (Py.strip (SceneState.text scene)) "" then None
      else Some {| speaker_html :=
                     if String.eqb (SceneState.speaker scene) "" then None
                     else Some (SceneState.speaker scene);
                   bubble_text := Py.strip (SceneState.text scene) |}.
Proof.
  intros Hs.
  assert (text_content scene variables = Py.strip (SceneState.text scene)) as Heq.
  { unfold text_content. by apply substitute_no_brace. }
  split; [done|]. unfold render_scene. cbn [r_stage_html bubble]. by rewrite Heq.
Qed.

Lemma text_without_placeholder_witness :
  text_content padded_line nested_variables = Py.strip (SceneState.text padded_line)
  ∧ bubble (r_stage_html (render_scene padded_line 0 1 nested_variables))
    = if String.eqb (Py.strip (SceneState.text padded_line)) "" then None
      else Some {| speaker_html :=
                     if String.eqb (SceneState.speaker padded_line) "" then None
                     else Some (SceneState.speaker padded_line);
                   bubble_text := Py.strip (SceneState.text padded_line) |}.
Proof.
  apply (text_without_placeholder padded_line nested_variables 0 1).
  unfold has_char. compute_done.
Defined.

End NavExtras.

(* ===================================================================== *)
(** * Further properties of the asset helpers *)
(* ===================================================================== *)

Module AssetExtras.
Import Nav TextFacts Assets AssetFacts.

(** X9. The three asset helpers map different file names to different
    addresses, and no address of one kind of asset (background, sprite,
    audio) is an address of another kind. *)
Theorem asset_addresses_are_distinct :
  (∀ f g, background_asset f = background_asset g → f = g)
  ∧ (∀ f g, sprite_asset f = sprite_asset g → f = g)
  ∧ (∀ f g, audio_asset f = audio_asset g → f = g)
  ∧ (∀ f g, background_asset f ≠ sprite_asset g)
  ∧ (∀ f g, background_asset f ≠ audio_asset g)
  ∧ (∀ f g, sprite_asset f ≠ audio_asset g).
Proof.
  unfold background_asset, sprite_asset, audio_asset.
  repeat split; intros f g H; apply append_inj_l in H;
    try (by apply append_inj_l in H);
    cbv [String.append] in H; discriminate H.
Qed.

(** X10. Whatever the two colours are, the address that
    [create_sprite_data_url] returns starts with the header of an SVG
    data URL, and what follows the header holds no double quote, no [#],
    no [<] and no [>]: each of them left the text in its call of
    [replace], and no later call brought it back. *)
Theorem data_url_is_escaped (bg_color border_color : string) :
  ∃ body,
    create_sprite_data_url bg_color border_color
      = ("data:image/svg+xml," +:+ body)%string
    ∧ Forall (λ c, ¬ has_char c body)
             [Ascii.ascii_of_nat 34; "#"%char; "<"%char; ">"%char].
Proof.
  exists (encoded (svg bg_color border_color)). split; [done|].
  unfold encoded. set (s0 := svg bg_color border_color).
  set (s1 := Py.replace s0 dq "%22").
  set (s2 := Py.replace s1 "#" "%23").
  set (s3 := Py.replace s2 "<" "%3C").
  assert (∀ c : ascii, c ∈ [Ascii.ascii_of_nat 34; "#"; "<"; ">"]%char →
            ∀ code, code ∈ ["%22"; "%23"; "%3C"; "%3E"]%string →
            ¬ has_char c code) as Hcode.
  { intros c Hc code Hcode. unfold has_char.
    repeat (apply elem_of_cons in Hc as [->|Hc]);
      [..|by apply elem_of_nil in Hc];
      repeat (apply elem_of_cons in Hcode as [->|Hcode]);
      try (by apply elem_of_nil in Hcode); compute_done. }
  assert (∀ i c code, [Ascii.ascii_of_nat 34; "#"; "<"; ">"]%char !! i = Some c →
            code ∈ ["%22"; "%23"; "%3C"; "%3E"]%string → ¬ has_char c code) as Hat.
  { intros i c code Hi. apply Hcode. by eapply list_elem_of_lookup_2. }
  assert (¬ has_char (Ascii.ascii_of_nat 34) s1) as Q1.
  { apply (replace_char_absent _ s0). apply (Hat 0%nat); [done|set_solver]. }
  assert (¬ has_char "#" s2) as H2.
  { apply (replace_char_absent _ s1). apply (Hat 1%nat); [done|set_solver]. }
  assert (¬ has_char (Ascii.ascii_of_nat 34) s2) as Q2.
  { apply replace_keeps_absent; [done|]. apply (Hat 0%nat); [done|set_solver]. }
  assert (¬ has_char "<" s3) as L3.
  { apply (replace_char_absent _ s2). apply (Hat 2%nat); [done|set_solver]. }
  assert (¬ has_char (Ascii.ascii_of_nat 34) s3) as Q3.
  { apply replace_keeps_absent; [done|]. apply (Hat 0%nat); [done|set_solver]. }
  assert (¬ has_char "#" s3) as H3.
  { apply replace_keeps_absent; [done|]. apply (Hat 1%nat); [done|set_solver]. }
  repeat constructor.
  - apply replace_keeps_absent; [done|]. apply (Hat 0%nat); [done|set_solver].
  - apply replace_keeps_absent; [done|]. apply (Hat 1%nat); [done|set_solver].
  - apply replace_keeps_absent; [done|]. apply (Hat 2%nat); [done|set_solver].
  - apply (replace_char_absent _ s3). apply (Hat 3%nat); [done|set_solver].
Qed.

End AssetExtras.

(* ===================================================================== *)
(** * Further properties of the builder *)
(* ===================================================================== *)

Module BuilderExtras.
Import Heap Sharing Values HeapFacts CommandFacts ValueFacts ToldFacts
  VisualNovelBuilder BuilderExamples.
Local Open Scope nat_scope.

(** X11. After any sequence of calls on a new builder, the list that
    [build] returns has one scene for every call of a method that goes
    through [_push_state], in any order with the other methods:
    [set_characters], the setters of the builder's attributes and
    [add_choice] add no scene and remove none. *)
Theorem one_scene_per_emitting_call (cs : list command) :
  ∃ self h graph,
    run cs = Some (self, h)
    ∧ build self h = Some (_states self, h)
    ∧ read_graph h (_states self) = Some graph
    ∧ length graph = length (List.filter emits cs).
Proof.
  destruct (run_told cs) as (self & h & Hrun & _ & _ & Hg).
  exists self, h, (told cs).2. do 3 (split; [done|]). apply told_length.
Qed.

(** X12. A method that emits a scene, called after any sequence of calls:
    it returns, the scenes that the graph had are as they were, and one
    scene is added. That scene is the clone of the running state (no
    speaker, no text, no choices, no input request, no motor commands,
    no audio file, no robot pose) with the assignment of the method; its
    background, label and characters become the running state, whose
    other attributes stay. *)
Theorem emitting_call_appends_its_scene (cs : list command) (c : command) :
  emits c = true →
  ∃ self h T graph self' h',
    run cs = Some (self, h)
    ∧ read_template h self = Some T
    ∧ read_graph h (_states self) = Some graph
    ∧ run (cs ++ [c]) = Some (self', h')
    ∧ read_graph h' (_states self') = Some (graph ++ [effect c (snapshot T)])
    ∧ read_template h' self' = Some (pushed T (effect c (snapshot T))).
Proof.
  intros Hemit.
  destruct (run_then cs c)
    as (self & h & self' & h' & Hrun & HT & Hg & Hrun' & HT' & Hg').
  exists self, h, (told cs).1, (told cs).2, self', h'. do 4 (split; [done|]).
  by rewrite Hg', HT', graph_then_emits, template_after_emits.
Qed.

Lemma emitting_call_appends_its_scene_witness :
  ∃ self h T graph self' h',
    run two_characters = Some (self, h)
    ∧ read_template h self = Some T
    ∧ read_graph h (_states self) = Some graph
    ∧ run (two_characters ++ [HideCharacter "Ari"]) = Some (self', h')
    ∧ read_graph h' (_states self')
      = Some (graph ++ [effect (HideCharacter "Ari") (snapshot T)])
    ∧ read_template h' self'
      = Some (pushed T (effect (HideCharacter "Ari") (snapshot T))).
Proof.
  apply (emitting_call_appends_its_scene two_characters (HideCharacter "Ari")).
  reflexivity.
Defined.

(** X13. Two methods that emit a scene, one right after the other: the
    second scene is the first one without what was set for the first
    alone (speaker, text, choices, input request, motor commands, audio
    file, robot pose), with the assignment of the second method. So the
    background, the label, the characters with their positions and
    looks, the panels, the blurs, the stage and the path continue from
    scene to scene. *)
Theorem next_scene_continues_the_last (cs : list command) (c1 c2 : command) :
  emits c1 = true → emits c2 = true →
  ∃ self1 h1 graph v1 self2 h2,
    run (cs ++ [c1]) = Some (self1, h1)
    ∧ read_graph h1 (_states self1) = Some (graph ++ [v1])
    ∧ run (cs ++ [c1; c2]) = Some (self2, h2)
    ∧ read_graph h2 (_states self2) = Some (graph ++ [v1; effect c2 (cleared v1)]).
Proof.
  intros H1 H2.
  destruct (run_then (cs ++ [c1]) c2)
    as (self1 & h1 & self2 & h2 & Hrun1 & _ & Hg1 & Hrun2 & _ & Hg2).
  rewrite told_snoc in Hg1, Hg2. cbn [fst snd] in Hg1, Hg2.
  rewrite (graph_then_emits c1) in Hg1, Hg2 by done.
  rewrite (graph_then_emits c2), (template_after_emits c1), snapshot_pushed in Hg2
    by done.
  rewrite <- !app_assoc in Hrun2, Hg2.
  by exists self1, h1, (told cs).2, (effect c1 (snapshot (told cs).1)), self2, h2.
Qed.

Lemma next_scene_continues_the_last_witness :
  ∃ self1 h1 graph v1 self2 h2,
    run (two_characters ++ [ShowCharacter "Bo" "right"]) = Some (self1, h1)
    ∧ read_graph h1 (_states self1) = Some (graph ++ [v1])
    ∧ run (two_characters ++ [ShowCharacter "Bo" "right"; Dialogue "Bo" "Hi"])
      = Some (self2, h2)
    ∧ read_graph h2 (_states self2)
      = Some (graph ++ [v1; effect (Dialogue "Bo" "Hi") (cleared v1)]).
Proof.
  apply (next_scene_continues_the_last two_characters
           (ShowCharacter "Bo" "right") (Dialogue "Bo" "Hi")); reflexivity.
Defined.

(** X14. A method that names a character ([show_character],
    [hide_character], [move_character], [change_character_sprite],
    [set_character_animation], [set_character_scale]) with a name that no
    call of [set_characters] has registered: it raises nothing, it still
    emits a scene, and that scene is the plain clone of the running
    state; the running state is unchanged. *)
Theorem call_on_unknown_character (cs : list command) (c : command) (name : string) :
  addressed c = Some name → name ∉ defined_names cs →
  ∃ self h T graph self' h',
    run cs = Some (self, h)
    ∧ read_template h self = Some T
    ∧ read_graph h (_states self) = Some graph
    ∧ run (cs ++ [c]) = Some (self', h')
    ∧ read_graph h' (_states self') = Some (graph ++ [snapshot T])
    ∧ read_template h' self' = Some T.
Proof.
  intros Hc Hname.
  destruct (run_then cs c)
    as (self & h & self' & h' & Hrun & HT & Hg & Hrun' & HT' & Hg').
  exists self, h, (told cs).1, (told cs).2, self', h'. do 4 (split; [done|]).
  pose proof (addressed_emits c name Hc) as Hemit.
  rewrite Hg', HT', graph_then_emits, template_after_emits by done.
  rewrite (effect_absent c name); [by rewrite pushed_snapshot|done|].
  apply get_None_keys. cbn [snapshot SceneState.characters]. by rewrite told_keys.
Qed.

Lemma call_on_unknown_character_witness :
  ∃ self h T graph self' h',
    run two_characters = Some (self, h)
    ∧ read_template h self = Some T
    ∧ read_graph h (_states self) = Some graph
    ∧ run (two_characters ++ [ShowCharacter "Cy" "left"]) = Some (self', h')
    ∧ read_graph h' (_states self') = Some (graph ++ [snapshot T])
    ∧ read_template h' self' = Some T.
Proof.
  apply (call_on_unknown_character two_characters (ShowCharacter "Cy" "left") "Cy").
  - reflexivity.
  - apply (bool_decide_unpack _). vm_compute. exact I.
Defined.

(** X15. A method that names a registered character: a registered
    character is never lost, so the running state has a sprite for it.
    The scene emitted is the clone of the running state in which that
    sprite has the assignment of the method; the sprites of the other
    characters and the order of the characters are as they were, nothing
    else of the scene differs from the clone, and the characters of the
    scene become the characters of the running state. *)
Theorem call_on_known_character (cs : list command) (c : command) (name : string) :
  addressed c = Some name → name ∈ defined_names cs →
  ∃ self h T graph sprite self' h' v T',
    run cs = Some (self, h)
    ∧ read_template h self = Some T
    ∧ read_graph h (_states self) = Some graph
    ∧ Py.get (current_sprites T) name = Some sprite
    ∧ run (cs ++ [c]) = Some (self', h')
    ∧ read_graph h' (_states self') = Some (graph ++ [v])
    ∧ read_template h' self' = Some T'
    ∧ v = with_characters (SceneState.characters v) (snapshot T)
    ∧ current_sprites T' = SceneState.characters v
    ∧ Py.keys (SceneState.characters v) = Py.keys (current_sprites T)
    ∧ Py.get (SceneState.characters v) name = Some (sprite_update c sprite)
    ∧ ∀ other, other ≠ name →
        Py.get (SceneState.characters v) other = Py.get (current_sprites T) other.
Proof.
  intros Hc Hname.
  destruct (run_then cs c)
    as (self & h & self' & h' & Hrun & HT & Hg & Hrun' & HT' & Hg').
  pose proof (addressed_emits c name Hc) as Hemit.
  rewrite graph_then_emits in Hg' by done. rewrite template_after_emits in HT' by done.
  apply told_keys, get_is_Some_keys in Hname as [sprite Hsprite].
  exists self, h, (told cs).1, (told cs).2, sprite, self', h',
    (effect c (snapshot (told cs).1)), (pushed (told cs).1 (effect c (snapshot (told cs).1))).
  do 7 (split; [done|]).
  split; [by apply (effect_addressed c name)|]. split; [done|].
  split; [apply effect_keys|].
  split.
  - rewrite (effect_get c name) by done. rewrite decide_True by done.
    cbn [snapshot SceneState.characters]. by rewrite Hsprite.
  - intros other Hne. rewrite (effect_get c name) by done.
    by rewrite decide_False by done.
Qed.

Lemma call_on_known_character_witness :
  ∃ self h T graph sprite self' h' v T',
    run two_characters = Some (self, h)
    ∧ read_template h self = Some T
    ∧ read_graph h (_states self) = Some graph
    ∧ Py.get (current_sprites T) "Bo" = Some sprite
    ∧ run (two_characters ++ [MoveCharacter "Bo" "right"]) = Some (self', h')
    ∧ read_graph h' (_states self') = Some (graph ++ [v])
    ∧ read_template h' self' = Some T'
    ∧ v = with_characters (SceneState.characters v) (snapshot T)
    ∧ current_sprites T' = SceneState.characters v
    ∧ Py.keys (SceneState.characters v) = Py.keys (current_sprites T)
    ∧ Py.get (SceneState.characters v) "Bo"
      = Some (sprite_update (MoveCharacter "Bo" "right") sprite)
    ∧ ∀ other, other ≠ "Bo"%string →
        Py.get (SceneState.characters v) other = Py.get (current_sprites T) other.
Proof.
  apply (call_on_known_character two_characters (MoveCharacter "Bo" "right") "Bo").
  - reflexivity.
  - apply (bool_decide_unpack _). vm_compute. exact I.
Defined.

(** X16. [set_characters] after any sequence of calls emits no scene and
    leaves the scenes of the graph as they are. In the running state
    every name of the list gets a new sprite made of the last definition
    of that name in the list: at the centre, not visible, with the
    animation "idle" if the definition is animated and none otherwise, so
    a character registered again loses its position and visibility; the
    sprites of the other names and the other attributes of the running state
    stay. *)
Theorem set_characters_registers (cs : list command)
    (characters : list CharacterDefinition.t) :
  ∃ self h T graph self' h' T',
    run cs = Some (self, h)
    ∧ read_template h self = Some T
    ∧ read_graph h (_states self) = Some graph
    ∧ run (cs ++ [SetCharacters characters]) = Some (self', h')
    ∧ read_graph h' (_states self') = Some graph
    ∧ read_template h' self' = Some T'
    ∧ T' = template_with T (current_background T) (current_label T) (current_sprites T')
    ∧ ∀ name,
        Py.get (current_sprites T') name
        = match last (filter (λ char, CharacterDefinition.name char = name)
                             characters) with
          | Some char => Some (new_sprite char)
          | None => Py.get (current_sprites T) name
          end.
Proof.
  destruct (run_then cs (SetCharacters characters))
    as (self & h & self' & h' & Hrun & HT & Hg & Hrun' & HT' & Hg').
  exists self, h, (told cs).1, (told cs).2, self', h',
    (template_after (SetCharacters characters) (told cs).1).
  do 6 (split; [done|]). split; [done|].
  intros name. apply get_registered.
Qed.

(** X17. The builder and the navigator together: if every call of
    [add_choice] names the index of a scene that the sequence of calls
    emits, and at least one scene is emitted, then the graph that [build]
    returns has only choices that point into it, and a session of the
    user interface on that graph ends well: no handler raises
    [IndexError], and a session that ends has that graph and a valid
    index. What such a story does not exclude is the [TypeError] of
    [handle_choice] called with [None] on a scene with choices, and the
    fallback of [handle_choice] that does not finish on a scene that is
    not accessible. *)
Theorem story_with_targets_in_range_ends_well (cs : list command)
    (events : list App.event) (fuel : nat) :
  targets_in_range cs → List.filter emits cs ≠ [] →
  length (List.filter emits cs) < fuel →
  ∃ self h graph,
    run cs = Some (self, h)
    ∧ build self h = Some (_states self, h)
    ∧ read_graph h (_states self) = Some graph
    ∧ Nav.targets_valid graph
    ∧ Nav.session_ends_well graph fuel events.
Proof.
  intros Hrange Hne Hfuel.
  destruct (run_told cs) as (self & h & Hrun & _ & _ & Hg).
  exists self, h, (told cs).2. do 3 (split; [done|]).
  pose proof (told_targets_valid cs Hrange) as Hvalid. split; [done|].
  pose proof (told_length cs) as Hlen.
  apply SessionFacts.session_on_valid_graph; [|done|by rewrite Hlen].
  intros Hnil. rewrite Hnil in Hlen. by destruct (List.filter emits cs).
Qed.

Lemma story_with_targets_in_range_ends_well_witness :
  ∃ self h graph,
    run branching_story = Some (self, h)
    ∧ build self h = Some (_states self, h)
    ∧ read_graph h (_states self) = Some graph
    ∧ Nav.targets_valid graph
    ∧ Nav.session_ends_well graph 4 Examples.visit.
Proof.
  apply (story_with_targets_in_range_ends_well branching_story Examples.visit 4).
  - unfold targets_in_range. simpl. repeat constructor; lia.
  - discriminate.
  - simpl. lia.
Defined.

(** X18. Choices added right after a method that emits a scene: the
    scene emitted gets exactly these choices, in the order of the calls
    and with the texts and targets given; the scenes before it, the rest
    of that scene and the running state are as they were. *)
Theorem choices_attach_in_order (cs : list command) (c : command)
    (choices : list (string * Z)) :
  emits c = true → choices ≠ [] →
  ∃ self h T graph v self' h',
    run (cs ++ [c]) = Some (self, h)
    ∧ read_template h self = Some T
    ∧ read_graph h (_states self) = Some (graph ++ [v])
    ∧ run (cs ++ c :: add_choices choices) = Some (self', h')
    ∧ read_template h' self' = Some T
    ∧ read_graph h' (_states self')
      = Some (graph ++ [with_choices v ((λ ch, Choice.make ch.1 ch.2) <$> choices)]).
Proof.
  intros Hemit Hne. destruct choices as [|choice choices]; [done|]. clear Hne.
  destruct (run_told (cs ++ [c])) as (self & h & Hrun & _ & HT & Hg).
  destruct (run_told ((cs ++ [c]) ++ add_choices (choice :: choices)))
    as (self' & h' & Hrun' & _ & HT' & Hg').
  assert ((told (cs ++ [c])).2 = (told cs).2 ++ [effect c (snapshot (told cs).1)]) as Hlast.
  { rewrite told_snoc. cbn [snd]. by apply graph_then_emits. }
  rewrite (told_add_choices (cs ++ [c]) _ _ choice choices Hlast) in HT', Hg'
    by by rewrite effect_choices.
  rewrite Hlast in Hg. rewrite <- app_assoc in Hrun'.
  by exists self, h, (told (cs ++ [c])).1, (told cs).2,
    (effect c (snapshot (told cs).1)), self', h'.
Qed.

Lemma choices_attach_in_order_witness :
  ∃ self h T graph v self' h',
    run (one_line ++ [Narration "Which way?"]) = Some (self, h)
    ∧ read_template h self = Some T
    ∧ read_graph h (_states self) = Some (graph ++ [v])
    ∧ run (one_line ++ Narration "Which way?"
             :: add_choices [("Left", 0%Z); ("Right", 1%Z)]) = Some (self', h')
    ∧ read_template h' self' = Some T
    ∧ read_graph h' (_states self')
      = Some (graph ++ [with_choices v ((λ ch, Choice.make ch.1 ch.2)
                                          <$> [("Left", 0%Z); ("Right", 1%Z)])]).
Proof.
  apply (choices_attach_in_order one_line (Narration "Which way?")
           [("Left", 0%Z); ("Right", 1%Z)]%string); [reflexivity|discriminate].
Defined.

(** X19. The setters of the builder's attributes ([set_camera],
    [set_voice], [set_motors], [set_robot], [set_background_blur],
    [set_stage], [set_stage_blur], [set_path]) create no object and
    assign to none: the heap, and with it every scene of the graph, is as
    it was. The value applies to the scenes emitted afterwards: the next
    scene is the clone of the running state with the new value. *)
Theorem setter_applies_to_later_scenes (cs : list command) (q c : command) :
  template_only q = true → emits c = true →
  ∃ self h T graph self1 self' h',
    run cs = Some (self, h)
    ∧ read_template h self = Some T
    ∧ read_graph h (_states self) = Some graph
    ∧ run (cs ++ [q]) = Some (self1, h)
    ∧ _states self1 = _states self
    ∧ read_template h self1 = Some (template_after q T)
    ∧ run (cs ++ [q; c]) = Some (self', h')
    ∧ read_graph h' (_states self')
      = Some (graph ++ [effect c (snapshot (template_after q T))]).
Proof.
  intros Hq Hemit.
  destruct (run_told cs) as (self & h & Hrun & Hc & HT & Hg).
  destruct (template_only_value h self q _ HT Hq) as (self1 & Hcall & Hst & Hsp & HT1).
  assert (consistent h self1) as Hc1 by by apply (consistent_same_refs h self).
  assert (run (cs ++ [q]) = Some (self1, h)) as Hrun1
    by by rewrite (BuilderClaims.run_snoc cs q self h Hrun).
  rewrite <- Hst in Hg.
  destruct (call_value h self1 c _ _ Hc1 HT1 Hg)
    as (self' & h' & Hcall' & _ & _ & _ & Hg').
  rewrite graph_then_emits in Hg' by done. rewrite Hst in Hg.
  exists self, h, (told cs).1, (told cs).2, self1, self', h'.
  do 6 (split; [done|]). split; [|done].
  change (cs ++ [q; c]) with (cs ++ [q] ++ [c]). rewrite app_assoc.
  by rewrite (BuilderClaims.run_snoc (cs ++ [q]) c self1 h Hrun1).
Qed.

Lemma setter_applies_to_later_scenes_witness :
  ∃ self h T graph self1 self' h',
    run one_line = Some (self, h)
    ∧ read_template h self = Some T
    ∧ read_graph h (_states self) = Some graph
    ∧ run (one_line ++ [SetPath (Some "accept")]) = Some (self1, h)
    ∧ _states self1 = _states self
    ∧ read_template h self1 = Some (template_after (SetPath (Some "accept")) T)
    ∧ run (one_line ++ [SetPath (Some "accept"); Narration "Thanks"])
      = Some (self', h')
    ∧ read_graph h' (_states self')
      = Some (graph ++ [effect (Narration "Thanks")
                          (snapshot (template_after (SetPath (Some "accept")) T))]).
Proof.
  apply (setter_applies_to_later_scenes one_line (SetPath (Some "accept"))
           (Narration "Thanks")); reflexivity.
Defined.


(** X20. The builder and the navigator together: in a story built
    without a call of [set_path] that gives a path, no scene has a path,
    so no scene is ever skipped. From every valid index "next" returns a
    state whose index is the one after the current index, or the last
    one at the end; "previous" returns a state whose index is the one
    before it, or the first one at the start; the scenes, the variables
    and the active paths of the state are as they were. *)
Theorem story_without_paths_is_linear (cs : list command) :
  story_paths cs = [] →
  ∃ self h graph,
    run cs = Some (self, h)
    ∧ read_graph h (_states self) = Some graph
    ∧ ∀ st fuel,
        App.scenes st = graph → Nav.valid st → length graph ≤ fuel →
        (∃ st' out,
           App.change_scene fuel st 1 = App.Returned st' out
           ∧ App.index st' = Z.min (App.index st + 1) (Nav.total st - 1)
           ∧ App.scenes st' = graph
           ∧ App.variables st' = App.variables st
           ∧ App.active_paths st' = App.active_paths st)
        ∧ (∃ st' out,
             App.change_scene fuel st (-1) = App.Returned st' out
             ∧ App.index st' = Z.max 0 (App.index st - 1)
             ∧ App.scenes st' = graph
             ∧ App.variables st' = App.variables st
             ∧ App.active_paths st' = App.active_paths st).
Proof.
  intros Hpaths.
  destruct (run_told cs) as (self & h & Hrun & _ & _ & Hg).
  exists self, h, (told cs).2. do 2 (split; [done|]).
  intros st fuel Hst Hv Hfuel.
  destruct (told_paths cs Hpaths) as [_ Hall]. rewrite <- Hst in Hall, Hfuel.
  pose proof Hv as Hv'. unfold Nav.valid in Hv'.
  split.
  - destruct (LinearFacts.change_scene_pathless st 1 fuel Hall Hv) as [out Hout];
      [by left|done|].
    eexists. exists out. split; [exact Hout|].
    cbn [App.index App.scenes App.variables App.active_paths App.with_index].
    split; [lia|done].
  - destruct (LinearFacts.change_scene_pathless st (-1) fuel Hall Hv) as [out Hout];
      [by right|done|].
    eexists. exists out. split; [exact Hout|].
    cbn [App.index App.scenes App.variables App.active_paths App.with_index].
    split; [lia|done].
Qed.

(** On the three scenes of the story of two characters, from the first
    scene: "next" shows the second one. *)
Lemma story_without_paths_is_linear_witness :
  ∃ self h graph,
    run two_characters = Some (self, h)
    ∧ read_graph h (_states self) = Some graph
    ∧ ∀ st fuel,
        App.scenes st = graph → Nav.valid st → length graph ≤ fuel →
        (∃ st' out,
           App.change_scene fuel st 1 = App.Returned st' out
           ∧ App.index st' = Z.min (App.index st + 1) (Nav.total st - 1)
           ∧ App.scenes st' = graph
           ∧ App.variables st' = App.variables st
           ∧ App.active_paths st' = App.active_paths st)
        ∧ (∃ st' out,
             App.change_scene fuel st (-1) = App.Returned st' out
             ∧ App.index st' = Z.max 0 (App.index st - 1)
             ∧ App.scenes st' = graph
             ∧ App.variables st' = App.variables st
             ∧ App.active_paths st' = App.active_paths st).
Proof.
  apply (story_without_paths_is_linear two_characters). reflexivity.
Defined.

(** X21. The builder and [render_scene] together: once [show_character]
    has shown a registered character, the scene it emits and every scene
    emitted after it has that character visible, and [render_scene] draws
    a layer for it, as long as the character is not hidden with
    [hide_character] and not registered again with [set_characters]. The
    scenes are the ones after those that the calls before
    [show_character] emitted. *)
Theorem shown_character_stays_on_stage (cs : list command) (name position : string)
    (ds : list command) :
  name ∈ defined_names cs →
  Forall (λ c, keeps_on_stage name c = true) ds →
  ∃ self h graph later,
    run (cs ++ ShowCharacter name position :: ds) = Some (self, h)
    ∧ read_graph h (_states self) = Some (graph ++ later)
    ∧ length graph = length (List.filter emits cs)
    ∧ length later = S (length (List.filter emits ds))
    ∧ Forall (λ v,
        ∃ sprite,
          Py.get (SceneState.characters v) name = Some sprite
          ∧ CharacterSprite.visible sprite = true
          ∧ ∀ index total variables,
              App.char_layer sprite
              ∈ App.char_layers
                  (App.r_stage_html (App.render_scene v index total variables)))
        later.
Proof.
  intros Hname Hkeep.
  destruct (run_told (cs ++ ShowCharacter name position :: ds))
    as (self & h & Hrun & _ & _ & Hg).
  destruct (told_on_stage cs name position ds Hname Hkeep)
    as (_ & graph & later & Heq & Hlen & Hlater & Hall).
  exists self, h, graph, later. split; [done|]. split; [by rewrite Hg, Heq|].
  split; [by rewrite Hlen, told_length|]. split; [done|].
  eapply Forall_impl; [exact Hall|]. intros v (sprite & Hget & Hvis).
  exists sprite. do 2 (split; [done|]). intros index total variables.
  cbn [App.render_scene App.r_stage_html App.char_layers].
  apply list_elem_of_fmap. exists sprite. split; [done|].
  apply list_elem_of_filter. split; [done|].
  by apply (StepFacts.get_elem_of _ name).
Qed.

Lemma shown_character_stays_on_stage_witness :
  ∃ self h graph later,
    run (two_characters ++ ShowCharacter "Bo" "right"
           :: [Narration "Bo smiles."; HideCharacter "Ari"]) = Some (self, h)
    ∧ read_graph h (_states self) = Some (graph ++ later)
    ∧ length graph = length (List.filter emits two_characters)
    ∧ length later
      = S (length (List.filter emits [Narration "Bo smiles."; HideCharacter "Ari"]))
    ∧ Forall (λ v,
        ∃ sprite,
          Py.get (SceneState.characters v) "Bo" = Some sprite
          ∧ CharacterSprite.visible sprite = true
          ∧ ∀ index total variables,
              App.char_layer sprite
              ∈ App.char_layers
                  (App.r_stage_html (App.render_scene v index total variables)))
        later.
Proof.
  apply (shown_character_stays_on_stage two_characters "Bo" "right"
           [Narration "Bo smiles."; HideCharacter "Ari"]).
  - apply (bool_decide_unpack _). vm_compute. exact I.
  - repeat constructor.
Defined.

End BuilderExtras.

(* ===================================================================== *)
(** * Further properties of sessions *)
(* ===================================================================== *)

Module SessionExtras.
Import App Nav ProvenanceFacts.


End SessionExtras.
